(** * hlslparser: the HLSL front end and the GLSL back end, embedded in Rocq

    A shallow embedding of [HLSLParser.cpp], [HLSLTree.h], [GLSLGenerator.cpp],
    [StringPool.cpp] and [Main.cpp].  Pointers that may be [NULL] are options,
    the [next...] chains of the tree are lists, the string pool is a finite set
    of strings, and the member functions of the parser and of the generator
    pass their object explicitly. *)

From Stdlib Require Import ZArith List Bool Lia Ascii DecimalString Sorted.
From stdpp Require Import base strings gmap list.

Local Open Scope Z_scope.

(** ** HLSLTree.h: the enumerations *)

Inductive HLSLBaseType : Set :=
  | HLSLBaseType_Unknown
  | HLSLBaseType_Void
  | HLSLBaseType_Float
  | HLSLBaseType_Float2
  | HLSLBaseType_Float3
  | HLSLBaseType_Float4
  | HLSLBaseType_Float3x3
  | HLSLBaseType_Float4x4
  | HLSLBaseType_Half
  | HLSLBaseType_Half2
  | HLSLBaseType_Half3
  | HLSLBaseType_Half4
  | HLSLBaseType_Half3x3
  | HLSLBaseType_Half4x4
  | HLSLBaseType_Bool
  | HLSLBaseType_Int
  | HLSLBaseType_Int2
  | HLSLBaseType_Int3
  | HLSLBaseType_Int4
  | HLSLBaseType_Uint
  | HLSLBaseType_Uint2
  | HLSLBaseType_Uint3
  | HLSLBaseType_Uint4
  | HLSLBaseType_Texture
  | HLSLBaseType_Sampler2D
  | HLSLBaseType_SamplerCube
  | HLSLBaseType_UserDefined.

(** The integer value of each enumerator. *)
Definition HLSLBaseType_value (t : HLSLBaseType) : Z :=
  match t with
  | HLSLBaseType_Unknown => 0
  | HLSLBaseType_Void => 1
  | HLSLBaseType_Float => 2
  | HLSLBaseType_Float2 => 3
  | HLSLBaseType_Float3 => 4
  | HLSLBaseType_Float4 => 5
  | HLSLBaseType_Float3x3 => 6
  | HLSLBaseType_Float4x4 => 7
  | HLSLBaseType_Half => 8
  | HLSLBaseType_Half2 => 9
  | HLSLBaseType_Half3 => 10
  | HLSLBaseType_Half4 => 11
  | HLSLBaseType_Half3x3 => 12
  | HLSLBaseType_Half4x4 => 13
  | HLSLBaseType_Bool => 14
  | HLSLBaseType_Int => 15
  | HLSLBaseType_Int2 => 16
  | HLSLBaseType_Int3 => 17
  | HLSLBaseType_Int4 => 18
  | HLSLBaseType_Uint => 19
  | HLSLBaseType_Uint2 => 20
  | HLSLBaseType_Uint3 => 21
  | HLSLBaseType_Uint4 => 22
  | HLSLBaseType_Texture => 23
  | HLSLBaseType_Sampler2D => 24
  | HLSLBaseType_SamplerCube => 25
  | HLSLBaseType_UserDefined => 26
  end.

Definition HLSLBaseType_FirstNumeric : Z := HLSLBaseType_value HLSLBaseType_Float.
Definition HLSLBaseType_LastNumeric : Z := HLSLBaseType_value HLSLBaseType_Uint4.

#[global] Instance HLSLBaseType_eq_dec : EqDecision HLSLBaseType.
Proof. solve_decision. Defined.

Inductive HLSLBinaryOp : Set :=
  | HLSLBinaryOp_And
  | HLSLBinaryOp_Or
  | HLSLBinaryOp_Add
  | HLSLBinaryOp_Sub
  | HLSLBinaryOp_Mul
  | HLSLBinaryOp_Div
  | HLSLBinaryOp_Less
  | HLSLBinaryOp_Greater
  | HLSLBinaryOp_LessEqual
  | HLSLBinaryOp_GreaterEqual
  | HLSLBinaryOp_Equal
  | HLSLBinaryOp_NotEqual
  | HLSLBinaryOp_Assign
  | HLSLBinaryOp_AddAssign
  | HLSLBinaryOp_SubAssign
  | HLSLBinaryOp_MulAssign
  | HLSLBinaryOp_DivAssign.

Inductive HLSLUnaryOp : Set :=
  | HLSLUnaryOp_Negative
  | HLSLUnaryOp_Positive
  | HLSLUnaryOp_Not
  | HLSLUnaryOp_PreIncrement
  | HLSLUnaryOp_PreDecrement
  | HLSLUnaryOp_PostIncrement
  | HLSLUnaryOp_PostDecrement.

#[global] Instance HLSLUnaryOp_eq_dec : EqDecision HLSLUnaryOp.
Proof. solve_decision. Defined.

Inductive HLSLArgumentModifier : Set :=
  | HLSLArgumentModifier_None
  | HLSLArgumentModifier_In
  | HLSLArgumentModifier_Inout
  | HLSLArgumentModifier_Uniform.

(** ** HLSLTree.h: types and nodes

    [HLSLType] holds a pointer to the expression that gives the size of an
    array, and every expression holds its [HLSLType]: the record is written
    over the type [E] of expressions and closed by [HLSLExpression] below. *)

Record HLSLType_ (E : Type) : Type := Build_HLSLType {
  baseType : HLSLBaseType;
  typeName : option string;       (* NULL unless user defined *)
  array : bool;
  arraySize : option E;
  constant : bool
}.
Arguments Build_HLSLType {E}.
Arguments baseType {E}.
Arguments typeName {E}.
Arguments array {E}.
Arguments arraySize {E}.
Arguments constant {E}.

(** The header of a node.  [nodeAddr] stands for the address the arena gave
    the node: two pointers to nodes are equal when the addresses are. *)
Record HLSLNode : Set := Build_HLSLNode {
  nodeAddr : N;
  fileName : option string;
  line : Z
}.

Record HLSLArgument_ (E : Type) : Type := Build_HLSLArgument {
  arg_node : HLSLNode;
  arg_name : option string;
  arg_modifier : HLSLArgumentModifier;
  arg_type : HLSLType_ E;
  arg_semantic : option string
}.
Arguments Build_HLSLArgument {E}.
Arguments arg_node {E}.
Arguments arg_name {E}.
Arguments arg_modifier {E}.
Arguments arg_type {E}.
Arguments arg_semantic {E}.

(** What a call sees of an [HLSLFunction]: everything but the body.  The
    chain [argument, argument->nextArgument, ...] is the list [fn_argument];
    [fn_numArguments] is the counter kept beside it. *)
Record HLSLFunctionDecl_ (E : Type) : Type := Build_HLSLFunctionDecl {
  fn_name : string;
  fn_returnType : HLSLType_ E;
  fn_semantic : option string;
  fn_numArguments : Z;
  fn_argument : list (HLSLArgument_ E)
}.
Arguments Build_HLSLFunctionDecl {E}.
Arguments fn_name {E}.
Arguments fn_returnType {E}.
Arguments fn_semantic {E}.
Arguments fn_numArguments {E}.
Arguments fn_argument {E}.

(** A float is never computed with: the tokenizer hands it over and the
    generator prints it.  It is kept as the text [String_FormatFloat] writes
    for it. *)
Definition float : Set := string.

(** The union of [HLSLLiteralExpression]. *)
Inductive HLSLLiteralValue : Set :=
  | bValue (b : bool)
  | fValue (f : float)
  | iValue (i : Z).

#[local] Set Warnings "-register-all".

Inductive HLSLExpression : Type :=
  | HLSLUnaryExpression (node : HLSLNode) (expressionType : HLSLType_ HLSLExpression)
      (unaryOp : HLSLUnaryOp) (expression : HLSLExpression)
  | HLSLBinaryExpression (node : HLSLNode) (expressionType : HLSLType_ HLSLExpression)
      (binaryOp : HLSLBinaryOp) (expression1 expression2 : HLSLExpression)
  | HLSLConditionalExpression (node : HLSLNode) (expressionType : HLSLType_ HLSLExpression)
      (condition trueExpression falseExpression : HLSLExpression)
  | HLSLCastingExpression (node : HLSLNode) (expressionType : HLSLType_ HLSLExpression)
      (type : HLSLType_ HLSLExpression) (expression : option HLSLExpression)
  | HLSLLiteralExpression (node : HLSLNode) (expressionType : HLSLType_ HLSLExpression)
      (type : HLSLBaseType) (value : HLSLLiteralValue)
  | HLSLIdentifierExpression (node : HLSLNode) (expressionType : HLSLType_ HLSLExpression)
      (name : string) (global : bool)
  | HLSLConstructorExpression (node : HLSLNode) (expressionType : HLSLType_ HLSLExpression)
      (type : HLSLType_ HLSLExpression) (argument : list HLSLExpression)
  | HLSLMemberAccess (node : HLSLNode) (expressionType : HLSLType_ HLSLExpression)
      (object : HLSLExpression) (field : string)
  | HLSLArrayAccess (node : HLSLNode) (expressionType : HLSLType_ HLSLExpression)
      (array_ index : HLSLExpression)
  | HLSLFunctionCall (node : HLSLNode) (expressionType : HLSLType_ HLSLExpression)
      (function : HLSLFunctionDecl_ HLSLExpression) (numArguments : Z)
      (argument : list HLSLExpression).

Abbreviation HLSLType := (HLSLType_ HLSLExpression).
Abbreviation HLSLArgument := (HLSLArgument_ HLSLExpression).
Abbreviation HLSLFunctionDecl := (HLSLFunctionDecl_ HLSLExpression).

(** [HLSLType(_baseType)], the constructor of the C++ struct. *)
Definition HLSLType_of (b : HLSLBaseType) : HLSLType :=
  Build_HLSLType b None false None false.

Definition expr_node (e : HLSLExpression) : HLSLNode :=
  match e with
  | HLSLUnaryExpression n _ _ _ | HLSLBinaryExpression n _ _ _ _
  | HLSLConditionalExpression n _ _ _ _ | HLSLCastingExpression n _ _ _
  | HLSLLiteralExpression n _ _ _ | HLSLIdentifierExpression n _ _ _
  | HLSLConstructorExpression n _ _ _ | HLSLMemberAccess n _ _ _
  | HLSLArrayAccess n _ _ _ | HLSLFunctionCall n _ _ _ _ => n
  end.

(** [expression->expressionType] *)
Definition expressionType_of (e : HLSLExpression) : HLSLType :=
  match e with
  | HLSLUnaryExpression _ t _ _ | HLSLBinaryExpression _ t _ _ _
  | HLSLConditionalExpression _ t _ _ _ | HLSLCastingExpression _ t _ _
  | HLSLLiteralExpression _ t _ _ | HLSLIdentifierExpression _ t _ _
  | HLSLConstructorExpression _ t _ _ | HLSLMemberAccess _ t _ _
  | HLSLArrayAccess _ t _ _ | HLSLFunctionCall _ t _ _ _ => t
  end.

(** Equality of two [HLSLExpression*]: both null, or the same node. *)
Definition same_pointer (p q : option HLSLExpression) : bool :=
  match p, q with
  | None, None => true
  | Some a, Some b => N.eqb (nodeAddr (expr_node a)) (nodeAddr (expr_node b))
  | _, _ => false
  end.

(** ** HLSLParser.cpp: the descriptions of the base types *)

Inductive NumericType : Set :=
  | NumericType_Float
  | NumericType_Half
  | NumericType_Bool
  | NumericType_Int
  | NumericType_Uint
  | NumericType_NaN.

#[global] Instance NumericType_eq_dec : EqDecision NumericType.
Proof. solve_decision. Defined.

(** The value of each enumerator ([NumericType_Count] is 5). *)
Definition NumericType_value (n : NumericType) : Z :=
  match n with
  | NumericType_Float => 0
  | NumericType_Half => 1
  | NumericType_Bool => 2
  | NumericType_Int => 3
  | NumericType_Uint => 4
  | NumericType_NaN => 6
  end.

(** Rows: the source; columns: the destination. *)
Definition _numberTypeRank : list (list Z) :=
  (*  F  H  B  I  U *)
  [ [ 0; 4; 4; 4; 4 ];   (* NumericType_Float *)
    [ 1; 0; 4; 4; 4 ];   (* NumericType_Half *)
    [ 5; 5; 0; 5; 5 ];   (* NumericType_Bool *)
    [ 5; 5; 4; 0; 3 ];   (* NumericType_Int *)
    [ 5; 5; 4; 2; 0 ] ]. (* NumericType_Uint *)

(** [table[i][j]] of a table of integers.  The code reads the tables only
    inside their bounds; outside them the model reads 0. *)
Definition table_at (table : list (list Z)) (i j : Z) : Z :=
  nth (Z.to_nat j) (nth (Z.to_nat i) table []) 0.

Record BaseTypeDescription : Set := Build_BaseTypeDescription {
  desc_typeName : string;
  numericType : NumericType;
  numComponents : Z;
  numDimensions : Z;
  height : Z;
  binaryOpRank : Z
}.

Definition _baseTypeDescriptions (t : HLSLBaseType) : BaseTypeDescription :=
  let D := Build_BaseTypeDescription in
  match t with
  | HLSLBaseType_Unknown     => D "unknown type" NumericType_NaN   0 0 0 (-1)
  | HLSLBaseType_Void        => D "void"         NumericType_NaN   0 0 0 (-1)
  | HLSLBaseType_Float       => D "float"        NumericType_Float 1 0 1 0
  | HLSLBaseType_Float2      => D "float2"       NumericType_Float 2 1 1 0
  | HLSLBaseType_Float3      => D "float3"       NumericType_Float 3 1 3 0
  | HLSLBaseType_Float4      => D "float4"       NumericType_Float 4 1 4 0
  | HLSLBaseType_Float3x3    => D "float3x3"     NumericType_Float 3 2 3 0
  | HLSLBaseType_Float4x4    => D "float4x4"     NumericType_Float 4 2 4 0
  | HLSLBaseType_Half        => D "half"         NumericType_Half  1 0 1 1
  | HLSLBaseType_Half2       => D "half2"        NumericType_Half  2 1 1 1
  | HLSLBaseType_Half3       => D "half3"        NumericType_Half  3 1 1 1
  | HLSLBaseType_Half4       => D "half4"        NumericType_Half  4 1 1 1
  | HLSLBaseType_Half3x3     => D "half3x3"      NumericType_Half  3 2 3 1
  | HLSLBaseType_Half4x4     => D "half4x4"      NumericType_Half  4 2 4 1
  | HLSLBaseType_Bool        => D "bool"         NumericType_Bool  1 0 1 4
  | HLSLBaseType_Int         => D "int"          NumericType_Int   1 0 1 3
  | HLSLBaseType_Int2        => D "int2"         NumericType_Int   2 1 1 3
  | HLSLBaseType_Int3        => D "int3"         NumericType_Int   3 1 1 3
  | HLSLBaseType_Int4        => D "int4"         NumericType_Int   4 1 1 3
  | HLSLBaseType_Uint        => D "uint"         NumericType_Uint  1 0 1 2
  | HLSLBaseType_Uint2       => D "uint2"        NumericType_Uint  2 1 1 2
  | HLSLBaseType_Uint3       => D "uint3"        NumericType_Uint  3 1 1 2
  | HLSLBaseType_Uint4       => D "uint4"        NumericType_Uint  4 1 1 2
  | HLSLBaseType_Texture     => D "texture"      NumericType_NaN   1 0 0 (-1)
  | HLSLBaseType_Sampler2D   => D "sampler2D"    NumericType_NaN   1 0 0 (-1)
  | HLSLBaseType_SamplerCube => D "samplerCUBE"  NumericType_NaN   1 0 0 (-1)
  | HLSLBaseType_UserDefined => D "user defined" NumericType_NaN   1 0 0 (-1)
  end.

(** ** HLSLParser.cpp: the rank of an implicit cast

    [strcmp] reads both names: on a null name the behaviour is undefined, and
    the rank is [None]. *)
Definition GetTypeCastRank (srcType dstType : HLSLType) : option Z :=
  if negb (Bool.eqb (array srcType) (array dstType))
     || negb (same_pointer (arraySize srcType) (arraySize dstType))
  then Some (-1)
  else if bool_decide (baseType srcType = HLSLBaseType_UserDefined)
          && bool_decide (baseType dstType = HLSLBaseType_UserDefined)
  then match typeName srcType, typeName dstType with
       | Some s, Some d => Some (if String.eqb s d then 0 else -1)
       | _, _ => None
       end
  else if bool_decide (baseType srcType = baseType dstType)
  then Some 0
  else
    let srcDesc := _baseTypeDescriptions (baseType srcType) in
    let dstDesc := _baseTypeDescriptions (baseType dstType) in
    if bool_decide (numericType srcDesc = NumericType_NaN)
       || bool_decide (numericType dstDesc = NumericType_NaN)
    then Some (-1)
    else
      (* Result bits: T R R R P *)
      let result :=
        Z.shiftl (table_at _numberTypeRank (NumericType_value (numericType srcDesc))
                                           (NumericType_value (numericType dstDesc))) 1 in
      if (numDimensions srcDesc =? 0) && (numDimensions dstDesc >? 0)
      then (* Scalar dimension promotion *)
        Some (Z.lor result (Z.shiftl 1 0))
      else if ((numDimensions srcDesc =? numDimensions dstDesc)
               && (numComponents srcDesc >? numComponents dstDesc))
              || ((numDimensions srcDesc >? 0) && (numDimensions dstDesc =? 0))
      then (* Truncation *)
        Some (Z.lor result (Z.shiftl 1 4))
      else if negb (numDimensions srcDesc =? numDimensions dstDesc)
              || negb (numComponents srcDesc =? numComponents dstDesc)
      then (* Can't convert *)
        Some (-1)
      else Some result.

(** ** Running the code: state, undefined behaviour, fuel

    A member function is a function of the object it runs on.  [Crash] is
    undefined behaviour of the C++ code (a null pointer read, a failed
    [ASSERT]); [OutOfFuel] belongs to the model only: the recursive functions
    count their calls down. *)
Inductive Outcome (S A : Type) : Type :=
  | Done (a : A) (s : S)
  | Crash
  | OutOfFuel.
Arguments Done {S A}.
Arguments Crash {S A}.
Arguments OutOfFuel {S A}.

Definition M (S A : Type) : Type := S -> Outcome S A.

Definition ret {S A : Type} (a : A) : M S A := fun s => Done a s.

Definition bind {S A B : Type} (m : M S A) (k : A -> M S B) : M S B :=
  fun s =>
    match m s with
    | Done a s' => k a s'
    | Crash => Crash
    | OutOfFuel => OutOfFuel
    end.

Definition crash {S A : Type} : M S A := fun _ => Crash.
Definition out_of_fuel {S A : Type} : M S A := fun _ => OutOfFuel.
Definition get {S : Type} : M S S := fun s => Done s s.
Definition modify {S : Type} (f : S -> S) : M S unit := fun s => Done tt (f s).

Notation "'do' x <- m ; k" := (bind m (fun x => k))
  (at level 10, x pattern, m at level 100, k at level 200).
Notation "m ;; k" := (bind m (fun _ => k))
  (at level 100, k at level 200, right associativity).

(** A pointer that the code reads without a test. *)
Definition deref {S A : Type} (p : option A) : M S A :=
  match p with
  | Some a => ret a
  | None => crash
  end.

(** ** The token source

    [HLSLTokenizer] is not part of the sources at hand; the parser uses it
    through [GetToken], [Next], [GetIdentifier], [GetFloat], [GetInt],
    [GetLineNumber], [GetFileName], [GetTokenName] and [Error]. *)

Inductive HLSLToken : Set :=
  | HLSLToken_Char (c : ascii)        (* single-character punctuation *)
  (* Built-in types. *)
  | HLSLToken_Float | HLSLToken_Float2 | HLSLToken_Float3 | HLSLToken_Float4
  | HLSLToken_Float3x3 | HLSLToken_Float4x4
  | HLSLToken_Half | HLSLToken_Half2 | HLSLToken_Half3 | HLSLToken_Half4
  | HLSLToken_Half3x3 | HLSLToken_Half4x4
  | HLSLToken_Bool
  | HLSLToken_Int | HLSLToken_Int2 | HLSLToken_Int3 | HLSLToken_Int4
  | HLSLToken_Uint | HLSLToken_Uint2 | HLSLToken_Uint3 | HLSLToken_Uint4
  | HLSLToken_Texture | HLSLToken_Sampler2D | HLSLToken_SamplerCube
  (* Reserved words. *)
  | HLSLToken_If | HLSLToken_Else | HLSLToken_For
  | HLSLToken_Break | HLSLToken_True | HLSLToken_False | HLSLToken_Void
  | HLSLToken_Struct | HLSLToken_CBuffer | HLSLToken_TBuffer
  | HLSLToken_Register | HLSLToken_Return | HLSLToken_Continue
  | HLSLToken_Discard | HLSLToken_Const | HLSLToken_PackOffset
  (* Input modifiers. *)
  | HLSLToken_Uniform | HLSLToken_In | HLSLToken_InOut
  (* Multi-character symbols. *)
  | HLSLToken_LessEqual | HLSLToken_GreaterEqual | HLSLToken_EqualEqual
  | HLSLToken_NotEqual | HLSLToken_PlusPlus | HLSLToken_MinusMinus
  | HLSLToken_PlusEqual | HLSLToken_MinusEqual | HLSLToken_TimesEqual
  | HLSLToken_DivideEqual | HLSLToken_AndAnd | HLSLToken_BarBar
  (* Other token types. *)
  | HLSLToken_FloatLiteral | HLSLToken_IntLiteral | HLSLToken_Identifier
  | HLSLToken_EndOfStream.

#[global] Instance HLSLToken_eq_dec : EqDecision HLSLToken.
Proof. solve_decision. Defined.

(** One token of the stream with what the getters return while it is the
    current one. *)
Record Lexeme : Set := Build_Lexeme {
  lex_token : HLSLToken;
  lex_identifier : string;
  lex_float : float;
  lex_int : Z;
  lex_line : Z
}.

(** A diagnostic: file, line and message. *)
Record Diagnostic : Set := Build_Diagnostic {
  diag_file : string;
  diag_line : Z;
  diag_message : string
}.

(** Modelled from the spec: the tokenizer ([HLSLTokenizer.h] and its
    implementation are missing).  The spec has it deliver, on demand, a stream
    of typed tokens ending in an end-of-stream sentinel, the current file name
    and line number, and a name for a token for diagnostics; every failure is
    reported with file and line. *)
Record HLSLTokenizer : Set := Build_HLSLTokenizer {
  m_fileName : string;
  m_stream : list Lexeme;          (* the current token first *)
  m_endLine : Z;                   (* the line of the end of the stream *)
  m_diagnostics : list Diagnostic  (* reported so far, the oldest first *)
}.

Definition tk_GetToken (t : HLSLTokenizer) : HLSLToken :=
  match m_stream t with
  | l :: _ => lex_token l
  | [] => HLSLToken_EndOfStream
  end.

Definition tk_Next (t : HLSLTokenizer) : HLSLTokenizer :=
  Build_HLSLTokenizer (m_fileName t) (tail (m_stream t)) (m_endLine t) (m_diagnostics t).

Definition tk_GetIdentifier (t : HLSLTokenizer) : string :=
  match m_stream t with
  | l :: _ => lex_identifier l
  | [] => ""
  end.

Definition tk_GetFloat (t : HLSLTokenizer) : float :=
  match m_stream t with
  | l :: _ => lex_float l
  | [] => ""
  end.

Definition tk_GetInt (t : HLSLTokenizer) : Z :=
  match m_stream t with
  | l :: _ => lex_int l
  | [] => 0
  end.

Definition tk_GetLineNumber (t : HLSLTokenizer) : Z :=
  match m_stream t with
  | l :: _ => lex_line l
  | [] => m_endLine t
  end.

Definition tk_Error (message : string) (t : HLSLTokenizer) : HLSLTokenizer :=
  Build_HLSLTokenizer (m_fileName t) (m_stream t) (m_endLine t)
    (m_diagnostics t ++ [Build_Diagnostic (m_fileName t) (tk_GetLineNumber t) message]).

(** The name of a kind of token. *)
Definition GetTokenName (token : HLSLToken) : string :=
  match token with
  | HLSLToken_Char c => String c EmptyString
  | HLSLToken_Float => "float" | HLSLToken_Float2 => "float2"
  | HLSLToken_Float3 => "float3" | HLSLToken_Float4 => "float4"
  | HLSLToken_Float3x3 => "float3x3" | HLSLToken_Float4x4 => "float4x4"
  | HLSLToken_Half => "half" | HLSLToken_Half2 => "half2"
  | HLSLToken_Half3 => "half3" | HLSLToken_Half4 => "half4"
  | HLSLToken_Half3x3 => "half3x3" | HLSLToken_Half4x4 => "half4x4"
  | HLSLToken_Bool => "bool"
  | HLSLToken_Int => "int" | HLSLToken_Int2 => "int2"
  | HLSLToken_Int3 => "int3" | HLSLToken_Int4 => "int4"
  | HLSLToken_Uint => "uint" | HLSLToken_Uint2 => "uint2"
  | HLSLToken_Uint3 => "uint3" | HLSLToken_Uint4 => "uint4"
  | HLSLToken_Texture => "texture" | HLSLToken_Sampler2D => "sampler2D"
  | HLSLToken_SamplerCube => "samplerCUBE"
  | HLSLToken_If => "if" | HLSLToken_Else => "else" | HLSLToken_For => "for"
  | HLSLToken_Break => "break" | HLSLToken_True => "true"
  | HLSLToken_False => "false" | HLSLToken_Void => "void"
  | HLSLToken_Struct => "struct" | HLSLToken_CBuffer => "cbuffer"
  | HLSLToken_TBuffer => "tbuffer" | HLSLToken_Register => "register"
  | HLSLToken_Return => "return" | HLSLToken_Continue => "continue"
  | HLSLToken_Discard => "discard" | HLSLToken_Const => "const"
  | HLSLToken_PackOffset => "packoffset"
  | HLSLToken_Uniform => "uniform" | HLSLToken_In => "in"
  | HLSLToken_InOut => "inout"
  | HLSLToken_LessEqual => "<=" | HLSLToken_GreaterEqual => ">="
  | HLSLToken_EqualEqual => "==" | HLSLToken_NotEqual => "!="
  | HLSLToken_PlusPlus => "++" | HLSLToken_MinusMinus => "--"
  | HLSLToken_PlusEqual => "+=" | HLSLToken_MinusEqual => "-="
  | HLSLToken_TimesEqual => "*=" | HLSLToken_DivideEqual => "/="
  | HLSLToken_AndAnd => "&&" | HLSLToken_BarBar => "||"
  | HLSLToken_FloatLiteral => "float"
  | HLSLToken_IntLiteral => "int"
  | HLSLToken_Identifier => "identifier"
  | HLSLToken_EndOfStream => "<eof>"
  end.

(** The name of the current token. *)
Definition tk_GetTokenName (t : HLSLTokenizer) : string :=
  match tk_GetToken t with
  | HLSLToken_Identifier => tk_GetIdentifier t
  | token => GetTokenName token
  end.

(** ** HLSLTree.h: statements *)

Record HLSLDeclaration : Type := Build_HLSLDeclaration {
  decl_node : HLSLNode;
  decl_name : string;
  decl_type : HLSLType;
  decl_registerName : option string;
  decl_assignment : list HLSLExpression   (* the chain from [assignment] *)
}.

Record HLSLStructField : Type := Build_HLSLStructField {
  sf_node : HLSLNode;
  sf_name : string;
  sf_type : HLSLType;
  sf_semantic : option string
}.

Record HLSLStruct : Type := Build_HLSLStruct {
  struct_node : HLSLNode;
  struct_name : string;
  struct_field : list HLSLStructField
}.

Record HLSLBufferField : Type := Build_HLSLBufferField {
  bf_node : HLSLNode;
  bf_name : string;
  bf_type : HLSLType
}.

Record HLSLBuffer : Type := Build_HLSLBuffer {
  buffer_node : HLSLNode;
  buffer_name : option string;
  buffer_registerName : option string;
  buffer_field : list HLSLBufferField
}.

(** A statement, tagged with its [nodeType]. *)
Inductive HLSLStatement : Type :=
  | HLSLNodeType_Declaration (declaration : HLSLDeclaration)
  | HLSLNodeType_Struct (structure : HLSLStruct)
  | HLSLNodeType_Buffer (buffer : HLSLBuffer)
  | HLSLNodeType_Function (node : HLSLNode) (function : HLSLFunctionDecl)
      (statement : list HLSLStatement)
  | HLSLNodeType_ExpressionStatement (node : HLSLNode) (expression : HLSLExpression)
  | HLSLNodeType_ReturnStatement (node : HLSLNode) (expression : option HLSLExpression)
  | HLSLNodeType_DiscardStatement (node : HLSLNode)
  | HLSLNodeType_BreakStatement (node : HLSLNode)
  | HLSLNodeType_ContinueStatement (node : HLSLNode)
  | HLSLNodeType_IfStatement (node : HLSLNode) (condition : HLSLExpression)
      (statement elseStatement : list HLSLStatement)
  | HLSLNodeType_ForStatement (node : HLSLNode) (initialization : option HLSLDeclaration)
      (condition increment : option HLSLExpression) (statement : list HLSLStatement).

(** ** StringPool.cpp and HLSLTree.cpp *)

Definition StringPool : Type := gset string.

Definition StringPool_AddString (s : string) (pool : StringPool) : StringPool :=
  {[ s ]} ∪ pool.

Definition StringPool_GetContainsString (s : string) (pool : StringPool) : bool :=
  bool_decide (s ∈ pool).

(** The tree: the pool of strings, the statements of the root, and how many
    nodes the arena gave out (the root is the first). *)
Record HLSLTree : Type := Build_HLSLTree {
  m_stringPool : StringPool;
  m_root : list HLSLStatement;
  m_numNodes : N
}.

(** [HLSLTree::HLSLTree] *)
Definition HLSLTree_new : HLSLTree := Build_HLSLTree ∅ [] 1.

Definition HLSLTree_AddString (s : string) (tree : HLSLTree) : HLSLTree :=
  Build_HLSLTree (StringPool_AddString s (m_stringPool tree)) (m_root tree) (m_numNodes tree).

Definition HLSLTree_GetContainsString (s : string) (tree : HLSLTree) : bool :=
  StringPool_GetContainsString s (m_stringPool tree).

Definition HLSLTree_GetRoot (tree : HLSLTree) : list HLSLStatement := m_root tree.

(** ** HLSLParser.h: the parser *)

(** [HLSLParser::Variable] *)
Record ParserVariable : Type := Build_Variable {
  var_name : option string;     (* NULL marks a new scope *)
  var_type : HLSLType
}.

Record HLSLParser : Type := Build_HLSLParser {
  m_tokenizer : HLSLTokenizer;
  m_userTypes : list HLSLStruct;
  m_variables : list ParserVariable;
  m_functions : list HLSLFunctionDecl;
  m_numGlobals : Z;
  m_tree : HLSLTree
}.

Definition set_tokenizer (t : HLSLTokenizer) (p : HLSLParser) : HLSLParser :=
  Build_HLSLParser t (m_userTypes p) (m_variables p) (m_functions p) (m_numGlobals p) (m_tree p).
Definition set_userTypes (u : list HLSLStruct) (p : HLSLParser) : HLSLParser :=
  Build_HLSLParser (m_tokenizer p) u (m_variables p) (m_functions p) (m_numGlobals p) (m_tree p).
Definition set_variables (v : list ParserVariable) (p : HLSLParser) : HLSLParser :=
  Build_HLSLParser (m_tokenizer p) (m_userTypes p) v (m_functions p) (m_numGlobals p) (m_tree p).
Definition set_functions (f : list HLSLFunctionDecl) (p : HLSLParser) : HLSLParser :=
  Build_HLSLParser (m_tokenizer p) (m_userTypes p) (m_variables p) f (m_numGlobals p) (m_tree p).
Definition set_numGlobals (n : Z) (p : HLSLParser) : HLSLParser :=
  Build_HLSLParser (m_tokenizer p) (m_userTypes p) (m_variables p) (m_functions p) n (m_tree p).
Definition set_tree (t : HLSLTree) (p : HLSLParser) : HLSLParser :=
  Build_HLSLParser (m_tokenizer p) (m_userTypes p) (m_variables p) (m_functions p) (m_numGlobals p) t.

(** [HLSLParser::HLSLParser] followed by [m_tree = tree] of [Parse]. *)
Definition HLSLParser_new (fileName : string) (stream : list Lexeme) (endLine : Z)
    (tree : HLSLTree) : HLSLParser :=
  Build_HLSLParser (Build_HLSLTokenizer fileName stream endLine []) [] [] [] 0 tree.

Abbreviation Parser := (M HLSLParser).

(** [m_tokenizer.Error(...)] with the message formatted. *)
Definition Error (message : string) : Parser unit :=
  modify (fun p => set_tokenizer (tk_Error message (m_tokenizer p)) p).

Definition GetToken : Parser HLSLToken := fun p => Done (tk_GetToken (m_tokenizer p)) p.

Definition Next : Parser unit :=
  modify (fun p => set_tokenizer (tk_Next (m_tokenizer p)) p).

(** [m_tree->AddString]: the pointer it returns is the string. *)
Definition AddString (s : string) : Parser string :=
  fun p => Done s (set_tree (HLSLTree_AddString s (m_tree p)) p).

(** [m_tree->AddNode<T>(fileName, line)]: the header of the new node. *)
Definition AddNode (fileName : option string) (line : Z) : Parser HLSLNode :=
  fun p =>
    let tree := m_tree p in
    Done (Build_HLSLNode (m_numNodes tree) fileName line)
         (set_tree (Build_HLSLTree (m_stringPool tree) (m_root tree) (N.succ (m_numNodes tree))) p).

Definition GetLineNumber : Parser Z := fun p => Done (tk_GetLineNumber (m_tokenizer p)) p.

Definition GetFileName : Parser string := fun p => AddString (m_fileName (m_tokenizer p)) p.

(** ** Formatting

    [%d] of [printf], and the comparison of C strings. *)
Definition format_d (z : Z) : string := NilZero.string_of_int (Z.to_int z).

Definition String_Equal (first second : string) : bool := String.eqb first second.

(** [ASSERT(condition)]: a failed assertion ends the run. *)
Definition ASSERT {S : Type} (condition : bool) : M S unit :=
  if condition then ret tt else crash.

(** ** HLSLParser.cpp: intrinsic functions *)

Inductive CompareFunctionsResult : Set :=
  | FunctionsEqual
  | Function1Better
  | Function2Better.

(** The nodes of the intrinsics are static objects outside the arena. *)
Definition intrinsic_node : HLSLNode := Build_HLSLNode 0 None 0.

(** [argument[i].type.baseType = arg; argument[i].type.constant = true] *)
Definition intrinsic_argument (arg : HLSLBaseType) : HLSLArgument :=
  Build_HLSLArgument intrinsic_node None HLSLArgumentModifier_None
    (Build_HLSLType arg None false None true) None.

(** The constructors [Intrinsic(name, returnType, arg1, ...)] with up to three
    arguments, the ones the table uses: [numArguments] is the number of
    arguments chained. *)
Definition Intrinsic (name : string) (returnType : HLSLBaseType)
    (args : list HLSLBaseType) : HLSLFunctionDecl :=
  Build_HLSLFunctionDecl name (HLSLType_of returnType) None
    (Z.of_nat (length args)) (map intrinsic_argument args).

Definition INTRINSIC_FLOAT1_FUNCTION (name : string) : list HLSLFunctionDecl :=
  [ Intrinsic name HLSLBaseType_Float  [HLSLBaseType_Float];
    Intrinsic name HLSLBaseType_Float2 [HLSLBaseType_Float2];
    Intrinsic name HLSLBaseType_Float3 [HLSLBaseType_Float3];
    Intrinsic name HLSLBaseType_Float4 [HLSLBaseType_Float4];
    Intrinsic name HLSLBaseType_Half   [HLSLBaseType_Half];
    Intrinsic name HLSLBaseType_Half2  [HLSLBaseType_Half2];
    Intrinsic name HLSLBaseType_Half3  [HLSLBaseType_Half3];
    Intrinsic name HLSLBaseType_Half4  [HLSLBaseType_Half4] ].

Definition INTRINSIC_FLOAT2_FUNCTION (name : string) : list HLSLFunctionDecl :=
  [ Intrinsic name HLSLBaseType_Float  [HLSLBaseType_Float;  HLSLBaseType_Float];
    Intrinsic name HLSLBaseType_Float2 [HLSLBaseType_Float2; HLSLBaseType_Float2];
    Intrinsic name HLSLBaseType_Float3 [HLSLBaseType_Float3; HLSLBaseType_Float3];
    Intrinsic name HLSLBaseType_Float4 [HLSLBaseType_Float4; HLSLBaseType_Float4];
    Intrinsic name HLSLBaseType_Half   [HLSLBaseType_Half;   HLSLBaseType_Half];
    Intrinsic name HLSLBaseType_Half2  [HLSLBaseType_Half2;  HLSLBaseType_Half2];
    Intrinsic name HLSLBaseType_Half3  [HLSLBaseType_Half3;  HLSLBaseType_Half3];
    Intrinsic name HLSLBaseType_Half4  [HLSLBaseType_Half4;  HLSLBaseType_Half4] ].

Definition INTRINSIC_FLOAT3_FUNCTION (name : string) : list HLSLFunctionDecl :=
  [ Intrinsic name HLSLBaseType_Float  [HLSLBaseType_Float;  HLSLBaseType_Float; HLSLBaseType_Float];
    Intrinsic name HLSLBaseType_Float2 [HLSLBaseType_Float2; HLSLBaseType_Float; HLSLBaseType_Float2];
    Intrinsic name HLSLBaseType_Float3 [HLSLBaseType_Float3; HLSLBaseType_Float; HLSLBaseType_Float3];
    Intrinsic name HLSLBaseType_Float4 [HLSLBaseType_Float4; HLSLBaseType_Float; HLSLBaseType_Float4];
    Intrinsic name HLSLBaseType_Half   [HLSLBaseType_Half;   HLSLBaseType_Half;  HLSLBaseType_Half];
    Intrinsic name HLSLBaseType_Half2  [HLSLBaseType_Half2;  HLSLBaseType_Half2; HLSLBaseType_Half2];
    Intrinsic name HLSLBaseType_Half3  [HLSLBaseType_Half3;  HLSLBaseType_Half3; HLSLBaseType_Half3];
    Intrinsic name HLSLBaseType_Half4  [HLSLBaseType_Half4;  HLSLBaseType_Half4; HLSLBaseType_Half4] ].

Definition _intrinsic : list HLSLFunctionDecl :=
  INTRINSIC_FLOAT1_FUNCTION "abs" ++
  INTRINSIC_FLOAT2_FUNCTION "atan2" ++
  INTRINSIC_FLOAT3_FUNCTION "clamp" ++
  INTRINSIC_FLOAT1_FUNCTION "cos" ++
  INTRINSIC_FLOAT3_FUNCTION "lerp" ++
  INTRINSIC_FLOAT3_FUNCTION "smoothstep" ++
  INTRINSIC_FLOAT1_FUNCTION "floor" ++
  INTRINSIC_FLOAT1_FUNCTION "ceil" ++
  INTRINSIC_FLOAT1_FUNCTION "frac" ++
  INTRINSIC_FLOAT2_FUNCTION "fmod" ++
  [ Intrinsic "clip" HLSLBaseType_Void [HLSLBaseType_Float];
    Intrinsic "clip" HLSLBaseType_Void [HLSLBaseType_Float2];
    Intrinsic "clip" HLSLBaseType_Void [HLSLBaseType_Float3];
    Intrinsic "clip" HLSLBaseType_Void [HLSLBaseType_Float4];
    Intrinsic "clip" HLSLBaseType_Void [HLSLBaseType_Half];
    Intrinsic "clip" HLSLBaseType_Void [HLSLBaseType_Half2];
    Intrinsic "clip" HLSLBaseType_Void [HLSLBaseType_Half3];
    Intrinsic "clip" HLSLBaseType_Void [HLSLBaseType_Half4];
    Intrinsic "dot" HLSLBaseType_Float [HLSLBaseType_Float;  HLSLBaseType_Float];
    Intrinsic "dot" HLSLBaseType_Float [HLSLBaseType_Float2; HLSLBaseType_Float2];
    Intrinsic "dot" HLSLBaseType_Float [HLSLBaseType_Float3; HLSLBaseType_Float3];
    Intrinsic "dot" HLSLBaseType_Float [HLSLBaseType_Float4; HLSLBaseType_Float4];
    Intrinsic "dot" HLSLBaseType_Half  [HLSLBaseType_Half;   HLSLBaseType_Half];
    Intrinsic "dot" HLSLBaseType_Half  [HLSLBaseType_Half2;  HLSLBaseType_Half2];
    Intrinsic "dot" HLSLBaseType_Half  [HLSLBaseType_Half3;  HLSLBaseType_Half3];
    Intrinsic "dot" HLSLBaseType_Half  [HLSLBaseType_Half4;  HLSLBaseType_Half4];
    Intrinsic "cross" HLSLBaseType_Float3 [HLSLBaseType_Float3; HLSLBaseType_Float3];
    Intrinsic "length" HLSLBaseType_Float [HLSLBaseType_Float];
    Intrinsic "length" HLSLBaseType_Float [HLSLBaseType_Float2];
    Intrinsic "length" HLSLBaseType_Float [HLSLBaseType_Float3];
    Intrinsic "length" HLSLBaseType_Float [HLSLBaseType_Float4];
    Intrinsic "length" HLSLBaseType_Half  [HLSLBaseType_Half];
    Intrinsic "length" HLSLBaseType_Half  [HLSLBaseType_Half2];
    Intrinsic "length" HLSLBaseType_Half  [HLSLBaseType_Half3];
    Intrinsic "length" HLSLBaseType_Half  [HLSLBaseType_Half4] ] ++
  INTRINSIC_FLOAT2_FUNCTION "max" ++
  INTRINSIC_FLOAT2_FUNCTION "min" ++
  INTRINSIC_FLOAT2_FUNCTION "mul" ++
  [ Intrinsic "mul" HLSLBaseType_Float3 [HLSLBaseType_Float3; HLSLBaseType_Float3x3];
    Intrinsic "mul" HLSLBaseType_Float4 [HLSLBaseType_Float4; HLSLBaseType_Float4x4];
    Intrinsic "transpose" HLSLBaseType_Float3x3 [HLSLBaseType_Float3x3];
    Intrinsic "transpose" HLSLBaseType_Float4x4 [HLSLBaseType_Float4x4] ] ++
  INTRINSIC_FLOAT1_FUNCTION "normalize" ++
  INTRINSIC_FLOAT2_FUNCTION "pow" ++
  INTRINSIC_FLOAT1_FUNCTION "saturate" ++
  INTRINSIC_FLOAT1_FUNCTION "sin" ++
  INTRINSIC_FLOAT1_FUNCTION "sqrt" ++
  INTRINSIC_FLOAT1_FUNCTION "rsqrt" ++
  INTRINSIC_FLOAT1_FUNCTION "rcp" ++
  INTRINSIC_FLOAT1_FUNCTION "ddx" ++
  INTRINSIC_FLOAT1_FUNCTION "ddy" ++
  INTRINSIC_FLOAT1_FUNCTION "sign" ++
  INTRINSIC_FLOAT2_FUNCTION "step" ++
  INTRINSIC_FLOAT2_FUNCTION "reflect" ++
  [ Intrinsic "tex2D"     HLSLBaseType_Float4 [HLSLBaseType_Sampler2D; HLSLBaseType_Float2];
    Intrinsic "tex2Dproj" HLSLBaseType_Float4 [HLSLBaseType_Sampler2D; HLSLBaseType_Float4];
    Intrinsic "tex2Dlod"  HLSLBaseType_Float4 [HLSLBaseType_Sampler2D; HLSLBaseType_Float4];
    Intrinsic "texCUBE"     HLSLBaseType_Float4 [HLSLBaseType_SamplerCube; HLSLBaseType_Float3];
    Intrinsic "texCUBEbias" HLSLBaseType_Float4 [HLSLBaseType_SamplerCube; HLSLBaseType_Float4];
    Intrinsic "sincos" HLSLBaseType_Void [HLSLBaseType_Float;  HLSLBaseType_Float; HLSLBaseType_Float];
    Intrinsic "sincos" HLSLBaseType_Void [HLSLBaseType_Float2; HLSLBaseType_Float; HLSLBaseType_Float2];
    Intrinsic "sincos" HLSLBaseType_Void [HLSLBaseType_Float3; HLSLBaseType_Float; HLSLBaseType_Float3];
    Intrinsic "sincos" HLSLBaseType_Void [HLSLBaseType_Float4; HLSLBaseType_Float; HLSLBaseType_Float4];
    Intrinsic "sincos" HLSLBaseType_Void [HLSLBaseType_Half;   HLSLBaseType_Half;  HLSLBaseType_Half];
    Intrinsic "sincos" HLSLBaseType_Void [HLSLBaseType_Half2;  HLSLBaseType_Half2; HLSLBaseType_Half2];
    Intrinsic "sincos" HLSLBaseType_Void [HLSLBaseType_Half3;  HLSLBaseType_Half3; HLSLBaseType_Half3];
    Intrinsic "sincos" HLSLBaseType_Void [HLSLBaseType_Half4;  HLSLBaseType_Half4; HLSLBaseType_Half4] ].

(** The order in this list must match up with [HLSLBinaryOp]. *)
Definition _binaryOpPriority (op : HLSLBinaryOp) : option Z :=
  match op with
  | HLSLBinaryOp_And => Some 2 | HLSLBinaryOp_Or => Some 1           (* &&, || *)
  | HLSLBinaryOp_Add => Some 5 | HLSLBinaryOp_Sub => Some 5          (* +,  -  *)
  | HLSLBinaryOp_Mul => Some 6 | HLSLBinaryOp_Div => Some 6          (* *,  /  *)
  | HLSLBinaryOp_Less => Some 4 | HLSLBinaryOp_Greater => Some 4     (* <,  >  *)
  | HLSLBinaryOp_LessEqual => Some 4 | HLSLBinaryOp_GreaterEqual => Some 4
  | HLSLBinaryOp_Equal => Some 3 | HLSLBinaryOp_NotEqual => Some 3   (* ==, != *)
  | _ => None                                       (* past the end of the array *)
  end.

Definition _binaryOpTypeLookup : list (list HLSLBaseType) :=
  [
    [
      HLSLBaseType_Float; HLSLBaseType_Float2; HLSLBaseType_Float3; HLSLBaseType_Float4;
      HLSLBaseType_Float3x3; HLSLBaseType_Float4x4; HLSLBaseType_Float; HLSLBaseType_Float2;
      HLSLBaseType_Float3; HLSLBaseType_Float4; HLSLBaseType_Float3x3; HLSLBaseType_Float4x4;
      HLSLBaseType_Float; HLSLBaseType_Float; HLSLBaseType_Float2; HLSLBaseType_Float3;
      HLSLBaseType_Float4; HLSLBaseType_Float; HLSLBaseType_Float2; HLSLBaseType_Float3;
      HLSLBaseType_Float4 ];
    [
      HLSLBaseType_Float2; HLSLBaseType_Float2; HLSLBaseType_Float2; HLSLBaseType_Float2;
      HLSLBaseType_Unknown; HLSLBaseType_Unknown; HLSLBaseType_Float2; HLSLBaseType_Float2;
      HLSLBaseType_Float2; HLSLBaseType_Float2; HLSLBaseType_Unknown; HLSLBaseType_Unknown;
      HLSLBaseType_Float2; HLSLBaseType_Float2; HLSLBaseType_Float2; HLSLBaseType_Float2;
      HLSLBaseType_Float2; HLSLBaseType_Float2; HLSLBaseType_Float2; HLSLBaseType_Float2;
      HLSLBaseType_Float2 ];
    [
      HLSLBaseType_Float3; HLSLBaseType_Float2; HLSLBaseType_Float3; HLSLBaseType_Float3;
      HLSLBaseType_Unknown; HLSLBaseType_Unknown; HLSLBaseType_Float3; HLSLBaseType_Float2;
      HLSLBaseType_Float3; HLSLBaseType_Float3; HLSLBaseType_Unknown; HLSLBaseType_Unknown;
      HLSLBaseType_Float3; HLSLBaseType_Float3; HLSLBaseType_Float2; HLSLBaseType_Float3;
      HLSLBaseType_Float3; HLSLBaseType_Float3; HLSLBaseType_Float2; HLSLBaseType_Float3;
      HLSLBaseType_Float3 ];
    [
      HLSLBaseType_Float4; HLSLBaseType_Float2; HLSLBaseType_Float3; HLSLBaseType_Float4;
      HLSLBaseType_Unknown; HLSLBaseType_Unknown; HLSLBaseType_Float4; HLSLBaseType_Float2;
      HLSLBaseType_Float3; HLSLBaseType_Float4; HLSLBaseType_Unknown; HLSLBaseType_Unknown;
      HLSLBaseType_Float4; HLSLBaseType_Float4; HLSLBaseType_Float2; HLSLBaseType_Float3;
      HLSLBaseType_Float4; HLSLBaseType_Float4; HLSLBaseType_Float2; HLSLBaseType_Float3;
      HLSLBaseType_Float4 ];
    [
      HLSLBaseType_Float3x3; HLSLBaseType_Unknown; HLSLBaseType_Unknown; HLSLBaseType_Unknown;
      HLSLBaseType_Float3x3; HLSLBaseType_Float3x3; HLSLBaseType_Float3x3; HLSLBaseType_Unknown;
      HLSLBaseType_Unknown; HLSLBaseType_Unknown; HLSLBaseType_Float3x3; HLSLBaseType_Float3x3;
      HLSLBaseType_Float3x3; HLSLBaseType_Float3x3; HLSLBaseType_Unknown; HLSLBaseType_Unknown;
      HLSLBaseType_Unknown; HLSLBaseType_Float3x3; HLSLBaseType_Unknown; HLSLBaseType_Unknown;
      HLSLBaseType_Unknown ];
    [
      HLSLBaseType_Float4x4; HLSLBaseType_Unknown; HLSLBaseType_Unknown; HLSLBaseType_Unknown;
      HLSLBaseType_Float3x3; HLSLBaseType_Float4x4; HLSLBaseType_Float4x4; HLSLBaseType_Unknown;
      HLSLBaseType_Unknown; HLSLBaseType_Unknown; HLSLBaseType_Float3x3; HLSLBaseType_Float4x4;
      HLSLBaseType_Float4x4; HLSLBaseType_Float4x4; HLSLBaseType_Unknown; HLSLBaseType_Unknown;
      HLSLBaseType_Unknown; HLSLBaseType_Float4x4; HLSLBaseType_Unknown; HLSLBaseType_Unknown;
      HLSLBaseType_Unknown ];
    [
      HLSLBaseType_Float; HLSLBaseType_Float2; HLSLBaseType_Float3; HLSLBaseType_Float4;
      HLSLBaseType_Float3x3; HLSLBaseType_Float4x4; HLSLBaseType_Half; HLSLBaseType_Half2;
      HLSLBaseType_Half3; HLSLBaseType_Half4; HLSLBaseType_Half3x3; HLSLBaseType_Half4x4;
      HLSLBaseType_Half; HLSLBaseType_Half; HLSLBaseType_Half2; HLSLBaseType_Half3;
      HLSLBaseType_Half4; HLSLBaseType_Half; HLSLBaseType_Half2; HLSLBaseType_Half3;
      HLSLBaseType_Half4 ];
    [
      HLSLBaseType_Float2; HLSLBaseType_Float2; HLSLBaseType_Float2; HLSLBaseType_Float2;
      HLSLBaseType_Unknown; HLSLBaseType_Unknown; HLSLBaseType_Half2; HLSLBaseType_Half2;
      HLSLBaseType_Half2; HLSLBaseType_Half2; HLSLBaseType_Unknown; HLSLBaseType_Unknown;
      HLSLBaseType_Half2; HLSLBaseType_Half2; HLSLBaseType_Half2; HLSLBaseType_Half2;
      HLSLBaseType_Half2; HLSLBaseType_Half2; HLSLBaseType_Half2; HLSLBaseType_Half2;
      HLSLBaseType_Half2 ];
    [
      HLSLBaseType_Float3; HLSLBaseType_Float2; HLSLBaseType_Float3; HLSLBaseType_Float3;
      HLSLBaseType_Unknown; HLSLBaseType_Unknown; HLSLBaseType_Half3; HLSLBaseType_Half2;
      HLSLBaseType_Half3; HLSLBaseType_Half3; HLSLBaseType_Unknown; HLSLBaseType_Unknown;
      HLSLBaseType_Half3; HLSLBaseType_Half3; HLSLBaseType_Half2; HLSLBaseType_Half3;
      HLSLBaseType_Half3; HLSLBaseType_Half3; HLSLBaseType_Half2; HLSLBaseType_Half3;
      HLSLBaseType_Half3 ];
    [
      HLSLBaseType_Float4; HLSLBaseType_Float2; HLSLBaseType_Float3; HLSLBaseType_Float4;
      HLSLBaseType_Unknown; HLSLBaseType_Unknown; HLSLBaseType_Half4; HLSLBaseType_Half2;
      HLSLBaseType_Half3; HLSLBaseType_Half4; HLSLBaseType_Unknown; HLSLBaseType_Unknown;
      HLSLBaseType_Half4; HLSLBaseType_Half4; HLSLBaseType_Half2; HLSLBaseType_Half3;
      HLSLBaseType_Half4; HLSLBaseType_Half4; HLSLBaseType_Half2; HLSLBaseType_Half3;
      HLSLBaseType_Half4 ];
    [
      HLSLBaseType_Float3x3; HLSLBaseType_Unknown; HLSLBaseType_Unknown; HLSLBaseType_Unknown;
      HLSLBaseType_Float3x3; HLSLBaseType_Float3x3; HLSLBaseType_Half3x3; HLSLBaseType_Unknown;
      HLSLBaseType_Unknown; HLSLBaseType_Unknown; HLSLBaseType_Half3x3; HLSLBaseType_Half3x3;
      HLSLBaseType_Half3x3; HLSLBaseType_Half3x3; HLSLBaseType_Unknown; HLSLBaseType_Unknown;
      HLSLBaseType_Unknown; HLSLBaseType_Half3x3; HLSLBaseType_Unknown; HLSLBaseType_Unknown;
      HLSLBaseType_Unknown ];
    [
      HLSLBaseType_Float4x4; HLSLBaseType_Unknown; HLSLBaseType_Unknown; HLSLBaseType_Unknown;
      HLSLBaseType_Float3x3; HLSLBaseType_Float4x4; HLSLBaseType_Half4x4; HLSLBaseType_Unknown;
      HLSLBaseType_Unknown; HLSLBaseType_Unknown; HLSLBaseType_Half3x3; HLSLBaseType_Half4x4;
      HLSLBaseType_Half4x4; HLSLBaseType_Half4x4; HLSLBaseType_Unknown; HLSLBaseType_Unknown;
      HLSLBaseType_Unknown; HLSLBaseType_Half4x4; HLSLBaseType_Unknown; HLSLBaseType_Unknown;
      HLSLBaseType_Unknown ];
    [
      HLSLBaseType_Float; HLSLBaseType_Float2; HLSLBaseType_Float3; HLSLBaseType_Float4;
      HLSLBaseType_Float3x3; HLSLBaseType_Float4x4; HLSLBaseType_Half; HLSLBaseType_Half2;
      HLSLBaseType_Half3; HLSLBaseType_Half4; HLSLBaseType_Half3x3; HLSLBaseType_Half4x4;
      HLSLBaseType_Int; HLSLBaseType_Int; HLSLBaseType_Int2; HLSLBaseType_Int3;
      HLSLBaseType_Int4; HLSLBaseType_Uint; HLSLBaseType_Uint2; HLSLBaseType_Uint3;
      HLSLBaseType_Uint4 ];
    [
      HLSLBaseType_Float; HLSLBaseType_Float2; HLSLBaseType_Float3; HLSLBaseType_Float4;
      HLSLBaseType_Float3x3; HLSLBaseType_Float4x4; HLSLBaseType_Half; HLSLBaseType_Half2;
      HLSLBaseType_Half3; HLSLBaseType_Half4; HLSLBaseType_Half3x3; HLSLBaseType_Half4x4;
      HLSLBaseType_Int; HLSLBaseType_Int; HLSLBaseType_Int2; HLSLBaseType_Int3;
      HLSLBaseType_Int4; HLSLBaseType_Uint; HLSLBaseType_Uint2; HLSLBaseType_Uint3;
      HLSLBaseType_Uint4 ];
    [
      HLSLBaseType_Float2; HLSLBaseType_Float2; HLSLBaseType_Float2; HLSLBaseType_Float2;
      HLSLBaseType_Unknown; HLSLBaseType_Unknown; HLSLBaseType_Half2; HLSLBaseType_Half2;
      HLSLBaseType_Half2; HLSLBaseType_Half2; HLSLBaseType_Unknown; HLSLBaseType_Unknown;
      HLSLBaseType_Int2; HLSLBaseType_Int2; HLSLBaseType_Int2; HLSLBaseType_Int2;
      HLSLBaseType_Int2; HLSLBaseType_Uint2; HLSLBaseType_Uint2; HLSLBaseType_Uint2;
      HLSLBaseType_Uint2 ];
    [
      HLSLBaseType_Float3; HLSLBaseType_Float2; HLSLBaseType_Float3; HLSLBaseType_Float3;
      HLSLBaseType_Unknown; HLSLBaseType_Unknown; HLSLBaseType_Half3; HLSLBaseType_Half2;
      HLSLBaseType_Half3; HLSLBaseType_Half3; HLSLBaseType_Unknown; HLSLBaseType_Unknown;
      HLSLBaseType_Int3; HLSLBaseType_Int3; HLSLBaseType_Int2; HLSLBaseType_Int3;
      HLSLBaseType_Int3; HLSLBaseType_Uint3; HLSLBaseType_Uint2; HLSLBaseType_Uint3;
      HLSLBaseType_Uint3 ];
    [
      HLSLBaseType_Float4; HLSLBaseType_Float2; HLSLBaseType_Float3; HLSLBaseType_Float4;
      HLSLBaseType_Unknown; HLSLBaseType_Unknown; HLSLBaseType_Half4; HLSLBaseType_Half2;
      HLSLBaseType_Half3; HLSLBaseType_Half4; HLSLBaseType_Unknown; HLSLBaseType_Unknown;
      HLSLBaseType_Int4; HLSLBaseType_Int4; HLSLBaseType_Int2; HLSLBaseType_Int3;
      HLSLBaseType_Int4; HLSLBaseType_Uint4; HLSLBaseType_Uint2; HLSLBaseType_Uint3;
      HLSLBaseType_Uint4 ];
    [
      HLSLBaseType_Float; HLSLBaseType_Float2; HLSLBaseType_Float3; HLSLBaseType_Float4;
      HLSLBaseType_Float3x3; HLSLBaseType_Float4x4; HLSLBaseType_Half; HLSLBaseType_Half2;
      HLSLBaseType_Half3; HLSLBaseType_Half4; HLSLBaseType_Half3x3; HLSLBaseType_Half4x4;
      HLSLBaseType_Uint; HLSLBaseType_Uint; HLSLBaseType_Uint2; HLSLBaseType_Uint3;
      HLSLBaseType_Uint4; HLSLBaseType_Uint; HLSLBaseType_Uint2; HLSLBaseType_Uint3;
      HLSLBaseType_Uint4 ];
    [
      HLSLBaseType_Float2; HLSLBaseType_Float2; HLSLBaseType_Float2; HLSLBaseType_Float2;
      HLSLBaseType_Unknown; HLSLBaseType_Unknown; HLSLBaseType_Half2; HLSLBaseType_Half2;
      HLSLBaseType_Half2; HLSLBaseType_Half2; HLSLBaseType_Unknown; HLSLBaseType_Unknown;
      HLSLBaseType_Uint2; HLSLBaseType_Uint2; HLSLBaseType_Uint2; HLSLBaseType_Uint2;
      HLSLBaseType_Uint2; HLSLBaseType_Uint2; HLSLBaseType_Uint2; HLSLBaseType_Uint2;
      HLSLBaseType_Uint2 ];
    [
      HLSLBaseType_Float3; HLSLBaseType_Float2; HLSLBaseType_Float3; HLSLBaseType_Float3;
      HLSLBaseType_Unknown; HLSLBaseType_Unknown; HLSLBaseType_Half3; HLSLBaseType_Half2;
      HLSLBaseType_Half3; HLSLBaseType_Half3; HLSLBaseType_Unknown; HLSLBaseType_Unknown;
      HLSLBaseType_Uint3; HLSLBaseType_Uint3; HLSLBaseType_Uint2; HLSLBaseType_Uint3;
      HLSLBaseType_Uint3; HLSLBaseType_Uint3; HLSLBaseType_Uint2; HLSLBaseType_Uint3;
      HLSLBaseType_Uint3 ];
    [
      HLSLBaseType_Float4; HLSLBaseType_Float2; HLSLBaseType_Float3; HLSLBaseType_Float4;
      HLSLBaseType_Unknown; HLSLBaseType_Unknown; HLSLBaseType_Half4; HLSLBaseType_Half2;
      HLSLBaseType_Half3; HLSLBaseType_Half4; HLSLBaseType_Unknown; HLSLBaseType_Unknown;
      HLSLBaseType_Uint4; HLSLBaseType_Uint4; HLSLBaseType_Uint2; HLSLBaseType_Uint3;
      HLSLBaseType_Uint4; HLSLBaseType_Uint4; HLSLBaseType_Uint2; HLSLBaseType_Uint3;
      HLSLBaseType_Uint4 ]
  ].

(** Priority of the ? : operator. *)
Definition _conditionalOpPriority : Z := 1.

(** [GetTypeName] of HLSLParser.cpp, for [%s]: a null name has no text. *)
Definition Parser_GetTypeName (type : HLSLType) : option string :=
  if bool_decide (baseType type = HLSLBaseType_UserDefined)
  then typeName type
  else Some (desc_typeName (_baseTypeDescriptions (baseType type))).

Definition GetBinaryOpName (binaryOp : HLSLBinaryOp) : string :=
  match binaryOp with
  | HLSLBinaryOp_Add => "+"
  | HLSLBinaryOp_Sub => "-"
  | HLSLBinaryOp_Mul => "*"
  | HLSLBinaryOp_Div => "/"
  | HLSLBinaryOp_Less => "<"
  | HLSLBinaryOp_Greater => ">"
  | HLSLBinaryOp_LessEqual => "<="
  | HLSLBinaryOp_GreaterEqual => ">="
  | HLSLBinaryOp_Equal => "=="
  | HLSLBinaryOp_NotEqual => "!="
  | HLSLBinaryOp_Assign => "="
  | HLSLBinaryOp_AddAssign => "+="
  | HLSLBinaryOp_SubAssign => "-="
  | HLSLBinaryOp_MulAssign => "*="
  | HLSLBinaryOp_DivAssign => "/="
  | HLSLBinaryOp_And => "&&"
  | HLSLBinaryOp_Or => "||"
  end.

(** ** HLSLParser.cpp: the ranks of a call

    The loop of [GetFunctionCallCastRanks], [n] arguments to go.  It gives
    whether the function is viable and what it wrote to the rank buffer, or
    [None] where the C++ code has no defined behaviour: a chain that ends
    before [numArguments] nodes, or a null type name compared. *)
Fixpoint GetFunctionCallCastRanks_loop (n : nat) (expression : list HLSLExpression)
    (argument : list HLSLArgument) : option (bool * list Z) :=
  match n with
  | O => Some (true, [])
  | S n' =>
      match expression, argument with
      | e :: expression', a :: argument' =>
          match GetTypeCastRank (expressionType_of e) (arg_type a) with
          | None => None
          | Some rank =>
              if rank =? -1 then Some (false, [])
              else
                match GetFunctionCallCastRanks_loop n' expression' argument' with
                | None => None
                | Some (viable, rankBuffer) => Some (viable, rank :: rankBuffer)
                end
          end
      | _, _ => None
      end
  end.

(** The call is given by its [numArguments] and its chain of arguments. *)
Definition GetFunctionCallCastRanks (numArguments : Z) (callArgument : list HLSLExpression)
    (function : option HLSLFunctionDecl) : option (bool * list Z) :=
  match function with
  | None => Some (false, [])
  | Some f =>
      if negb (fn_numArguments f =? numArguments)
      then Some (false, [])       (* Function not viable *)
      else GetFunctionCallCastRanks_loop (Z.to_nat numArguments) callArgument (fn_argument f)
  end.

(** [std::sort(first, last, CompareRanks())]: the ranks in descending order. *)
Fixpoint insert_rank (rank : Z) (ranks : list Z) : list Z :=
  match ranks with
  | [] => [rank]
  | r :: ranks' => if r <? rank then rank :: ranks else r :: insert_rank rank ranks'
  end.

Definition sort_ranks (ranks : list Z) : list Z := foldr insert_rank [] ranks.

(** The loop at the end of [CompareFunctions]. *)
Fixpoint CompareFunctions_loop (function1Ranks function2Ranks : list Z)
    : CompareFunctionsResult :=
  match function1Ranks, function2Ranks with
  | r1 :: ranks1, r2 :: ranks2 =>
      if r1 <? r2 then Function1Better
      else if r2 <? r1 then Function2Better
      else CompareFunctions_loop ranks1 ranks2
  | _, _ => FunctionsEqual
  end.

Definition CompareFunctions (numArguments : Z) (callArgument : list HLSLExpression)
    (function1 function2 : option HLSLFunctionDecl) : option CompareFunctionsResult :=
  match GetFunctionCallCastRanks numArguments callArgument function1 with
  | None => None
  | Some (function1Viable, function1Ranks) =>
      match GetFunctionCallCastRanks numArguments callArgument function2 with
      | None => None
      | Some (function2Viable, function2Ranks) =>
          (* Both functions have to be viable to be able to compare them *)
          if negb (function1Viable && function2Viable)
          then
            if function1Viable then Some Function1Better
            else if function2Viable then Some Function2Better
            else Some FunctionsEqual
          else
            Some (CompareFunctions_loop (sort_ranks function1Ranks)
                                        (sort_ranks function2Ranks))
      end
  end.

Definition GetBinaryOpResultType (binaryOp : HLSLBinaryOp) (type1 type2 : HLSLType)
    : bool * HLSLType :=
  let v1 := HLSLBaseType_value (baseType type1) in
  let v2 := HLSLBaseType_value (baseType type2) in
  if (v1 <? HLSLBaseType_FirstNumeric) || (v1 >? HLSLBaseType_LastNumeric) || array type1
     || (v2 <? HLSLBaseType_FirstNumeric) || (v2 >? HLSLBaseType_LastNumeric) || array type2
  then (false, HLSLType_of HLSLBaseType_Unknown)
  else
    let result :=
      match binaryOp with
      | HLSLBinaryOp_And | HLSLBinaryOp_Or | HLSLBinaryOp_Less | HLSLBinaryOp_Greater
      | HLSLBinaryOp_LessEqual | HLSLBinaryOp_GreaterEqual
      | HLSLBinaryOp_Equal | HLSLBinaryOp_NotEqual => HLSLBaseType_Bool
      | _ =>
          nth (Z.to_nat (v2 - HLSLBaseType_FirstNumeric))
              (nth (Z.to_nat (v1 - HLSLBaseType_FirstNumeric)) _binaryOpTypeLookup [])
              HLSLBaseType_Unknown
      end in
    (negb (bool_decide (result = HLSLBaseType_Unknown)), HLSLType_of result).

(** ** HLSLParser.cpp: tokens *)

Definition Accept (token : HLSLToken) : Parser bool :=
  do t <- GetToken;
  if bool_decide (t = token) then Next ;; ret true else ret false.

(** [Accept(const char* token)] *)
Definition AcceptWord (token : string) : Parser bool :=
  do t <- GetToken;
  do p <- get;
  if bool_decide (t = HLSLToken_Identifier)
     && String_Equal token (tk_GetIdentifier (m_tokenizer p))
  then Next ;; ret true
  else ret false.

Definition Expect (token : HLSLToken) : Parser bool :=
  do accepted <- Accept token;
  if negb accepted then
    do p <- get;
    let want := GetTokenName token in
    let near := tk_GetTokenName (m_tokenizer p) in
    Error ("Syntax error: expected '" +:+ want +:+ "' near '" +:+ near +:+ "'") ;;
    ret false
  else ret true.

(** The functions with an output parameter give its value beside their
    result; [identifier] is the value it had at the call. *)
Definition AcceptIdentifier (identifier : option string) : Parser (bool * option string) :=
  do t <- GetToken;
  if bool_decide (t = HLSLToken_Identifier) then
    do p <- get;
    do s <- AddString (tk_GetIdentifier (m_tokenizer p));
    Next ;;
    ret (true, Some s)
  else ret (false, identifier).

Definition ExpectIdentifier (identifier : option string) : Parser (bool * option string) :=
  do (accepted, identifier) <- AcceptIdentifier identifier;
  if negb accepted then
    do p <- get;
    let near := tk_GetTokenName (m_tokenizer p) in
    Error ("Syntax error: expected identifier near '" +:+ near +:+ "'") ;;
    ret (false, Some "")
  else ret (true, identifier).

Definition AcceptFloat : Parser (option float) :=
  do t <- GetToken;
  if bool_decide (t = HLSLToken_FloatLiteral) then
    do p <- get;
    Next ;; ret (Some (tk_GetFloat (m_tokenizer p)))
  else ret None.

Definition AcceptInt : Parser (option Z) :=
  do t <- GetToken;
  if bool_decide (t = HLSLToken_IntLiteral) then
    do p <- get;
    Next ;; ret (Some (tk_GetInt (m_tokenizer p)))
  else ret None.

(** ** HLSLParser.cpp: names in scope

    Strings reach the parser through the pool, so two pointers to names are
    equal exactly when the names are. *)
Definition FindUserDefinedType (name : option string) (p : HLSLParser) : option HLSLStruct :=
  match name with
  | None => None
  | Some n => List.find (fun s => String.eqb (struct_name s) n) (m_userTypes p)
  end.

Definition CheckForUnexpectedEndOfStream (endToken : HLSLToken) : Parser bool :=
  do atEnd <- Accept HLSLToken_EndOfStream;
  if atEnd then
    Error ("Unexpected end of file while looking for '" +:+ GetTokenName endToken +:+ "'") ;;
    ret true
  else ret false.

Definition BeginScope : Parser unit :=
  (* Use NULL as a sentinel that indices a new scope level. *)
  modify (fun p =>
    set_variables (m_variables p ++ [Build_Variable None (HLSLType_of HLSLBaseType_Unknown)]) p).

(** The variables below the last sentinel, read from the end of the array;
    [None] when the index runs below zero. *)
Fixpoint EndScope_loop (reversed : list ParserVariable) : option (list ParserVariable) :=
  match reversed with
  | [] => None
  | v :: below =>
      match var_name v with
      | None => Some (rev below)
      | Some _ => EndScope_loop below
      end
  end.

Definition EndScope : Parser unit :=
  do p <- get;
  do kept <- deref (EndScope_loop (rev (m_variables p)));
  modify (set_variables kept).

(** The loop of [FindVariable], downwards from index [i]. *)
Fixpoint FindVariable_loop (name : string) (numGlobals : Z) (reversed : list ParserVariable)
    (i : Z) : option (HLSLType * bool) :=
  match reversed with
  | [] => None
  | v :: below =>
      match var_name v with
      | Some n =>
          if String.eqb n name then Some (var_type v, i <? numGlobals)
          else FindVariable_loop name numGlobals below (i - 1)
      | None => FindVariable_loop name numGlobals below (i - 1)
      end
  end.

(** The type found and the value given to [global]. *)
Definition FindVariable (name : string) (p : HLSLParser) : option (HLSLType * bool) :=
  FindVariable_loop name (m_numGlobals p) (rev (m_variables p))
    (Z.of_nat (length (m_variables p)) - 1).

Definition FindFunction (name : string) (p : HLSLParser) : option HLSLFunctionDecl :=
  List.find (fun f => String.eqb (fn_name f) name) (m_functions p).

Definition DeclareVariable (name : string) (type : HLSLType) : Parser unit :=
  modify (fun p =>
    let p := if Z.of_nat (length (m_variables p)) =? m_numGlobals p
             then set_numGlobals (m_numGlobals p + 1) p else p in
    set_variables (m_variables p ++ [Build_Variable (Some name) type]) p).

Definition GetIsFunction (name : string) (p : HLSLParser) : bool :=
  existsb (fun f => String.eqb (fn_name f) name) (m_functions p)
  || existsb (fun f => String_Equal name (fn_name f)) _intrinsic.

(** ** HLSLParser.cpp: overload resolution *)

(** The locals of [MatchFunctionCall]. *)
Record MatchFunctionCall_locals : Type := Build_MatchFunctionCall_locals {
  matchedFunction : option HLSLFunctionDecl;
  numMatchedOverloads : Z;
  nameMatches : bool
}.

(** The body of both loops of [MatchFunctionCall] for a function of the
    name looked for. *)
Definition MatchFunctionCall_visit (numArguments : Z) (callArgument : list HLSLExpression)
    (function : HLSLFunctionDecl) (l : MatchFunctionCall_locals)
    : option MatchFunctionCall_locals :=
  match CompareFunctions numArguments callArgument (Some function) (matchedFunction l) with
  | None => None
  | Some Function1Better => Some (Build_MatchFunctionCall_locals (Some function) 1 true)
  | Some FunctionsEqual =>
      Some (Build_MatchFunctionCall_locals (matchedFunction l) (numMatchedOverloads l + 1) true)
  | Some Function2Better =>
      Some (Build_MatchFunctionCall_locals (matchedFunction l) (numMatchedOverloads l) true)
  end.

(** One of the loops, over the user-defined functions or over the intrinsics. *)
Fixpoint MatchFunctionCall_loop (numArguments : Z) (callArgument : list HLSLExpression)
    (name : string) (functions : list HLSLFunctionDecl) (l : MatchFunctionCall_locals)
    : option MatchFunctionCall_locals :=
  match functions with
  | [] => Some l
  | function :: functions' =>
      if String.eqb (fn_name function) name then
        match MatchFunctionCall_visit numArguments callArgument function l with
        | None => None
        | Some l' => MatchFunctionCall_loop numArguments callArgument name functions' l'
        end
      else MatchFunctionCall_loop numArguments callArgument name functions' l
  end.

Definition MatchFunctionCall (numArguments : Z) (callArgument : list HLSLExpression)
    (name : string) : Parser (option HLSLFunctionDecl) :=
  do p <- get;
  let l := Build_MatchFunctionCall_locals None 0 false in
  (* Get the user defined functions with the specified name. *)
  do l <- deref (MatchFunctionCall_loop numArguments callArgument name (m_functions p) l);
  (* Get the intrinsic functions with the specified name. *)
  do l <- deref (MatchFunctionCall_loop numArguments callArgument name _intrinsic l);
  match matchedFunction l with
  | Some _ =>
      if numMatchedOverloads l >? 1 then
        (* Multiple overloads match. *)
        Error ("'" +:+ name +:+ "' " +:+ format_d (numMatchedOverloads l)
               +:+ " overloads have similar conversions") ;;
        ret None
      else ret (matchedFunction l)
  | None =>
      (if nameMatches l
       then Error ("'" +:+ name +:+ "' no overloaded function matched all of the arguments")
       else Error ("Undeclared identifier '" +:+ name +:+ "'")) ;;
      ret None
  end.

(** ** HLSLParser.cpp: the type of a member *)

Definition isdigit (c : ascii) : bool :=
  (48 <=? Z.of_N (N_of_ascii c)) && (Z.of_N (N_of_ascii c) <=? 57).

Definition is_swizzle_char (c : ascii) : bool :=
  negb (negb (Ascii.eqb c "x") && negb (Ascii.eqb c "y") && negb (Ascii.eqb c "z")
        && negb (Ascii.eqb c "w") && negb (Ascii.eqb c "r") && negb (Ascii.eqb c "g")
        && negb (Ascii.eqb c "b") && negb (Ascii.eqb c "a")).

(** The loop over a swizzle: the number of characters read when the loop
    reaches the end of [fieldName], nothing when it stops at a character that
    is not one of xyzwrgba. *)
Fixpoint GetMemberType_swizzle (fieldName : string) (swizzleLength : Z) : option Z :=
  match fieldName with
  | EmptyString => Some swizzleLength
  | String c rest =>
      if is_swizzle_char c then GetMemberType_swizzle rest (swizzleLength + 1) else None
  end.

(** Whether the two digits of a matrix element stay inside the matrix. *)
Definition matrix_element_inside (base : Z) (d0 d1 : ascii) (height numComponents : Z) : bool :=
  let r := (Z.of_N (N_of_ascii d0) - 48) - base in
  let c := (Z.of_N (N_of_ascii d1) - 48) - base in
  negb ((r >=? height) || (c >=? numComponents)).

(** The loop over a matrix accessor (_m00 or _11, any number of them): where
    the loop ended and the number of elements read, or nothing where the code
    returns false from inside the loop. *)
Fixpoint GetMemberType_matrix (height numComponents : Z) (n : string) (swizzleLength : Z)
    : option (string * Z) :=
  match n with
  | String u n1 =>
      if Ascii.eqb u "_" then
        match n1 with
        | String m n2 =>
            if Ascii.eqb m "m" then
              match n2 with
              | String d0 (String d1 rest) =>
                  if isdigit d0 && isdigit d1 && matrix_element_inside 0 d0 d1 height numComponents
                  then GetMemberType_matrix height numComponents rest (swizzleLength + 1)
                  else None
              | _ => None
              end
            else
              match n1 with
              | String d0 (String d1 rest) =>
                  if isdigit d0 && isdigit d1 && matrix_element_inside 1 d0 d1 height numComponents
                  then GetMemberType_matrix height numComponents rest (swizzleLength + 1)
                  else None
              | _ => None
              end
        | EmptyString => None
        end
      else Some (n, swizzleLength)
  | EmptyString => Some (n, swizzleLength)
  end.

(** [floatType], [halfType], [intType] and [uintType]. *)
Definition floatType : list HLSLBaseType :=
  [HLSLBaseType_Float; HLSLBaseType_Float2; HLSLBaseType_Float3; HLSLBaseType_Float4].
Definition halfType : list HLSLBaseType :=
  [HLSLBaseType_Half; HLSLBaseType_Half2; HLSLBaseType_Half3; HLSLBaseType_Half4].
Definition intType : list HLSLBaseType :=
  [HLSLBaseType_Int; HLSLBaseType_Int2; HLSLBaseType_Int3; HLSLBaseType_Int4].
Definition uintType : list HLSLBaseType :=
  [HLSLBaseType_Uint; HLSLBaseType_Uint2; HLSLBaseType_Uint3; HLSLBaseType_Uint4].

(** [table[i]]: nothing outside the bounds of the array. *)
Definition array_at {A : Type} (table : list A) (i : Z) : option A :=
  if i <? 0 then None else nth_error table (Z.to_nat i).

Definition set_baseType (b : HLSLBaseType) (t : HLSLType) : HLSLType :=
  Build_HLSLType b (typeName t) (array t) (arraySize t) (constant t).

(** The result and the value left in [memberType]. *)
Definition GetMemberType (objectType : HLSLType) (fieldName : string) (memberType : HLSLType)
    : Parser (bool * HLSLType) :=
  if bool_decide (baseType objectType = HLSLBaseType_UserDefined) then
    do p <- get;
    let structure := FindUserDefinedType (typeName objectType) p in
    ASSERT (bool_decide (is_Some structure)) ;;
    do structure <- deref structure;
    match List.find (fun field => String.eqb (sf_name field) fieldName) (struct_field structure) with
    | Some field => ret (true, sf_type field)
    | None => ret (false, memberType)
    end
  else
    let desc := _baseTypeDescriptions (baseType objectType) in
    if bool_decide (numericType desc = NumericType_NaN) then
      (* Currently we don't have an non-numeric types that allow member access. *)
      ret (false, memberType)
    else
      do swizzleLength <-
        (if numDimensions desc <=? 1 then
           (* Check for a swizzle on the scalar/vector types. *)
           match GetMemberType_swizzle fieldName 0 with
           | None =>
               Error ("Invalid swizzle '" +:+ fieldName +:+ "'") ;; ret None
           | Some swizzleLength =>
               ASSERT (swizzleLength >? 0) ;; ret (Some swizzleLength)
           end
         else
           (* Check for a matrix element access (e.g. _m00 or _11) *)
           match GetMemberType_matrix (height desc) (numComponents desc) fieldName 0 with
           | None => ret None
           | Some (n, swizzleLength) =>
               if negb (bool_decide (n = EmptyString)) then ret None
               else ret (Some swizzleLength)
           end);
      match swizzleLength with
      | None => ret (false, memberType)
      | Some swizzleLength =>
          if swizzleLength >? 4 then
            Error ("Invalid swizzle '" +:+ fieldName +:+ "'") ;;
            ret (false, memberType)
          else
            match numericType desc with
            | NumericType_Float =>
                do b <- deref (array_at floatType (swizzleLength - 1));
                ret (true, set_baseType b memberType)
            | NumericType_Half =>
                do b <- deref (array_at halfType (swizzleLength - 1));
                ret (true, set_baseType b memberType)
            | NumericType_Int =>
                do b <- deref (array_at intType (swizzleLength - 1));
                ret (true, set_baseType b memberType)
            | NumericType_Uint =>
                do b <- deref (array_at uintType (swizzleLength - 1));
                ret (true, set_baseType b memberType)
            | _ => ASSERT false ;; ret (true, memberType)
            end
      end.

Definition CheckTypeCast (srcType dstType : HLSLType) : Parser bool :=
  do rank <- deref (GetTypeCastRank srcType dstType);
  if rank =? -1 then
    do srcTypeName <- deref (Parser_GetTypeName srcType);
    do dstTypeName <- deref (Parser_GetTypeName dstType);
    Error ("Cannot implicitly convert from '" +:+ srcTypeName +:+ "' to '"
           +:+ dstTypeName +:+ "'") ;;
    ret false
  else ret true.

(** ** HLSLParser.cpp: types and operators *)

(** The built-in type of a token; [HLSLBaseType_Void] for the other tokens. *)
Definition AcceptType_builtin (token : HLSLToken) : HLSLBaseType :=
  match token with
  | HLSLToken_Float => HLSLBaseType_Float
  | HLSLToken_Float2 => HLSLBaseType_Float2
  | HLSLToken_Float3 => HLSLBaseType_Float3
  | HLSLToken_Float4 => HLSLBaseType_Float4
  | HLSLToken_Float3x3 => HLSLBaseType_Float3x3
  | HLSLToken_Float4x4 => HLSLBaseType_Float4x4
  | HLSLToken_Half => HLSLBaseType_Half
  | HLSLToken_Half2 => HLSLBaseType_Half2
  | HLSLToken_Half3 => HLSLBaseType_Half3
  | HLSLToken_Half4 => HLSLBaseType_Half4
  | HLSLToken_Half3x3 => HLSLBaseType_Half3x3
  | HLSLToken_Half4x4 => HLSLBaseType_Half4x4
  | HLSLToken_Bool => HLSLBaseType_Bool
  | HLSLToken_Int => HLSLBaseType_Int
  | HLSLToken_Int2 => HLSLBaseType_Int2
  | HLSLToken_Int3 => HLSLBaseType_Int3
  | HLSLToken_Int4 => HLSLBaseType_Int4
  | HLSLToken_Uint => HLSLBaseType_Uint
  | HLSLToken_Uint2 => HLSLBaseType_Uint2
  | HLSLToken_Uint3 => HLSLBaseType_Uint3
  | HLSLToken_Uint4 => HLSLBaseType_Uint4
  | HLSLToken_Texture => HLSLBaseType_Texture
  | HLSLToken_Sampler2D => HLSLBaseType_Sampler2D
  | HLSLToken_SamplerCube => HLSLBaseType_SamplerCube
  | _ => HLSLBaseType_Void
  end.

(** The values left in [type], [typeName] and [*constant] beside the result.
    [hasConstant] tells whether [constant] is a pointer to a flag; [typeName]
    and [constant] are the values at the call. *)
Definition AcceptType (allowVoid : bool) (typeName : option string)
    (hasConstant : bool) (constant : bool)
    : Parser (bool * (HLSLBaseType * option string * bool)) :=
  do constant <- (if hasConstant then Accept HLSLToken_Const else ret constant);
  do token <- GetToken;
  (* Check built-in types. *)
  let type := AcceptType_builtin token in
  if negb (bool_decide (type = HLSLBaseType_Void)) then
    Next ;; ret (true, (type, typeName, constant))
  else
    do isVoid <- (if allowVoid then Accept HLSLToken_Void else ret false);
    if isVoid then ret (true, (HLSLBaseType_Void, typeName, constant))
    else if bool_decide (token = HLSLToken_Identifier) then
      do p <- get;
      do identifier <- AddString (tk_GetIdentifier (m_tokenizer p));
      do p <- get;
      match FindUserDefinedType (Some identifier) p with
      | Some _ =>
          Next ;; ret (true, (HLSLBaseType_UserDefined, Some identifier, constant))
      | None => ret (false, (type, typeName, constant))
      end
    else ret (false, (type, typeName, constant)).

Definition ExpectType (allowVoid : bool) (typeName : option string)
    (hasConstant : bool) (constant : bool)
    : Parser (bool * (HLSLBaseType * option string * bool)) :=
  do (accepted, out) <- AcceptType allowVoid typeName hasConstant constant;
  if negb accepted then Error "Expected type" ;; ret (false, out)
  else ret (true, out).

Definition AcceptBinaryOperator (priority : Z) : Parser (option HLSLBinaryOp) :=
  do token <- GetToken;
  let binaryOp :=
    match token with
    | HLSLToken_Char c =>
        if Ascii.eqb c "+" then Some HLSLBinaryOp_Add
        else if Ascii.eqb c "-" then Some HLSLBinaryOp_Sub
        else if Ascii.eqb c "*" then Some HLSLBinaryOp_Mul
        else if Ascii.eqb c "/" then Some HLSLBinaryOp_Div
        else if Ascii.eqb c "<" then Some HLSLBinaryOp_Less
        else if Ascii.eqb c ">" then Some HLSLBinaryOp_Greater
        else None
    | HLSLToken_LessEqual => Some HLSLBinaryOp_LessEqual
    | HLSLToken_GreaterEqual => Some HLSLBinaryOp_GreaterEqual
    | HLSLToken_EqualEqual => Some HLSLBinaryOp_Equal
    | HLSLToken_NotEqual => Some HLSLBinaryOp_NotEqual
    | HLSLToken_AndAnd => Some HLSLBinaryOp_And
    | HLSLToken_BarBar => Some HLSLBinaryOp_Or
    | _ => None
    end in
  match binaryOp with
  | None => ret None
  | Some binaryOp =>
      do opPriority <- deref (_binaryOpPriority binaryOp);
      if opPriority >? priority then Next ;; ret (Some binaryOp) else ret None
  end.

Definition AcceptUnaryOperator (pre : bool) : Parser (option HLSLUnaryOp) :=
  do token <- GetToken;
  let unaryOp :=
    if bool_decide (token = HLSLToken_PlusPlus)
    then Some (if pre then HLSLUnaryOp_PreIncrement else HLSLUnaryOp_PostIncrement)
    else if bool_decide (token = HLSLToken_MinusMinus)
    then Some (if pre then HLSLUnaryOp_PreDecrement else HLSLUnaryOp_PostDecrement)
    else if pre && bool_decide (token = HLSLToken_Char "-")
    then Some HLSLUnaryOp_Negative
    else if pre && bool_decide (token = HLSLToken_Char "+")
    then Some HLSLUnaryOp_Positive
    else if pre && bool_decide (token = HLSLToken_Char "!")
    then Some HLSLUnaryOp_Not
    else None in
  match unaryOp with
  | None => ret None
  | Some unaryOp => Next ;; ret (Some unaryOp)
  end.

Definition AcceptAssign : Parser (option HLSLBinaryOp) :=
  do a <- Accept (HLSLToken_Char "=");
  if a then ret (Some HLSLBinaryOp_Assign) else
  do a <- Accept HLSLToken_PlusEqual;
  if a then ret (Some HLSLBinaryOp_AddAssign) else
  do a <- Accept HLSLToken_MinusEqual;
  if a then ret (Some HLSLBinaryOp_SubAssign) else
  do a <- Accept HLSLToken_TimesEqual;
  if a then ret (Some HLSLBinaryOp_MulAssign) else
  do a <- Accept HLSLToken_DivideEqual;
  if a then ret (Some HLSLBinaryOp_DivAssign) else
  ret None.

(** The type of [array[index]] when [array] is not an array. *)
Definition ArrayAccess_baseType (b : HLSLBaseType) : option HLSLBaseType :=
  match b with
  | HLSLBaseType_Float2 | HLSLBaseType_Float3 | HLSLBaseType_Float4 => Some HLSLBaseType_Float
  | HLSLBaseType_Float3x3 => Some HLSLBaseType_Float3
  | HLSLBaseType_Float4x4 => Some HLSLBaseType_Float4
  | HLSLBaseType_Half2 | HLSLBaseType_Half3 | HLSLBaseType_Half4 => Some HLSLBaseType_Half
  | HLSLBaseType_Half3x3 => Some HLSLBaseType_Half3
  | HLSLBaseType_Half4x4 => Some HLSLBaseType_Half4
  | HLSLBaseType_Int2 | HLSLBaseType_Int3 | HLSLBaseType_Int4 => Some HLSLBaseType_Int
  | HLSLBaseType_Uint2 | HLSLBaseType_Uint3 | HLSLBaseType_Uint4 => Some HLSLBaseType_Uint
  | _ => None
  end.

Definition literal_type (b : HLSLBaseType) : HLSLType :=
  Build_HLSLType b None false None true.

(** ** HLSLParser.cpp: expressions

    The functions that parse call each other and loop; each call and each
    turn of a loop takes one unit of [fuel].  A function with the output
    parameter [expression] gives the value the parameter holds at the return,
    also when it returns false: its callers pass a null pointer in, and
    [ParseStatement] reads the pointer after a failed call. *)

Abbreviation ExprResult := (bool * option HLSLExpression)%type.

(** [while (AcceptUnaryOperator(false, unaryOp))]: the expression and [done]. *)
Fixpoint ParseTerminalExpression_postfix (fuel : nat) (fileName : string) (line : Z)
    (expression : HLSLExpression) (done : bool) : Parser (HLSLExpression * bool) :=
  match fuel with
  | O => out_of_fuel
  | S fuel =>
      do unaryOp <- AcceptUnaryOperator false;
      match unaryOp with
      | None => ret (expression, done)
      | Some unaryOp =>
          do node <- AddNode (Some fileName) line;
          ParseTerminalExpression_postfix fuel fileName line
            (HLSLUnaryExpression node (expressionType_of expression) unaryOp expression) false
      end
  end.

(** [while (Accept('.'))] *)
Fixpoint ParseTerminalExpression_member (fuel : nat) (fileName : string) (line : Z)
    (expression : HLSLExpression) (done : bool) : Parser (bool * HLSLExpression * bool) :=
  match fuel with
  | O => out_of_fuel
  | S fuel =>
      do dot <- Accept (HLSLToken_Char ".");
      if negb dot then ret (true, expression, done)
      else
        do node <- AddNode (Some fileName) line;
        do (ok, field) <- ExpectIdentifier None;
        if negb ok then ret (false, expression, done) else
        do field <- deref field;
        do (ok, memberType) <-
          GetMemberType (expressionType_of expression) field (HLSLType_of HLSLBaseType_Unknown);
        if negb ok then
          Error ("Couldn't access '" +:+ field +:+ "'") ;;
          ret (false, expression, done)
        else
          ParseTerminalExpression_member fuel fileName line
            (HLSLMemberAccess node memberType expression field) false
  end.

Fixpoint ParseExpression (fuel : nat) : Parser ExprResult :=
  match fuel with
  | O => out_of_fuel
  | S fuel =>
      do (ok, expression) <- ParseBinaryExpression fuel 0;
      if negb ok then ret (false, expression)
      else
        do expression <- deref expression;
        ParseExpression_loop fuel expression
  end

(** The loop of [ParseExpression] over the assignment operators. *)
with ParseExpression_loop (fuel : nat) (expression : HLSLExpression) : Parser ExprResult :=
  match fuel with
  | O => out_of_fuel
  | S fuel =>
      do assignOp <- AcceptAssign;
      match assignOp with
      | None => ret (true, Some expression)
      | Some assignOp =>
          do (ok, expression2) <- ParseBinaryExpression fuel 0;
          if negb ok then ret (false, Some expression)
          else
            do expression2 <- deref expression2;
            do node <- AddNode (fileName (expr_node expression)) (line (expr_node expression));
            (* This type is not strictly correct, since the type should be a reference.
               However, for our usage of the types it should be sufficient. *)
            let binaryExpression :=
              HLSLBinaryExpression node (expressionType_of expression) assignOp
                expression expression2 in
            do castable <- CheckTypeCast (expressionType_of expression2)
                                         (expressionType_of expression);
            if negb castable then ret (false, Some expression)
            else ParseExpression_loop fuel binaryExpression
      end
  end

with ParseBinaryExpression (fuel : nat) (priority : Z) : Parser ExprResult :=
  match fuel with
  | O => out_of_fuel
  | S fuel =>
      do fileName <- GetFileName;
      do line <- GetLineNumber;
      do (ok, expression, needsEndParen) <- ParseTerminalExpression fuel;
      if negb ok then ret (false, expression)
      else
        do expression <- deref expression;
        ParseBinaryExpression_loop fuel priority fileName line needsEndParen expression
  end

(** The [while (1)] of [ParseBinaryExpression] and the return after it. *)
with ParseBinaryExpression_loop (fuel : nat) (priority : Z) (fileName : string) (line : Z)
    (needsEndParen : bool) (expression : HLSLExpression) : Parser ExprResult :=
  match fuel with
  | O => out_of_fuel
  | S fuel =>
      do binaryOp <- AcceptBinaryOperator priority;
      match binaryOp with
      | Some binaryOp =>
          do opPriority <- deref (_binaryOpPriority binaryOp);
          do (ok, expression2) <- ParseBinaryExpression fuel opPriority;
          if negb ok then ret (false, Some expression)
          else
            do expression2 <- deref expression2;
            do node <- AddNode (Some fileName) line;
            let (typed, type) :=
              GetBinaryOpResultType binaryOp (expressionType_of expression)
                                    (expressionType_of expression2) in
            if negb typed then
              do typeName1 <- deref (Parser_GetTypeName (expressionType_of expression));
              do typeName2 <- deref (Parser_GetTypeName (expressionType_of expression2));
              Error ("binary '" +:+ GetBinaryOpName binaryOp
                     +:+ "' : no global operator found which takes types '" +:+ typeName1
                     +:+ "' and '" +:+ typeName2
                     +:+ "' (or there is no acceptable conversion)") ;;
              ret (false, Some expression)
            else
              ParseBinaryExpression_loop fuel priority fileName line needsEndParen
                (HLSLBinaryExpression node type binaryOp expression expression2)
      | None =>
          do question <- (if _conditionalOpPriority >? priority
                          then Accept (HLSLToken_Char "?") else ret false);
          if question then
            do node <- AddNode (Some fileName) line;
            do (ok1, expression1) <- ParseBinaryExpression fuel _conditionalOpPriority;
            if negb ok1 then ret (false, Some expression) else
            do colon <- Expect (HLSLToken_Char ":");
            if negb colon then ret (false, Some expression) else
            do (ok2, expression2) <- ParseBinaryExpression fuel _conditionalOpPriority;
            if negb ok2 then ret (false, Some expression) else
            do expression1 <- deref expression1;
            do expression2 <- deref expression2;
            (* Make sure both cases have compatible types. *)
            do rank <- deref (GetTypeCastRank (expressionType_of expression1)
                                              (expressionType_of expression2));
            if rank =? -1 then
              do srcTypeName <- deref (Parser_GetTypeName (expressionType_of expression2));
              do dstTypeName <- deref (Parser_GetTypeName (expressionType_of expression1));
              Error ("':' no possible conversion from from '" +:+ srcTypeName
                     +:+ "' to '" +:+ dstTypeName +:+ "'") ;;
              ret (false, Some expression)
            else
              ParseBinaryExpression_loop fuel priority fileName line needsEndParen
                (HLSLConditionalExpression node (expressionType_of expression1)
                   expression expression1 expression2)
          else
            if negb needsEndParen then ret (true, Some expression)
            else
              do closed <- Expect (HLSLToken_Char ")");
              ret (closed, Some expression)
      end
  end

with ParsePartialConstructor (fuel : nat) (type : HLSLBaseType) (typeName : option string)
    : Parser ExprResult :=
  match fuel with
  | O => out_of_fuel
  | S fuel =>
      do fileName <- GetFileName;
      do line <- GetLineNumber;
      do node <- AddNode (Some fileName) line;
      let ctype := Build_HLSLType type typeName false None false in
      do (ok, argument, numArguments) <- ParseExpressionList fuel (HLSLToken_Char ")") false [] 0;
      if negb ok then ret (false, None)
      else
        ret (true, Some (HLSLConstructorExpression node
                           (Build_HLSLType type typeName false None true) ctype argument))
  end

(** The value of [expression] and of [needsEndParen] beside the result. *)
with ParseTerminalExpression (fuel : nat) : Parser (bool * option HLSLExpression * bool) :=
  match fuel with
  | O => out_of_fuel
  | S fuel =>
      do fileName <- GetFileName;
      do line <- GetLineNumber;
      do unaryOp <- AcceptUnaryOperator true;
      match unaryOp with
      | Some unaryOp =>
          do node <- AddNode (Some fileName) line;
          do (ok, operand, needsEndParen) <- ParseTerminalExpression fuel;
          if negb ok then ret (false, None, needsEndParen)
          else
            do operand <- deref operand;
            let type := if bool_decide (unaryOp = HLSLUnaryOp_Not)
                        then HLSLType_of HLSLBaseType_Bool
                        else expressionType_of operand in
            ret (true, Some (HLSLUnaryExpression node type unaryOp operand), needsEndParen)
      | None =>
      (* Expressions inside parenthesis or casts. *)
      do paren <- Accept (HLSLToken_Char "(");
      if paren then
        (* Check for a casting operator. *)
        do (isType, (baseType, typeName, constant)) <- AcceptType false None true false;
        if isType then
          (* This is actually a type constructor like (float2(... *)
          do paren2 <- Accept (HLSLToken_Char "(");
          if paren2 then
            do (ok, expression) <- ParsePartialConstructor fuel baseType typeName;
            ret (ok, expression, true)
          else
            do node <- AddNode (Some fileName) line;
            let type := Build_HLSLType baseType typeName false None constant in
            do closed <- Expect (HLSLToken_Char ")");
            if negb closed then
              ret (false, Some (HLSLCastingExpression node type type None), false)
            else
              do (ok, operand) <- ParseExpression fuel;
              ret (ok, Some (HLSLCastingExpression node type type operand), false)
        else
          do (ok, expression) <- ParseExpression fuel;
          if negb ok then ret (false, expression, false)
          else
            do closed <- Expect (HLSLToken_Char ")");
            ret (closed, expression, false)
      else
      (* Terminal values. *)
      do fValue_ <- AcceptFloat;
      match fValue_ with
      | Some f =>
          do node <- AddNode (Some fileName) line;
          ret (true, Some (HLSLLiteralExpression node (literal_type HLSLBaseType_Float)
                             HLSLBaseType_Float (fValue f)), false)
      | None =>
      do iValue_ <- AcceptInt;
      match iValue_ with
      | Some i =>
          do node <- AddNode (Some fileName) line;
          ret (true, Some (HLSLLiteralExpression node (literal_type HLSLBaseType_Int)
                             HLSLBaseType_Int (iValue i)), false)
      | None =>
      do isTrue <- Accept HLSLToken_True;
      if isTrue then
        do node <- AddNode (Some fileName) line;
        ret (true, Some (HLSLLiteralExpression node (literal_type HLSLBaseType_Bool)
                           HLSLBaseType_Bool (bValue true)), false)
      else
      do isFalse <- Accept HLSLToken_False;
      if isFalse then
        do node <- AddNode (Some fileName) line;
        ret (true, Some (HLSLLiteralExpression node (literal_type HLSLBaseType_Bool)
                           HLSLBaseType_Bool (bValue false)), false)
      else
      (* Type constructor. *)
      do (isType, (type, typeName, _)) <- AcceptType false None false false;
      if isType then
        Expect (HLSLToken_Char "(") ;;
        do (ok, expression) <- ParsePartialConstructor fuel type typeName;
        if negb ok then ret (false, expression, false)
        else
          do expression <- deref expression;
          ParseTerminalExpression_loop fuel fileName line expression
      else
        do node <- AddNode (Some fileName) line;
        do (ok, name) <- ExpectIdentifier None;
        if negb ok then ret (false, None, false)
        else
          do name <- deref name;
          do p <- get;
          match FindVariable name p with
          | Some (identifierType, global) =>
              ParseTerminalExpression_loop fuel fileName line
                (HLSLIdentifierExpression node identifierType name global)
          | None =>
              if negb (GetIsFunction name p) then
                Error ("Undeclared identifier '" +:+ name +:+ "'") ;;
                ret (false, None, false)
              else
                (* Functions are always global scope. *)
                ParseTerminalExpression_loop fuel fileName line
                  (HLSLIdentifierExpression node (HLSLType_of HLSLBaseType_Unknown) name true)
          end
      end end end
  end

(** One turn of [while (!done)] in [ParseTerminalExpression]. *)
with ParseTerminalExpression_loop (fuel : nat) (fileName : string) (line : Z)
    (expression : HLSLExpression) : Parser (bool * option HLSLExpression * bool) :=
  match fuel with
  | O => out_of_fuel
  | S fuel =>
      (* Post fix unary operator *)
      do (expression, done1) <- ParseTerminalExpression_postfix fuel fileName line expression true;
      (* Member access operator. *)
      do (ok, expression, done2) <- ParseTerminalExpression_member fuel fileName line expression done1;
      if negb ok then ret (false, Some expression, false) else
      (* Handle array access. *)
      do (ok, expression, done3) <- ParseTerminalExpression_index fuel fileName line expression done2;
      if negb ok then ret (false, Some expression, false) else
      (* Handle function calls. Note, HLSL functions aren't like C function
         pointers -- we can only directly call on an identifier, not on an
         expression. *)
      do paren <- Accept (HLSLToken_Char "(");
      if paren then
        do node <- AddNode (Some fileName) line;
        do (ok, argument, numArguments) <-
          ParseExpressionList fuel (HLSLToken_Char ")") false [] 0;
        if negb ok then ret (false, Some expression, false) else
        match expression with
        | HLSLIdentifierExpression _ _ name _ =>
            do function <- MatchFunctionCall numArguments argument name;
            match function with
            | None => ret (false, Some expression, false)
            | Some function =>
                ParseTerminalExpression_loop fuel fileName line
                  (HLSLFunctionCall node (fn_returnType function) function numArguments argument)
            end
        | _ =>
            Error "Expected function identifier" ;;
            ret (false, Some expression, false)
        end
      else if done3 then ret (true, Some expression, false)
      else ParseTerminalExpression_loop fuel fileName line expression
  end

(** [while (Accept('['))] *)
with ParseTerminalExpression_index (fuel : nat) (fileName : string) (line : Z)
    (expression : HLSLExpression) (done : bool) : Parser (bool * HLSLExpression * bool) :=
  match fuel with
  | O => out_of_fuel
  | S fuel =>
      do bracket <- Accept (HLSLToken_Char "[");
      if negb bracket then ret (true, expression, done)
      else
        do node <- AddNode (Some fileName) line;
        do (ok, index) <- ParseExpression fuel;
        if negb ok then ret (false, expression, done) else
        do closed <- Expect (HLSLToken_Char "]");
        if negb closed then ret (false, expression, done) else
        do index <- deref index;
        let objectType := expressionType_of expression in
        if array objectType then
          ParseTerminalExpression_index fuel fileName line
            (HLSLArrayAccess node
               (Build_HLSLType (baseType objectType) (typeName objectType) false None
                               (constant objectType))
               expression index) false
        else
          match ArrayAccess_baseType (baseType objectType) with
          | Some b =>
              ParseTerminalExpression_index fuel fileName line
                (HLSLArrayAccess node (HLSLType_of b) expression index) false
          | None =>
              Error "array, matrix, vector, or indexable object type expected in index expression" ;;
              ret (false, expression, done)
          end
  end

(** The chain from [firstExpression] and [numExpressions] beside the result;
    one turn of the loop. *)
with ParseExpressionList (fuel : nat) (endToken : HLSLToken) (allowEmptyEnd : bool)
    (expressions : list HLSLExpression) (numExpressions : Z)
    : Parser (bool * list HLSLExpression * Z) :=
  match fuel with
  | O => out_of_fuel
  | S fuel =>
      do atEnd <- Accept endToken;
      if atEnd then ret (true, expressions, numExpressions) else
      do eof <- CheckForUnexpectedEndOfStream endToken;
      if eof then ret (false, expressions, numExpressions) else
      do comma <- (if numExpressions >? 0 then Expect (HLSLToken_Char ",") else ret true);
      if negb comma then ret (false, expressions, numExpressions) else
      (* It is acceptable for the final element in the initialization list to
         have a trailing comma in some cases, like array initialization such as {1, 2, 3,} *)
      do emptyEnd <- (if allowEmptyEnd then Accept endToken else ret false);
      if emptyEnd then ret (true, expressions, numExpressions) else
      do (ok, expression) <- ParseExpression fuel;
      if negb ok then ret (false, expressions, numExpressions) else
      do expression <- deref expression;
      ParseExpressionList fuel endToken allowEmptyEnd (expressions ++ [expression])
        (numExpressions + 1)
  end.

(** ** HLSLParser.cpp: declarations and statements *)

Definition set_array (a : bool) (size : option HLSLExpression) (t : HLSLType) : HLSLType :=
  Build_HLSLType (baseType t) (typeName t) a size (constant t).

(** The values left in [type] and [name] beside the result; both are fresh
    at every call ([HLSLType()] and an unset name). *)
Definition AcceptDeclaration (fuel : nat) (allowUnsizedArray : bool)
    : Parser (bool * HLSLType * option string) :=
  do (isType, (baseType, typeName, constant)) <- AcceptType false None true false;
  let type := Build_HLSLType baseType typeName false None constant in
  if negb isType then ret (false, type, None) else
  do (ok, name) <- ExpectIdentifier None;
  if negb ok then
    (* TODO: false means we didn't accept a declaration and we had an error! *)
    ret (false, type, name)
  else
  (* Handle array syntax. *)
  do bracket <- Accept (HLSLToken_Char "[");
  if bracket then
    let type := set_array true None type in
    (* Optionally allow no size to the specified for the array. *)
    do closed <- Accept (HLSLToken_Char "]");
    if closed && allowUnsizedArray then ret (true, type, name) else
    do (ok, size) <- ParseExpression fuel;
    let type := set_array true size type in
    if negb ok then ret (false, type, name) else
    do closed <- Expect (HLSLToken_Char "]");
    ret (closed, type, name)
  else ret (true, type, name).

Definition ExpectDeclaration (fuel : nat) (allowUnsizedArray : bool)
    : Parser (bool * HLSLType * option string) :=
  do (ok, type, name) <- AcceptDeclaration fuel allowUnsizedArray;
  if negb ok then Error "Expected declaration" ;; ret (false, type, name)
  else ret (true, type, name).

(** The chain left in [declaration->assignment] beside the result. *)
Definition ParseDeclarationAssignment (fuel : nat) (type : HLSLType)
    : Parser (bool * list HLSLExpression) :=
  do assign <- Accept (HLSLToken_Char "=");
  if assign then
    (* Handle array initialization syntax. *)
    if array type then
      do brace <- Expect (HLSLToken_Char "{");
      if negb brace then ret (false, []) else
      do (ok, values, numValues) <- ParseExpressionList fuel (HLSLToken_Char "}") true [] 0;
      ret (ok, values)
    else
      do (ok, value) <- ParseExpression fuel;
      ret (ok, match value with Some v => [v] | None => [] end)
  else ret (true, []).

Definition ParseDeclaration (fuel : nat) : Parser (bool * option HLSLDeclaration) :=
  do fileName <- GetFileName;
  do line <- GetLineNumber;
  do (ok, type, name) <- AcceptDeclaration fuel true;
  if ok then
    do name <- deref name;
    do node <- AddNode (Some fileName) line;
    DeclareVariable name type ;;
    (* Handle option assignment of the declared variables(s). *)
    do (ok, assignment) <- ParseDeclarationAssignment fuel type;
    ret (ok, Some (Build_HLSLDeclaration node name type None assignment))
  else ret (false, None).

Definition ParseFieldDeclaration (fuel : nat) : Parser (bool * option HLSLStructField) :=
  do fileName <- GetFileName;
  do line <- GetLineNumber;
  do node <- AddNode (Some fileName) line;
  do (ok, type, name) <- ExpectDeclaration fuel false;
  if negb ok then ret (false, None) else
  do name <- deref name;
  (* Handle optional semantics. *)
  do colon <- Accept (HLSLToken_Char ":");
  do (ok, semantic) <- (if colon then ExpectIdentifier None else ret (true, None));
  if negb ok then ret (false, None) else
  do semi <- Expect (HLSLToken_Char ";");
  ret (semi, Some (Build_HLSLStructField node name type semantic)).

Definition ParseBufferFieldDeclaration (fuel : nat) : Parser (bool * option HLSLBufferField) :=
  do fileName <- GetFileName;
  do line <- GetLineNumber;
  do node <- AddNode (Some fileName) line;
  do (ok, type, name) <- AcceptDeclaration fuel false;
  if ok then
    do name <- deref name;
    let field := Build_HLSLBufferField node name type in
    (* Handle optional packoffset. *)
    do colon <- Accept (HLSLToken_Char ":");
    if colon then
      do ok <- Expect HLSLToken_PackOffset;
      if negb ok then ret (false, Some field) else
      do ok <- Expect (HLSLToken_Char "(");
      if negb ok then ret (false, Some field) else
      do (ok, constantName) <- ExpectIdentifier None;
      if negb ok then ret (false, Some field) else
      do ok <- Expect (HLSLToken_Char ".");
      if negb ok then ret (false, Some field) else
      do (ok, swizzleMask) <- ExpectIdentifier None;
      if negb ok then ret (false, Some field) else
      do ok <- Expect (HLSLToken_Char ")");
      if negb ok then ret (false, Some field) else
      do semi <- Expect (HLSLToken_Char ";");
      ret (semi, Some field)
    else
      do semi <- Expect (HLSLToken_Char ";");
      ret (semi, Some field)
  else ret (false, None).

(** One turn of the loop of [ParseArgumentList]; [arguments] and
    [numArguments] are the chain and the counter so far. *)
Fixpoint ParseArgumentList (fuel : nat) (endToken : HLSLToken) (fileName : string) (line : Z)
    (arguments : list HLSLArgument) (numArguments : Z)
    : Parser (bool * list HLSLArgument * Z) :=
  match fuel with
  | O => out_of_fuel
  | S fuel =>
      do atEnd <- Accept endToken;
      if atEnd then ret (true, arguments, numArguments) else
      do eof <- CheckForUnexpectedEndOfStream endToken;
      if eof then ret (false, arguments, numArguments) else
      do comma <- (if numArguments >? 0 then Expect (HLSLToken_Char ",") else ret true);
      if negb comma then ret (false, arguments, numArguments) else
      do node <- AddNode (Some fileName) line;
      do isUniform <- Accept HLSLToken_Uniform;
      do modifier <-
        (if isUniform then ret HLSLArgumentModifier_Uniform else
         do isIn <- Accept HLSLToken_In;
         if isIn then ret HLSLArgumentModifier_In else
         do isInOut <- Accept HLSLToken_InOut;
         if isInOut then ret HLSLArgumentModifier_Inout else
         ret HLSLArgumentModifier_None);
      do (ok, type, name) <- ExpectDeclaration fuel true;
      if negb ok then ret (false, arguments, numArguments) else
      do name <- deref name;
      DeclareVariable name type ;;
      (* Optional semantic. *)
      do colon <- Accept (HLSLToken_Char ":");
      do (ok, semantic) <- (if colon then ExpectIdentifier None else ret (true, None));
      if negb ok then ret (false, arguments, numArguments) else
      (* Optional interpolation modifier. *)
      (do a <- AcceptWord "linear";
       if a then ret tt else
       do a <- AcceptWord "centroid";
       if a then ret tt else
       do a <- AcceptWord "nointerpolation";
       if a then ret tt else
       do a <- AcceptWord "noperspective";
       if a then ret tt else
       do a <- AcceptWord "sample";
       ret tt) ;;
      (* TODO: Optional initialization. *)
      ParseArgumentList fuel endToken fileName line
        (arguments ++ [Build_HLSLArgument node (Some name) modifier type semantic])
        (numArguments + 1)
  end.

(** A function with the output parameter [statement] or [firstStatement]
    gives the chain of statements the parameter points to at the return. *)
Fixpoint ParseStatement (fuel : nat) (returnType : HLSLType)
    : Parser (bool * list HLSLStatement) :=
  match fuel with
  | O => out_of_fuel
  | S fuel =>
      do fileName <- GetFileName;
      do line <- GetLineNumber;
      (* Empty statements. *)
      do empty <- Accept (HLSLToken_Char ";");
      if empty then ret (true, []) else
      (* If statement. *)
      do isIf <- Accept HLSLToken_If;
      if isIf then
        do node <- AddNode (Some fileName) line;
        do ok <- Expect (HLSLToken_Char "(");
        if negb ok then ret (false, []) else
        do (ok, condition) <- ParseExpression fuel;
        if negb ok then ret (false, []) else
        do ok <- Expect (HLSLToken_Char ")");
        if negb ok then ret (false, []) else
        do condition <- deref condition;
        do (ok, statement) <- ParseStatementOrBlock fuel returnType;
        if negb ok then ret (false, [HLSLNodeType_IfStatement node condition statement []]) else
        do isElse <- Accept HLSLToken_Else;
        if isElse then
          do (ok, elseStatement) <- ParseStatementOrBlock fuel returnType;
          ret (ok, [HLSLNodeType_IfStatement node condition statement elseStatement])
        else ret (true, [HLSLNodeType_IfStatement node condition statement []])
      else
      (* For statement. *)
      do isFor <- Accept HLSLToken_For;
      if isFor then
        do node <- AddNode (Some fileName) line;
        do ok <- Expect (HLSLToken_Char "(");
        if negb ok then ret (false, []) else
        BeginScope ;;
        do (ok, initialization) <- ParseDeclaration fuel;
        if negb ok then ret (false, []) else
        do ok <- Expect (HLSLToken_Char ";");
        if negb ok then ret (false, []) else
        do (_, condition) <- ParseExpression fuel;
        do ok <- Expect (HLSLToken_Char ";");
        if negb ok then ret (false, []) else
        do (_, increment) <- ParseExpression fuel;
        do ok <- Expect (HLSLToken_Char ")");
        if negb ok then ret (false, []) else
        do (ok, statement) <- ParseStatementOrBlock fuel returnType;
        let forStatement :=
          HLSLNodeType_ForStatement node initialization condition increment statement in
        if negb ok then ret (false, [forStatement]) else
        EndScope ;;
        ret (true, [forStatement])
      else
      (* Discard statement. *)
      do isDiscard <- Accept HLSLToken_Discard;
      if isDiscard then
        do node <- AddNode (Some fileName) line;
        do semi <- Expect (HLSLToken_Char ";");
        ret (semi, [HLSLNodeType_DiscardStatement node])
      else
      (* Break statement. *)
      do isBreak <- Accept HLSLToken_Break;
      if isBreak then
        do node <- AddNode (Some fileName) line;
        do semi <- Expect (HLSLToken_Char ";");
        ret (semi, [HLSLNodeType_BreakStatement node])
      else
      (* Continue statement. *)
      do isContinue <- Accept HLSLToken_Continue;
      if isContinue then
        do node <- AddNode (Some fileName) line;
        do semi <- Expect (HLSLToken_Char ";");
        ret (semi, [HLSLNodeType_ContinueStatement node])
      else
      (* Return statement *)
      do isReturn <- Accept HLSLToken_Return;
      if isReturn then
        do node <- AddNode (Some fileName) line;
        do semi <- Accept (HLSLToken_Char ";");
        do (ok, expression) <- (if negb semi then ParseExpression fuel else ret (true, None));
        if negb ok then ret (false, []) else
        (* Check that the return expression can be cast to the return type of the function. *)
        do returned <- deref expression;
        do castable <- CheckTypeCast (expressionType_of returned) returnType;
        if negb castable then ret (false, []) else
        do semi <- Expect (HLSLToken_Char ";");
        ret (semi, [HLSLNodeType_ReturnStatement node expression])
      else
      do (isDeclaration, declaration) <- ParseDeclaration fuel;
      if isDeclaration then
        do declaration <- deref declaration;
        do semi <- Expect (HLSLToken_Char ";");
        ret (semi, [HLSLNodeType_Declaration declaration])
      else
        do (isExpression, expression) <- ParseExpression fuel;
        if isExpression then
          do expression <- deref expression;
          do node <- AddNode (Some fileName) line;
          do semi <- Expect (HLSLToken_Char ";");
          ret (semi, [HLSLNodeType_ExpressionStatement node expression])
        else
          do semi <- Expect (HLSLToken_Char ";");
          ret (semi, [])
  end

with ParseStatementOrBlock (fuel : nat) (returnType : HLSLType)
    : Parser (bool * list HLSLStatement) :=
  match fuel with
  | O => out_of_fuel
  | S fuel =>
      do brace <- Accept (HLSLToken_Char "{");
      if brace then
        BeginScope ;;
        do (ok, statements) <- ParseBlock fuel returnType [];
        if negb ok then ret (false, statements) else
        EndScope ;;
        ret (true, statements)
      else ParseStatement fuel returnType
  end

(** One turn of the loop of [ParseBlock]; [statements] is the chain so far. *)
with ParseBlock (fuel : nat) (returnType : HLSLType) (statements : list HLSLStatement)
    : Parser (bool * list HLSLStatement) :=
  match fuel with
  | O => out_of_fuel
  | S fuel =>
      do closed <- Accept (HLSLToken_Char "}");
      if closed then ret (true, statements) else
      do eof <- CheckForUnexpectedEndOfStream (HLSLToken_Char "}");
      if eof then ret (false, statements) else
      do (ok, statement) <- ParseStatement fuel returnType;
      if negb ok then ret (false, statements) else
      ParseBlock fuel returnType (statements ++ statement)
  end.

(** The struct being defined is the last of [m_userTypes]: the fields
    parsed so far are seen through that pointer. *)
Definition set_last_userType (structure : HLSLStruct) : Parser unit :=
  modify (fun p => set_userTypes (removelast (m_userTypes p) ++ [structure]) p).

(** The loop over the fields of a struct in [ParseTopLevel]. *)
Fixpoint ParseTopLevel_struct (fuel : nat) (structure : HLSLStruct)
    : Parser (bool * HLSLStruct) :=
  match fuel with
  | O => out_of_fuel
  | S fuel =>
      do closed <- Accept (HLSLToken_Char "}");
      if closed then ret (true, structure) else
      do eof <- CheckForUnexpectedEndOfStream (HLSLToken_Char "}");
      if eof then ret (false, structure) else
      do (ok, field) <- ParseFieldDeclaration fuel;
      if negb ok then ret (false, structure) else
      do field <- deref field;
      let structure :=
        Build_HLSLStruct (struct_node structure) (struct_name structure)
                         (struct_field structure ++ [field]) in
      set_last_userType structure ;;
      ParseTopLevel_struct fuel structure
  end.

(** The loop over the fields of a buffer in [ParseTopLevel]. *)
Fixpoint ParseTopLevel_buffer (fuel : nat) (buffer : HLSLBuffer)
    : Parser (bool * HLSLBuffer) :=
  match fuel with
  | O => out_of_fuel
  | S fuel =>
      do closed <- Accept (HLSLToken_Char "}");
      if closed then ret (true, buffer) else
      do eof <- CheckForUnexpectedEndOfStream (HLSLToken_Char "}");
      if eof then ret (false, buffer) else
      do (ok, field) <- ParseBufferFieldDeclaration fuel;
      if negb ok then
        Error "Expected variable declaration" ;; ret (false, buffer)
      else
      do field <- deref field;
      DeclareVariable (bf_name field) (bf_type field) ;;
      ParseTopLevel_buffer fuel
        (Build_HLSLBuffer (buffer_node buffer) (buffer_name buffer)
           (buffer_registerName buffer) (buffer_field buffer ++ [field]))
  end.

(** [: register(name)], after the colon. *)
Definition ParseTopLevel_register : Parser (bool * option string) :=
  do ok <- Expect HLSLToken_Register;
  if negb ok then ret (false, None) else
  do ok <- Expect (HLSLToken_Char "(");
  if negb ok then ret (false, None) else
  do (ok, registerName) <- ExpectIdentifier None;
  if negb ok then ret (false, registerName) else
  do ok <- Expect (HLSLToken_Char ")");
  ret (ok, registerName).

Definition ParseTopLevel (fuel : nat) : Parser (bool * list HLSLStatement) :=
  do line <- GetLineNumber;
  do fileName <- GetFileName;
  do isStruct <- Accept HLSLToken_Struct;
  if isStruct then
    (* Struct declaration. *)
    do (ok, structName) <- ExpectIdentifier None;
    if negb ok then ret (false, []) else
    do p <- get;
    if bool_decide (is_Some (FindUserDefinedType structName p)) then
      do structName <- deref structName;
      Error ("struct " +:+ structName +:+ " already defined") ;;
      ret (false, [])
    else
    do structName <- deref structName;
    do ok <- Expect (HLSLToken_Char "{");
    if negb ok then ret (false, []) else
    do node <- AddNode (Some fileName) line;
    let structure := Build_HLSLStruct node structName [] in
    modify (fun p => set_userTypes (m_userTypes p ++ [structure]) p) ;;
    (* Add the struct to our list of user defined types. *)
    do (ok, structure) <- ParseTopLevel_struct fuel structure;
    if negb ok then ret (false, []) else
    do semi <- Expect (HLSLToken_Char ";");
    ret (semi, [HLSLNodeType_Struct structure])
  else
  do isCBuffer <- Accept HLSLToken_CBuffer;
  do isBuffer <- (if isCBuffer then ret true else Accept HLSLToken_TBuffer);
  if isBuffer then
    (* cbuffer/tbuffer declaration. *)
    do node <- AddNode (Some fileName) line;
    do (_, name) <- AcceptIdentifier None;
    (* Optional register assignment. *)
    do colon <- Accept (HLSLToken_Char ":");
    do (ok, registerName) <- (if colon then ParseTopLevel_register else ret (true, None));
    if negb ok then ret (false, []) else
    (* Fields. *)
    do ok <- Expect (HLSLToken_Char "{");
    if negb ok then ret (false, []) else
    do (ok, buffer) <- ParseTopLevel_buffer fuel (Build_HLSLBuffer node name registerName []);
    if negb ok then ret (false, []) else
    do semi <- Expect (HLSLToken_Char ";");
    ret (semi, [HLSLNodeType_Buffer buffer])
  else
  do (isType, (type, typeName, constant)) <- AcceptType true None true false;
  if isType then
    (* Global declaration (uniform or function). *)
    do (ok, globalName) <- ExpectIdentifier None;
    if negb ok then ret (false, []) else
    do globalName <- deref globalName;
    do paren <- Accept (HLSLToken_Char "(");
    if paren then
      (* Function declaration. *)
      do node <- AddNode (Some fileName) line;
      let returnType := Build_HLSLType type typeName false None false in
      BeginScope ;;
      do (ok, argument, numArguments) <-
        (do fileName <- GetFileName;
         do line <- GetLineNumber;
         ParseArgumentList fuel (HLSLToken_Char ")") fileName line [] 0);
      if negb ok then ret (false, []) else
      (* Optional semantic. *)
      do colon <- Accept (HLSLToken_Char ":");
      do (ok, semantic) <- (if colon then ExpectIdentifier None else ret (true, None));
      if negb ok then ret (false, []) else
      let function := Build_HLSLFunctionDecl globalName returnType semantic numArguments argument in
      modify (fun p => set_functions (m_functions p ++ [function]) p) ;;
      do ok <- Expect (HLSLToken_Char "{");
      if negb ok then ret (false, []) else
      do (ok, statement) <- ParseBlock fuel returnType [];
      if negb ok then ret (false, []) else
      EndScope ;;
      (* Note, no semi-colon at the end of a function declaration. *)
      ret (true, [HLSLNodeType_Function node function statement])
    else
      (* Uniform declaration. *)
      do node <- AddNode (Some fileName) line;
      let declType := Build_HLSLType type None false None constant in
      (* Handle array syntax. *)
      do bracket <- Accept (HLSLToken_Char "[");
      do (ok, declType) <-
        (if bracket then
           do closed <- Accept (HLSLToken_Char "]");
           if negb closed then
             do (ok, size) <- ParseExpression fuel;
             if negb ok then ret (false, declType) else
             do closed <- Expect (HLSLToken_Char "]");
             ret (closed, set_array true size declType)
           else ret (true, set_array true None declType)
         else ret (true, declType));
      if negb ok then ret (false, []) else
      (* Handle optional register. *)
      do colon <- Accept (HLSLToken_Char ":");
      do (ok, registerName) <- (if colon then ParseTopLevel_register else ret (true, None));
      if negb ok then ret (false, []) else
      DeclareVariable globalName declType ;;
      do (ok, assignment) <- ParseDeclarationAssignment fuel declType;
      if negb ok then ret (false, []) else
      (* TODO: Multiple variables declared on one line. *)
      do semi <- Expect (HLSLToken_Char ";");
      ret (semi, [HLSLNodeType_Declaration
                    (Build_HLSLDeclaration node globalName declType registerName assignment)])
  else
    do semi <- Expect (HLSLToken_Char ";");
    ret (semi, []).

Definition set_root (statements : list HLSLStatement) : Parser unit :=
  modify (fun p =>
    set_tree (Build_HLSLTree (m_stringPool (m_tree p)) statements (m_numNodes (m_tree p))) p).

(** One turn of the loop of [Parse]. *)
Fixpoint Parse_loop (fuel : nat) : Parser bool :=
  match fuel with
  | O => out_of_fuel
  | S fuel =>
      do atEnd <- Accept HLSLToken_EndOfStream;
      if atEnd then ret true else
      do (ok, statement) <- ParseTopLevel fuel;
      if negb ok then ret false else
      do p <- get;
      set_root (m_root (m_tree p) ++ statement) ;;
      Parse_loop fuel
  end.

(** [HLSLParser::Parse]; the parser was built on [tree]. *)
Definition Parse (fuel : nat) : Parser bool := Parse_loop fuel.

(** ** Token streams for examples *)

Definition tok (token : HLSLToken) (line : Z) : Lexeme := Build_Lexeme token "" "" 0 line.
Definition punct (c : ascii) (line : Z) : Lexeme := tok (HLSLToken_Char c) line.
Definition ident (name : string) (line : Z) : Lexeme :=
  Build_Lexeme HLSLToken_Identifier name "" 0 line.
Definition int_literal (value : Z) (line : Z) : Lexeme :=
  Build_Lexeme HLSLToken_IntLiteral "" "" value line.
Definition float_literal (value : float) (line : Z) : Lexeme :=
  Build_Lexeme HLSLToken_FloatLiteral "" value 0 line.

(** ** CodeWriter.h *)

(** Modelled from the spec: the code writer ([CodeWriter.cpp] is missing), an
    indented line-oriented sink.  What the generator writes is kept as the
    sequence of the calls it makes on the writer, each with its text already
    formatted. *)
Inductive CodeWriterCall : Set :=
  | Call_BeginLine (indent : Z) (fileName : option string) (lineNumber : Z)
  | Call_Write (text : string)
  | Call_EndLine (text : option string)
  | Call_WriteLine (indent : Z) (text : string)
  | Call_WriteLineAt (indent : Z) (fileName : option string) (lineNumber : Z) (text : string).

Definition CodeWriter : Set := list CodeWriterCall.

(** ** GLSLGenerator.h *)

Inductive Target : Set :=
  | Target_VertexShader
  | Target_FragmentShader.

#[global] Instance Target_eq_dec : EqDecision Target.
Proof. solve_decision. Defined.

Record GLSLGenerator : Type := Build_GLSLGenerator {
  m_writer : CodeWriter;
  g_tree : option HLSLTree;             (* m_tree *)
  m_entryName : option string;
  m_target : Target;
  m_outputPosition : bool;
  m_outAttribPrefix : option string;
  m_inAttribPrefix : option string;
  m_matrixRowFunction : string;
  m_clipFunction : string;
  m_tex2DlodFunction : string;
  m_texCUBEbiasFunction : string;
  m_scalarSwizzle2Function : string;
  m_scalarSwizzle3Function : string;
  m_scalarSwizzle4Function : string;
  m_sinCosFunction : string;
  m_error : bool;
  m_reservedWord : list string;
  g_stderr : list string                (* what Log_Error printed *)
}.

(** [GLSLGenerator::GLSLGenerator] *)
Definition GLSLGenerator_new : GLSLGenerator :=
  Build_GLSLGenerator [] None None Target_VertexShader false None None
    "" "" "" "" "" "" "" "" false ["" ; "" ; "" ; ""] [].

Abbreviation Generator := (M GLSLGenerator).

Definition set_writer (w : CodeWriter) (g : GLSLGenerator) : GLSLGenerator :=
  Build_GLSLGenerator w (g_tree g) (m_entryName g) (m_target g) (m_outputPosition g)
    (m_outAttribPrefix g) (m_inAttribPrefix g) (m_matrixRowFunction g) (m_clipFunction g)
    (m_tex2DlodFunction g) (m_texCUBEbiasFunction g) (m_scalarSwizzle2Function g)
    (m_scalarSwizzle3Function g) (m_scalarSwizzle4Function g) (m_sinCosFunction g)
    (m_error g) (m_reservedWord g) (g_stderr g).

Definition set_outputPosition (b : bool) (g : GLSLGenerator) : GLSLGenerator :=
  Build_GLSLGenerator (m_writer g) (g_tree g) (m_entryName g) (m_target g) b
    (m_outAttribPrefix g) (m_inAttribPrefix g) (m_matrixRowFunction g) (m_clipFunction g)
    (m_tex2DlodFunction g) (m_texCUBEbiasFunction g) (m_scalarSwizzle2Function g)
    (m_scalarSwizzle3Function g) (m_scalarSwizzle4Function g) (m_sinCosFunction g)
    (m_error g) (m_reservedWord g) (g_stderr g).

Definition set_error (message : string) (g : GLSLGenerator) : GLSLGenerator :=
  Build_GLSLGenerator (m_writer g) (g_tree g) (m_entryName g) (m_target g) (m_outputPosition g)
    (m_outAttribPrefix g) (m_inAttribPrefix g) (m_matrixRowFunction g) (m_clipFunction g)
    (m_tex2DlodFunction g) (m_texCUBEbiasFunction g) (m_scalarSwizzle2Function g)
    (m_scalarSwizzle3Function g) (m_scalarSwizzle4Function g) (m_sinCosFunction g)
    true (m_reservedWord g) (g_stderr g ++ [message]).

Definition emit (call : CodeWriterCall) : Generator unit :=
  modify (fun g => set_writer (m_writer g ++ [call]) g).

Definition CodeWriter_BeginLine (indent : Z) (fileName : option string) (lineNumber : Z)
    : Generator unit := emit (Call_BeginLine indent fileName lineNumber).
Definition CodeWriter_Write (text : string) : Generator unit := emit (Call_Write text).
Definition CodeWriter_EndLine (text : option string) : Generator unit := emit (Call_EndLine text).
Definition CodeWriter_WriteLine (indent : Z) (text : string) : Generator unit :=
  emit (Call_WriteLine indent text).
Definition CodeWriter_WriteLineAt (indent : Z) (fileName : option string) (lineNumber : Z)
    (text : string) : Generator unit := emit (Call_WriteLineAt indent fileName lineNumber text).

(** What [vsnprintf(buffer, size, ...)] leaves in [buffer] of a text. *)
Definition snprintf (size : Z) (text : string) : string :=
  String.substring 0 (Z.to_nat (size - 1)) text.

(** [Log_Error("%s", buffer)] *)
Definition Log_Error (message : string) : string := "ERROR: " +:+ snprintf 1024 message.

(** [GLSLGenerator::Error] with the message formatted. *)
Definition GLSL_Error (message : string) : Generator unit :=
  do g <- get;
  (* It's not always convenient to stop executing when an error occurs,
     so just track once we've hit an error and stop reporting them until
     we successfully bail out of execution. *)
  if m_error g then ret tt
  else modify (set_error (Log_Error (snprintf 1023 message))).

(** ** GLSLGenerator.cpp: names *)

Definition kBoolType : HLSLType := HLSLType_of HLSLBaseType_Bool.

Definition _builtInSemantics : list (string * string) :=
  [ ("SV_POSITION", "gl_Position");
    ("DEPTH",       "gl_FragDepth") ].

(** These are reserved words in GLSL that aren't reserved in HLSL. *)
Definition s_reservedWord : list string := [ "output"; "input"; "mod"; "mix" ].

(** [GetTypeName] of GLSLGenerator.cpp. *)
Definition GLSL_GetTypeName (type : HLSLType) : Generator string :=
  match baseType type with
  | HLSLBaseType_Void        => ret "void"
  | HLSLBaseType_Float       => ret "float"
  | HLSLBaseType_Float2      => ret "vec2"
  | HLSLBaseType_Float3      => ret "vec3"
  | HLSLBaseType_Float4      => ret "vec4"
  | HLSLBaseType_Float3x3    => ret "mat3"
  | HLSLBaseType_Float4x4    => ret "mat4"
  | HLSLBaseType_Half        => ret "float"
  | HLSLBaseType_Half2       => ret "vec2"
  | HLSLBaseType_Half3       => ret "vec3"
  | HLSLBaseType_Half4       => ret "vec4"
  | HLSLBaseType_Half3x3     => ret "mat3"
  | HLSLBaseType_Half4x4     => ret "mat4"
  | HLSLBaseType_Bool        => ret "bool"
  | HLSLBaseType_Int         => ret "int"
  | HLSLBaseType_Int2        => ret "ivec2"
  | HLSLBaseType_Int3        => ret "ivec3"
  | HLSLBaseType_Int4        => ret "ivec4"
  | HLSLBaseType_Uint        => ret "uint"
  | HLSLBaseType_Uint2       => ret "uvec2"
  | HLSLBaseType_Uint3       => ret "uvec3"
  | HLSLBaseType_Uint4       => ret "uvec4"
  | HLSLBaseType_Texture     => ret "texture"
  | HLSLBaseType_Sampler2D   => ret "sampler2D"
  | HLSLBaseType_SamplerCube => ret "samplerCube"
  | HLSLBaseType_UserDefined => deref (typeName type)
  | HLSLBaseType_Unknown     => ASSERT false ;; ret "?"
  end.

Definition GetCanImplicitCast (srcType dstType : HLSLType) : bool :=
  bool_decide (baseType srcType = baseType dstType).

(** [std::toupper] in the C locale. *)
Definition toupper (c : ascii) : ascii :=
  let n := N_of_ascii c in
  if (97 <=? n)%N && (n <=? 122)%N then ascii_of_N (n - 32) else c.

Fixpoint String_EqualNoCase (first second : string) : bool :=
  match first, second with
  | String a first', String b second' =>
      if negb (Ascii.eqb (toupper a) (toupper b)) then false
      else String_EqualNoCase first' second'
  | EmptyString, EmptyString => true
  | _, _ => false
  end.

Fixpoint GetBuiltInSemantic_loop (semantic : string) (table : list (string * string))
    : option string :=
  match table with
  | [] => None
  | (name, builtIn) :: table' =>
      if String_EqualNoCase semantic name then Some builtIn
      else GetBuiltInSemantic_loop semantic table'
  end.

Definition GetBuiltInSemantic (semantic : string) : option string :=
  GetBuiltInSemantic_loop semantic _builtInSemantics.

(** The loop of [GetSafeIdentifierName] over both arrays. *)
Fixpoint GetSafeIdentifierName_loop (name : string) (reserved replacement : list string)
    : string :=
  match reserved, replacement with
  | r :: reserved', m :: replacement' =>
      if String_Equal r name then m
      else GetSafeIdentifierName_loop name reserved' replacement'
  | _, _ => name
  end.

Definition GetSafeIdentifierName (name : string) (g : GLSLGenerator) : string :=
  GetSafeIdentifierName_loop name s_reservedWord (m_reservedWord g).

(** One turn of the loop of [ChooseUniqueName], [i] counting up to 1024 with
    [n] turns to go; [dst] is the buffer as the turn before left it. *)
Fixpoint ChooseUniqueName_loop (tree : HLSLTree) (base : string) (dstLength : Z)
    (n : nat) (i : Z) (dst : string) : bool * string :=
  match n with
  | O => (false, dst)
  | S n' =>
      let dst := snprintf dstLength (base +:+ format_d i) in
      if negb (HLSLTree_GetContainsString dst tree) then (true, dst)
      else ChooseUniqueName_loop tree base dstLength n' (i + 1) dst
  end.

(** The result and what is left in [dst]; [dst] is the buffer at the call. *)
Definition ChooseUniqueName (tree : HLSLTree) (base : string) (dst : string) (dstLength : Z)
    : bool * string :=
  ChooseUniqueName_loop tree base dstLength 1024 0 dst.

(** ** GLSLGenerator.cpp: expressions *)

Definition GetFunctionArguments (argument : list HLSLExpression) : Z :=
  Z.of_nat (length argument).

(** The loop over an HLSL matrix "swizzling": the texts written, or nothing
    where an [ASSERT(0)] is reached. *)
Fixpoint matrix_swizzle (n : string) : option (list string) :=
  let element (base : Z) (d0 d1 : ascii) : string :=
    "[" +:+ format_d (Z.of_N (N_of_ascii d1) - base) +:+ "]["
        +:+ format_d (Z.of_N (N_of_ascii d0) - base) +:+ "]" in
  match n with
  | EmptyString => Some []
  | String u n1 =>
      if negb (Ascii.eqb u "_") then None
      else
        match n1 with
        | String m n2 =>
            if Ascii.eqb m "m" then
              match n2 with
              | String d0 (String d1 rest) =>
                  if isdigit d0 && isdigit d1
                  then option_map (cons (element 48 d0 d1)) (matrix_swizzle rest)
                  else None
              | _ => None
              end
            else
              match n1 with
              | String d0 (String d1 rest) =>
                  if isdigit d0 && isdigit d1
                  then option_map (cons (element 49 d0 d1)) (matrix_swizzle rest)
                  else None
              | _ => None
              end
        | EmptyString => None
        end
  end.

Fixpoint write_all (texts : list string) : Generator unit :=
  match texts with
  | [] => ret tt
  | t :: texts' => CodeWriter_Write t ;; write_all texts'
  end.

Definition OutputIdentifier (name : string) : Generator unit :=
  do g <- get;
  (* Remap intrinstic functions. *)
  let name :=
    if String_Equal name "tex2D" then "texture"
    else if String_Equal name "tex2Dproj" then "texture2DProj"
    else if String_Equal name "texCUBE" then "texture"
    else if String_Equal name "clip" then m_clipFunction g
    else if String_Equal name "tex2Dlod" then m_tex2DlodFunction g
    else if String_Equal name "texCUBEbias" then m_texCUBEbiasFunction g
    else if String_Equal name "atan2" then "atan"
    else if String_Equal name "sincos" then m_sinCosFunction g
    else if String_Equal name "fmod" then
      (* mod is not the same as fmod if the parameter is negative!
         The equivalent of fmod(x, y) is x - y * floor(x/y)
         We use the mod version for performance. *)
      "mod"
    else if String_Equal name "lerp" then "mix"
    else
      (* The identifier could be a GLSL reserved word (if it's not also a HLSL reserved word). *)
      GetSafeIdentifierName name g in
  CodeWriter_Write name.

Definition unary_op_text (unaryOp : HLSLUnaryOp) : string * bool * bool :=
  (* the operator, [pre], and whether [dstType] is the type of the expression *)
  match unaryOp with
  | HLSLUnaryOp_Negative      => ("-",  true,  false)
  | HLSLUnaryOp_Positive      => ("+",  true,  false)
  | HLSLUnaryOp_Not           => ("!",  true,  true)
  | HLSLUnaryOp_PreIncrement  => ("++", true,  false)
  | HLSLUnaryOp_PreDecrement  => ("++", true,  false)
  | HLSLUnaryOp_PostIncrement => ("++", false, false)
  | HLSLUnaryOp_PostDecrement => ("--", false, false)
  end.

Definition binary_op_text (binaryOp : HLSLBinaryOp) : string * bool * bool :=
  (* the operator, and whether [dstType1] and [dstType2] are the type of the expression *)
  match binaryOp with
  | HLSLBinaryOp_Add          => (" + ",  true,  true)
  | HLSLBinaryOp_Sub          => (" - ",  true,  true)
  | HLSLBinaryOp_Mul          => (" * ",  false, false)
  | HLSLBinaryOp_Div          => (" / ",  false, false)
  | HLSLBinaryOp_Less         => (" < ",  false, false)
  | HLSLBinaryOp_Greater      => (" > ",  false, false)
  | HLSLBinaryOp_LessEqual    => (" <= ", false, false)
  | HLSLBinaryOp_GreaterEqual => (" >= ", false, false)
  | HLSLBinaryOp_Equal        => (" == ", false, false)
  | HLSLBinaryOp_NotEqual     => (" != ", false, false)
  | HLSLBinaryOp_Assign       => (" = ",  false, true)
  | HLSLBinaryOp_AddAssign    => (" += ", false, true)
  | HLSLBinaryOp_SubAssign    => (" -= ", false, true)
  | HLSLBinaryOp_MulAssign    => (" *= ", false, true)
  | HLSLBinaryOp_DivAssign    => (" /= ", false, true)
  | HLSLBinaryOp_And          => (" && ", true,  true)
  | HLSLBinaryOp_Or           => (" || ", true,  true)
  end.

Definition is_scalar_swizzled (b : HLSLBaseType) : bool :=
  bool_decide (b = HLSLBaseType_Half) || bool_decide (b = HLSLBaseType_Float)
  || bool_decide (b = HLSLBaseType_Int) || bool_decide (b = HLSLBaseType_Uint).

Definition is_float_matrix (b : HLSLBaseType) : bool :=
  bool_decide (b = HLSLBaseType_Float3x3) || bool_decide (b = HLSLBaseType_Float4x4).

(** [OutputExpression], [OutputExpressionList] and
    [OutputDeclaration] on a type and a name call each other; each
    call takes one unit of [fuel].  An argument [dstType] is a pointer that
    may be null. *)
Fixpoint OutputExpression (fuel : nat) (expression : option HLSLExpression)
    (dstType : option HLSLType) : Generator unit :=
  match fuel with
  | O => out_of_fuel
  | S fuel =>
      do expression <- deref expression;
      let cast :=
        match dstType with
        | Some d => negb (GetCanImplicitCast (expressionType_of expression) d)
        | None => false
        end in
      let cast :=
        match expression with
        | HLSLCastingExpression _ _ _ _ =>
            (* No need to include a cast if the expression is already doing it. *)
            false
        | _ => cast
        end in
      (if cast then
         do d <- deref dstType;
         OutputDeclaration_type fuel d "" ;;
         CodeWriter_Write "("
       else ret tt) ;;
      (* [returned]: the function has returned from inside the branch *)
      do returned <-
        match expression with
        | HLSLIdentifierExpression _ _ name _ =>
            OutputIdentifier name ;; ret false
        | HLSLConstructorExpression _ _ type argument =>
            do typeName <- GLSL_GetTypeName type;
            CodeWriter_Write (typeName +:+ "(") ;;
            OutputExpressionList fuel argument [] 0 ;;
            CodeWriter_Write ")" ;; ret false
        | HLSLCastingExpression _ _ type operand =>
            OutputDeclaration_type fuel type "" ;;
            CodeWriter_Write "(" ;;
            OutputExpression fuel operand None ;;
            CodeWriter_Write ")" ;; ret false
        | HLSLLiteralExpression _ _ type value =>
            match type, value with
            | (HLSLBaseType_Half | HLSLBaseType_Float), fValue f =>
                (* Don't use printf directly so that we don't use the system locale. *)
                CodeWriter_Write (snprintf 64 f) ;; ret false
            | (HLSLBaseType_Int | HLSLBaseType_Uint), iValue i =>
                CodeWriter_Write (format_d i) ;; ret false
            | HLSLBaseType_Bool, bValue b =>
                CodeWriter_Write (if b then "true" else "false") ;; ret false
            | _, _ => crash
            end
        | HLSLUnaryExpression _ type unaryOp operand =>
            let '(op, pre, typed) := unary_op_text unaryOp in
            let dstType := if typed then Some type else None in
            CodeWriter_Write "(" ;;
            (if pre then
               CodeWriter_Write op ;;
               OutputExpression fuel (Some operand) dstType
             else
               OutputExpression fuel (Some operand) dstType ;;
               CodeWriter_Write op) ;;
            CodeWriter_Write ")" ;; ret false
        | HLSLBinaryExpression _ type binaryOp expression1 expression2 =>
            let '(op, typed1, typed2) := binary_op_text binaryOp in
            let dstType1 := if typed1 then Some type else None in
            let dstType2 := if typed2 then Some type else None in
            CodeWriter_Write "(" ;;
            OutputExpression fuel (Some expression1) dstType1 ;;
            CodeWriter_Write op ;;
            OutputExpression fuel (Some expression2) dstType2 ;;
            CodeWriter_Write ")" ;; ret false
        | HLSLConditionalExpression _ _ condition trueExpression falseExpression =>
            CodeWriter_Write "((" ;;
            OutputExpression fuel (Some condition) (Some kBoolType) ;;
            CodeWriter_Write ")?(" ;;
            OutputExpression fuel (Some trueExpression) None ;;
            CodeWriter_Write "):(" ;;
            OutputExpression fuel (Some falseExpression) None ;;
            CodeWriter_Write "))" ;; ret false
        | HLSLMemberAccess _ _ object field =>
            let objectType := baseType (expressionType_of object) in
            if is_scalar_swizzled objectType then
              (* Handle swizzling on scalar values. *)
              do g <- get;
              let swizzleLength := Z.of_nat (String.length field) in
              (if swizzleLength =? 2 then CodeWriter_Write (m_scalarSwizzle2Function g)
               else if swizzleLength =? 3 then CodeWriter_Write (m_scalarSwizzle3Function g)
               else if swizzleLength =? 4 then CodeWriter_Write (m_scalarSwizzle4Function g)
               else ret tt) ;;
              CodeWriter_Write "(" ;;
              OutputExpression fuel (Some object) None ;;
              CodeWriter_Write ")" ;; ret false
            else
              CodeWriter_Write "(" ;;
              OutputExpression fuel (Some object) None ;;
              CodeWriter_Write ")" ;;
              (if is_float_matrix objectType then
                 (* Handle HLSL matrix "swizzling".
                    TODO: Properly handle multiple element selection such as _m00_m12 *)
                 do texts <- deref (matrix_swizzle field);
                 write_all texts
               else CodeWriter_Write ("." +:+ field)) ;;
              ret false
        | HLSLArrayAccess _ _ array_ index =>
            let arrayType := expressionType_of array_ in
            if negb (array arrayType) && is_float_matrix (baseType arrayType) then
              (* GLSL access a matrix as m[c][r] while HLSL is m[r][c], so use our
                 special row access function to convert. *)
              do g <- get;
              CodeWriter_Write (m_matrixRowFunction g +:+ "(") ;;
              OutputExpression fuel (Some array_) None ;;
              CodeWriter_Write "," ;;
              OutputExpression fuel (Some index) None ;;
              CodeWriter_Write ")" ;; ret false
            else
              OutputExpression fuel (Some array_) None ;;
              CodeWriter_Write "[" ;;
              OutputExpression fuel (Some index) None ;;
              CodeWriter_Write "]" ;; ret false
        | HLSLFunctionCall _ _ function _ argument =>
            (* Handle intrinsic funtions that are different between HLSL and GLSL. *)
            let functionName := fn_name function in
            if String_Equal functionName "mul" then
              if negb (GetFunctionArguments argument =? 2) then
                GLSL_Error "mul expects 2 arguments" ;; ret true
              else
                do parameter0 <- deref (nth_error (fn_argument function) 0);
                do parameter1 <- deref (nth_error (fn_argument function) 1);
                CodeWriter_Write "((" ;;
                OutputExpression fuel (nth_error argument 0) (Some (arg_type parameter0)) ;;
                CodeWriter_Write ") * (" ;;
                OutputExpression fuel (nth_error argument 1) (Some (arg_type parameter1)) ;;
                CodeWriter_Write "))" ;; ret false
            else if String_Equal functionName "saturate" then
              if negb (GetFunctionArguments argument =? 1) then
                GLSL_Error "saturate expects 1 argument" ;; ret true
              else
                CodeWriter_Write "clamp(" ;;
                OutputExpression fuel (nth_error argument 0) None ;;
                CodeWriter_Write ", 0.0, 1.0)" ;; ret false
            else
              OutputIdentifier functionName ;;
              CodeWriter_Write "(" ;;
              OutputExpressionList fuel argument (fn_argument function) 0 ;;
              CodeWriter_Write ")" ;; ret false
        end;
      if returned then ret tt
      else if cast then CodeWriter_Write ")" else ret tt
  end

(** One turn of the loop of [OutputExpressionList]. *)
with OutputExpressionList (fuel : nat) (expression : list HLSLExpression)
    (argument : list HLSLArgument) (numExpressions : Z) : Generator unit :=
  match fuel with
  | O => out_of_fuel
  | S fuel =>
      match expression with
      | [] => ret tt
      | e :: expression' =>
          (if numExpressions >? 0 then CodeWriter_Write ", " else ret tt) ;;
          let expectedType := option_map arg_type (head argument) in
          OutputExpression fuel (Some e) expectedType ;;
          OutputExpressionList fuel expression' (tail argument) (numExpressions + 1)
      end
  end

(** [OutputDeclaration(const HLSLType& type, const char* name)] *)
with OutputDeclaration_type (fuel : nat) (type : HLSLType) (name : string)
    : Generator unit :=
  match fuel with
  | O => out_of_fuel
  | S fuel =>
      do g <- get;
      do typeName <- GLSL_GetTypeName type;
      if negb (array type) then
        CodeWriter_Write (typeName +:+ " " +:+ GetSafeIdentifierName name g)
      else
        CodeWriter_Write (typeName +:+ " " +:+ GetSafeIdentifierName name g +:+ "[") ;;
        (match arraySize type with
         | Some size => OutputExpression fuel (Some size) None
         | None => ret tt
         end) ;;
        CodeWriter_Write "]"
  end.

(** ** GLSLGenerator.cpp: statements *)

Definition OutputArguments_modifier (modifier : HLSLArgumentModifier) : Generator unit :=
  match modifier with
  | HLSLArgumentModifier_In => CodeWriter_Write "in "
  | HLSLArgumentModifier_Inout => CodeWriter_Write "inout "
  | _ => ret tt
  end.

(** One turn of the loop of [OutputArguments]. *)
Fixpoint OutputArguments (fuel : nat) (argument : list HLSLArgument) (numArgs : Z)
    : Generator unit :=
  match argument with
  | [] => ret tt
  | a :: argument' =>
      (if numArgs >? 0 then CodeWriter_Write ", " else ret tt) ;;
      OutputArguments_modifier (arg_modifier a) ;;
      do name <- deref (arg_name a);
      OutputDeclaration_type fuel (arg_type a) name ;;
      OutputArguments fuel argument' (numArgs + 1)
  end.

(** [OutputDeclaration(HLSLDeclaration* declaration)] *)
Definition OutputDeclaration (fuel : nat) (declaration : option HLSLDeclaration)
    : Generator unit :=
  do declaration <- deref declaration;
  do g <- get;
  OutputDeclaration_type fuel (decl_type declaration)
    (GetSafeIdentifierName (decl_name declaration) g) ;;
  match decl_assignment declaration with
  | [] => ret tt
  | assignment :: _ =>
      CodeWriter_Write " = " ;;
      if array (decl_type declaration) then
        do typeName <- GLSL_GetTypeName (decl_type declaration);
        CodeWriter_Write (typeName +:+ "[]( ") ;;
        OutputExpressionList fuel (decl_assignment declaration) [] 0 ;;
        CodeWriter_Write " )"
      else
        OutputExpression fuel (Some assignment) (Some (decl_type declaration))
  end.

(** The fields of a struct. *)
Fixpoint OutputStatements_structFields (fuel : nat) (indent : Z) (field : list HLSLStructField)
    : Generator unit :=
  match field with
  | [] => ret tt
  | f :: field' =>
      CodeWriter_BeginLine (indent + 1) (fileName (sf_node f)) (line (sf_node f)) ;;
      OutputDeclaration_type fuel (sf_type f) (sf_name f) ;;
      CodeWriter_Write ";" ;;
      CodeWriter_EndLine None ;;
      OutputStatements_structFields fuel indent field'
  end.

(** The fields of a buffer. *)
Fixpoint OutputStatements_bufferFields (fuel : nat) (indent : Z) (field : list HLSLBufferField)
    : Generator unit :=
  match field with
  | [] => ret tt
  | f :: field' =>
      CodeWriter_BeginLine (indent + 1) (fileName (bf_node f)) (line (bf_node f)) ;;
      OutputDeclaration_type fuel (bf_type f) (bf_name f) ;;
      CodeWriter_Write ";" ;;
      CodeWriter_EndLine None ;;
      OutputStatements_bufferFields fuel indent field'
  end.

(** One turn of the loop of [OutputStatements]: the first statement, then the
    rest of the chain.  [returnType] is a pointer that may be null. *)
Fixpoint OutputStatements (fuel : nat) (indent : Z) (statement : list HLSLStatement)
    (returnType : option HLSLType) : Generator unit :=
  match fuel with
  | O => out_of_fuel
  | S fuel =>
      match statement with
      | [] => ret tt
      | first :: nextStatement =>
          match first with
          | HLSLNodeType_Declaration declaration =>
              (* GLSL doesn't seem have texture uniforms, so just ignore them. *)
              if negb (bool_decide (baseType (decl_type declaration) = HLSLBaseType_Texture)) then
                CodeWriter_BeginLine indent (fileName (decl_node declaration))
                                     (line (decl_node declaration)) ;;
                (if indent =? 0 then
                   (* At the top level, we need the "uniform" keyword. *)
                   CodeWriter_Write "uniform "
                 else ret tt) ;;
                OutputDeclaration fuel (Some declaration) ;;
                CodeWriter_EndLine (Some ";")
              else ret tt
          | HLSLNodeType_Struct structure =>
              CodeWriter_WriteLine indent ("struct " +:+ struct_name structure +:+ " {") ;;
              OutputStatements_structFields fuel indent (struct_field structure) ;;
              CodeWriter_WriteLine indent "};"
          | HLSLNodeType_Buffer buffer =>
              (* Empty uniform blocks cause compilation errors on NVIDIA, so don't emit them. *)
              match buffer_field buffer with
              | [] => ret tt
              | _ :: _ =>
                  do name <- deref (buffer_name buffer);
                  CodeWriter_WriteLineAt indent (fileName (buffer_node buffer))
                    (line (buffer_node buffer)) ("layout (std140) uniform " +:+ name +:+ " {") ;;
                  OutputStatements_bufferFields fuel indent (buffer_field buffer) ;;
                  CodeWriter_WriteLine indent "};"
              end
          | HLSLNodeType_Function node function body =>
              do g <- get;
              (* Check if this is our entry point. *)
              do entryName <- deref (m_entryName g);
              let entryPoint := String_Equal (fn_name function) entryName in
              (* Use an alternate name for the function which is supposed to be entry point
                 so that we can supply our own function which will be the actual entry point. *)
              let functionName := GetSafeIdentifierName (fn_name function) g in
              do returnTypeName <- GLSL_GetTypeName (fn_returnType function);
              CodeWriter_BeginLine indent (fileName node) (line node) ;;
              CodeWriter_Write (returnTypeName +:+ " " +:+ functionName +:+ "(") ;;
              OutputArguments fuel (fn_argument function) 0 ;;
              CodeWriter_Write ") {" ;;
              CodeWriter_EndLine None ;;
              OutputStatements fuel (indent + 1) body (Some (fn_returnType function)) ;;
              CodeWriter_WriteLine indent "}"
          | HLSLNodeType_ExpressionStatement node expression =>
              CodeWriter_BeginLine indent (fileName node) (line node) ;;
              OutputExpression fuel (Some expression) None ;;
              CodeWriter_EndLine (Some ";")
          | HLSLNodeType_ReturnStatement node expression =>
              match expression with
              | Some _ =>
                  CodeWriter_BeginLine indent (fileName node) (line node) ;;
                  CodeWriter_Write "return " ;;
                  OutputExpression fuel expression returnType ;;
                  CodeWriter_EndLine (Some ";")
              | None =>
                  CodeWriter_WriteLineAt indent (fileName node) (line node) "return;"
              end
          | HLSLNodeType_DiscardStatement node =>
              do g <- get;
              if bool_decide (m_target g = Target_FragmentShader) then
                CodeWriter_WriteLineAt indent (fileName node) (line node) "discard;"
              else ret tt
          | HLSLNodeType_BreakStatement node =>
              CodeWriter_WriteLineAt indent (fileName node) (line node) "break;"
          | HLSLNodeType_ContinueStatement node =>
              CodeWriter_WriteLineAt indent (fileName node) (line node) "continue;"
          | HLSLNodeType_IfStatement node condition body elseStatement =>
              CodeWriter_BeginLine indent (fileName node) (line node) ;;
              CodeWriter_Write "if (" ;;
              OutputExpression fuel (Some condition) (Some kBoolType) ;;
              CodeWriter_Write ") {" ;;
              CodeWriter_EndLine None ;;
              OutputStatements fuel (indent + 1) body returnType ;;
              CodeWriter_WriteLine indent "}" ;;
              match elseStatement with
              | [] => ret tt
              | _ :: _ =>
                  CodeWriter_WriteLine indent "else {" ;;
                  OutputStatements fuel (indent + 1) elseStatement returnType ;;
                  CodeWriter_WriteLine indent "}"
              end
          | HLSLNodeType_ForStatement node initialization condition increment body =>
              CodeWriter_BeginLine indent (fileName node) (line node) ;;
              CodeWriter_Write "for (" ;;
              OutputDeclaration fuel initialization ;;
              CodeWriter_Write "; " ;;
              OutputExpression fuel condition (Some kBoolType) ;;
              CodeWriter_Write "; " ;;
              OutputExpression fuel increment None ;;
              CodeWriter_Write ") {" ;;
              CodeWriter_EndLine None ;;
              OutputStatements fuel (indent + 1) body returnType ;;
              CodeWriter_WriteLine indent "}"
          end ;;
          OutputStatements fuel indent nextStatement returnType
      end
  end.

(** ** GLSLGenerator.cpp: the entry point *)

(** [FindFunction(root, name)]: the node, the declaration and the body. *)
Fixpoint GLSL_FindFunction (root : list HLSLStatement) (name : string)
    : option (HLSLNode * HLSLFunctionDecl * list HLSLStatement) :=
  match root with
  | [] => None
  | HLSLNodeType_Function node function body :: root' =>
      if String_Equal (fn_name function) name then Some (node, function, body)
      else GLSL_FindFunction root' name
  | _ :: root' => GLSL_FindFunction root' name
  end.

Fixpoint FindStruct (root : list HLSLStatement) (name : string) : option HLSLStruct :=
  match root with
  | [] => None
  | HLSLNodeType_Struct structDeclaration :: root' =>
      if String_Equal (struct_name structDeclaration) name then Some structDeclaration
      else FindStruct root' name
  | _ :: root' => FindStruct root' name
  end.

(** [m_tree->GetRoot()] *)
Definition GetRoot : Generator (list HLSLStatement) :=
  do g <- get;
  do tree <- deref (g_tree g);
  ret (HLSLTree_GetRoot tree).

(** The loop of [OutputAttribute] over the fields of a struct. *)
Fixpoint OutputAttribute_fields (field : list HLSLStructField) (attribType : string)
    (prefix : option string) : Generator unit :=
  match field with
  | [] => ret tt
  | f :: field' =>
      match sf_semantic f with
      | Some semantic =>
          match GetBuiltInSemantic semantic with
          | None =>
              do typeName <- GLSL_GetTypeName (sf_type f);
              do prefix <- deref prefix;
              CodeWriter_WriteLine 0
                (attribType +:+ " " +:+ typeName +:+ " " +:+ prefix +:+ semantic +:+ ";")
          | Some _ => ret tt
          end
      | None => ret tt
      end ;;
      OutputAttribute_fields field' attribType prefix
  end.

Definition OutputAttribute (type : HLSLType) (semantic : option string)
    (attribType : string) (prefix : option string) : Generator unit :=
  do root <- GetRoot;
  if bool_decide (baseType type = HLSLBaseType_UserDefined) then
    (* If the argument is a struct with semantics specified, we need to
       grab them. *)
    do typeName <- deref (typeName type);
    let structDeclaration := FindStruct root typeName in
    ASSERT (bool_decide (is_Some structDeclaration)) ;;
    do structDeclaration <- deref structDeclaration;
    OutputAttribute_fields (struct_field structDeclaration) attribType prefix
  else
    match semantic with
    | Some semantic =>
        match GetBuiltInSemantic semantic with
        | None =>
            do typeName <- GLSL_GetTypeName type;
            do prefix <- deref prefix;
            CodeWriter_WriteLine 0
              (attribType +:+ " " +:+ typeName +:+ " " +:+ prefix +:+ semantic +:+ ";")
        | Some _ => ret tt
        end
    | None => ret tt
    end.

(** The loop of [OutputAttributes] over the arguments. *)
Fixpoint OutputAttributes_loop (argument : list HLSLArgument) : Generator unit :=
  match argument with
  | [] => ret tt
  | a :: argument' =>
      do g <- get;
      OutputAttribute (arg_type a) (arg_semantic a) "in" (m_inAttribPrefix g) ;;
      OutputAttributes_loop argument'
  end.

Definition OutputAttributes (entryFunction : HLSLFunctionDecl) : Generator unit :=
  (* Write out the input attributes to the shader. *)
  OutputAttributes_loop (fn_argument entryFunction) ;;
  (* Write out the output attributes from the shader. *)
  do g <- get;
  OutputAttribute (fn_returnType entryFunction) (fn_semantic entryFunction) "out"
    (m_outAttribPrefix g).

Definition OutputSetOutAttribute (semantic : option string) (resultName : string)
    : Generator unit :=
  do semantic <- deref semantic;
  match GetBuiltInSemantic semantic with
  | Some builtInSemantic =>
      if String_Equal builtInSemantic "gl_Position" then
        (* Mirror the y-coordinate when we're outputing from
           the vertex shader so that we match the D3D texture
           coordinate origin convention in render-to-texture
           operations.
           We also need to convert the normalized device
           coordinates from the D3D convention of 0 to 1 to the
           OpenGL convention of -1 to 1. *)
        CodeWriter_WriteLine 1 ("vec4 temp = " +:+ resultName +:+ ";") ;;
        CodeWriter_WriteLine 1
          (builtInSemantic +:+ " = temp * vec4(1,-1,2,1) - vec4(0,0,temp.w,0);") ;;
        modify (set_outputPosition true)
      else if String_Equal builtInSemantic "gl_FragDepth" then
        (* If the value goes outside of the 0 to 1 range, the
           fragment will be rejected unlike in D3D, so clamp it. *)
        CodeWriter_WriteLine 1
          (builtInSemantic +:+ " = clamp(float(" +:+ resultName +:+ "), 0.0, 1.0);")
      else
        CodeWriter_WriteLine 1 (builtInSemantic +:+ " = " +:+ resultName +:+ ";")
  | None =>
      do g <- get;
      do prefix <- deref (m_outAttribPrefix g);
      CodeWriter_WriteLine 1 (prefix +:+ semantic +:+ " = " +:+ resultName +:+ ";")
  end.

(** The assignments to the fields of a struct argument in [OutputEntryCaller]. *)
Fixpoint OutputEntryCaller_argumentFields (argumentName : string)
    (field : list HLSLStructField) : Generator unit :=
  match field with
  | [] => ret tt
  | f :: field' =>
      match sf_semantic f with
      | Some semantic =>
          do g <- get;
          match GetBuiltInSemantic semantic with
          | Some builtInSemantic =>
              CodeWriter_WriteLine 1
                (GetSafeIdentifierName argumentName g +:+ "."
                 +:+ GetSafeIdentifierName (sf_name f) g +:+ " = " +:+ builtInSemantic +:+ ";")
          | None =>
              do prefix <- deref (m_inAttribPrefix g);
              CodeWriter_WriteLine 1
                (GetSafeIdentifierName argumentName g +:+ "."
                 +:+ GetSafeIdentifierName (sf_name f) g +:+ " = " +:+ prefix +:+ semantic +:+ ";")
          end
      | None => ret tt
      end ;;
      OutputEntryCaller_argumentFields argumentName field'
  end.

(** The first loop of [OutputEntryCaller]: a local variable for each of the
    parameters of the entry point function. *)
Fixpoint OutputEntryCaller_locals (fuel : nat) (root : list HLSLStatement)
    (argument : list HLSLArgument) : Generator unit :=
  match argument with
  | [] => ret tt
  | a :: argument' =>
      do name <- deref (arg_name a);
      CodeWriter_BeginLine 1 None (-1) ;;
      OutputDeclaration_type fuel (arg_type a) name ;;
      CodeWriter_EndLine (Some ";") ;;
      (* Set the value for the local variable. *)
      (if bool_decide (baseType (arg_type a) = HLSLBaseType_UserDefined) then
         do typeName <- deref (typeName (arg_type a));
         let structDeclaration := FindStruct root typeName in
         ASSERT (bool_decide (is_Some structDeclaration)) ;;
         do structDeclaration <- deref structDeclaration;
         OutputEntryCaller_argumentFields name (struct_field structDeclaration)
       else
         match arg_semantic a with
         | Some semantic =>
             do g <- get;
             match GetBuiltInSemantic semantic with
             | Some builtInSemantic =>
                 CodeWriter_WriteLine 1
                   (GetSafeIdentifierName name g +:+ " = " +:+ builtInSemantic +:+ ";")
             | None =>
                 do prefix <- deref (m_inAttribPrefix g);
                 CodeWriter_WriteLine 1
                   (GetSafeIdentifierName name g +:+ " = " +:+ prefix +:+ semantic +:+ ";")
             end
         | None => ret tt
         end) ;;
      OutputEntryCaller_locals fuel root argument'
  end.

(** The arguments of the call of the entry function. *)
Fixpoint OutputEntryCaller_call (argument : list HLSLArgument) (numArgs : Z)
    : Generator unit :=
  match argument with
  | [] => ret tt
  | a :: argument' =>
      (if numArgs >? 0 then CodeWriter_Write ", " else ret tt) ;;
      do g <- get;
      do name <- deref (arg_name a);
      CodeWriter_Write (GetSafeIdentifierName name g) ;;
      OutputEntryCaller_call argument' (numArgs + 1)
  end.

(** The copy of the fields of a struct result into the out attributes. *)
Fixpoint OutputEntryCaller_resultFields (resultName : string) (field : list HLSLStructField)
    : Generator unit :=
  match field with
  | [] => ret tt
  | f :: field' =>
      let fieldResultName := snprintf 1024 (resultName +:+ "." +:+ sf_name f) in
      OutputSetOutAttribute (sf_semantic f) fieldResultName ;;
      OutputEntryCaller_resultFields resultName field'
  end.

Definition OutputEntryCaller (fuel : nat) (entryFunction : HLSLFunctionDecl)
    : Generator unit :=
  do root <- GetRoot;
  CodeWriter_WriteLine 0 "void main() {" ;;
  (* Create local variables for each of the parameters we'll need to pass
     into the entry point function. *)
  OutputEntryCaller_locals fuel root (fn_argument entryFunction) ;;
  let resultName := "result" in
  (* Call the original entry function. *)
  CodeWriter_BeginLine 1 None (-1) ;;
  do g <- get;
  do returnTypeName <- GLSL_GetTypeName (fn_returnType entryFunction);
  do entryName <- deref (m_entryName g);
  CodeWriter_Write (returnTypeName +:+ " " +:+ resultName +:+ " = " +:+ entryName +:+ "(") ;;
  OutputEntryCaller_call (fn_argument entryFunction) 0 ;;
  CodeWriter_EndLine (Some ");") ;;
  (* Copy values from the result into the out attributes as necessary. *)
  (if bool_decide (baseType (fn_returnType entryFunction) = HLSLBaseType_UserDefined) then
     do typeName <- deref (typeName (fn_returnType entryFunction));
     let structDeclaration := FindStruct root typeName in
     ASSERT (bool_decide (is_Some structDeclaration)) ;;
     do structDeclaration <- deref structDeclaration;
     OutputEntryCaller_resultFields resultName (struct_field structDeclaration)
   else
     match fn_semantic entryFunction with
     | Some _ => OutputSetOutAttribute (fn_semantic entryFunction) resultName
     | None => ret tt
     end) ;;
  CodeWriter_WriteLine 0 "}".

(** ** GLSLGenerator.cpp: Generate *)

(** The writes to the members at the start of [Generate]: the tree, the entry
    name, the target, the unique names and the prefixes. *)
Definition Generate_setup (tree : HLSLTree) (target : Target) (entryName : string)
    (g : GLSLGenerator) : GLSLGenerator :=
  let unique (base : string) (dst : string) := snd (ChooseUniqueName tree base dst 64) in
  Build_GLSLGenerator (m_writer g) (Some tree) (Some entryName) target (m_outputPosition g)
    (Some (if bool_decide (target = Target_VertexShader) then "frag_" else "rast_"))
    (Some (if bool_decide (target = Target_VertexShader) then "" else "frag_"))
    (unique "matrix_row" (m_matrixRowFunction g))
    (unique "clip" (m_clipFunction g))
    (unique "tex2Dlod" (m_tex2DlodFunction g))
    (unique "texCUBEbias" (m_texCUBEbiasFunction g))
    (unique "m_scalar_swizzle2" (m_scalarSwizzle2Function g))
    (unique "m_scalar_swizzle3" (m_scalarSwizzle3Function g))
    (unique "m_scalar_swizzle4" (m_scalarSwizzle4Function g))
    (unique "sincos" (m_sinCosFunction g))
    (m_error g)
    (zip_with unique s_reservedWord (m_reservedWord g))
    (g_stderr g).

Definition clear_tree (g : GLSLGenerator) : GLSLGenerator :=
  Build_GLSLGenerator (m_writer g) None (m_entryName g) (m_target g) (m_outputPosition g)
    (m_outAttribPrefix g) (m_inAttribPrefix g) (m_matrixRowFunction g) (m_clipFunction g)
    (m_tex2DlodFunction g) (m_texCUBEbiasFunction g) (m_scalarSwizzle2Function g)
    (m_scalarSwizzle3Function g) (m_scalarSwizzle4Function g) (m_sinCosFunction g)
    (m_error g) (m_reservedWord g) (g_stderr g).

Fixpoint write_lines (lines : list string) : Generator unit :=
  match lines with
  | [] => ret tt
  | l :: lines' => CodeWriter_WriteLine 0 l ;; write_lines lines'
  end.

Definition Generate (fuel : nat) (tree : HLSLTree) (target : Target) (entryName : string)
    : Generator bool :=
  modify (Generate_setup tree target entryName) ;;
  do g <- get;
  let usesClip := HLSLTree_GetContainsString "clip" tree in
  let usesTex2Dlod := HLSLTree_GetContainsString "tex2Dlod" tree in
  let usestexCUBEbias := HLSLTree_GetContainsString "texCUBEbias" tree in
  let usesSinCos := HLSLTree_GetContainsString "sincos" tree in
  let root := HLSLTree_GetRoot tree in
  let statement := root in
  (* Find the entry point function. *)
  match GLSL_FindFunction root entryName with
  | None =>
      GLSL_Error ("Entry point '" +:+ entryName +:+ "' doesn't exist") ;;
      ret false
  | Some (_, entryFunction, _) =>
      CodeWriter_WriteLine 0 "#version 140" ;;
      (* Pragmas for NVIDIA. *)
      CodeWriter_WriteLine 0 "#pragma optionNV(fastmath on)" ;;
      CodeWriter_WriteLine 0 "#pragma optionNV(ifcvt none)" ;;
      CodeWriter_WriteLine 0 "#pragma optionNV(inline all)" ;;
      CodeWriter_WriteLine 0 "#pragma optionNV(strict on)" ;;
      CodeWriter_WriteLine 0 "#pragma optionNV(unroll all)" ;;
      (* Output the special function used to access rows in a matrix. *)
      CodeWriter_WriteLine 0 ("vec3 " +:+ m_matrixRowFunction g
        +:+ "(mat3 m, int i) { return vec3( m[0][i], m[1][i], m[2][i] ); }") ;;
      CodeWriter_WriteLine 0 ("vec4 " +:+ m_matrixRowFunction g
        +:+ "(mat4 m, int i) { return vec4( m[0][i], m[1][i], m[2][i], m[3][i] ); }") ;;
      (* Output the special function used to emulate HLSL clip. *)
      (if usesClip then
         let discard := if bool_decide (m_target g = Target_FragmentShader)
                        then "discard" else "" in
         write_lines
           [ "void " +:+ m_clipFunction g +:+ "(float x) { if (x < 0.0) " +:+ discard +:+ ";  }";
             "void " +:+ m_clipFunction g
               +:+ "(vec2  x) { if (any(lessThan(x, vec2(0.0, 0.0)))) " +:+ discard +:+ ";  }";
             "void " +:+ m_clipFunction g
               +:+ "(vec3  x) { if (any(lessThan(x, vec3(0.0, 0.0, 0.0)))) " +:+ discard +:+ ";  }";
             "void " +:+ m_clipFunction g
               +:+ "(vec4  x) { if (any(lessThan(x, vec4(0.0, 0.0, 0.0, 0.0)))) "
               +:+ discard +:+ ";  }" ]
       else ret tt) ;;
      (* Output the special function used to emulate tex2Dlod. *)
      (if usesTex2Dlod then
         CodeWriter_WriteLine 0 ("vec4 " +:+ m_tex2DlodFunction g
           +:+ "(sampler2D sampler, vec4 texCoord) { return textureLod(sampler, texCoord.xy, texCoord.w);  }")
       else ret tt) ;;
      (* Output the special function used to emulate texCUBEbias. *)
      (if usestexCUBEbias then
         if bool_decide (target = Target_FragmentShader) then
           CodeWriter_WriteLine 0 ("vec4 " +:+ m_texCUBEbiasFunction g
             +:+ "(samplerCube sampler, vec4 texCoord) { return texture(sampler, texCoord.xyz, texCoord.w);  }")
         else
           (* Bias value is not supported in vertex shader. *)
           CodeWriter_WriteLine 0 ("vec4 " +:+ m_texCUBEbiasFunction g
             +:+ "(samplerCube sampler, vec4 texCoord) { return texture(sampler, texCoord.xyz);  }")
       else ret tt) ;;
      write_lines
        [ "vec2  " +:+ m_scalarSwizzle2Function g +:+ "(float x) { return  vec2(x, x); }";
          "ivec2 " +:+ m_scalarSwizzle2Function g +:+ "(int   x) { return ivec2(x, x); }";
          "uvec2 " +:+ m_scalarSwizzle2Function g +:+ "(uint  x) { return uvec2(x, x); }";
          "vec3  " +:+ m_scalarSwizzle3Function g +:+ "(float x) { return  vec3(x, x, x); }";
          "ivec3 " +:+ m_scalarSwizzle3Function g +:+ "(int   x) { return ivec3(x, x, x); }";
          "uvec3 " +:+ m_scalarSwizzle3Function g +:+ "(uint  x) { return uvec3(x, x, x); }";
          "vec4  " +:+ m_scalarSwizzle4Function g +:+ "(float x) { return  vec4(x, x, x, x); }";
          "ivec4 " +:+ m_scalarSwizzle4Function g +:+ "(int   x) { return ivec4(x, x, x, x); }";
          "uvec4 " +:+ m_scalarSwizzle4Function g +:+ "(uint  x) { return uvec4(x, x, x, x); }" ] ;;
      (if usesSinCos then
         write_lines
           (map (fun floatType =>
                   "void " +:+ m_sinCosFunction g +:+ "(" +:+ floatType +:+ " x, out "
                   +:+ floatType +:+ " s, out " +:+ floatType
                   +:+ " c) { s = sin(x); c = cos(x); }")
                [ "float"; "vec2"; "vec3"; "vec4" ])
       else ret tt) ;;
      OutputAttributes entryFunction ;;
      OutputStatements fuel 0 statement None ;;
      OutputEntryCaller fuel entryFunction ;;
      modify clear_tree ;;
      (* The GLSL compilers don't check for this, so generate our own error message. *)
      do g <- get;
      (if bool_decide (target = Target_VertexShader) && negb (m_outputPosition g)
       then GLSL_Error "Vertex shader must output a position"
       else ret tt) ;;
      do g <- get;
      ret (negb (m_error g))
  end.

Definition GetResult (g : GLSLGenerator) : CodeWriter := m_writer g.

(** ** Main.cpp *)

Definition usage : string :=
  "usage: hlslparser [-h] [-fs | -vs] FILENAME ENTRYNAME".

(** How a run of the program ends: with an exit code, after writing to the
    standard output and to the standard error; or in undefined behaviour. *)
Inductive ProcessOutcome : Type :=
  | Exited (code : Z) (stdout : option CodeWriter) (stderr : list string)
  | Crashed
  | NoFuel.

(** The locals of the loop over the arguments. *)
Record main_locals : Set := Build_main_locals {
  main_fileName : option string;
  main_entryName : option string;
  main_target : Target
}.

(** The loop over [argv[1]], ..., [argv[argc - 1]]: the locals after it, or
    the exit code and the standard error of a return from inside it. *)
Fixpoint main_arguments (args : list string) (l : main_locals)
    : main_locals + (Z * list string) :=
  match args with
  | [] => inl l
  | arg :: args' =>
      if String_Equal arg "-h" || String_Equal arg "--help" then
        inr (0, [usage])
      else if String_Equal arg "-fs" then
        main_arguments args'
          (Build_main_locals (main_fileName l) (main_entryName l) Target_FragmentShader)
      else if String_Equal arg "-vs" then
        main_arguments args'
          (Build_main_locals (main_fileName l) (main_entryName l) Target_VertexShader)
      else
        match main_fileName l, main_entryName l with
        | None, _ =>
            main_arguments args' (Build_main_locals (Some arg) (main_entryName l) (main_target l))
        | Some _, None =>
            main_arguments args' (Build_main_locals (main_fileName l) (Some arg) (main_target l))
        | Some _, Some _ =>
            inr (1, [Log_Error "Too many arguments"; usage])
        end
  end.

(** A diagnostic of the tokenizer as it is printed. *)
Definition print_diagnostic (d : Diagnostic) : string :=
  diag_file d +:+ ":" +:+ format_d (diag_line d) +:+ ": " +:+ diag_message d.

(** [main]; [args] are the arguments after the name of the program, and
    [tokens fileName] is the stream of tokens of the file read, with the line
    where it ends. *)
Definition main (fuel : nat) (tokens : string -> list Lexeme * Z) (args : list string)
    : ProcessOutcome :=
  (* Parse arguments *)
  match main_arguments args (Build_main_locals None None Target_FragmentShader) with
  | inr (code, stderr) => Exited code None stderr
  | inl l =>
      match main_fileName l, main_entryName l with
      | Some fileName, Some entryName =>
          (* Read input file *)
          let (stream, endLine) := tokens fileName in
          (* Parse input file *)
          match Parse fuel (HLSLParser_new fileName stream endLine HLSLTree_new) with
          | Crash => Crashed
          | OutOfFuel => NoFuel
          | Done parsed parser =>
              let stderr := map print_diagnostic (m_diagnostics (m_tokenizer parser)) in
              if negb parsed then
                Exited 1 None (stderr ++ [Log_Error "Parsing failed, aborting"])
              else
                (* Generate output *)
                match Generate fuel (m_tree parser) (main_target l) entryName
                               GLSLGenerator_new with
                | Crash => Crashed
                | OutOfFuel => NoFuel
                | Done _ generator =>
                    Exited 0 (Some (GetResult generator)) (stderr ++ g_stderr generator)
                end
          end
      | _, _ => Exited 1 None [Log_Error "Missing arguments"; usage]
      end
  end.

(** * The specification, in its own words *)

(** ** Implicit-cast rank (spec, 4.1)

    The numeric family, the number of components and the number of dimensions
    that the spec gives each numeric base type, read off the names of the
    types; and the 5x5 table of the conversion ranks of the families. *)

Inductive Family : Set := FamilyF | FamilyH | FamilyB | FamilyI | FamilyU.

Definition spec_family (t : HLSLBaseType) : option Family :=
  match t with
  | HLSLBaseType_Float | HLSLBaseType_Float2 | HLSLBaseType_Float3 | HLSLBaseType_Float4
  | HLSLBaseType_Float3x3 | HLSLBaseType_Float4x4 => Some FamilyF
  | HLSLBaseType_Half | HLSLBaseType_Half2 | HLSLBaseType_Half3 | HLSLBaseType_Half4
  | HLSLBaseType_Half3x3 | HLSLBaseType_Half4x4 => Some FamilyH
  | HLSLBaseType_Bool => Some FamilyB
  | HLSLBaseType_Int | HLSLBaseType_Int2 | HLSLBaseType_Int3 | HLSLBaseType_Int4 => Some FamilyI
  | HLSLBaseType_Uint | HLSLBaseType_Uint2 | HLSLBaseType_Uint3 | HLSLBaseType_Uint4 =>
      Some FamilyU
  | _ => None
  end.

(** A numeric base type: one that has a family. *)
Definition spec_numeric (t : HLSLBaseType) : Prop := is_Some (spec_family t).

(** 0 scalar, 1 vector, 2 matrix. *)
Definition spec_dimensions (t : HLSLBaseType) : Z :=
  match t with
  | HLSLBaseType_Float3x3 | HLSLBaseType_Float4x4
  | HLSLBaseType_Half3x3 | HLSLBaseType_Half4x4 => 2
  | HLSLBaseType_Float2 | HLSLBaseType_Float3 | HLSLBaseType_Float4
  | HLSLBaseType_Half2 | HLSLBaseType_Half3 | HLSLBaseType_Half4
  | HLSLBaseType_Int2 | HLSLBaseType_Int3 | HLSLBaseType_Int4
  | HLSLBaseType_Uint2 | HLSLBaseType_Uint3 | HLSLBaseType_Uint4 => 1
  | _ => 0
  end.

Definition spec_components (t : HLSLBaseType) : Z :=
  match t with
  | HLSLBaseType_Float2 | HLSLBaseType_Half2 | HLSLBaseType_Int2 | HLSLBaseType_Uint2 => 2
  | HLSLBaseType_Float3 | HLSLBaseType_Half3 | HLSLBaseType_Int3 | HLSLBaseType_Uint3
  | HLSLBaseType_Float3x3 | HLSLBaseType_Half3x3 => 3
  | HLSLBaseType_Float4 | HLSLBaseType_Half4 | HLSLBaseType_Int4 | HLSLBaseType_Uint4
  | HLSLBaseType_Float4x4 | HLSLBaseType_Half4x4 => 4
  | _ => 1
  end.

(** Rows: the family of the source; columns: the family of the destination. *)
Definition spec_family_rank (src dst : Family) : Z :=
  match src, dst with
  | FamilyF, FamilyF => 0 | FamilyF, _ => 4
  | FamilyH, FamilyF => 1 | FamilyH, FamilyH => 0 | FamilyH, _ => 4
  | FamilyB, FamilyB => 0 | FamilyB, _ => 5
  | FamilyI, FamilyF => 5 | FamilyI, FamilyH => 5 | FamilyI, FamilyB => 4
  | FamilyI, FamilyI => 0 | FamilyI, FamilyU => 3
  | FamilyU, FamilyF => 5 | FamilyU, FamilyH => 5 | FamilyU, FamilyB => 4
  | FamilyU, FamilyI => 2 | FamilyU, FamilyU => 0
  end.

(** The source is a scalar and the destination a vector or a matrix. *)
Definition spec_promotion (src dst : HLSLBaseType) : bool :=
  (spec_dimensions src =? 0) && (0 <? spec_dimensions dst).

(** Same dimensions and more components in the source, or a vector or a
    matrix to a scalar. *)
Definition spec_truncation (src dst : HLSLBaseType) : bool :=
  ((spec_dimensions src =? spec_dimensions dst)
   && (spec_components dst <? spec_components src))
  || ((0 <? spec_dimensions src) && (spec_dimensions dst =? 0)).

(** The rank of two numeric base types that differ, as the spec builds it:
    the rank of the families shifted left by one; bit 0 set for a promotion,
    else bit 4 set for a truncation, else -1 when the dimensions or the
    numbers of components differ. *)
Definition spec_TypeCastRank (src dst : HLSLBaseType) : Z :=
  match spec_family src, spec_family dst with
  | Some fs, Some fd =>
      let shifted := 2 * spec_family_rank fs fd in
      if spec_promotion src dst then shifted + 1
      else if spec_truncation src dst then shifted + 16
      else if negb (spec_dimensions src =? spec_dimensions dst)
              || negb (spec_components src =? spec_components dst)
      then -1
      else shifted
  | _, _ => -1
  end.

(** A type the code can compare with itself: a user-defined type has a name. *)
Definition recognized (t : HLSLType) : Prop :=
  baseType t = HLSLBaseType_UserDefined -> is_Some (typeName t).

(** A type that is not an array: the flag is off and there is no size. *)
Definition non_array (t : HLSLType) : Prop :=
  array t = false /\ arraySize t = None.

(** * Theorems *)

(** ** The rank of an implicit cast *)

Lemma same_pointer_refl (p : option HLSLExpression) : same_pointer p p = true.
Proof. destruct p as [e|]; simpl; [apply N.eqb_refl | reflexivity]. Qed.

Lemma GetTypeCastRank_same (T : HLSLType) :
  recognized T -> GetTypeCastRank T T = Some 0.
Proof.
  intros HT. unfold GetTypeCastRank.
  rewrite Bool.eqb_reflx, same_pointer_refl. simpl.
  destruct (bool_decide (baseType T = HLSLBaseType_UserDefined)) eqn:Hu; simpl.
  - apply bool_decide_eq_true in Hu. destruct (HT Hu) as [n Hn]. rewrite Hn.
    now rewrite String.eqb_refl.
  - now rewrite bool_decide_eq_true_2.
Qed.

Lemma GetTypeCastRank_numeric (src dst : HLSLType) :
  non_array src -> non_array dst ->
  spec_numeric (baseType src) -> spec_numeric (baseType dst) ->
  baseType src <> baseType dst ->
  GetTypeCastRank src dst = Some (spec_TypeCastRank (baseType src) (baseType dst)).
Proof.
  destruct src as [bs ns as_ ss cs], dst as [bd nd ad sd cd].
  unfold non_array, spec_numeric. simpl.
  intros [-> ->] [-> ->] Hs Hd Hne.
  unfold GetTypeCastRank. simpl.
  destruct bs; try (destruct Hs as [? Hs]; discriminate Hs);
    destruct bd; try (destruct Hd as [? Hd]; discriminate Hd);
    try (exfalso; apply Hne; reflexivity); reflexivity.
Qed.

(** The bits of a rank the spec builds: bit 0 is the promotion, bit 4 the
    truncation, and bits 1 to 3 hold the rank of the families. *)
Lemma spec_TypeCastRank_bits (src dst : HLSLBaseType) (fs fd : Family) :
  spec_family src = Some fs -> spec_family dst = Some fd ->
  spec_TypeCastRank src dst <> -1 ->
  Z.testbit (spec_TypeCastRank src dst) 0 = spec_promotion src dst
  /\ Z.testbit (spec_TypeCastRank src dst) 4
     = negb (spec_promotion src dst) && spec_truncation src dst
  /\ Z.shiftr (Z.land (spec_TypeCastRank src dst) 14) 1 = spec_family_rank fs fd.
Proof.
  destruct src, dst; simpl; intros Hs Hd; try discriminate;
    injection Hs as <-; injection Hd as <-; intros Hne;
    try (exfalso; apply Hne; reflexivity); repeat split; reflexivity.
Qed.

(** C4. [GetTypeCastRank(T, T)] is 0 for every recognized type [T]; and for
    two numeric types that are not arrays and differ in their base types the
    rank is the one the spec builds: the rank of the numeric families from the
    5x5 table shifted left by one, with bit 0 set for a promotion (scalar
    source, destination of dimension above 0), with bit 4 set for a truncation
    (equal dimensions and more components in the source, or a vector or matrix
    to a scalar), and -1 when the dimensions or the numbers of components
    differ otherwise. *)
Theorem C4_GetTypeCastRank :
  (forall T : HLSLType, recognized T -> GetTypeCastRank T T = Some 0)
  /\ (forall src dst : HLSLType,
        non_array src -> non_array dst ->
        spec_numeric (baseType src) -> spec_numeric (baseType dst) ->
        baseType src <> baseType dst ->
        GetTypeCastRank src dst = Some (spec_TypeCastRank (baseType src) (baseType dst)))
  /\ (forall (src dst : HLSLType) (fs fd : Family) (rank : Z),
        non_array src -> non_array dst ->
        spec_family (baseType src) = Some fs -> spec_family (baseType dst) = Some fd ->
        baseType src <> baseType dst ->
        GetTypeCastRank src dst = Some rank -> rank <> -1 ->
        Z.testbit rank 0 = spec_promotion (baseType src) (baseType dst)
        /\ Z.testbit rank 4
           = negb (spec_promotion (baseType src) (baseType dst))
             && spec_truncation (baseType src) (baseType dst)
        /\ Z.shiftr (Z.land rank 14) 1 = spec_family_rank fs fd).
Proof.
  split; [exact GetTypeCastRank_same |].
  split; [exact GetTypeCastRank_numeric |].
  intros src dst fs fd rank Hs Hd Hfs Hfd Hne Hrank Hno.
  rewrite GetTypeCastRank_numeric in Hrank; try assumption.
  - injection Hrank as <-. now apply spec_TypeCastRank_bits.
  - unfold spec_numeric. rewrite Hfs. eauto.
  - unfold spec_numeric. rewrite Hfd. eauto.
Qed.

(** C4 at float4 with itself, and at int to float2: a conversion of rank 5
    with a promotion, 2 * 5 + 1. *)
Lemma C4_GetTypeCastRank_witness :
  GetTypeCastRank (HLSLType_of HLSLBaseType_Float4) (HLSLType_of HLSLBaseType_Float4) = Some 0
  /\ GetTypeCastRank (HLSLType_of HLSLBaseType_Int) (HLSLType_of HLSLBaseType_Float2) = Some 11
  /\ Z.testbit 11 0 = true.
Proof.
  split; [| split].
  - apply (proj1 C4_GetTypeCastRank). intros H. discriminate H.
  - apply (proj1 (proj2 C4_GetTypeCastRank)
             (HLSLType_of HLSLBaseType_Int) (HLSLType_of HLSLBaseType_Float2));
      try (split; reflexivity); try (eexists; reflexivity). intros H. discriminate H.
  - apply (proj2 (proj2 C4_GetTypeCastRank)
             (HLSLType_of HLSLBaseType_Int) (HLSLType_of HLSLBaseType_Float2)
             FamilyI FamilyF 11);
      try (split; reflexivity); try reflexivity; try (intros H; discriminate H).
Defined.

(** ** The type of a swizzle *)

(** Spec, 4.1: every character of the accessor is one of xyzwrgba. *)
Definition one_of (c : ascii) (set : string) : bool :=
  existsb (Ascii.eqb c) (String.list_ascii_of_string set).

Fixpoint spec_swizzle_characters (accessor : string) : bool :=
  match accessor with
  | EmptyString => true
  | String c rest => one_of c "xyzwrgba" && spec_swizzle_characters rest
  end.

(** Spec, 4.1: the scalar or vector of a numeric family with a given number
    of components. *)
Definition spec_vector (family : NumericType) (components : nat) : option HLSLBaseType :=
  match family, components with
  | NumericType_Float, 1%nat => Some HLSLBaseType_Float
  | NumericType_Float, 2%nat => Some HLSLBaseType_Float2
  | NumericType_Float, 3%nat => Some HLSLBaseType_Float3
  | NumericType_Float, 4%nat => Some HLSLBaseType_Float4
  | NumericType_Half, 1%nat => Some HLSLBaseType_Half
  | NumericType_Half, 2%nat => Some HLSLBaseType_Half2
  | NumericType_Half, 3%nat => Some HLSLBaseType_Half3
  | NumericType_Half, 4%nat => Some HLSLBaseType_Half4
  | NumericType_Int, 1%nat => Some HLSLBaseType_Int
  | NumericType_Int, 2%nat => Some HLSLBaseType_Int2
  | NumericType_Int, 3%nat => Some HLSLBaseType_Int3
  | NumericType_Int, 4%nat => Some HLSLBaseType_Int4
  | NumericType_Uint, 1%nat => Some HLSLBaseType_Uint
  | NumericType_Uint, 2%nat => Some HLSLBaseType_Uint2
  | NumericType_Uint, 3%nat => Some HLSLBaseType_Uint3
  | NumericType_Uint, 4%nat => Some HLSLBaseType_Uint4
  | _, _ => None
  end.

(** A scalar or a vector of the family float, half, int or uint. *)
Definition swizzled_object (objectType : HLSLType) : Prop :=
  numDimensions (_baseTypeDescriptions (baseType objectType)) <= 1
  /\ In (numericType (_baseTypeDescriptions (baseType objectType)))
        [NumericType_Float; NumericType_Half; NumericType_Int; NumericType_Uint].

Lemma is_swizzle_char_spec (c : ascii) :
  is_swizzle_char c = one_of c "xyzwrgba".
Proof.
  unfold is_swizzle_char, one_of. simpl.
  repeat match goal with |- context [Ascii.eqb c ?x] => destruct (Ascii.eqb c x) end;
    reflexivity.
Qed.

Lemma GetMemberType_swizzle_spec (fieldName : string) (n : Z) :
  GetMemberType_swizzle fieldName n
  = if spec_swizzle_characters fieldName
    then Some (n + Z.of_nat (String.length fieldName)) else None.
Proof.
  revert n. induction fieldName as [| c rest IH]; intros n; simpl.
  - f_equal. lia.
  - rewrite is_swizzle_char_spec.
    destruct (one_of c "xyzwrgba"); simpl; [| reflexivity].
    rewrite IH. destruct (spec_swizzle_characters rest); [| reflexivity].
    f_equal. lia.
Qed.

(** The parser after [m_tokenizer.Error] reported [message]. *)
Definition reported (message : string) (p : HLSLParser) : HLSLParser :=
  set_tokenizer (tk_Error message (m_tokenizer p)) p.

(** Unfolding of the sequencing of the code. *)
Ltac run := unfold bind, ret, ASSERT, deref, crash, Error, modify, get.

Lemma GetMemberType_swizzle_ok (objectType : HLSLType) (fieldName : string)
    (memberType : HLSLType) (p : HLSLParser) :
  swizzled_object objectType ->
  spec_swizzle_characters fieldName = true ->
  (1 <= String.length fieldName <= 4)%nat ->
  exists b,
    spec_vector (numericType (_baseTypeDescriptions (baseType objectType)))
                (String.length fieldName) = Some b
    /\ GetMemberType objectType fieldName memberType p
       = Done (true, set_baseType b memberType) p.
Proof.
  intros [Hdim Hfam] Hchars Hlen.
  unfold GetMemberType.
  assert (Hcases : String.length fieldName = 1%nat \/ String.length fieldName = 2%nat
                   \/ String.length fieldName = 3%nat \/ String.length fieldName = 4%nat) by lia.
  destruct objectType as [b tn a sz c]; simpl in *.
  destruct b; simpl in Hdim, Hfam; try lia;
    try (exfalso; intuition discriminate); simpl; run; simpl;
    rewrite GetMemberType_swizzle_spec, Hchars;
    destruct Hcases as [H|[H|[H|H]]]; rewrite !H; simpl; eexists; split; reflexivity.
Qed.


Lemma GetMemberType_swizzle_bad_character (objectType : HLSLType) (fieldName : string)
    (memberType : HLSLType) (p : HLSLParser) :
  swizzled_object objectType ->
  spec_swizzle_characters fieldName = false ->
  GetMemberType objectType fieldName memberType p
  = Done (false, memberType) (reported ("Invalid swizzle '" +:+ fieldName +:+ "'") p).
Proof.
  intros [Hdim Hfam] Hchars.
  unfold GetMemberType.
  destruct objectType as [b tn a sz c]; simpl in *.
  destruct b; simpl in Hdim, Hfam; try lia;
    try (exfalso; intuition discriminate); simpl; run; simpl;
    rewrite GetMemberType_swizzle_spec, Hchars; reflexivity.
Qed.

Lemma GetMemberType_swizzle_too_long (objectType : HLSLType) (fieldName : string)
    (memberType : HLSLType) (p : HLSLParser) :
  swizzled_object objectType ->
  spec_swizzle_characters fieldName = true ->
  (4 < String.length fieldName)%nat ->
  GetMemberType objectType fieldName memberType p
  = Done (false, memberType) (reported ("Invalid swizzle '" +:+ fieldName +:+ "'") p).
Proof.
  intros [Hdim Hfam] Hchars Hlen.
  unfold GetMemberType.
  assert (H0 : (0 + Z.of_nat (String.length fieldName) >? 0) = true) by lia.
  assert (H4 : (0 + Z.of_nat (String.length fieldName) >? 4) = true) by lia.
  destruct objectType as [b tn a sz c]; simpl in *.
  destruct b; simpl in Hdim, Hfam; try lia;
    try (exfalso; intuition discriminate); simpl; run; simpl;
    rewrite GetMemberType_swizzle_spec, Hchars; rewrite H0; simpl; rewrite H4; reflexivity.
Qed.

(** C7. For a member access on a scalar or a vector (dimension at most 1) of
    the numeric family float, half, int or uint: an accessor whose characters
    are all among x, y, z, w, r, g, b, a and whose length is between 1 and 4 is
    accepted without any report, and the base type of the result is the
    scalar or vector of the same family with as many components as the
    accessor has characters, the other members of the type being left as they
    were; an accessor with another character, or a longer one (5 characters,
    say), is rejected with the diagnostic "Invalid swizzle" and the type is
    left as it was. *)
Theorem C7_GetMemberType_swizzle (objectType : HLSLType) (fieldName : string)
    (memberType : HLSLType) (p : HLSLParser) :
  swizzled_object objectType ->
  (spec_swizzle_characters fieldName = true ->
   (1 <= String.length fieldName <= 4)%nat ->
   exists result,
     GetMemberType objectType fieldName memberType p = Done (true, result) p
     /\ spec_vector (numericType (_baseTypeDescriptions (baseType objectType)))
                    (String.length fieldName) = Some (baseType result)
     /\ typeName result = typeName memberType
     /\ array result = array memberType
     /\ arraySize result = arraySize memberType
     /\ constant result = constant memberType)
  /\ (spec_swizzle_characters fieldName = false ->
      GetMemberType objectType fieldName memberType p
      = Done (false, memberType) (reported ("Invalid swizzle '" +:+ fieldName +:+ "'") p))
  /\ (spec_swizzle_characters fieldName = true ->
      (4 < String.length fieldName)%nat ->
      GetMemberType objectType fieldName memberType p
      = Done (false, memberType) (reported ("Invalid swizzle '" +:+ fieldName +:+ "'") p)).
Proof.
  intros Hobject. split; [| split].
  - intros Hchars Hlen.
    destruct (GetMemberType_swizzle_ok objectType fieldName memberType p Hobject Hchars Hlen)
      as (b & Hb & Hrun).
    exists (set_baseType b memberType). split; [exact Hrun |].
    split; [exact Hb |]. repeat split; reflexivity.
  - now apply GetMemberType_swizzle_bad_character.
  - now apply GetMemberType_swizzle_too_long.
Qed.

Definition float4_type : HLSLType := HLSLType_of HLSLBaseType_Float4.

Definition empty_parser : HLSLParser := HLSLParser_new "a.hlsl" [] 1 HLSLTree_new.

Lemma float4_swizzled_object : swizzled_object float4_type.
Proof. split; [simpl; lia | simpl; tauto]. Qed.

(** C7 at a float4: [.wwx] is a float3, and [.xyzwx] is rejected. *)
Lemma C7_GetMemberType_swizzle_witness :
  GetMemberType float4_type "wwx" (HLSLType_of HLSLBaseType_Unknown) empty_parser
  = Done (true, HLSLType_of HLSLBaseType_Float3) empty_parser
  /\ GetMemberType float4_type "xyzwx" (HLSLType_of HLSLBaseType_Unknown) empty_parser
     = Done (false, HLSLType_of HLSLBaseType_Unknown)
            (reported "Invalid swizzle 'xyzwx'" empty_parser).
Proof.
  split.
  - destruct (proj1 (C7_GetMemberType_swizzle float4_type "wwx"
                       (HLSLType_of HLSLBaseType_Unknown) empty_parser float4_swizzled_object))
      as (result & Hrun & Hbase & Hname & Harray & Hsize & Hconstant);
      [reflexivity | simpl; lia |].
    rewrite Hrun. do 2 f_equal.
    destruct result as [b n a z c]. simpl in *.
    injection Hbase as <-. subst n a z c. reflexivity.
  - apply (proj2 (proj2 (C7_GetMemberType_swizzle float4_type "xyzwx"
                    (HLSLType_of HLSLBaseType_Unknown) empty_parser float4_swizzled_object)));
      [reflexivity | simpl; lia].
Defined.

(** * Overload resolution *)

(** ** Comparing two sorted vectors of ranks *)

Lemma CompareFunctions_loop_refl (a : list Z) :
  CompareFunctions_loop a a = FunctionsEqual.
Proof.
  induction a as [| x a IH]; simpl; [reflexivity |].
  rewrite Z.ltb_irrefl. exact IH.
Qed.

Lemma CompareFunctions_loop_equal (a b : list Z) :
  length a = length b ->
  CompareFunctions_loop a b = FunctionsEqual -> a = b.
Proof.
  revert b. induction a as [| x a IH]; intros [| y b] Hlen; simpl in *; try discriminate.
  - reflexivity.
  - destruct (x <? y) eqn:Hxy; [discriminate |].
    destruct (y <? x) eqn:Hyx; [discriminate |].
    intros H. f_equal; [lia | apply IH; [lia | exact H]].
Qed.

Lemma CompareFunctions_loop_swap (a b : list Z) :
  CompareFunctions_loop a b = Function2Better <->
  CompareFunctions_loop b a = Function1Better.
Proof.
  revert b. induction a as [| x a IH]; intros [| y b]; simpl; try (split; discriminate).
  destruct (x <? y) eqn:Hxy, (y <? x) eqn:Hyx; try lia; try (split; (reflexivity || discriminate)).
  apply IH.
Qed.

Lemma CompareFunctions_loop_trans (a b c : list Z) :
  CompareFunctions_loop a b = Function1Better ->
  CompareFunctions_loop b c = Function1Better ->
  CompareFunctions_loop a c = Function1Better.
Proof.
  revert b c. induction a as [| x a IH]; intros [| y b] [| z c]; simpl; try discriminate.
  destruct (x <? y) eqn:Hxy.
  - intros _. destruct (y <? z) eqn:Hyz.
    + intros _. replace (x <? z) with true by lia. reflexivity.
    + destruct (z <? y) eqn:Hzy; [discriminate |].
      intros _. replace (x <? z) with true by lia. reflexivity.
  - destruct (y <? x) eqn:Hyx; [discriminate |]. intros Hab.
    destruct (y <? z) eqn:Hyz.
    + intros _. replace (x <? z) with true by lia. reflexivity.
    + destruct (z <? y) eqn:Hzy; [discriminate |]. intros Hbc.
      replace (x <? z) with false by lia. replace (z <? x) with false by lia.
      eapply IH; eassumption.
Qed.

Lemma insert_rank_length (r : Z) (l : list Z) : length (insert_rank r l) = S (length l).
Proof.
  induction l as [| x l IH]; simpl; [reflexivity |].
  destruct (x <? r); simpl; [reflexivity | now rewrite IH].
Qed.

Lemma sort_ranks_length (l : list Z) : length (sort_ranks l) = length l.
Proof.
  induction l as [| x l IH]; simpl; [reflexivity |].
  unfold sort_ranks in *. simpl. now rewrite insert_rank_length, IH.
Qed.

(** [sort_ranks] is [std::sort] with [CompareRanks]: a permutation in
    descending order. *)
Lemma insert_rank_perm (r : Z) (l : list Z) : Permutation (r :: l) (insert_rank r l).
Proof.
  induction l as [| x l IH]; simpl; [reflexivity |].
  destruct (x <? r); [reflexivity |].
  rewrite Permutation_swap. now apply Permutation_skip.
Qed.

Lemma sort_ranks_perm (l : list Z) : Permutation l (sort_ranks l).
Proof.
  induction l as [| x l IH]; simpl; [reflexivity |].
  unfold sort_ranks in *. simpl. rewrite <- insert_rank_perm. now apply Permutation_skip.
Qed.

Lemma insert_rank_sorted (r : Z) (l : list Z) :
  Sorted Z.ge l -> Sorted Z.ge (insert_rank r l).
Proof.
  induction l as [| x l IH]; simpl; intros Hs.
  - repeat constructor.
  - destruct (x <? r) eqn:Hx.
    + constructor; [exact Hs | constructor; lia].
    + apply Sorted_inv in Hs as [Hs Hhd].
      constructor; [now apply IH |].
      destruct l as [| y l]; simpl.
      * constructor. lia.
      * destruct (y <? r); constructor; [lia |]. now inversion Hhd.
Qed.

Lemma sort_ranks_sorted (l : list Z) : Sorted Z.ge (sort_ranks l).
Proof.
  induction l as [| x l IH]; simpl; [constructor |].
  unfold sort_ranks in *. simpl. now apply insert_rank_sorted.
Qed.

(** ** The candidates of a call *)

Section Overload.

Variable numArguments : Z.
Variable callArgument : list HLSLExpression.

(** What [GetFunctionCallCastRanks] gives for a candidate. *)
Definition call_ranks (function : HLSLFunctionDecl) : option (bool * list Z) :=
  GetFunctionCallCastRanks numArguments callArgument (Some function).

(** The ranks of the arguments of a viable candidate, sorted in descending
    order; nothing for a candidate that is not viable. *)
Definition rank_vector (function : HLSLFunctionDecl) : option (list Z) :=
  match call_ranks function with
  | Some (true, ranks) => Some (sort_ranks ranks)
  | _ => None
  end.

Definition viable (function : HLSLFunctionDecl) : Prop := is_Some (rank_vector function).

(** The code has a defined behaviour on the candidate: it compares no null
    type name and reads no argument past the end of a chain. *)
Definition defined (function : HLSLFunctionDecl) : Prop := is_Some (call_ranks function).

Definition compare_vectors (a b : option (list Z)) : CompareFunctionsResult :=
  match a, b with
  | Some v, Some w => CompareFunctions_loop v w
  | Some _, None => Function1Better
  | None, Some _ => Function2Better
  | None, None => FunctionsEqual
  end.

Lemma viable_defined (f : HLSLFunctionDecl) : viable f -> defined f.
Proof.
  unfold viable, defined, rank_vector. destruct (call_ranks f) as [[[] r]|]; intros [v Hv];
    try discriminate; eauto.
Qed.

Lemma CompareFunctions_vectors (f g : HLSLFunctionDecl) :
  defined f -> defined g ->
  CompareFunctions numArguments callArgument (Some f) (Some g)
  = Some (compare_vectors (rank_vector f) (rank_vector g)).
Proof.
  unfold defined, rank_vector, call_ranks, CompareFunctions.
  intros [[v1 r1] ->] [[v2 r2] ->]. destruct v1, v2; reflexivity.
Qed.

Lemma CompareFunctions_null (f : HLSLFunctionDecl) :
  defined f ->
  CompareFunctions numArguments callArgument (Some f) None
  = Some (compare_vectors (rank_vector f) None).
Proof.
  unfold defined, rank_vector, call_ranks, CompareFunctions.
  intros [[v1 r1] ->]. simpl. destruct v1; reflexivity.
Qed.

Lemma GetFunctionCallCastRanks_loop_length (n : nat) (expression : list HLSLExpression)
    (argument : list HLSLArgument) (ranks : list Z) :
  GetFunctionCallCastRanks_loop n expression argument = Some (true, ranks) ->
  length ranks = n.
Proof.
  revert expression argument ranks. induction n as [| n IH]; intros e a ranks; simpl.
  - intros H. injection H as <-. reflexivity.
  - destruct e as [| e0 e]; [discriminate |]. destruct a as [| a0 a]; [discriminate |].
    destruct (GetTypeCastRank _ _) as [rank |]; [| discriminate].
    destruct (rank =? -1); [discriminate |].
    destruct (GetFunctionCallCastRanks_loop n e a) as [[v r] |] eqn:Hrec; [| discriminate].
    intros H. injection H as -> <-. simpl. f_equal. now apply (IH e a).
Qed.

Lemma rank_vector_length (f : HLSLFunctionDecl) (v : list Z) :
  rank_vector f = Some v -> length v = Z.to_nat numArguments.
Proof.
  unfold rank_vector, call_ranks, GetFunctionCallCastRanks.
  destruct (negb (fn_numArguments f =? numArguments)); [discriminate |].
  destruct (GetFunctionCallCastRanks_loop _ _ _) as [[[] r] |] eqn:H; try discriminate.
  intros Hv. injection Hv as <-. rewrite sort_ranks_length.
  now apply GetFunctionCallCastRanks_loop_length in H.
Qed.

(** A candidate with the vector [v]. *)
Definition same_vector (v : list Z) (g : HLSLFunctionDecl) : Prop := rank_vector g = Some v.

#[local] Instance same_vector_dec (v : list Z) (g : HLSLFunctionDecl) :
  Decision (same_vector v g).
Proof. unfold same_vector. apply _. Defined.

Definition count_same (v : list Z) (done : list HLSLFunctionDecl) : Z :=
  Z.of_nat (length (filter (same_vector v) done)).

(** What the locals of [MatchFunctionCall] hold after the candidates [done]:
    no function while no candidate was viable; then the first candidate whose
    vector no other vector beats, and the number of candidates with that
    vector. *)
Definition MatchFunctionCall_invariant (done : list HLSLFunctionDecl)
    (l : MatchFunctionCall_locals) : Prop :=
  match matchedFunction l with
  | None => forall g, g ∈ done -> rank_vector g = None
  | Some m =>
      exists (i : nat) (v : list Z),
        done !! i = Some m /\ rank_vector m = Some v
        /\ (forall g w, g ∈ done -> rank_vector g = Some w ->
              CompareFunctions_loop v w <> Function2Better)
        /\ numMatchedOverloads l = count_same v done
  end.

Lemma count_same_app (v : list Z) (done : list HLSLFunctionDecl) (f : HLSLFunctionDecl) :
  count_same v (done ++ [f])
  = count_same v done + (if decide (same_vector v f) then 1 else 0).
Proof.
  unfold count_same. rewrite filter_app, length_app.
  rewrite filter_cons, filter_nil. destruct (decide (same_vector v f)); simpl; lia.
Qed.

Lemma count_same_none (v : list Z) (done : list HLSLFunctionDecl) :
  (forall g, g ∈ done -> rank_vector g <> Some v) -> count_same v done = 0.
Proof.
  intros H. unfold count_same.
  replace (filter (same_vector v) done) with (@nil HLSLFunctionDecl); [reflexivity |].
  symmetry. induction done as [| g done IH]; [reflexivity |].
  rewrite filter_cons. destruct (decide (same_vector v g)) as [Hg | Hg].
  - exfalso. apply (H g); [left | exact Hg].
  - apply IH. intros g' Hg'. apply H. now right.
Qed.

Lemma MatchFunctionCall_visit_invariant (done : list HLSLFunctionDecl)
    (l : MatchFunctionCall_locals) (f : HLSLFunctionDecl) :
  MatchFunctionCall_invariant done l -> defined f ->
  exists l',
    MatchFunctionCall_visit numArguments callArgument f l = Some l'
    /\ MatchFunctionCall_invariant (done ++ [f]) l'.
Proof.
  intros Hinv Hf. unfold MatchFunctionCall_visit, MatchFunctionCall_invariant in *.
  destruct (matchedFunction l) as [m |] eqn:Hm.
  - destruct Hinv as (i & v & Hi & Hv & Hmin & Hnum).
    rewrite CompareFunctions_vectors;
      [| exact Hf | apply viable_defined; unfold viable; rewrite Hv; eauto].
    rewrite Hv. destruct (rank_vector f) as [w |] eqn:Hw; simpl.
    + pose proof (rank_vector_length _ _ Hv) as Hlv.
      pose proof (rank_vector_length _ _ Hw) as Hlw.
      destruct (CompareFunctions_loop w v) eqn:Hcmp.
      * (* equal *)
        apply CompareFunctions_loop_equal in Hcmp; [| congruence]. subst w.
        eexists. split; [reflexivity |]. simpl.
        exists i, v. split; [now apply lookup_app_l_Some |]. split; [exact Hv |]. split.
        -- intros g w Hg Hgw. apply elem_of_app in Hg as [Hg | Hg]; [now apply (Hmin g) |].
           apply list_elem_of_singleton in Hg. subst g. rewrite Hw in Hgw. injection Hgw as <-.
           rewrite CompareFunctions_loop_refl. discriminate.
        -- rewrite count_same_app, Hnum.
           destruct (decide (same_vector v f)) as [_ | Hn]; [reflexivity | contradiction].
      * (* the new one is better *)
        eexists. split; [reflexivity |]. simpl.
        exists (length done), w. split; [apply list_lookup_middle; reflexivity |].
        split; [exact Hw |].
        assert (Hbelow : forall g u, g ∈ done -> rank_vector g = Some u ->
                  CompareFunctions_loop w u = Function1Better).
        { intros g u Hg Hgu. specialize (Hmin g u Hg Hgu).
          pose proof (rank_vector_length _ _ Hgu) as Hlu.
          destruct (CompareFunctions_loop v u) eqn:Hvu; [| | contradiction].
          - apply CompareFunctions_loop_equal in Hvu; [| congruence]. now subst u.
          - eapply CompareFunctions_loop_trans; eassumption. }
        split.
        -- intros g u Hg Hgu. apply elem_of_app in Hg as [Hg | Hg].
           ++ rewrite (Hbelow g u Hg Hgu). discriminate.
           ++ apply list_elem_of_singleton in Hg. subst g. rewrite Hw in Hgu.
              injection Hgu as <-. rewrite CompareFunctions_loop_refl. discriminate.
        -- rewrite count_same_app, count_same_none.
           ++ destruct (decide (same_vector w f)) as [_ | Hn]; [reflexivity | contradiction].
           ++ intros g Hg Hgw. pose proof (Hbelow g w Hg Hgw) as Hww.
              rewrite CompareFunctions_loop_refl in Hww. discriminate.
      * (* the matched one stays better *)
        eexists. split; [reflexivity |]. simpl.
        exists i, v. split; [now apply lookup_app_l_Some |]. split; [exact Hv |]. split.
        -- intros g u Hg Hgu. apply elem_of_app in Hg as [Hg | Hg]; [now apply (Hmin g) |].
           apply list_elem_of_singleton in Hg. subst g. rewrite Hw in Hgu. injection Hgu as <-.
           apply CompareFunctions_loop_swap in Hcmp. rewrite Hcmp. discriminate.
        -- rewrite count_same_app, Hnum.
           destruct (decide (same_vector v f)) as [Hs | _]; [| lia].
           unfold same_vector in Hs. rewrite Hw in Hs. injection Hs as ->.
           rewrite CompareFunctions_loop_refl in Hcmp. discriminate.
    + (* the new one is not viable *)
      eexists. split; [reflexivity |]. simpl.
      exists i, v. split; [now apply lookup_app_l_Some |]. split; [exact Hv |]. split.
      * intros g u Hg Hgu. apply elem_of_app in Hg as [Hg | Hg]; [now apply (Hmin g) |].
        apply list_elem_of_singleton in Hg. subst g. rewrite Hw in Hgu. discriminate.
      * rewrite count_same_app, Hnum.
        destruct (decide (same_vector v f)) as [Hs | _]; [| lia].
        unfold same_vector in Hs. rewrite Hw in Hs. discriminate.
  - rewrite CompareFunctions_null by exact Hf.
    destruct (rank_vector f) as [w |] eqn:Hw; simpl.
    + eexists. split; [reflexivity |]. simpl.
      exists (length done), w. split; [apply list_lookup_middle; reflexivity |].
      split; [exact Hw |]. split.
      * intros g u Hg Hgu. apply elem_of_app in Hg as [Hg | Hg].
        -- rewrite (Hinv g Hg) in Hgu. discriminate.
        -- apply list_elem_of_singleton in Hg. subst g. rewrite Hw in Hgu.
           injection Hgu as <-. rewrite CompareFunctions_loop_refl. discriminate.
      * rewrite count_same_app, count_same_none.
        -- destruct (decide (same_vector w f)) as [_ | Hn]; [reflexivity | contradiction].
        -- intros g Hg Hgw. rewrite (Hinv g Hg) in Hgw. discriminate.
    + eexists. split; [reflexivity |]. simpl.
      intros g Hg. apply elem_of_app in Hg as [Hg | Hg]; [now apply Hinv |].
      apply list_elem_of_singleton in Hg. now subst g.
Qed.


Lemma MatchFunctionCall_loop_invariant (name : string) (functions : list HLSLFunctionDecl) :
  forall (done : list HLSLFunctionDecl) (l : MatchFunctionCall_locals),
    MatchFunctionCall_invariant done l ->
    (forall f, f ∈ functions -> fn_name f = name -> defined f) ->
    exists l',
      MatchFunctionCall_loop numArguments callArgument name functions l = Some l'
      /\ MatchFunctionCall_invariant (done ++ filter (fun f => fn_name f = name) functions) l'.
Proof.
  induction functions as [| f functions IH]; intros done l Hinv Hdef; simpl.
  - exists l. split; [reflexivity |]. rewrite filter_nil, app_nil_r. exact Hinv.
  - rewrite filter_cons. destruct (String.eqb (fn_name f) name) eqn:Hname.
    + apply String.eqb_eq in Hname.
      destruct (decide (fn_name f = name)) as [_ | Hn]; [| contradiction].
      destruct (MatchFunctionCall_visit_invariant done l f Hinv) as (l1 & Hvisit & Hinv1).
      { apply Hdef; [left | exact Hname]. }
      rewrite Hvisit.
      destruct (IH (done ++ [f]) l1 Hinv1) as (l' & Hloop & Hinv').
      { intros g Hg. apply Hdef. now right. }
      exists l'. split; [exact Hloop |]. now rewrite <- app_assoc in Hinv'.
    + apply String.eqb_neq in Hname.
      destruct (decide (fn_name f = name)) as [Hn | _]; [contradiction |].
      apply IH; [exact Hinv |]. intros g Hg. apply Hdef. now right.
Qed.

Lemma filter_length_one_unique {A : Type} (P : A -> Prop) `{forall x, Decision (P x)}
    (l : list A) (i j : nat) (a b : A) :
  length (filter P l) = 1%nat ->
  l !! i = Some a -> P a -> l !! j = Some b -> P b -> i = j.
Proof.
  revert i j. induction l as [| x l IH]; intros i j Hlen Hi Ha Hj Hb; [discriminate Hi |].
  rewrite filter_cons in Hlen. destruct (decide (P x)) as [Hx | Hx].
  - simpl in Hlen. assert (Hnil : filter P l = []) by (destruct (filter P l); [reflexivity | discriminate]).
    destruct i as [| i], j as [| j]; [reflexivity | | |].
    + exfalso. simpl in Hj. apply list_elem_of_lookup_2 in Hj.
      assert (Hin : b ∈ filter P l) by (apply list_elem_of_filter; tauto).
      rewrite Hnil in Hin. inversion Hin.
    + exfalso. simpl in Hi. apply list_elem_of_lookup_2 in Hi.
      assert (Hin : a ∈ filter P l) by (apply list_elem_of_filter; tauto).
      rewrite Hnil in Hin. inversion Hin.
    + exfalso. simpl in Hi. apply list_elem_of_lookup_2 in Hi.
      assert (Hin : a ∈ filter P l) by (apply list_elem_of_filter; tauto).
      rewrite Hnil in Hin. inversion Hin.
  - destruct i as [| i]; [simpl in Hi; injection Hi as ->; contradiction |].
    destruct j as [| j]; [simpl in Hj; injection Hj as ->; contradiction |].
    f_equal. now apply IH.
Qed.

Lemma filter_length_unique_one {A : Type} (P : A -> Prop) `{forall x, Decision (P x)}
    (l : list A) (i : nat) (a : A) :
  l !! i = Some a -> P a ->
  (forall j b, l !! j = Some b -> P b -> j = i) ->
  length (filter P l) = 1%nat.
Proof.
  revert i. induction l as [| x l IH]; intros i Hi Ha Huniq; [discriminate Hi |].
  rewrite filter_cons. destruct (decide (P x)) as [Hx | Hx].
  - assert (i = 0%nat) as -> by (symmetry; now apply (Huniq 0%nat x)).
    simpl. f_equal.
    destruct (filter P l) as [| y ys] eqn:Hf; [reflexivity | exfalso].
    assert (Hy : y ∈ filter P l) by (rewrite Hf; left).
    apply list_elem_of_filter in Hy as [Hy Hyl].
    apply list_elem_of_lookup_1 in Hyl as [j Hj].
    specialize (Huniq (S j) y Hj Hy). discriminate.
  - destruct i as [| i]; [simpl in Hi; injection Hi as ->; contradiction |].
    apply (IH i); [exact Hi | exact Ha |].
    intros j b Hj Hb. specialize (Huniq (S j) b Hj Hb). lia.
Qed.

(** The candidates of a call of [name]: the user-defined functions and the
    intrinsics of that name, in the order in which the code visits them. *)
Definition candidates (name : string) (p : HLSLParser) : list HLSLFunctionDecl :=
  filter (fun f => fn_name f = name) (m_functions p ++ _intrinsic).

(** The candidate at index [i] is viable and strictly better than every
    other viable candidate. *)
Definition strict_winner (name : string) (p : HLSLParser) (i : nat) (f : HLSLFunctionDecl)
    : Prop :=
  candidates name p !! i = Some f /\ viable f
  /\ forall (j : nat) (g : HLSLFunctionDecl),
       j <> i -> candidates name p !! j = Some g -> viable g ->
       CompareFunctions numArguments callArgument (Some f) (Some g) = Some Function1Better.

Lemma MatchFunctionCall_locals_final (name : string) (p : HLSLParser) :
  (forall f, f ∈ candidates name p -> defined f) ->
  exists l,
    MatchFunctionCall_loop numArguments callArgument name (m_functions p)
      (Build_MatchFunctionCall_locals None 0 false) = Some l
    /\ exists l',
         MatchFunctionCall_loop numArguments callArgument name _intrinsic l = Some l'
         /\ MatchFunctionCall_invariant (candidates name p) l'.
Proof.
  intros Hdef.
  destruct (MatchFunctionCall_loop_invariant name (m_functions p) []
              (Build_MatchFunctionCall_locals None 0 false)) as (l & Hl & Hinv).
  { intros g Hg. inversion Hg. }
  { intros f Hf Hname. apply Hdef. unfold candidates.
    apply list_elem_of_filter. split; [exact Hname |]. apply elem_of_app. now left. }
  exists l. split; [exact Hl |].
  destruct (MatchFunctionCall_loop_invariant name _intrinsic _ l Hinv) as (l' & Hl' & Hinv').
  { intros f Hf Hname. apply Hdef. unfold candidates.
    apply list_elem_of_filter. split; [exact Hname |]. apply elem_of_app. now right. }
  exists l'. split; [exact Hl' |].
  unfold candidates. rewrite filter_app. exact Hinv'.
Qed.


(** With the invariant on all the candidates: the matched function, when it
    is the only one with its vector, is the strict winner. *)
Lemma invariant_strict_winner (name : string) (p : HLSLParser)
    (m : HLSLFunctionDecl) (i : nat) (v : list Z) :
  candidates name p !! i = Some m -> rank_vector m = Some v ->
  (forall g w, g ∈ candidates name p -> rank_vector g = Some w ->
     CompareFunctions_loop v w <> Function2Better) ->
  count_same v (candidates name p) = 1 ->
  strict_winner name p i m.
Proof.
  intros Hi Hv Hmin Hcount. split; [exact Hi |]. split; [unfold viable; rewrite Hv; eauto |].
  intros j g Hji Hj [u Hu].
  rewrite CompareFunctions_vectors;
    [| apply viable_defined; unfold viable; rewrite Hv; eauto
     | apply viable_defined; unfold viable; rewrite Hu; eauto].
  rewrite Hv, Hu. simpl. f_equal.
  pose proof (Hmin g u (list_elem_of_lookup_2 _ _ _ Hj) Hu) as Hnot.
  destruct (CompareFunctions_loop v u) eqn:Hcmp; [| reflexivity | contradiction].
  exfalso. apply CompareFunctions_loop_equal in Hcmp.
  - subst u. apply Hji.
    apply (filter_length_one_unique (same_vector v) (candidates name p) j i g m);
      try assumption.
    unfold count_same in Hcount. lia.
  - rewrite (rank_vector_length _ _ Hv), (rank_vector_length _ _ Hu). reflexivity.
Qed.

(** With the invariant on all the candidates: a strict winner is the matched
    function, and no other candidate has its vector. *)
Lemma strict_winner_invariant (name : string) (p : HLSLParser)
    (m w : HLSLFunctionDecl) (i iw : nat) (v : list Z) :
  candidates name p !! i = Some m -> rank_vector m = Some v ->
  (forall g u, g ∈ candidates name p -> rank_vector g = Some u ->
     CompareFunctions_loop v u <> Function2Better) ->
  strict_winner name p iw w ->
  w = m /\ count_same v (candidates name p) = 1.
Proof.
  intros Hi Hv Hmin (Hiw & [vw Hvw] & Hbetter).
  assert (Hmviable : viable m) by (unfold viable; rewrite Hv; eauto).
  assert (Hwviable : viable w) by (unfold viable; rewrite Hvw; eauto).
  destruct (decide (iw = i)) as [-> | Hne].
  - rewrite Hi in Hiw. injection Hiw as <-. split; [reflexivity |].
    unfold count_same.
    rewrite (filter_length_unique_one (same_vector v) (candidates name p) i m);
      [reflexivity | exact Hi | exact Hv |].
    intros j g Hj Hg. destruct (decide (j = i)) as [-> | Hji]; [reflexivity | exfalso].
    assert (Hgviable : viable g) by (unfold viable; rewrite Hg; eauto).
    pose proof (Hbetter j g Hji Hj Hgviable) as Hcmp.
    rewrite CompareFunctions_vectors in Hcmp by now apply viable_defined.
    rewrite Hv, Hg in Hcmp. simpl in Hcmp.
    rewrite CompareFunctions_loop_refl in Hcmp. discriminate.
  - exfalso.
    assert (Him : i <> iw) by congruence.
    pose proof (Hbetter i m Him Hi Hmviable) as Hcmp.
    rewrite CompareFunctions_vectors in Hcmp by now apply viable_defined.
    rewrite Hv, Hvw in Hcmp. simpl in Hcmp. injection Hcmp as Hcmp.
    apply CompareFunctions_loop_swap in Hcmp.
    exact (Hmin w vw (list_elem_of_lookup_2 _ _ _ Hiw) Hvw Hcmp).
Qed.

Lemma rank_vector_sorted (f g : HLSLFunctionDecl) (v w : list Z) :
  rank_vector f = Some v -> rank_vector g = Some w ->
  (exists ranks, call_ranks f = Some (true, ranks) /\ Permutation ranks v)
  /\ Sorted Z.ge v
  /\ CompareFunctions numArguments callArgument (Some f) (Some g)
     = Some (CompareFunctions_loop v w).
Proof.
  intros Hv Hw.
  assert (Hf : viable f) by (unfold viable; rewrite Hv; eauto).
  assert (Hg : viable g) by (unfold viable; rewrite Hw; eauto).
  rewrite CompareFunctions_vectors by now apply viable_defined.
  rewrite Hv, Hw. simpl. split; [| split; [| reflexivity]].
  - unfold rank_vector in Hv. destruct (call_ranks f) as [[[] ranks] |]; try discriminate.
    injection Hv as <-. exists ranks. split; [reflexivity | apply sort_ranks_perm].
  - unfold rank_vector in Hv. destruct (call_ranks f) as [[[] ranks] |]; try discriminate.
    injection Hv as <-. apply sort_ranks_sorted.
Qed.

(** Overload resolution.  Where the code has a defined behaviour on every
    candidate with the name of the call (the functions of the program first,
    then the intrinsics), [MatchFunctionCall] returns.  The vector of a viable
    candidate is a permutation of its per-argument conversion ranks in
    descending order, and two viable candidates are compared by their vectors
    element by element from the left.  The call resolves only to a candidate
    that is strictly better than every other viable candidate, and does so
    whenever there is one; with two or more viable candidates and no such
    winner the result is null and the diagnostic
    "'name' N overloads have similar conversions" is reported, N being the
    number of candidates that share the best vector. *)
Lemma MatchFunctionCall_winner (name : string) (p : HLSLParser) :
  (forall f, f ∈ candidates name p -> defined f) ->
  exists (function : option HLSLFunctionDecl) (p' : HLSLParser),
    MatchFunctionCall numArguments callArgument name p = Done function p'
    /\ (forall f g v w, rank_vector f = Some v -> rank_vector g = Some w ->
          (exists ranks, call_ranks f = Some (true, ranks) /\ Permutation ranks v)
          /\ Sorted Z.ge v
          /\ CompareFunctions numArguments callArgument (Some f) (Some g)
             = Some (CompareFunctions_loop v w))
    /\ (forall f, function = Some f -> p' = p /\ exists i, strict_winner name p i f)
    /\ (forall i f, strict_winner name p i f -> function = Some f)
    /\ ((exists i j f g,
           i <> j /\ candidates name p !! i = Some f /\ candidates name p !! j = Some g
           /\ viable f /\ viable g) ->
        (~ exists i f, strict_winner name p i f) ->
        function = None
        /\ exists m v,
             m ∈ candidates name p /\ rank_vector m = Some v
             /\ 2 <= count_same v (candidates name p)
             /\ p' = reported ("'" +:+ name +:+ "' "
                               +:+ format_d (count_same v (candidates name p))
                               +:+ " overloads have similar conversions") p).
Proof.
  intros Hdef.
  destruct (MatchFunctionCall_locals_final name p Hdef) as (l & Hl & l' & Hl' & Hinv).
  unfold MatchFunctionCall, bind, get, deref, ret. cbv zeta. rewrite Hl. cbv beta iota. rewrite Hl'. cbv beta iota.
  unfold MatchFunctionCall_invariant in Hinv.
  destruct (matchedFunction l') as [m |] eqn:Hm.
  - destruct Hinv as (i & v & Hi & Hv & Hmin & Hnum).
    destruct (numMatchedOverloads l' >? 1) eqn:Hmany.
    + eexists. eexists. split; [reflexivity |].
      split; [exact rank_vector_sorted |].
      split; [intros f Hf; discriminate Hf |].
      split.
      * intros iw w Hw. exfalso.
        destruct (strict_winner_invariant name p m w i iw v Hi Hv Hmin Hw) as [_ Hone]. lia.
      * intros _ _. split; [reflexivity |].
        exists m, v. split; [exact (list_elem_of_lookup_2 _ _ _ Hi) |].
        split; [exact Hv |]. rewrite <- Hnum. split; [lia | reflexivity].
    + assert (Hone : count_same v (candidates name p) = 1).
      { assert (Hpos : (0 < length (filter (same_vector v) (candidates name p)))%nat).
        { assert (Hin : m ∈ filter (same_vector v) (candidates name p)).
          { apply list_elem_of_filter. split; [exact Hv |].
            now apply list_elem_of_lookup_2 in Hi. }
          destruct (filter (same_vector v) (candidates name p)); [inversion Hin | simpl; lia]. }
        unfold count_same in *. lia. }
      pose proof (invariant_strict_winner name p m i v Hi Hv Hmin Hone) as Hwin.
      eexists. eexists. split; [reflexivity |].
      split; [exact rank_vector_sorted |].
      split; [| split].
      * intros f Hf. injection Hf as <-. split; [reflexivity | eauto].
      * intros iw w Hw.
        destruct (strict_winner_invariant name p m w i iw v Hi Hv Hmin Hw) as [-> _].
        reflexivity.
      * intros _ Hnone. exfalso. apply Hnone. eauto.
  - assert (Hnone : forall i f, ~ strict_winner name p i f).
    { intros i f (Hi & [v Hv] & _).
      rewrite (Hinv f (list_elem_of_lookup_2 _ _ _ Hi)) in Hv. discriminate. }
    destruct (nameMatches l'); (eexists; eexists; split; [reflexivity |]);
      (split; [exact rank_vector_sorted |]);
      (split; [intros f Hf; discriminate Hf |]);
      (split; [intros i f Hw; exfalso; exact (Hnone i f Hw) |]);
      intros (i & j & f & g & _ & Hi & _ & [v Hv] & _) _; exfalso;
      rewrite (Hinv f (list_elem_of_lookup_2 _ _ _ Hi)) in Hv; discriminate.
Qed.

End Overload.

(** The overloads [g(float, int)] and [g(int, float)] and the call [g(1, 1)]. *)
Definition g_argument (name : string) (type : HLSLBaseType) : HLSLArgument :=
  Build_HLSLArgument (Build_HLSLNode 0 (Some "a.hlsl") 1) (Some name)
    HLSLArgumentModifier_None (HLSLType_of type) None.

Definition g_float_int : HLSLFunctionDecl :=
  Build_HLSLFunctionDecl "g" (HLSLType_of HLSLBaseType_Float) None 2
    [g_argument "a" HLSLBaseType_Float; g_argument "b" HLSLBaseType_Int].

Definition g_int_float : HLSLFunctionDecl :=
  Build_HLSLFunctionDecl "g" (HLSLType_of HLSLBaseType_Float) None 2
    [g_argument "a" HLSLBaseType_Int; g_argument "b" HLSLBaseType_Float].

Definition literal_one (addr : N) : HLSLExpression :=
  HLSLLiteralExpression (Build_HLSLNode addr (Some "a.hlsl") 2)
    (literal_type HLSLBaseType_Int) HLSLBaseType_Int (iValue 1).

Definition g_parser : HLSLParser :=
  set_functions [g_float_int; g_int_float] (HLSLParser_new "a.hlsl" [] 2 HLSLTree_new).

(** At [g(1, 1)] with [g(float, int)] and [g(int, float)] the call is
    ambiguous: there is no winner, and the diagnostic counts 2 overloads. *)
Lemma MatchFunctionCall_ambiguous :
  MatchFunctionCall 2 [literal_one 1; literal_one 2] "g" g_parser
  = Done None (reported "'g' 2 overloads have similar conversions" g_parser)
  /\ ~ exists i f, strict_winner 2 [literal_one 1; literal_one 2] "g" g_parser i f.
Proof.
  assert (Hdef : forall f, f ∈ candidates "g" g_parser ->
                   defined 2 [literal_one 1; literal_one 2] f).
  { assert (Hc : candidates "g" g_parser = [g_float_int; g_int_float])
      by (vm_compute; reflexivity).
    rewrite Hc. intros f Hf.
    apply elem_of_cons in Hf as [-> | Hf]; [vm_compute; eauto |].
    apply elem_of_cons in Hf as [-> | Hf]; [vm_compute; eauto |].
    inversion Hf. }
  destruct (MatchFunctionCall_winner 2 [literal_one 1; literal_one 2] "g" g_parser Hdef)
    as (function & p' & Hrun & _ & _ & Hwinner & _).
  assert (Hrun' : MatchFunctionCall 2 [literal_one 1; literal_one 2] "g" g_parser
                  = Done None (reported "'g' 2 overloads have similar conversions" g_parser))
    by (vm_compute; reflexivity).
  split; [exact Hrun' |].
  intros (i & f & Hw). specialize (Hwinner i f Hw).
  rewrite Hrun' in Hrun. congruence.
Qed.

(** * Statements *)

(** ** [for] with an empty condition *)

(** The tokens that the parser has still to read. *)
Definition next_tokens (p : HLSLParser) : list HLSLToken :=
  map lex_token (m_stream (m_tokenizer p)).

(** The state in which [m] leaves the parser. *)
Definition state_after {A : Type} (m : Parser A) (p : HLSLParser) : HLSLParser :=
  match m p with
  | Done _ p' => p'
  | _ => p
  end.

(** The parser after [ParseExpression] met a token that starts no expression:
    the name of the file went to the pool (twice), the node of an identifier
    was allocated, and the missing identifier was reported. *)
Definition after_no_expression (p : HLSLParser) : HLSLParser :=
  state_after
    (GetFileName ;; GetFileName ;;
     AddNode (Some (m_fileName (m_tokenizer p))) (tk_GetLineNumber (m_tokenizer p)) ;;
     Error ("Syntax error: expected identifier near '"
            +:+ tk_GetTokenName (m_tokenizer p) +:+ "'")) p.

Lemma ParseExpression_no_expression (fuel : nat) (p : HLSLParser) (c : ascii)
    (rest : list HLSLToken) :
  next_tokens p = HLSLToken_Char c :: rest ->
  c = ";"%char \/ c = ")"%char ->
  ParseExpression (S (S (S fuel))) p = Done (false, None) (after_no_expression p).
Proof.
  destruct p as [[fn stream el dg] ut vars funs ng tree]. unfold next_tokens. simpl.
  destruct stream as [| [t1 i1 f1 z1 l1] stream]; try discriminate.
  simpl. intros H. injection H as -> _.
  intros [-> | ->]; reflexivity.
Qed.

(** The parser after the current token was consumed. *)
Definition consumed (p : HLSLParser) : HLSLParser :=
  set_tokenizer (tk_Next (m_tokenizer p)) p.

Lemma next_tokens_consumed (p : HLSLParser) (t : HLSLToken) (rest : list HLSLToken) :
  next_tokens p = t :: rest -> next_tokens (consumed p) = rest.
Proof.
  destruct p as [[fn stream el dg] ut vars funs ng tree]. unfold next_tokens. simpl.
  destruct stream; simpl; [discriminate | intros H; injection H as _ H; exact H].
Qed.

Lemma next_tokens_after_no_expression (p : HLSLParser) :
  next_tokens (after_no_expression p) = next_tokens p.
Proof. reflexivity. Qed.

Lemma Expect_next (p : HLSLParser) (t : HLSLToken) (rest : list HLSLToken) :
  next_tokens p = t :: rest -> Expect t p = Done true (consumed p).
Proof.
  destruct p as [[fn stream el dg] ut vars funs ng tree]. unfold next_tokens. simpl.
  destruct stream as [| [t1 i1 f1 z1 l1] stream]; try discriminate.
  simpl. intros H. injection H as -> _.
  unfold Expect, Accept, bind, GetToken. simpl.
  rewrite bool_decide_eq_true_2 by reflexivity. reflexivity.
Qed.

(** The header of the node of a statement that starts at the current token. *)
Definition statement_node (p : HLSLParser) : HLSLNode :=
  Build_HLSLNode (m_numNodes (m_tree p)) (Some (m_fileName (m_tokenizer p)))
                 (tk_GetLineNumber (m_tokenizer p)).

(** The parser after [for (]: the name of the file is in the pool, the node
    of the statement is allocated and a scope is open. *)
Definition after_for_paren (p : HLSLParser) : HLSLParser :=
  state_after
    (GetFileName ;; Next ;;
     AddNode (Some (m_fileName (m_tokenizer p))) (tk_GetLineNumber (m_tokenizer p)) ;;
     Next ;; BeginScope) p.

(** What [ParseStatement] does after [for (]. *)
Definition ParseStatement_for (fuel : nat) (returnType : HLSLType) (node : HLSLNode)
    : Parser (bool * list HLSLStatement) :=
  do (ok, initialization) <- ParseDeclaration fuel;
  if negb ok then ret (false, []) else
  do ok <- Expect (HLSLToken_Char ";");
  if negb ok then ret (false, []) else
  do (_, condition) <- ParseExpression fuel;
  do ok <- Expect (HLSLToken_Char ";");
  if negb ok then ret (false, []) else
  do (_, increment) <- ParseExpression fuel;
  do ok <- Expect (HLSLToken_Char ")");
  if negb ok then ret (false, []) else
  do (ok, statement) <- ParseStatementOrBlock fuel returnType;
  let forStatement :=
    HLSLNodeType_ForStatement node initialization condition increment statement in
  if negb ok then ret (false, [forStatement]) else
  EndScope ;;
  ret (true, [forStatement]).

Lemma ParseStatement_for_paren (fuel : nat) (returnType : HLSLType) (p : HLSLParser)
    (rest : list HLSLToken) :
  next_tokens p = HLSLToken_For :: HLSLToken_Char "(" :: rest ->
  ParseStatement (S fuel) returnType p
  = ParseStatement_for fuel returnType (statement_node p) (after_for_paren p).
Proof.
  destruct p as [[fn stream el dg] ut vars funs ng tree]. unfold next_tokens. simpl.
  destruct stream as [| [t1 i1 f1 z1 l1] [| [t2 i2 f2 z2 l2] stream]]; try discriminate.
  simpl. intros H. injection H as -> -> _.
  reflexivity.
Qed.

Definition void_type : HLSLType := HLSLType_of HLSLBaseType_Void.

(** [for (;;) ;] *)
Definition for_ever : list Lexeme :=
  [ tok HLSLToken_For 1; punct "(" 1; punct ";" 1; punct ";" 1; punct ")" 1; punct ";" 1 ].

(** [for (int i; ; ) ;] *)
Definition for_int_i : list Lexeme :=
  [ tok HLSLToken_For 1; punct "(" 1; tok HLSLToken_Int 1; ident "i" 1; punct ";" 1;
    punct ";" 1; punct ")" 1; punct ";" 1 ].

Definition parser_of (stream : list Lexeme) : HLSLParser :=
  HLSLParser_new "a.hlsl" stream 1 HLSLTree_new.

(** A [for] whose initialization is empty is rejected: [ParseStatement]
    returns false when [ParseDeclaration] does. *)
Lemma ParseStatement_for_without_declaration (fuel : nat) (returnType : HLSLType)
    (p : HLSLParser) (rest : list HLSLToken) :
  next_tokens p = HLSLToken_For :: HLSLToken_Char "(" :: HLSLToken_Char ";" :: rest ->
  exists p', ParseStatement (S fuel) returnType p = Done (false, []) p'.
Proof.
  destruct p as [[fn stream el dg] ut vars funs ng tree]. unfold next_tokens. simpl.
  destruct stream as [| [t1 i1 f1 z1 l1] [| [t2 i2 f2 z2 l2] [| [t3 i3 f3 z3 l3] stream]]];
    try discriminate.
  simpl. intros H. injection H as -> -> -> _.
  eexists. reflexivity.
Qed.


(** The generator on a [for] statement whose condition is null: once the
    initialization is written, [OutputExpression] reads the null condition. *)
Lemma OutputStatements_for_without_condition (fuel : nat) (indent : Z) (node : HLSLNode)
    (initialization : option HLSLDeclaration) (increment : option HLSLExpression)
    (body nextStatement : list HLSLStatement) (returnType : option HLSLType)
    (g g1 : GLSLGenerator) :
  (CodeWriter_BeginLine indent (fileName node) (line node) ;;
   CodeWriter_Write "for (" ;;
   OutputDeclaration (S fuel) initialization) g = Done tt g1 ->
  OutputStatements (S (S fuel)) indent
    (HLSLNodeType_ForStatement node initialization None increment body :: nextStatement)
    returnType g
  = Crash.
Proof.
  intros H. cbn [OutputStatements].
  unfold bind in *.
  destruct (CodeWriter_BeginLine indent (fileName node) (line node) g) as [[] g'| |]; try discriminate H.
  destruct (CodeWriter_Write "for (" g') as [[] g''| |]; try discriminate H.
  rewrite H. reflexivity.
Qed.

(** ** [return] without an expression *)

(** After [return ;] the code reads [returnStatement->expression->expressionType]
    with [expression] null. *)
Lemma ParseStatement_return_without_expression (fuel : nat) (returnType : HLSLType)
    (p : HLSLParser) (rest : list HLSLToken) :
  next_tokens p = HLSLToken_Return :: HLSLToken_Char ";" :: rest ->
  ParseStatement (S fuel) returnType p = Crash.
Proof.
  destruct p as [[fn stream el dg] ut vars funs ng tree]. unfold next_tokens. simpl.
  destruct stream as [| [t1 i1 f1 z1 l1] [| [t2 i2 f2 z2 l2] stream]]; try discriminate.
  simpl. intros H. injection H as -> -> _.
  reflexivity.
Qed.

(** [void f() { return; }] *)
Definition void_f_return : list Lexeme :=
  [ tok HLSLToken_Void 1; ident "f" 1; punct "(" 1; punct ")" 1; punct "{" 1;
    tok HLSLToken_Return 1; punct ";" 1; punct "}" 1 ].

(** C5. The code on [void f() { return; }]: the statement [return;] makes the
    parser read through a null pointer, in [ParseStatement] and so in [Parse]
    and in [main]. *)
Theorem C5_return_without_expression :
  ParseStatement 1 void_type
    (parser_of [tok HLSLToken_Return 1; punct ";" 1; punct "}" 1]) = Crash
  /\ Parse 100 (parser_of void_f_return) = Crash
  /\ main 100 (fun _ => (void_f_return, 1)) ["a.hlsl"; "f"] = Crashed.
Proof.
  split; [| split].
  - apply (ParseStatement_return_without_expression 0 void_type _ [HLSLToken_Char "}"]).
    reflexivity.
  - vm_compute. reflexivity.
  - vm_compute. reflexivity.
Qed.

(** * The GLSL generator *)

(** ** The position of a vertex *)

(** The generator after it wrote [calls]. *)
Definition written (calls : list CodeWriterCall) (g : GLSLGenerator) : GLSLGenerator :=
  set_writer (m_writer g ++ calls) g.

Lemma GetBuiltInSemantic_gl_Position (semantic : string) :
  GetBuiltInSemantic semantic = Some "gl_Position"
  <-> String_EqualNoCase semantic "SV_POSITION" = true.
Proof.
  unfold GetBuiltInSemantic. simpl.
  destruct (String_EqualNoCase semantic "SV_POSITION"); [tauto |].
  destruct (String_EqualNoCase semantic "DEPTH"); split; intros H; discriminate H.
Qed.

(** C6. Where the semantic of a result of the entry function maps to
    [gl_Position], [OutputSetOutAttribute] returns after it wrote, after what
    was written before, the line that copies the result into [temp] and then
    exactly the line
    [gl_Position = temp * vec4(1,-1,2,1) - vec4(0,0,temp.w,0);], and it
    records that a position was output: [m_outputPosition] is true afterwards,
    whatever it was before.  Nothing else of the generator changes. *)
Theorem C6_OutputSetOutAttribute_position (semantic resultName : string) (g : GLSLGenerator) :
  GetBuiltInSemantic semantic = Some "gl_Position" ->
  exists g',
    OutputSetOutAttribute (Some semantic) resultName g = Done tt g'
    /\ m_outputPosition g' = true
    /\ m_writer g'
       = m_writer g
         ++ [ Call_WriteLine 1 ("vec4 temp = " +:+ resultName +:+ ";");
              Call_WriteLine 1 "gl_Position = temp * vec4(1,-1,2,1) - vec4(0,0,temp.w,0);" ]
    /\ g_stderr g' = g_stderr g
    /\ m_error g' = m_error g
    /\ g' = set_outputPosition true (set_writer (m_writer g') g).
Proof.
  intros H. unfold OutputSetOutAttribute. unfold bind at 1. simpl. rewrite H. simpl.
  unfold bind, CodeWriter_WriteLine, emit, modify. simpl.
  eexists. split; [reflexivity |]. simpl. rewrite <- app_assoc.
  repeat split; reflexivity.
Qed.

(** C6 at the semantic [SV_Position] and the result [result], on a new
    generator, which has written nothing and recorded no position. *)
Lemma C6_OutputSetOutAttribute_position_witness :
  m_outputPosition GLSLGenerator_new = false
  /\ exists g',
       OutputSetOutAttribute (Some "SV_Position") "result" GLSLGenerator_new = Done tt g'
       /\ m_outputPosition g' = true
       /\ m_writer g'
          = [ Call_WriteLine 1 "vec4 temp = result;";
              Call_WriteLine 1 "gl_Position = temp * vec4(1,-1,2,1) - vec4(0,0,temp.w,0);" ].
Proof.
  split; [reflexivity |].
  destruct (C6_OutputSetOutAttribute_position "SV_Position" "result" GLSLGenerator_new eq_refl)
    as (g' & Hrun & Hposition & Hwriter & _).
  exists g'. split; [exact Hrun |]. split; [exact Hposition | exact Hwriter].
Defined.

(** ** Pre-decrement *)

Definition x_node : HLSLNode := Build_HLSLNode 7 (Some "a.hlsl") 3.
Definition x_expression : HLSLExpression :=
  HLSLIdentifierExpression x_node (HLSLType_of HLSLBaseType_Float) "x" false.
(** [--x] *)
Definition pre_decrement_x : HLSLExpression :=
  HLSLUnaryExpression x_node (HLSLType_of HLSLBaseType_Float) HLSLUnaryOp_PreDecrement x_expression.

(** The case [HLSLUnaryOp_PreDecrement] of [OutputExpression]: the operator
    written before the operand is [++]. *)
Lemma OutputExpression_pre_decrement (fuel : nat) (node : HLSLNode) (type : HLSLType)
    (operand : HLSLExpression) (g : GLSLGenerator) :
  OutputExpression (S fuel) (Some (HLSLUnaryExpression node type HLSLUnaryOp_PreDecrement operand))
                   None g
  = (CodeWriter_Write "(" ;; CodeWriter_Write "++" ;;
     OutputExpression fuel (Some operand) None ;; CodeWriter_Write ")") g.
Proof.
  cbn [OutputExpression]. unfold bind, deref, ret. simpl.
  destruct (OutputExpression fuel (Some operand) None _); reflexivity.
Qed.

(** C8. The code on [--x]: the generator writes [(++x)]. *)
Theorem C8_pre_decrement_output :
  OutputExpression 2 (Some pre_decrement_x) None GLSLGenerator_new
  = Done tt (written [Call_Write "("; Call_Write "++"; Call_Write "x"; Call_Write ")"]
                     GLSLGenerator_new).
Proof. reflexivity. Qed.

(** ** [discard] *)

(** C10. For a vertex shader [OutputStatements] writes nothing for a
    [discard] statement, reports nothing, and goes on with the next statement;
    for a fragment shader it writes the line [discard;] first. *)
Theorem C10_discard (fuel : nat) (indent : Z) (node : HLSLNode)
    (nextStatement : list HLSLStatement) (returnType : option HLSLType) (g : GLSLGenerator) :
  (m_target g = Target_VertexShader ->
   OutputStatements (S fuel) indent (HLSLNodeType_DiscardStatement node :: nextStatement)
                    returnType g
   = OutputStatements fuel indent nextStatement returnType g)
  /\ (m_target g = Target_FragmentShader ->
      OutputStatements (S fuel) indent (HLSLNodeType_DiscardStatement node :: nextStatement)
                       returnType g
      = OutputStatements fuel indent nextStatement returnType
          (written [Call_WriteLineAt indent (fileName node) (line node) "discard;"] g)).
Proof.
  split; intros Htarget; cbn [OutputStatements]; unfold bind, get; simpl; rewrite Htarget; reflexivity.
Qed.

Definition vertex_generator : GLSLGenerator :=
  Eval vm_compute in Generate_setup HLSLTree_new Target_VertexShader "main" GLSLGenerator_new.

Definition fragment_generator : GLSLGenerator :=
  Eval vm_compute in Generate_setup HLSLTree_new Target_FragmentShader "main" GLSLGenerator_new.

(** C10 at a [discard] that ends a block, for each target. *)
Lemma C10_discard_witness :
  OutputStatements 2 1 [HLSLNodeType_DiscardStatement x_node] None vertex_generator
  = Done tt vertex_generator
  /\ OutputStatements 2 1 [HLSLNodeType_DiscardStatement x_node] None fragment_generator
     = Done tt (written [Call_WriteLineAt 1 (Some "a.hlsl") 3 "discard;"] fragment_generator).
Proof.
  split.
  - rewrite (proj1 (C10_discard 1 1 x_node [] None vertex_generator) eq_refl).
    reflexivity.
  - rewrite (proj2 (C10_discard 1 1 x_node [] None fragment_generator) eq_refl).
    reflexivity.
Defined.

(** ** Unique names *)

(** The name tried at turn [i]: [base] and [i] printed into the buffer. *)
Definition unique_name_candidate (base : string) (dstLength : Z) (i : Z) : string :=
  snprintf dstLength (base +:+ format_d i).

Lemma ChooseUniqueName_loop_spec (tree : HLSLTree) (base : string) (dstLength : Z)
    (n : nat) (i : Z) (dst : string) :
  match ChooseUniqueName_loop tree base dstLength n i dst with
  | (true, name) =>
      exists k, i <= k < i + Z.of_nat n
        /\ name = unique_name_candidate base dstLength k
        /\ HLSLTree_GetContainsString name tree = false
        /\ forall j, i <= j < k ->
             HLSLTree_GetContainsString (unique_name_candidate base dstLength j) tree = true
  | (false, name) =>
      (forall j, i <= j < i + Z.of_nat n ->
         HLSLTree_GetContainsString (unique_name_candidate base dstLength j) tree = true)
      /\ name = match n with
                | O => dst
                | S _ => unique_name_candidate base dstLength (i + Z.of_nat n - 1)
                end
  end.
Proof.
  revert i dst. induction n as [| n IH]; intros i dst.
  - simpl. split; [intros j Hj; lia | reflexivity].
  - cbn [ChooseUniqueName_loop].
    fold (unique_name_candidate base dstLength i).
    destruct (HLSLTree_GetContainsString (unique_name_candidate base dstLength i) tree) eqn:Hin;
      cbn [negb].
    + specialize (IH (i + 1) (unique_name_candidate base dstLength i)).
      destruct (ChooseUniqueName_loop tree base dstLength n (i + 1)
                  (unique_name_candidate base dstLength i)) as [[] name].
      * destruct IH as (k & Hk & Hname & Hout & Hbelow).
        exists k. repeat split; try lia; try assumption.
        intros j Hj. destruct (Z.eq_dec j i) as [-> | Hne]; [assumption | apply Hbelow; lia].
      * destruct IH as [Hall Hname]. split.
        -- intros j Hj. destruct (Z.eq_dec j i) as [-> | Hne]; [assumption | apply Hall; lia].
        -- rewrite Hname. destruct n; f_equal; lia.
    + exists i. repeat split; try lia; try assumption.
Qed.

(** When every candidate is in the pool the loop runs to its end. *)
Lemma ChooseUniqueName_loop_all_present (tree : HLSLTree) (base : string) (dstLength : Z)
    (n : nat) (i : Z) (dst : string) :
  (forall j, i <= j < i + Z.of_nat n ->
     HLSLTree_GetContainsString (unique_name_candidate base dstLength j) tree = true) ->
  ChooseUniqueName_loop tree base dstLength n i dst
  = (false, match n with
            | O => dst
            | S _ => unique_name_candidate base dstLength (i + Z.of_nat n - 1)
            end).
Proof.
  revert i dst. induction n as [| n IH]; intros i dst Hall; [reflexivity |].
  cbn [ChooseUniqueName_loop]. fold (unique_name_candidate base dstLength i).
  rewrite (Hall i) by lia. cbn [negb].
  rewrite IH by (intros j Hj; apply Hall; lia).
  destruct n; do 2 f_equal; lia.
Qed.

(** [clip0], [clip1], ... [clip1023], as they are printed into a buffer of 64
    characters. *)
Definition candidate_names (base : string) : list string :=
  map (fun i => unique_name_candidate base 64 (Z.of_nat i)) (seq 0 1024).

(** A tree whose pool holds [clip0] ... [clip1023]. *)
Definition crowded_tree : HLSLTree :=
  Build_HLSLTree (list_to_set (candidate_names "clip")) [] 1.

Lemma crowded_tree_contains (j : Z) :
  0 <= j < 1024 ->
  HLSLTree_GetContainsString (unique_name_candidate "clip" 64 j) crowded_tree = true.
Proof.
  intros Hj. unfold HLSLTree_GetContainsString, StringPool_GetContainsString.
  apply bool_decide_eq_true_2. unfold crowded_tree, m_stringPool.
  apply elem_of_list_to_set, list_elem_of_In. unfold candidate_names.
  apply in_map_iff. exists (Z.to_nat j). split; [f_equal; lia | apply in_seq; lia].
Qed.

Lemma crowded_tree_full :
  ChooseUniqueName crowded_tree "clip" "" 64
  = (false, unique_name_candidate "clip" 64 1023).
Proof.
  unfold ChooseUniqueName.
  rewrite ChooseUniqueName_loop_all_present; [reflexivity |].
  intros j Hj. apply crowded_tree_contains. lia.
Qed.

(** C9 as stated fails: with every candidate in the pool, the name left in
    the buffer is [clip1023], which is in the pool. *)
Lemma C9_crowded_pool :
  ChooseUniqueName crowded_tree "clip" "" 64 = (false, "clip1023")
  /\ HLSLTree_GetContainsString "clip1023" crowded_tree = true.
Proof.
  change "clip1023" with (unique_name_candidate "clip" 64 1023).
  split; [exact crowded_tree_full | apply crowded_tree_contains; lia].
Qed.

(** When [ChooseUniqueName] returns true, the name is the first of [base0]
    ... [base1023] (as printed into the buffer) that is not in the string
    pool.  When it returns false, every one of the 1024 candidates is in the
    pool, and the name left in the buffer is the last candidate. *)
Lemma ChooseUniqueName_result (tree : HLSLTree) (base dst : string) (dstLength : Z) (name : string) :
  (ChooseUniqueName tree base dst dstLength = (true, name) ->
   HLSLTree_GetContainsString name tree = false
   /\ exists i, 0 <= i < 1024
        /\ name = unique_name_candidate base dstLength i
        /\ forall j, 0 <= j < i ->
             HLSLTree_GetContainsString (unique_name_candidate base dstLength j) tree = true)
  /\ (ChooseUniqueName tree base dst dstLength = (false, name) ->
      name = unique_name_candidate base dstLength 1023
      /\ HLSLTree_GetContainsString name tree = true
      /\ forall j, 0 <= j < 1024 ->
           HLSLTree_GetContainsString (unique_name_candidate base dstLength j) tree = true).
Proof.
  unfold ChooseUniqueName.
  pose proof (ChooseUniqueName_loop_spec tree base dstLength 1024 0 dst) as H.
  split; intros Heq; rewrite Heq in H.
  - destruct H as (k & Hk & Hname & Hout & Hbelow).
    split; [assumption |]. exists k. repeat split; try lia; assumption.
  - destruct H as [Hall Hname]. simpl in Hname.
    split; [assumption |]. split; [| intros j Hj; apply Hall; lia].
    rewrite Hname. apply Hall. lia.
Qed.

(** * The exit code *)

(** [float4 main(float4 p : POSITION) : COLOR { return p; }] *)
Definition vertex_without_position : list Lexeme :=
  [ tok HLSLToken_Float4 1; ident "main" 1; punct "(" 1; tok HLSLToken_Float4 1; ident "p" 1;
    punct ":" 1; ident "POSITION" 1; punct ")" 1; punct ":" 1; ident "COLOR" 1;
    punct "{" 1; tok HLSLToken_Return 1; ident "p" 1; punct ";" 1; punct "}" 1 ].

Definition exit_code (o : ProcessOutcome) : option Z :=
  match o with
  | Exited code _ _ => Some code
  | _ => None
  end.

Definition standard_error (o : ProcessOutcome) : list string :=
  match o with
  | Exited _ _ stderr => stderr
  | _ => []
  end.

(** What [Generate] returns on the tree parsed from [stream]. *)
Definition generated (fuel : nat) (stream : list Lexeme) (endLine : Z) (target : Target)
    (entryName : string) : option bool :=
  match Parse fuel (HLSLParser_new "a.hlsl" stream endLine HLSLTree_new) with
  | Done true parser =>
      match Generate fuel (m_tree parser) target entryName GLSLGenerator_new with
      | Done result _ => Some result
      | _ => None
      end
  | _ => None
  end.

(** Once the file is parsed, [main] exits with 0 whatever [Generate] returns. *)
Lemma main_ignores_Generate (fuel : nat) (tokens : string -> list Lexeme * Z)
    (args : list string) (l : main_locals) (fileName entryName : string)
    (parser : HLSLParser) (result : bool) (generator : GLSLGenerator) :
  main_arguments args (Build_main_locals None None Target_FragmentShader) = inl l ->
  main_fileName l = Some fileName -> main_entryName l = Some entryName ->
  Parse fuel (HLSLParser_new fileName (fst (tokens fileName)) (snd (tokens fileName))
                             HLSLTree_new) = Done true parser ->
  Generate fuel (m_tree parser) (main_target l) entryName GLSLGenerator_new
  = Done result generator ->
  exit_code (main fuel tokens args) = Some 0.
Proof.
  intros Hargs Hfile Hentry Hparse Hgenerate. unfold main.
  rewrite Hargs, Hfile, Hentry. destruct (tokens fileName) as [stream endLine].
  simpl in Hparse. rewrite Hparse. simpl. rewrite Hgenerate. reflexivity.
Qed.

(** C1. The code on a vertex shader whose entry function outputs no position:
    [Generate] returns false and the diagnostic is printed, and the process
    exits with 0; a file that does not parse makes it exit with 1. *)
Theorem C1_exit_code_vertex_without_position :
  generated 100 vertex_without_position 2 Target_VertexShader "main" = Some false
  /\ exit_code (main 100 (fun _ => (vertex_without_position, 2)) ["-vs"; "a.hlsl"; "main"])
     = Some 0
  /\ standard_error
       (main 100 (fun _ => (vertex_without_position, 2)) ["-vs"; "a.hlsl"; "main"])
     = ["ERROR: Vertex shader must output a position"]
  /\ exit_code (main 100 (fun _ => ([ident "x" 1], 2)) ["-vs"; "a.hlsl"; "main"]) = Some 1.
Proof. vm_compute. repeat split; reflexivity. Qed.

(** ** An ambiguous call as a statement *)

(** [float g(float a, int b) { return a; }]
    [float g(int a, float b) { return b; }] *)
Definition g_overloads : list Lexeme :=
  [ tok HLSLToken_Float 1; ident "g" 1; punct "(" 1; tok HLSLToken_Float 1; ident "a" 1;
    punct "," 1; tok HLSLToken_Int 1; ident "b" 1; punct ")" 1;
    punct "{" 1; tok HLSLToken_Return 1; ident "a" 1; punct ";" 1; punct "}" 1;
    tok HLSLToken_Float 2; ident "g" 2; punct "(" 2; tok HLSLToken_Int 2; ident "a" 2;
    punct "," 2; tok HLSLToken_Float 2; ident "b" 2; punct ")" 2;
    punct "{" 2; tok HLSLToken_Return 2; ident "b" 2; punct ";" 2; punct "}" 2 ].

(** [g(1, 1)] *)
Definition g_1_1 : list Lexeme :=
  [ ident "g" 3; punct "(" 3; int_literal 1 3; punct "," 3; int_literal 1 3; punct ")" 3 ].

(** The two overloads and [void f() { g(1, 1); }] *)
Definition ambiguous_statement : list Lexeme :=
  g_overloads
  ++ [ tok HLSLToken_Void 3; ident "f" 3; punct "(" 3; punct ")" 3; punct "{" 3 ]
  ++ g_1_1 ++ [ punct ";" 3; punct "}" 3 ].

(** The two overloads and [float f() { return g(1, 1); }] *)
Definition ambiguous_return : list Lexeme :=
  g_overloads
  ++ [ tok HLSLToken_Float 3; ident "f" 3; punct "(" 3; punct ")" 3; punct "{" 3;
       tok HLSLToken_Return 3 ]
  ++ g_1_1 ++ [ punct ";" 3; punct "}" 3 ].

(** What [Parse] returns on a stream, and the messages it reported. *)
Definition parsed (fuel : nat) (stream : list Lexeme) : option (bool * list string) :=
  match Parse fuel (HLSLParser_new "a.hlsl" stream 3 HLSLTree_new) with
  | Done result parser =>
      Some (result, map diag_message (m_diagnostics (m_tokenizer parser)))
  | _ => None
  end.

(** The bodies of the functions at the top level of the tree that [Parse]
    leaves. *)
Definition parsed_bodies (fuel : nat) (stream : list Lexeme)
    : list (string * list HLSLStatement) :=
  match Parse fuel (HLSLParser_new "a.hlsl" stream 3 HLSLTree_new) with
  | Done _ parser =>
      omap (fun statement =>
              match statement with
              | HLSLNodeType_Function _ function body => Some (fn_name function, body)
              | _ => None
              end)
           (m_root (m_tree parser))
  | _ => []
  end.


(** * More on the implicit casts *)

(** A base type that has a numeric family in [_baseTypeDescriptions]. *)
Definition numeric (t : HLSLBaseType) : Prop :=
  numericType (_baseTypeDescriptions t) <> NumericType_NaN.

Lemma GetTypeCastRank_zero (srcType dstType : HLSLType) :
  GetTypeCastRank srcType dstType = Some 0 ->
  baseType srcType = baseType dstType
  /\ array srcType = array dstType
  /\ (baseType srcType = HLSLBaseType_UserDefined -> typeName srcType = typeName dstType).
Proof.
  destruct srcType as [bs ns as_ ss cs], dstType as [bd nd ad sd cd].
  unfold GetTypeCastRank. simpl.
  destruct (Bool.eqb as_ ad) eqn:Harray; simpl; [| discriminate].
  apply Bool.eqb_prop in Harray. subst ad.
  destruct (same_pointer ss sd); simpl; [| discriminate].
  destruct bs, bd; simpl; try discriminate;
    try (intros _; repeat split; intros H; discriminate H).
  destruct ns as [s |], nd as [d |]; try discriminate.
  destruct (String.eqb s d) eqn:Heq; [| discriminate].
  apply String.eqb_eq in Heq. subst d. intros _. repeat split.
Qed.

Lemma GetTypeCastRank_range (srcType dstType : HLSLType) (rank : Z) :
  GetTypeCastRank srcType dstType = Some rank ->
  rank = -1 \/ (0 <= rank <= 26 /\ Z.testbit rank 0 && Z.testbit rank 4 = false).
Proof.
  destruct srcType as [bs ns as_ ss cs], dstType as [bd nd ad sd cd].
  unfold GetTypeCastRank. simpl.
  destruct (negb (Bool.eqb as_ ad) || negb (same_pointer ss sd)); simpl;
    [intros H; injection H as <-; now left |].
  destruct bs, bd;
    try (intros H; vm_compute in H; injection H as <-;
         first [now left | right; split; [lia | reflexivity]]).
  simpl. destruct ns as [s |], nd as [d |]; try discriminate.
  destruct (String.eqb s d); intros H; injection H as <-;
    [right; split; [lia | reflexivity] | now left].
Qed.

Lemma GetTypeCastRank_not_numeric (srcType dstType : HLSLType) :
  ~ numeric (baseType srcType) \/ ~ numeric (baseType dstType) ->
  baseType srcType <> baseType dstType ->
  GetTypeCastRank srcType dstType = Some (-1).
Proof.
  destruct srcType as [bs ns as_ ss cs], dstType as [bd nd ad sd cd].
  unfold GetTypeCastRank, numeric. simpl. intros Hnan Hne.
  destruct (negb (Bool.eqb as_ ad) || negb (same_pointer ss sd)); simpl; [reflexivity |].
  destruct bs, bd; simpl; try reflexivity; try (exfalso; apply Hne; reflexivity);
    exfalso; destruct Hnan as [H | H]; apply H; simpl; discriminate.
Qed.

(** Whether the code casts a numeric type of description [s] to one of
    description [d]: from a scalar, to a scalar, or between types of the same
    dimension without adding components. *)
Definition castable (s d : BaseTypeDescription) : bool :=
  (numDimensions s =? 0) || (numDimensions d =? 0)
  || ((numDimensions s =? numDimensions d) && (numComponents d <=? numComponents s)).

Lemma GetTypeCastRank_castable (srcType dstType : HLSLType) :
  non_array srcType -> non_array dstType ->
  numeric (baseType srcType) -> numeric (baseType dstType) ->
  exists rank,
    GetTypeCastRank srcType dstType = Some rank
    /\ (rank =? -1) = negb (castable (_baseTypeDescriptions (baseType srcType))
                                     (_baseTypeDescriptions (baseType dstType))).
Proof.
  destruct srcType as [bs ns as_ ss cs], dstType as [bd nd ad sd cd].
  unfold non_array, numeric. simpl. intros [-> ->] [-> ->] Hs Hd.
  destruct bs; try (exfalso; apply Hs; reflexivity);
    destruct bd; try (exfalso; apply Hd; reflexivity);
    eexists; split; reflexivity.
Qed.

Lemma Parser_GetTypeName_numeric (type : HLSLType) :
  numeric (baseType type) ->
  Parser_GetTypeName type = Some (desc_typeName (_baseTypeDescriptions (baseType type))).
Proof.
  unfold Parser_GetTypeName, numeric. intros H.
  destruct (bool_decide (baseType type = HLSLBaseType_UserDefined)) eqn:Hu; [| reflexivity].
  apply bool_decide_eq_true in Hu. rewrite Hu in H. exfalso. apply H. reflexivity.
Qed.

(** X1. Between two numeric types that are not arrays, [CheckTypeCast]
    accepts the cast, reporting nothing, exactly when the source is a scalar,
    or the destination is a scalar, or both have the same dimension and the
    destination has no more components than the source, whatever the numeric
    families; otherwise it returns false after reporting
    "Cannot implicitly convert from 'S' to 'D'" with the names of the types. *)
Theorem X1_CheckTypeCast_numeric (srcType dstType : HLSLType) (p : HLSLParser) :
  non_array srcType -> non_array dstType ->
  numeric (baseType srcType) -> numeric (baseType dstType) ->
  CheckTypeCast srcType dstType p
  = if castable (_baseTypeDescriptions (baseType srcType))
                (_baseTypeDescriptions (baseType dstType))
    then Done true p
    else Done false
           (reported ("Cannot implicitly convert from '"
                      +:+ desc_typeName (_baseTypeDescriptions (baseType srcType))
                      +:+ "' to '"
                      +:+ desc_typeName (_baseTypeDescriptions (baseType dstType)) +:+ "'") p).
Proof.
  intros Hs Hd Hns Hnd.
  destruct (GetTypeCastRank_castable srcType dstType Hs Hd Hns Hnd) as (rank & Hrank & Hcast).
  unfold CheckTypeCast, bind, deref, ret. rewrite Hrank, Hcast.
  destruct (castable _ _); simpl; [reflexivity |].
  rewrite (Parser_GetTypeName_numeric _ Hns), (Parser_GetTypeName_numeric _ Hnd).
  reflexivity.
Qed.

Definition float3_type : HLSLType := HLSLType_of HLSLBaseType_Float3.
Definition int_type : HLSLType := HLSLType_of HLSLBaseType_Int.

(** X1 at int to float3 (accepted) and at float3 to float4 (rejected). *)
Lemma X1_CheckTypeCast_numeric_witness :
  CheckTypeCast int_type float3_type empty_parser = Done true empty_parser
  /\ CheckTypeCast float3_type float4_type empty_parser
     = Done false
         (reported "Cannot implicitly convert from 'float3' to 'float4'" empty_parser).
Proof.
  split.
  - apply (X1_CheckTypeCast_numeric int_type float3_type empty_parser);
      try (split; reflexivity); intros H; discriminate H.
  - apply (X1_CheckTypeCast_numeric float3_type float4_type empty_parser);
      try (split; reflexivity); intros H; discriminate H.
Defined.

(** X2. The rank of a cast is -1 or lies between 0 and 26 and never has both
    the promotion bit and the truncation bit; it is 0 only between two types
    of the same base type and the same array-ness (for structures, of the
    same name); and a type that is not numeric casts to no other base type. *)
Theorem X2_GetTypeCastRank_bounds (srcType dstType : HLSLType) (rank : Z) :
  GetTypeCastRank srcType dstType = Some rank ->
  (rank = -1 \/ (0 <= rank <= 26 /\ Z.testbit rank 0 && Z.testbit rank 4 = false))
  /\ (rank = 0 ->
      baseType srcType = baseType dstType
      /\ array srcType = array dstType
      /\ (baseType srcType = HLSLBaseType_UserDefined -> typeName srcType = typeName dstType))
  /\ (~ numeric (baseType srcType) \/ ~ numeric (baseType dstType) ->
      baseType srcType <> baseType dstType -> rank = -1).
Proof.
  intros Hrank. split; [| split].
  - exact (GetTypeCastRank_range srcType dstType rank Hrank).
  - intros ->. exact (GetTypeCastRank_zero srcType dstType Hrank).
  - intros Hnan Hne.
    rewrite (GetTypeCastRank_not_numeric srcType dstType Hnan Hne) in Hrank.
    now injection Hrank.
Qed.

(** X2 at float4 to float: a truncation of rank 16. *)
Lemma X2_GetTypeCastRank_bounds_witness :
  (16 = -1 \/ (0 <= 16 <= 26 /\ Z.testbit 16 0 && Z.testbit 16 4 = false))
  /\ (16 = 0 ->
      baseType float4_type = baseType (HLSLType_of HLSLBaseType_Float)
      /\ array float4_type = array (HLSLType_of HLSLBaseType_Float)
      /\ (baseType float4_type = HLSLBaseType_UserDefined ->
          typeName float4_type = typeName (HLSLType_of HLSLBaseType_Float)))
  /\ (~ numeric (baseType float4_type)
      \/ ~ numeric (baseType (HLSLType_of HLSLBaseType_Float)) ->
      baseType float4_type <> baseType (HLSLType_of HLSLBaseType_Float) -> 16 = -1).
Proof.
  apply (X2_GetTypeCastRank_bounds float4_type (HLSLType_of HLSLBaseType_Float) 16).
  reflexivity.
Defined.

(** * The type of a binary expression *)

(** The operators whose result is a [bool]. *)
Definition is_comparison (binaryOp : HLSLBinaryOp) : bool :=
  match binaryOp with
  | HLSLBinaryOp_And | HLSLBinaryOp_Or | HLSLBinaryOp_Less | HLSLBinaryOp_Greater
  | HLSLBinaryOp_LessEqual | HLSLBinaryOp_GreaterEqual
  | HLSLBinaryOp_Equal | HLSLBinaryOp_NotEqual => true
  | _ => false
  end.

(** One operand is a vector and the other a matrix. *)
Definition vector_with_matrix (d1 d2 : BaseTypeDescription) : bool :=
  ((numDimensions d1 =? 1) && (numDimensions d2 =? 2))
  || ((numDimensions d1 =? 2) && (numDimensions d2 =? 1)).

(** The shape and the family that the table gives the result of an
    arithmetic operator. *)
Definition arithmetic_result_fits (d1 d2 r : BaseTypeDescription) : bool :=
  (numDimensions r =? Z.max (numDimensions d1) (numDimensions d2))
  && (numComponents r
      =? (if numDimensions d1 =? numDimensions d2
          then Z.min (numComponents d1) (numComponents d2)
          else if numDimensions d1 <? numDimensions d2 then numComponents d2
          else numComponents d1))
  && bool_decide
       (numericType r
        = if bool_decide (numericType d1 = NumericType_Bool)
             && bool_decide (numericType d2 = NumericType_Bool)
          then NumericType_Int
          else if binaryOpRank d1 <=? binaryOpRank d2 then numericType d1
          else numericType d2).

Lemma GetBinaryOpResultType_arithmetic (binaryOp : HLSLBinaryOp) (type1 type2 : HLSLType) :
  is_comparison binaryOp = false ->
  GetBinaryOpResultType binaryOp type1 type2
  = GetBinaryOpResultType HLSLBinaryOp_Add type1 type2.
Proof. destruct binaryOp; intros H; try discriminate H; reflexivity. Qed.

Lemma GetBinaryOpResultType_Add (type1 type2 : HLSLType) :
  array type1 = false -> array type2 = false ->
  numeric (baseType type1) -> numeric (baseType type2) ->
  let d1 := _baseTypeDescriptions (baseType type1) in
  let d2 := _baseTypeDescriptions (baseType type2) in
  let result := GetBinaryOpResultType HLSLBinaryOp_Add type1 type2 in
  fst result = negb (vector_with_matrix d1 d2)
  /\ snd result = snd (GetBinaryOpResultType HLSLBinaryOp_Add type2 type1)
  /\ (fst result = true ->
      arithmetic_result_fits d1 d2 (_baseTypeDescriptions (baseType (snd result))) = true
      /\ snd result = HLSLType_of (baseType (snd result))).
Proof.
  destruct type1 as [b1 n1 a1 s1 c1], type2 as [b2 n2 a2 s2 c2].
  unfold numeric. simpl. intros -> -> H1 H2.
  destruct b1; try (exfalso; apply H1; reflexivity);
    destruct b2; try (exfalso; apply H2; reflexivity);
    (split; [reflexivity | split; [reflexivity |]]);
    intros H; first [discriminate H | split; reflexivity].
Qed.

(** X3. On two numeric operands that are not arrays, a comparison or a
    logical operator always has the type [bool].  An arithmetic operator or
    an assignment is typed the same with its operands exchanged; it is
    rejected exactly when one operand is a vector and the other a matrix; and
    otherwise its type has the larger dimension of the two operands, the
    smaller number of components when the dimensions agree (else that of the
    operand that is not a scalar), and the numeric family of the operand
    whose [binaryOpRank] is lower: float, then half, uint, int; two [bool]
    give an [int]. *)
Theorem X3_GetBinaryOpResultType (binaryOp : HLSLBinaryOp) (type1 type2 : HLSLType) :
  array type1 = false -> array type2 = false ->
  numeric (baseType type1) -> numeric (baseType type2) ->
  let d1 := _baseTypeDescriptions (baseType type1) in
  let d2 := _baseTypeDescriptions (baseType type2) in
  let result := GetBinaryOpResultType binaryOp type1 type2 in
  if is_comparison binaryOp then result = (true, HLSLType_of HLSLBaseType_Bool)
  else
    fst result = negb (vector_with_matrix d1 d2)
    /\ snd result = snd (GetBinaryOpResultType binaryOp type2 type1)
    /\ (fst result = true ->
        arithmetic_result_fits d1 d2 (_baseTypeDescriptions (baseType (snd result))) = true
        /\ snd result = HLSLType_of (baseType (snd result))).
Proof.
  intros Ha1 Ha2 H1 H2. cbv zeta.
  destruct (is_comparison binaryOp) eqn:Hop.
  - destruct type1 as [b1 n1 a1 s1 c1], type2 as [b2 n2 a2 s2 c2].
    unfold numeric in *. simpl in *. subst a1 a2.
    destruct binaryOp; try discriminate Hop;
      destruct b1; try (exfalso; apply H1; reflexivity);
      destruct b2; try (exfalso; apply H2; reflexivity); reflexivity.
  - rewrite !(GetBinaryOpResultType_arithmetic binaryOp) by exact Hop.
    exact (GetBinaryOpResultType_Add type1 type2 Ha1 Ha2 H1 H2).
Qed.

(** X3 at [float3 * half], a float3, and at [float3 + float4x4], rejected. *)
Lemma X3_GetBinaryOpResultType_witness :
  GetBinaryOpResultType HLSLBinaryOp_Mul (HLSLType_of HLSLBaseType_Float3)
                        (HLSLType_of HLSLBaseType_Half)
  = (true, HLSLType_of HLSLBaseType_Float3)
  /\ fst (GetBinaryOpResultType HLSLBinaryOp_Add (HLSLType_of HLSLBaseType_Float3)
                                (HLSLType_of HLSLBaseType_Float4x4)) = false
  /\ GetBinaryOpResultType HLSLBinaryOp_Less (HLSLType_of HLSLBaseType_Float3)
                           (HLSLType_of HLSLBaseType_Half)
     = (true, HLSLType_of HLSLBaseType_Bool).
Proof.
  split; [| split].
  - pose proof (X3_GetBinaryOpResultType HLSLBinaryOp_Mul (HLSLType_of HLSLBaseType_Float3)
                  (HLSLType_of HLSLBaseType_Half) eq_refl eq_refl) as H.
    cbv zeta in H. simpl is_comparison in H. cbv iota in H.
    destruct H as (Hfst & _ & _); [intros H; discriminate H | intros H; discriminate H |].
    reflexivity.
  - pose proof (X3_GetBinaryOpResultType HLSLBinaryOp_Add (HLSLType_of HLSLBaseType_Float3)
                  (HLSLType_of HLSLBaseType_Float4x4) eq_refl eq_refl) as H.
    cbv zeta in H. simpl is_comparison in H. cbv iota in H.
    destruct H as (Hfst & _ & _); [intros H; discriminate H | intros H; discriminate H |].
    exact Hfst.
  - apply (X3_GetBinaryOpResultType HLSLBinaryOp_Less (HLSLType_of HLSLBaseType_Float3)
             (HLSLType_of HLSLBaseType_Half) eq_refl eq_refl);
      intros H; discriminate H.
Defined.

(** * More on overload resolution *)

Lemma CompareFunctions_loop_equal_sym (a b : list Z) :
  CompareFunctions_loop a b = FunctionsEqual -> CompareFunctions_loop b a = FunctionsEqual.
Proof.
  intros H.
  destruct (CompareFunctions_loop b a) eqn:Hba; [reflexivity | |].
  - apply CompareFunctions_loop_swap in Hba. congruence.
  - apply CompareFunctions_loop_swap in Hba. congruence.
Qed.

Section Comparison.

Variable numArguments : Z.
Variable callArgument : list HLSLExpression.

Lemma compare_vectors_swap (a b : option (list Z)) :
  compare_vectors a b = Function1Better <-> compare_vectors b a = Function2Better.
Proof.
  destruct a as [v |], b as [w |]; simpl; try (split; (reflexivity || discriminate)).
  symmetry. apply CompareFunctions_loop_swap.
Qed.

Lemma compare_vectors_equal_sym (a b : option (list Z)) :
  compare_vectors a b = FunctionsEqual -> compare_vectors b a = FunctionsEqual.
Proof.
  destruct a as [v |], b as [w |]; simpl; try (reflexivity || discriminate).
  apply CompareFunctions_loop_equal_sym.
Qed.

Lemma compare_vectors_trans (a b c : option (list Z)) :
  compare_vectors a b = Function1Better -> compare_vectors b c = Function1Better ->
  compare_vectors a c = Function1Better.
Proof.
  destruct a as [u |], b as [v |], c as [w |]; simpl; try (reflexivity || discriminate).
  apply CompareFunctions_loop_trans.
Qed.

(** X4. Where the code has a defined behaviour on the functions compared,
    [CompareFunctions] orders the overloads of a call consistently: a
    function is equal to itself; the first is better than the second exactly
    when, compared the other way round, the second is found better; being
    equal does not depend on the order of the two; and being better is
    transitive. *)
Theorem X4_CompareFunctions_order (f g h : HLSLFunctionDecl) :
  defined numArguments callArgument f ->
  defined numArguments callArgument g ->
  defined numArguments callArgument h ->
  CompareFunctions numArguments callArgument (Some f) (Some f) = Some FunctionsEqual
  /\ (CompareFunctions numArguments callArgument (Some f) (Some g) = Some Function1Better
      <-> CompareFunctions numArguments callArgument (Some g) (Some f) = Some Function2Better)
  /\ (CompareFunctions numArguments callArgument (Some f) (Some g) = Some FunctionsEqual
      <-> CompareFunctions numArguments callArgument (Some g) (Some f) = Some FunctionsEqual)
  /\ (CompareFunctions numArguments callArgument (Some f) (Some g) = Some Function1Better ->
      CompareFunctions numArguments callArgument (Some g) (Some h) = Some Function1Better ->
      CompareFunctions numArguments callArgument (Some f) (Some h) = Some Function1Better).
Proof.
  intros Hf Hg Hh.
  rewrite !CompareFunctions_vectors by assumption.
  split; [| split; [| split]].
  - f_equal. destruct (rank_vector numArguments callArgument f); simpl;
      [apply CompareFunctions_loop_refl | reflexivity].
  - split; intros H; injection H as H; f_equal; now apply compare_vectors_swap.
  - split; intros H; injection H as H; f_equal; now apply compare_vectors_equal_sym.
  - intros H1 H2. injection H1 as H1. injection H2 as H2. f_equal.
    exact (compare_vectors_trans _ _ _ H1 H2).
Qed.

End Comparison.

Definition g_int_int : HLSLFunctionDecl :=
  Build_HLSLFunctionDecl "g" (HLSLType_of HLSLBaseType_Float) None 2
    [g_argument "a" HLSLBaseType_Int; g_argument "b" HLSLBaseType_Int].

(** X4 at the call [g(1, 1)]: [g(int, int)] is better than [g(float, int)],
    which is equal to [g(int, float)]. *)
Lemma X4_CompareFunctions_order_witness :
  CompareFunctions 2 [literal_one 1; literal_one 2] (Some g_int_int) (Some g_float_int)
  = Some Function1Better
  /\ CompareFunctions 2 [literal_one 1; literal_one 2] (Some g_float_int) (Some g_int_int)
     = Some Function2Better
  /\ CompareFunctions 2 [literal_one 1; literal_one 2] (Some g_float_int) (Some g_int_float)
     = Some FunctionsEqual
  /\ CompareFunctions 2 [literal_one 1; literal_one 2] (Some g_int_int) (Some g_int_float)
     = Some Function1Better.
Proof.
  assert (Hii : defined 2 [literal_one 1; literal_one 2] g_int_int) by (vm_compute; eauto).
  assert (Hfi : defined 2 [literal_one 1; literal_one 2] g_float_int) by (vm_compute; eauto).
  assert (Hif : defined 2 [literal_one 1; literal_one 2] g_int_float) by (vm_compute; eauto).
  destruct (X4_CompareFunctions_order 2 [literal_one 1; literal_one 2]
              g_int_int g_float_int g_int_float Hii Hfi Hif) as (_ & Hswap & _ & Htrans).
  assert (H1 : CompareFunctions 2 [literal_one 1; literal_one 2] (Some g_int_int)
                 (Some g_float_int) = Some Function1Better) by reflexivity.
  split; [exact H1 |]. split; [apply Hswap; exact H1 |]. split; [reflexivity |].
  reflexivity.
Defined.

(** ** What a call resolves to, and the calls that match no function *)

Lemma MatchFunctionCall_loop_nameMatches (numArguments : Z)
    (callArgument : list HLSLExpression) (name : string)
    (functions : list HLSLFunctionDecl) (l l' : MatchFunctionCall_locals) :
  MatchFunctionCall_loop numArguments callArgument name functions l = Some l' ->
  nameMatches l'
  = nameMatches l
    || bool_decide (filter (fun f => fn_name f = name) functions <> []).
Proof.
  revert l. induction functions as [| f functions IH]; intros l; cbn [MatchFunctionCall_loop].
  - intros H. injection H as <-. rewrite filter_nil.
    rewrite bool_decide_eq_false_2 by (intros H; now apply H). now rewrite orb_false_r.
  - rewrite filter_cons. destruct (String.eqb (fn_name f) name) eqn:Hname.
    + apply String.eqb_eq in Hname.
      destruct (decide (fn_name f = name)) as [_ | Hn]; [| contradiction].
      destruct (MatchFunctionCall_visit numArguments callArgument f l) as [l1 |] eqn:Hvisit;
        [| discriminate].
      intros H. rewrite (IH _ H).
      assert (Hl1 : nameMatches l1 = true).
      { unfold MatchFunctionCall_visit in Hvisit.
        destruct (CompareFunctions _ _ _ _) as [[] |]; try discriminate;
          injection Hvisit as <-; reflexivity. }
      rewrite Hl1.
      rewrite (bool_decide_eq_true_2 (f :: _ <> [])) by discriminate.
      now rewrite orb_true_r.
    + apply String.eqb_neq in Hname.
      destruct (decide (fn_name f = name)) as [Hn | _]; [contradiction |].
      apply IH.
Qed.

Lemma GetFunctionCallCastRanks_loop_viable (n : nat) (expression : list HLSLExpression)
    (argument : list HLSLArgument) (ranks : list Z) :
  GetFunctionCallCastRanks_loop n expression argument = Some (true, ranks) ->
  forall (i : nat) (e : HLSLExpression) (a : HLSLArgument),
    (i < n)%nat -> expression !! i = Some e -> argument !! i = Some a ->
    exists rank,
      GetTypeCastRank (expressionType_of e) (arg_type a) = Some rank /\ rank <> -1.
Proof.
  revert expression argument ranks. induction n as [| n IH]; intros ex ar ranks H i e a Hi;
    [lia |].
  simpl in H. destruct ex as [| e0 ex]; [discriminate |].
  destruct ar as [| a0 ar]; [discriminate |].
  destruct (GetTypeCastRank (expressionType_of e0) (arg_type a0)) as [r0 |] eqn:Hr0;
    [| discriminate].
  destruct (r0 =? -1) eqn:Hneg; [discriminate |].
  destruct (GetFunctionCallCastRanks_loop n ex ar) as [[v rest] |] eqn:Hrest; [| discriminate].
  injection H as -> <-.
  destruct i as [| i]; simpl.
  - intros He Ha. injection He as <-. injection Ha as <-.
    exists r0. split; [exact Hr0 | lia].
  - intros He Ha. apply (IH ex ar rest Hrest i e a); [lia | exact He | exact Ha].
Qed.

Section Resolution.

Variable numArguments : Z.
Variable callArgument : list HLSLExpression.

(** X5. Where the code has a defined behaviour on every candidate, a call
    that [MatchFunctionCall] resolves is resolved, without any report, to a
    function of the program or an intrinsic that has the name asked for and
    as many parameters as the call has arguments, and every argument of the
    call casts implicitly to the parameter in its place. *)
Theorem X5_MatchFunctionCall_resolved (name : string) (p p' : HLSLParser)
    (function : HLSLFunctionDecl) :
  (forall f, f ∈ candidates name p -> defined numArguments callArgument f) ->
  MatchFunctionCall numArguments callArgument name p = Done (Some function) p' ->
  p' = p
  /\ fn_name function = name
  /\ function ∈ m_functions p ++ _intrinsic
  /\ fn_numArguments function = numArguments
  /\ forall (i : nat) (e : HLSLExpression) (a : HLSLArgument),
       (i < Z.to_nat numArguments)%nat ->
       callArgument !! i = Some e -> fn_argument function !! i = Some a ->
       exists rank,
         GetTypeCastRank (expressionType_of e) (arg_type a) = Some rank /\ rank <> -1.
Proof.
  intros Hdef.
  destruct (MatchFunctionCall_locals_final numArguments callArgument name p Hdef)
    as (l & Hl & l' & Hl' & Hinv).
  unfold MatchFunctionCall, bind, get, deref, ret. cbv zeta.
  rewrite Hl. cbv beta iota. rewrite Hl'. cbv beta iota.
  unfold MatchFunctionCall_invariant in Hinv.
  destruct (matchedFunction l') as [m |] eqn:Hm.
  - destruct (numMatchedOverloads l' >? 1); [intros H; discriminate H |].
    intros H. injection H as <- <-.
    destruct Hinv as (i & v & Hi & Hv & _ & _).
    apply list_elem_of_lookup_2 in Hi. unfold candidates in Hi.
    apply list_elem_of_filter in Hi as [Hname Hin].
    split; [reflexivity |]. split; [exact Hname |]. split; [exact Hin |].
    unfold rank_vector, call_ranks, GetFunctionCallCastRanks in Hv.
    destruct (fn_numArguments m =? numArguments) eqn:Hnum; simpl in Hv; [| discriminate].
    split; [lia |].
    destruct (GetFunctionCallCastRanks_loop _ _ _) as [[[] ranks] |] eqn:Hranks;
      try discriminate.
    exact (GetFunctionCallCastRanks_loop_viable _ _ _ _ Hranks).
  - destruct (nameMatches l'); intros H; discriminate H.
Qed.

(** X6. Where the code has a defined behaviour on every candidate and no
    candidate is viable for the call, [MatchFunctionCall] resolves nothing
    and reports "Undeclared identifier 'name'" when no function of the
    program and no intrinsic has the name, and
    "'name' no overloaded function matched all of the arguments" otherwise. *)
Theorem X6_MatchFunctionCall_unmatched (name : string) (p : HLSLParser) :
  (forall f, f ∈ candidates name p -> defined numArguments callArgument f) ->
  (forall f, f ∈ candidates name p -> ~ viable numArguments callArgument f) ->
  MatchFunctionCall numArguments callArgument name p
  = Done None
      (reported
         match candidates name p with
         | [] => "Undeclared identifier '" +:+ name +:+ "'"
         | _ :: _ => "'" +:+ name +:+ "' no overloaded function matched all of the arguments"
         end p).
Proof.
  intros Hdef Hnone.
  destruct (MatchFunctionCall_locals_final numArguments callArgument name p Hdef)
    as (l & Hl & l' & Hl' & Hinv).
  unfold MatchFunctionCall, bind, get, deref, ret. cbv zeta.
  rewrite Hl. cbv beta iota. rewrite Hl'. cbv beta iota.
  assert (Hnames : nameMatches l' = bool_decide (candidates name p <> [])).
  { rewrite (MatchFunctionCall_loop_nameMatches _ _ _ _ _ _ Hl').
    rewrite (MatchFunctionCall_loop_nameMatches _ _ _ _ _ _ Hl).
    cbn [nameMatches orb].
    unfold candidates. rewrite filter_app.
    destruct (filter (fun f => fn_name f = name) (m_functions p)) as [| f fs].
    - rewrite (bool_decide_eq_false_2 ([] <> [])) by (intros H; now apply H).
      reflexivity.
    - rewrite (bool_decide_eq_true_2 (f :: fs <> [])) by discriminate.
      rewrite (bool_decide_eq_true_2 ((f :: fs) ++ _ <> [])) by discriminate.
      reflexivity. }
  unfold MatchFunctionCall_invariant in Hinv.
  destruct (matchedFunction l') as [m |] eqn:Hm.
  - exfalso. destruct Hinv as (i & v & Hi & Hv & _ & _).
    apply (Hnone m); [now apply list_elem_of_lookup_2 in Hi |].
    unfold viable. rewrite Hv. eauto.
  - rewrite Hnames. destruct (candidates name p) as [| f fs].
    + rewrite bool_decide_eq_false_2 by (intros H; now apply H). reflexivity.
    + rewrite bool_decide_eq_true_2 by discriminate. reflexivity.
Qed.

End Resolution.

Definition g_parser2 : HLSLParser :=
  set_functions [g_float_int; g_int_int] (HLSLParser_new "a.hlsl" [] 2 HLSLTree_new).

(** X5 at [g(1, 1)] with [g(float, int)] and [g(int, int)]. *)
Lemma X5_MatchFunctionCall_resolved_witness :
  MatchFunctionCall 2 [literal_one 1; literal_one 2] "g" g_parser2
  = Done (Some g_int_int) g_parser2
  /\ fn_name g_int_int = "g"
  /\ g_int_int ∈ m_functions g_parser2 ++ _intrinsic
  /\ fn_numArguments g_int_int = 2.
Proof.
  assert (Hdef : forall f, f ∈ candidates "g" g_parser2 ->
                   defined 2 [literal_one 1; literal_one 2] f).
  { assert (Hc : candidates "g" g_parser2 = [g_float_int; g_int_int])
      by (vm_compute; reflexivity).
    rewrite Hc. intros f Hf.
    apply elem_of_cons in Hf as [-> | Hf]; [vm_compute; eauto |].
    apply elem_of_cons in Hf as [-> | Hf]; [vm_compute; eauto |].
    inversion Hf. }
  assert (Hrun : MatchFunctionCall 2 [literal_one 1; literal_one 2] "g" g_parser2
                 = Done (Some g_int_int) g_parser2) by (vm_compute; reflexivity).
  destruct (X5_MatchFunctionCall_resolved 2 [literal_one 1; literal_one 2] "g"
              g_parser2 g_parser2 g_int_int Hdef Hrun) as (_ & Hname & Hin & Hnum & _).
  repeat split; assumption.
Defined.

(** X6 at a call of [h], which nothing declares, and at a call of the
    intrinsic [abs] without arguments. *)
Lemma X6_MatchFunctionCall_unmatched_witness :
  MatchFunctionCall 0 [] "h" empty_parser
  = Done None (reported "Undeclared identifier 'h'" empty_parser)
  /\ MatchFunctionCall 0 [] "abs" empty_parser
     = Done None
         (reported "'abs' no overloaded function matched all of the arguments" empty_parser).
Proof.
  split.
  - assert (Hc : candidates "h" empty_parser = []) by (vm_compute; reflexivity).
    rewrite (X6_MatchFunctionCall_unmatched 0 [] "h" empty_parser).
    + rewrite Hc. reflexivity.
    + rewrite Hc. intros f Hf. inversion Hf.
    + rewrite Hc. intros f Hf. inversion Hf.
  - assert (Hc : candidates "abs" empty_parser = INTRINSIC_FLOAT1_FUNCTION "abs")
      by (vm_compute; reflexivity).
    rewrite (X6_MatchFunctionCall_unmatched 0 [] "abs" empty_parser).
    + rewrite Hc. reflexivity.
    + rewrite Hc. intros f Hf. vm_compute in Hf.
      repeat (apply elem_of_cons in Hf as [-> | Hf]; [vm_compute; eauto |]).
      inversion Hf.
    + rewrite Hc. intros f Hf. vm_compute in Hf.
      repeat (apply elem_of_cons in Hf as [-> | Hf];
              [intros [v Hv]; vm_compute in Hv; discriminate Hv |]).
      inversion Hf.
Defined.

(** * The variables in scope *)

(** The entry of [m_variables] that opens a scope. *)
Definition scope_sentinel : ParserVariable :=
  Build_Variable None (HLSLType_of HLSLBaseType_Unknown).

(** Entries that are variables: they have a name. *)
Definition named (variables : list ParserVariable) : Prop :=
  Forall (fun v => var_name v <> None) variables.

Lemma EndScope_loop_named (locals below : list ParserVariable) (sentinel : ParserVariable) :
  named locals -> var_name sentinel = None ->
  EndScope_loop (rev (below ++ sentinel :: locals)) = Some below.
Proof.
  intros Hnamed Hsentinel.
  rewrite rev_app_distr. simpl. rewrite <- app_assoc. simpl.
  induction locals as [| v locals IH] using rev_ind.
  - simpl. rewrite Hsentinel. now rewrite rev_involutive.
  - apply Forall_app in Hnamed as [Hnamed Hv]. apply Forall_inv in Hv.
    rewrite rev_app_distr. simpl. destruct (var_name v); [exact (IH Hnamed) | contradiction].
Qed.

Lemma EndScope_loop_no_scope (variables : list ParserVariable) :
  named variables -> EndScope_loop (rev variables) = None.
Proof.
  intros Hnamed. induction variables as [| v locals IH] using rev_ind.
  - reflexivity.
  - apply Forall_app in Hnamed as [Hnamed Hv]. apply Forall_inv in Hv.
    rewrite rev_app_distr. simpl. destruct (var_name v); [exact (IH Hnamed) | contradiction].
Qed.

Lemma EndScope_pops (p : HLSLParser) (below locals : list ParserVariable) :
  named locals ->
  m_variables p = below ++ scope_sentinel :: locals ->
  EndScope p = Done tt (set_variables below p).
Proof.
  intros Hnamed Hp. unfold EndScope, bind, get, deref, modify. rewrite Hp.
  rewrite (EndScope_loop_named locals below scope_sentinel Hnamed eq_refl). reflexivity.
Qed.

Lemma named_declared (declared : list (string * HLSLType)) :
  named (map (fun d => Build_Variable (Some (fst d)) (snd d)) declared).
Proof.
  induction declared as [| d declared IH]; constructor; [discriminate | exact IH].
Qed.

(** X7. [EndScope] closes the innermost scope: it removes the variables
    declared since the last [BeginScope] together with the sentinel of the
    scope, and leaves everything below, and the rest of the parser, as it
    was.  With no scope open it fails its assertion. *)
Theorem X7_EndScope_innermost (p : HLSLParser) (below locals : list ParserVariable) :
  named locals ->
  (m_variables p = below ++ scope_sentinel :: locals ->
   EndScope p = Done tt (set_variables below p))
  /\ (m_variables p = locals -> EndScope p = Crash).
Proof.
  intros Hnamed. split; intros Hp.
  - exact (EndScope_pops p below locals Hnamed Hp).
  - unfold EndScope, bind, get, deref, modify. rewrite Hp.
    rewrite (EndScope_loop_no_scope locals Hnamed). reflexivity.
Qed.

(** The declarations of [declared], one after the other. *)
Fixpoint declare_all (declared : list (string * HLSLType)) : Parser unit :=
  match declared with
  | [] => ret tt
  | (name, type) :: declared' => DeclareVariable name type ;; declare_all declared'
  end.

Lemma declare_all_in_scope (declared : list (string * HLSLType)) (p : HLSLParser) :
  m_numGlobals p < Z.of_nat (length (m_variables p)) ->
  declare_all declared p
  = Done tt (set_variables
               (m_variables p ++ map (fun d => Build_Variable (Some (fst d)) (snd d)) declared)
               p).
Proof.
  revert p. induction declared as [| [name type] declared IH]; intros p Hp; simpl.
  - rewrite app_nil_r. destruct p; reflexivity.
  - unfold bind, DeclareVariable, modify.
    destruct (Z.of_nat (length (m_variables p)) =? m_numGlobals p) eqn:Heq; [lia |].
    rewrite IH.
    + destruct p. simpl. rewrite <- app_assoc. reflexivity.
    + destruct p. simpl in *. rewrite length_app. simpl. lia.
Qed.

(** X8. A scope that is opened, has variables declared in it and is closed
    leaves the parser exactly as it was, where [m_numGlobals] does not exceed
    the number of variables: the variables declared inside are gone, and
    none of them was counted as a global. *)
Theorem X8_scope_restores (declared : list (string * HLSLType)) (p : HLSLParser) :
  m_numGlobals p <= Z.of_nat (length (m_variables p)) ->
  (BeginScope ;; declare_all declared ;; EndScope) p = Done tt p.
Proof.
  intros Hp. unfold bind at 1. unfold BeginScope, modify.
  unfold bind. rewrite declare_all_in_scope.
  - destruct p as [tk ut vars funs ng tree]. simpl in *.
    rewrite (EndScope_pops _ vars
               (map (fun d => Build_Variable (Some (fst d)) (snd d)) declared)
               (named_declared declared)).
    + reflexivity.
    + simpl. now rewrite <- app_assoc.
  - destruct p. simpl in *. rewrite length_app. simpl. lia.
Qed.

Lemma FindVariable_loop_globals (name : string) (numGlobals numGlobals' : Z)
    (reversed : list ParserVariable) (i : Z) :
  i < numGlobals -> i < numGlobals' ->
  FindVariable_loop name numGlobals reversed i
  = FindVariable_loop name numGlobals' reversed i.
Proof.
  revert i. induction reversed as [| v below IH]; intros i H1 H2; simpl; [reflexivity |].
  destruct (var_name v) as [n |].
  - destruct (String.eqb n name).
    + f_equal. f_equal. lia.
    + apply IH; lia.
  - apply IH; lia.
Qed.

(** X9. A variable that was just declared is found under its name with the
    type it was declared with, before any older variable of that name; it is
    found as a global exactly when every entry of [m_variables] before it is
    counted as a global, that is when no scope is open.  The declaration
    changes nothing for any other name, and keeps [m_numGlobals] within the
    number of variables. *)
Theorem X9_FindVariable_declared (name : string) (type : HLSLType) (p : HLSLParser) :
  m_numGlobals p <= Z.of_nat (length (m_variables p)) ->
  exists p',
    DeclareVariable name type p = Done tt p'
    /\ FindVariable name p'
       = Some (type, bool_decide (Z.of_nat (length (m_variables p)) = m_numGlobals p))
    /\ (forall other, other <> name -> FindVariable other p' = FindVariable other p)
    /\ m_numGlobals p' <= Z.of_nat (length (m_variables p')).
Proof.
  intros Hp. eexists. split; [reflexivity |].
  destruct p as [tk ut vars funs ng tree]. simpl in *.
  unfold FindVariable.
  destruct (Z.of_nat (length vars) =? ng) eqn:Hsize; simpl;
    rewrite rev_app_distr, length_app; simpl; rewrite String.eqb_refl.
  - apply Z.eqb_eq in Hsize. split; [| split].
    + f_equal. f_equal. rewrite bool_decide_eq_true_2 by exact Hsize.
      apply Z.ltb_lt. lia.
    + intros other Hother. apply String.eqb_neq in Hother.
      rewrite String.eqb_sym in Hother. rewrite Hother.
      replace (Z.of_nat (length vars + 1) - 1 - 1) with (Z.of_nat (length vars) - 1) by lia.
      apply FindVariable_loop_globals; lia.
    + lia.
  - apply Z.eqb_neq in Hsize. split; [| split].
    + f_equal. f_equal. rewrite bool_decide_eq_false_2 by exact Hsize.
      apply Z.ltb_ge. lia.
    + intros other Hother. apply String.eqb_neq in Hother.
      rewrite String.eqb_sym in Hother. rewrite Hother.
      replace (Z.of_nat (length vars + 1) - 1 - 1) with (Z.of_nat (length vars) - 1) by lia.
      reflexivity.
    + lia.
Qed.

Definition x_variable : ParserVariable := Build_Variable (Some "x") float4_type.

(** A parser with the global [x], a scope and the local [y] in it. *)
Definition scoped_parser : HLSLParser :=
  set_numGlobals 1
    (set_variables [x_variable; scope_sentinel; Build_Variable (Some "y") float4_type]
                   empty_parser).

(** X7 at the scope of [y], and with [x] alone. *)
Lemma X7_EndScope_innermost_witness :
  EndScope scoped_parser = Done tt (set_variables [x_variable] scoped_parser)
  /\ EndScope (set_variables [x_variable] scoped_parser) = Crash.
Proof.
  split.
  - apply (proj1 (X7_EndScope_innermost scoped_parser [x_variable]
                    [Build_Variable (Some "y") float4_type]
                    ltac:(repeat constructor; discriminate))).
    reflexivity.
  - apply (proj2 (X7_EndScope_innermost (set_variables [x_variable] scoped_parser) []
                    [x_variable] ltac:(repeat constructor; discriminate))).
    reflexivity.
Defined.

(** X8 at a scope with [y] and [z], opened inside the scope of [scoped_parser]. *)
Lemma X8_scope_restores_witness :
  (BeginScope ;; declare_all [("y", float4_type); ("z", float4_type)] ;; EndScope)
    scoped_parser
  = Done tt scoped_parser.
Proof.
  apply (X8_scope_restores [("y", float4_type); ("z", float4_type)] scoped_parser).
  simpl. lia.
Defined.

(** X9 at the declaration of a new [x] in the scope of [scoped_parser]: it
    hides the global [x] and is not a global. *)
Lemma X9_FindVariable_declared_witness :
  exists p',
    DeclareVariable "x" (HLSLType_of HLSLBaseType_Int) scoped_parser = Done tt p'
    /\ FindVariable "x" p' = Some (HLSLType_of HLSLBaseType_Int, false)
    /\ FindVariable "x" scoped_parser = Some (float4_type, true)
    /\ FindVariable "y" p' = FindVariable "y" scoped_parser.
Proof.
  destruct (X9_FindVariable_declared "x" (HLSLType_of HLSLBaseType_Int) scoped_parser)
    as (p' & Hrun & Hfound & Hother & _); [simpl; lia |].
  exists p'. split; [exact Hrun |]. split; [exact Hfound |]. split; [reflexivity |].
  apply Hother. discriminate.
Defined.

(** * The command line *)

Definition is_help (arg : string) : bool :=
  String_Equal arg "-h" || String_Equal arg "--help".

Definition is_target (arg : string) : bool :=
  String_Equal arg "-fs" || String_Equal arg "-vs".

(** The arguments that are no option: the file name and the entry name. *)
Definition positional (args : list string) : list string :=
  List.filter (fun arg => negb (is_help arg) && negb (is_target arg)) args.

(** The target that the last of [-fs] and [-vs] asks for. *)
Fixpoint last_target (args : list string) (target : Target) : Target :=
  match args with
  | [] => target
  | arg :: args' =>
      last_target args'
        (if String_Equal arg "-fs" then Target_FragmentShader
         else if String_Equal arg "-vs" then Target_VertexShader
         else target)
  end.

(** The loop on the positional arguments alone. *)
Fixpoint fill (names : list string) (l : main_locals) : main_locals + (Z * list string) :=
  match names with
  | [] => inl l
  | name :: names' =>
      match main_fileName l, main_entryName l with
      | None, _ => fill names' (Build_main_locals (Some name) (main_entryName l) (main_target l))
      | Some _, None =>
          fill names' (Build_main_locals (main_fileName l) (Some name) (main_target l))
      | Some _, Some _ => inr (1, [Log_Error "Too many arguments"; usage])
      end
  end.

Definition with_target (target : Target) (r : main_locals + (Z * list string))
    : main_locals + (Z * list string) :=
  match r with
  | inl l => inl (Build_main_locals (main_fileName l) (main_entryName l) target)
  | inr e => inr e
  end.

Lemma fill_target (names : list string) (l : main_locals) (target : Target) :
  fill names (Build_main_locals (main_fileName l) (main_entryName l) target)
  = with_target target (fill names l).
Proof.
  revert l. induction names as [| name names IH]; intros l; simpl; [reflexivity |].
  destruct (main_fileName l), (main_entryName l); simpl; try reflexivity;
    rewrite <- IH; reflexivity.
Qed.

Lemma with_target_twice (target target' : Target) (r : main_locals + (Z * list string)) :
  with_target target (with_target target' r) = with_target target r.
Proof. destruct r; reflexivity. Qed.

Lemma positional_cons (arg : string) (args : list string) :
  positional (arg :: args)
  = if negb (is_help arg) && negb (is_target arg) then arg :: positional args
    else positional args.
Proof. reflexivity. Qed.

Lemma main_arguments_fill (args : list string) (l : main_locals) :
  forallb (fun arg => negb (is_help arg)) args = true ->
  main_arguments args l
  = with_target (last_target args (main_target l)) (fill (positional args) l).
Proof.
  revert l. induction args as [| arg args IH]; intros l Hhelp.
  - destruct l; reflexivity.
  - cbn [forallb] in Hhelp. apply andb_prop in Hhelp as [Harg Hargs].
    cbn [main_arguments last_target]. rewrite positional_cons.
    unfold is_help in Harg |- *. unfold is_target.
    destruct (String_Equal arg "-h" || String_Equal arg "--help"); [discriminate |].
    cbn [negb andb].
    destruct (String_Equal arg "-fs") eqn:Hfs; cbn [orb negb].
    + rewrite (IH _ Hargs). cbn [main_target].
      rewrite (fill_target _ l Target_FragmentShader). apply with_target_twice.
    + destruct (String_Equal arg "-vs") eqn:Hvs; cbn [negb].
      * rewrite (IH _ Hargs). cbn [main_target].
        rewrite (fill_target _ l Target_VertexShader). apply with_target_twice.
      * cbn [fill].
        destruct (main_fileName l) eqn:Hf, (main_entryName l) eqn:He;
          try reflexivity; rewrite (IH _ Hargs); reflexivity.
Qed.

Lemma positional_no_option (arg : string) (args : list string) :
  In arg (positional args) -> is_help arg = false /\ is_target arg = false.
Proof.
  unfold positional. rewrite filter_In. intros [_ H].
  apply andb_prop in H as [H1 H2]. split; now apply negb_true_iff.
Qed.

Definition target_option (target : Target) : string :=
  match target with
  | Target_VertexShader => "-vs"
  | Target_FragmentShader => "-fs"
  end.

Definition main_start : main_locals := Build_main_locals None None Target_FragmentShader.

Lemma main_arguments_normal (args : list string) (fileName entryName : string) :
  forallb (fun arg => negb (is_help arg)) args = true ->
  positional args = [fileName; entryName] ->
  main_arguments args main_start
  = main_arguments
      [target_option (last_target args Target_FragmentShader); fileName; entryName]
      main_start.
Proof.
  intros Hhelp Hpos.
  rewrite (main_arguments_fill args main_start Hhelp). rewrite Hpos.
  destruct (positional_no_option fileName args) as [Hf1 Hf2]; [rewrite Hpos; now left |].
  destruct (positional_no_option entryName args) as [He1 He2];
    [rewrite Hpos; right; now left |].
  unfold is_help, is_target in *.
  apply orb_false_elim in Hf1 as [Hf1 Hf1'], Hf2 as [Hf2 Hf2'].
  apply orb_false_elim in He1 as [He1 He1'], He2 as [He2 He2'].
  unfold main_start. cbn [main_target].
  destruct (last_target args Target_FragmentShader); cbn;
    rewrite ?Hf1, ?Hf1', ?Hf2, ?Hf2', ?He1, ?He1', ?He2, ?He2'; reflexivity.
Qed.

(** X10. The options of the command line may stand anywhere among the other
    arguments.  Without [-h] and [--help]: with fewer than two other
    arguments the program exits with 1 after "Missing arguments" and the
    usage, with more than two it exits with 1 after "Too many arguments" and
    the usage, reading no file in either case; and with exactly two it runs
    as on the last of the options [-fs] and [-vs] given (else [-fs]), the
    file name and the entry name, in this order. *)
Theorem X10_main_arguments (fuel : nat) (tokens : string -> list Lexeme * Z)
    (args : list string) :
  forallb (fun arg => negb (is_help arg)) args = true ->
  match positional args with
  | [] | [_] =>
      main fuel tokens args = Exited 1 None [Log_Error "Missing arguments"; usage]
  | [fileName; entryName] =>
      main fuel tokens args
      = main fuel tokens
          [target_option (last_target args Target_FragmentShader); fileName; entryName]
  | _ :: _ :: _ :: _ =>
      main fuel tokens args = Exited 1 None [Log_Error "Too many arguments"; usage]
  end.
Proof.
  intros Hhelp.
  destruct (positional args) as [| fileName [| entryName [| third rest]]] eqn:Hpos.
  - unfold main. fold main_start. rewrite (main_arguments_fill args main_start Hhelp), Hpos.
    reflexivity.
  - unfold main. fold main_start. rewrite (main_arguments_fill args main_start Hhelp), Hpos.
    reflexivity.
  - unfold main. fold main_start.
    rewrite (main_arguments_normal args fileName entryName Hhelp Hpos). reflexivity.
  - unfold main. fold main_start. rewrite (main_arguments_fill args main_start Hhelp), Hpos.
    reflexivity.
Qed.

(** X10 at [a.hlsl -vs main -fs extra], at [-vs a.hlsl] and at
    [a.hlsl -vs main -fs]. *)
Lemma X10_main_arguments_witness :
  main 0 (fun _ => ([], 1)) ["a.hlsl"; "-vs"; "main"; "-fs"; "extra"]
  = Exited 1 None [Log_Error "Too many arguments"; usage]
  /\ main 0 (fun _ => ([], 1)) ["-vs"; "a.hlsl"]
     = Exited 1 None [Log_Error "Missing arguments"; usage]
  /\ main 0 (fun _ => ([], 1)) ["a.hlsl"; "-vs"; "main"; "-fs"]
     = main 0 (fun _ => ([], 1)) ["-fs"; "a.hlsl"; "main"].
Proof.
  split; [| split].
  - apply (X10_main_arguments 0 (fun _ => ([], 1))
             ["a.hlsl"; "-vs"; "main"; "-fs"; "extra"]). reflexivity.
  - apply (X10_main_arguments 0 (fun _ => ([], 1)) ["-vs"; "a.hlsl"]). reflexivity.
  - apply (X10_main_arguments 0 (fun _ => ([], 1)) ["a.hlsl"; "-vs"; "main"; "-fs"]).
    reflexivity.
Defined.

(** * Strings and names of the generator *)

(** A string with [toupper] applied to every character. *)
Fixpoint upper (s : string) : string :=
  match s with
  | EmptyString => EmptyString
  | String c s' => String (toupper c) (upper s')
  end.

Lemma String_EqualNoCase_upper (first second : string) :
  String_EqualNoCase first second = String.eqb (upper first) (upper second).
Proof.
  revert second. induction first as [| a first IH]; intros [| b second]; simpl;
    try reflexivity.
  destruct (Ascii.eqb (toupper a) (toupper b)); simpl; [apply IH | reflexivity].
Qed.

(** X11. [String_EqualNoCase] holds of two strings exactly when they are
    equal once every character is put in upper case; so it is reflexive,
    symmetric and transitive, and it holds of strings that [String_Equal]
    finds equal. *)
Theorem X11_String_EqualNoCase :
  (forall first second,
     String_EqualNoCase first second = String.eqb (upper first) (upper second))
  /\ (forall s, String_EqualNoCase s s = true)
  /\ (forall first second,
        String_EqualNoCase first second = String_EqualNoCase second first)
  /\ (forall a b c,
        String_EqualNoCase a b = true -> String_EqualNoCase b c = true ->
        String_EqualNoCase a c = true)
  /\ (forall first second,
        String_Equal first second = true -> String_EqualNoCase first second = true).
Proof.
  split; [exact String_EqualNoCase_upper |].
  split; [intros s; rewrite String_EqualNoCase_upper; apply String.eqb_refl |].
  split; [intros a b; rewrite !String_EqualNoCase_upper; apply String.eqb_sym |].
  split.
  - intros a b c. rewrite !String_EqualNoCase_upper, !String.eqb_eq. congruence.
  - intros a b. unfold String_Equal. rewrite String_EqualNoCase_upper, !String.eqb_eq.
    now intros ->.
Qed.

(** X12. [GetBuiltInSemantic] does not depend on the case of the letters of
    the semantic: it gives [gl_Position] to every spelling of SV_POSITION,
    [gl_FragDepth] to every spelling of DEPTH, and nothing to any other
    semantic. *)
Theorem X12_GetBuiltInSemantic (semantic : string) :
  GetBuiltInSemantic semantic
  = if String.eqb (upper semantic) "SV_POSITION" then Some "gl_Position"
    else if String.eqb (upper semantic) "DEPTH" then Some "gl_FragDepth"
    else None.
Proof.
  unfold GetBuiltInSemantic, _builtInSemantics. cbn [GetBuiltInSemantic_loop].
  rewrite !String_EqualNoCase_upper. reflexivity.
Qed.

(** ** Reserved words *)

Lemma GetSafeIdentifierName_loop_other (name : string) (reserved replacement : list string) :
  ~ In name reserved -> GetSafeIdentifierName_loop name reserved replacement = name.
Proof.
  revert replacement. induction reserved as [| r reserved IH]; intros [| m replacement] Hin;
    simpl; try reflexivity.
  unfold String_Equal. destruct (String.eqb r name) eqn:Heq.
  - apply String.eqb_eq in Heq. exfalso. apply Hin. now left.
  - apply IH. intros H. apply Hin. now right.
Qed.

Lemma GetSafeIdentifierName_loop_reserved (reserved replacement : list string) (i : nat)
    (name safe : string) :
  NoDup reserved -> reserved !! i = Some name -> replacement !! i = Some safe ->
  GetSafeIdentifierName_loop name reserved replacement = safe.
Proof.
  revert replacement i. induction reserved as [| r reserved IH];
    intros [| m replacement] [| i] Hnodup Hr Hm; try discriminate; simpl in *.
  - injection Hr as ->. injection Hm as ->. unfold String_Equal. now rewrite String.eqb_refl.
  - apply NoDup_cons in Hnodup as [Hnot Hnodup].
    unfold String_Equal. destruct (String.eqb r name) eqn:Heq.
    + apply String.eqb_eq in Heq. subst r. exfalso. apply Hnot.
      now apply list_elem_of_lookup_2 in Hr.
    + exact (IH replacement i Hnodup Hr Hm).
Qed.

Lemma s_reservedWord_NoDup : NoDup s_reservedWord.
Proof.
  unfold s_reservedWord.
  repeat (apply NoDup_cons_2;
          [rewrite ?elem_of_cons, elem_of_nil; intuition discriminate |]).
  apply NoDup_nil_2.
Qed.

(** X13. [GetSafeIdentifierName] leaves every name that is not one of the
    words [output], [input], [mod] and [mix] as it is, and replaces each of
    these words by the name kept for it in [m_reservedWord]; after the set-up
    of [Generate] that is the name [ChooseUniqueName] left for the word. *)
Theorem X13_GetSafeIdentifierName (name : string) (g : GLSLGenerator) :
  (~ In name s_reservedWord -> GetSafeIdentifierName name g = name)
  /\ (forall (i : nat) (safe : string),
        s_reservedWord !! i = Some name -> m_reservedWord g !! i = Some safe ->
        GetSafeIdentifierName name g = safe)
  /\ (forall (tree : HLSLTree) (target : Target) (entryName : string) (i : nat) (old : string),
        s_reservedWord !! i = Some name -> m_reservedWord g !! i = Some old ->
        GetSafeIdentifierName name (Generate_setup tree target entryName g)
        = snd (ChooseUniqueName tree name old 64)).
Proof.
  split; [| split].
  - apply GetSafeIdentifierName_loop_other.
  - intros i safe Hr Hm. unfold GetSafeIdentifierName.
    apply (GetSafeIdentifierName_loop_reserved s_reservedWord (m_reservedWord g) i);
      try assumption.
    exact s_reservedWord_NoDup.
  - intros tree target entryName i old Hr Hm. unfold GetSafeIdentifierName.
    apply (GetSafeIdentifierName_loop_reserved s_reservedWord _ i); try assumption.
    + exact s_reservedWord_NoDup.
    + unfold Generate_setup. cbn [m_reservedWord].
      rewrite lookup_zip_with, Hr, Hm. reflexivity.
Qed.

(** X13 at [model], which is no reserved word, and at [mod] after the set-up
    of [Generate] on the empty tree. *)
Lemma X13_GetSafeIdentifierName_witness :
  GetSafeIdentifierName "model" GLSLGenerator_new = "model"
  /\ GetSafeIdentifierName "mod"
       (Generate_setup HLSLTree_new Target_FragmentShader "main" GLSLGenerator_new)
     = snd (ChooseUniqueName HLSLTree_new "mod" "" 64).
Proof.
  destruct (X13_GetSafeIdentifierName "model" GLSLGenerator_new) as (Hother & _ & _).
  destruct (X13_GetSafeIdentifierName "mod" GLSLGenerator_new) as (_ & _ & Hreserved).
  split.
  - apply Hother. simpl. intuition discriminate.
  - apply (Hreserved HLSLTree_new Target_FragmentShader "main" 2%nat ""); reflexivity.
Defined.

(** ** A missing entry point *)

(** No function at the top level of [root] is called [name]. *)
Definition no_function_named (name : string) (root : list HLSLStatement) : Prop :=
  forall node function body,
    In (HLSLNodeType_Function node function body) root -> fn_name function <> name.

Lemma GLSL_FindFunction_none (root : list HLSLStatement) (name : string) :
  no_function_named name root <-> GLSL_FindFunction root name = None.
Proof.
  unfold no_function_named. induction root as [| statement root IH]; simpl.
  - split; [reflexivity | intros _ node function body []].
  - destruct statement as [d | s | b | node function body | n e | n e | n | n | n
                           | n c t e | n i c inc b]; simpl;
      try (rewrite <- IH; split;
           [intros H node' function' body' Hin; apply (H node' function' body'); now right
           | intros H node' function' body' [Heq | Hin];
             [discriminate Heq | exact (H node' function' body' Hin)]]).
    unfold String_Equal. destruct (String.eqb (fn_name function) name) eqn:Heq.
    + apply String.eqb_eq in Heq. split; [| discriminate].
      intros H. exfalso. apply (H node function body); [now left | exact Heq].
    + apply String.eqb_neq in Heq. rewrite <- IH. split.
      * intros H node' function' body' Hin. apply (H node' function' body'). now right.
      * intros H node' function' body' [Hhere | Hin];
          [injection Hhere as <- <- <-; exact Heq | exact (H node' function' body' Hin)].
Qed.

(** X14. When no function at the top level of the tree has the name of the
    entry point, [Generate], run on a new generator, returns false, writes
    nothing, and logs the one line "ERROR: Entry point 'name' doesn't exist"
    (with the message cut at 1022 characters). *)
Theorem X14_Generate_missing_entry (fuel : nat) (tree : HLSLTree) (target : Target)
    (entryName : string) :
  no_function_named entryName (HLSLTree_GetRoot tree) ->
  exists g,
    Generate fuel tree target entryName GLSLGenerator_new = Done false g
    /\ GetResult g = []
    /\ g_stderr g
       = [Log_Error (snprintf 1023 ("Entry point '" +:+ entryName +:+ "' doesn't exist"))].
Proof.
  intros Hnone. apply GLSL_FindFunction_none in Hnone.
  unfold Generate. unfold bind at 1. unfold modify at 1. unfold bind at 1. unfold get at 1.
  cbv zeta. rewrite Hnone.
  eexists. split; [reflexivity |]. split; reflexivity.
Qed.

(** X14 at the empty tree. *)
Lemma X14_Generate_missing_entry_witness :
  exists g,
    Generate 1 HLSLTree_new Target_FragmentShader "main" GLSLGenerator_new = Done false g
    /\ GetResult g = []
    /\ g_stderr g = ["ERROR: Entry point 'main' doesn't exist"].
Proof.
  apply (X14_Generate_missing_entry 1 HLSLTree_new Target_FragmentShader "main").
  intros node function body [].
Defined.

(** * What the generator keeps *)

(** A property of the generator that its steps keep: writing to the code
    writer, reporting a first error, and noting that a position was output. *)
Section Kept.

Variable P : GLSLGenerator -> Prop.

Hypothesis P_emit : forall g call, P g -> P (set_writer (m_writer g ++ [call]) g).
Hypothesis P_error : forall g message, P g -> m_error g = false -> P (set_error message g).
Hypothesis P_position : forall g b, P g -> P (set_outputPosition b g).

(** From a state with [P], [m] ends in a state with [P], if it ends. *)
Definition keeps {A : Type} (m : Generator A) : Prop :=
  forall g, P g -> match m g with Done _ g' => P g' | _ => True end.

Lemma keeps_ret {A : Type} (a : A) : keeps (ret a).
Proof. intros g Hg. exact Hg. Qed.

Lemma keeps_bind {A B : Type} (m : Generator A) (k : A -> Generator B) :
  keeps m -> (forall a, keeps (k a)) -> keeps (bind m k).
Proof.
  intros Hm Hk g Hg. unfold bind. specialize (Hm g Hg).
  destruct (m g) as [a g' | |]; [exact (Hk a g' Hm) | exact I | exact I].
Qed.

Lemma keeps_get : keeps get.
Proof. intros g Hg. exact Hg. Qed.

Lemma keeps_crash {A : Type} : keeps (@crash GLSLGenerator A).
Proof. intros g Hg. exact I. Qed.

Lemma keeps_out_of_fuel {A : Type} : keeps (@out_of_fuel GLSLGenerator A).
Proof. intros g Hg. exact I. Qed.

Lemma keeps_deref {A : Type} (p : option A) : keeps (deref p).
Proof. destruct p; [apply keeps_ret | apply keeps_crash]. Qed.

Lemma keeps_ASSERT (condition : bool) : keeps (ASSERT condition).
Proof. destruct condition; [apply keeps_ret | apply keeps_crash]. Qed.

Lemma keeps_emit (call : CodeWriterCall) : keeps (emit call).
Proof. intros g Hg. exact (P_emit g call Hg). Qed.

Lemma keeps_GLSL_Error (message : string) : keeps (GLSL_Error message).
Proof.
  intros g Hg. unfold GLSL_Error, bind, get. destruct (m_error g) eqn:He; [exact Hg |].
  exact (P_error g _ Hg He).
Qed.

Lemma keeps_set_outputPosition (b : bool) : keeps (modify (set_outputPosition b)).
Proof. intros g Hg. exact (P_position g b Hg). Qed.

Create HintDb keeps.

#[local] Hint Resolve keeps_get keeps_deref keeps_ASSERT keeps_emit keeps_GLSL_Error
  keeps_set_outputPosition : keeps.

(** A proof that a function keeps [P] follows the text of the function. *)
Ltac keep_step :=
  first
    [ apply keeps_ret | apply keeps_crash | apply keeps_out_of_fuel
    | solve [auto with keeps]
    | apply keeps_bind; [| intros ?]
    | match goal with
      | |- keeps (match ?x with _ => _ end) => destruct x
      | |- keeps (let _ := _ in _) => cbv zeta
      end ].

Ltac keep :=
  unfold CodeWriter_BeginLine, CodeWriter_Write, CodeWriter_EndLine, CodeWriter_WriteLine,
    CodeWriter_WriteLineAt;
  repeat keep_step.

Lemma keeps_write_all (texts : list string) : keeps (write_all texts).
Proof. induction texts as [| t texts IH]; cbn [write_all]; keep. Qed.

Lemma keeps_write_lines (lines : list string) : keeps (write_lines lines).
Proof. induction lines as [| l lines IH]; cbn [write_lines]; keep. Qed.

Lemma keeps_GLSL_GetTypeName (type : HLSLType) : keeps (GLSL_GetTypeName type).
Proof. unfold GLSL_GetTypeName. keep. Qed.

Lemma keeps_OutputIdentifier (name : string) : keeps (OutputIdentifier name).
Proof. unfold OutputIdentifier. keep. Qed.

#[local] Hint Resolve keeps_write_all keeps_write_lines keeps_GLSL_GetTypeName
  keeps_OutputIdentifier : keeps.

Lemma keeps_expressions (fuel : nat) :
  (forall expression dstType, keeps (OutputExpression fuel expression dstType))
  /\ (forall expression argument numExpressions,
        keeps (OutputExpressionList fuel expression argument numExpressions))
  /\ (forall type name, keeps (OutputDeclaration_type fuel type name)).
Proof.
  induction fuel as [| fuel (IHe & IHl & IHd)].
  - repeat split; intros; apply keeps_out_of_fuel.
  - split; [| split].
    + intros expression dstType. cbn [OutputExpression]. keep.
    + intros expression argument numExpressions. cbn [OutputExpressionList]. keep.
    + intros type name. cbn [OutputDeclaration_type]. keep.
Qed.

Lemma keeps_OutputExpression (fuel : nat) (expression : option HLSLExpression)
    (dstType : option HLSLType) :
  keeps (OutputExpression fuel expression dstType).
Proof. apply keeps_expressions. Qed.

Lemma keeps_OutputExpressionList (fuel : nat) (expression : list HLSLExpression)
    (argument : list HLSLArgument) (numExpressions : Z) :
  keeps (OutputExpressionList fuel expression argument numExpressions).
Proof. apply keeps_expressions. Qed.

Lemma keeps_OutputDeclaration_type (fuel : nat) (type : HLSLType) (name : string) :
  keeps (OutputDeclaration_type fuel type name).
Proof. apply keeps_expressions. Qed.

#[local] Hint Resolve keeps_OutputExpression keeps_OutputExpressionList
  keeps_OutputDeclaration_type : keeps.

Lemma keeps_OutputArguments (fuel : nat) (argument : list HLSLArgument) (numArgs : Z) :
  keeps (OutputArguments fuel argument numArgs).
Proof.
  revert numArgs. induction argument as [| a argument IH]; intros numArgs;
    cbn [OutputArguments]; unfold OutputArguments_modifier; keep.
Qed.

Lemma keeps_OutputDeclaration (fuel : nat) (declaration : option HLSLDeclaration) :
  keeps (OutputDeclaration fuel declaration).
Proof. unfold OutputDeclaration. keep. Qed.

Lemma keeps_OutputStatements_structFields (fuel : nat) (indent : Z)
    (field : list HLSLStructField) :
  keeps (OutputStatements_structFields fuel indent field).
Proof. induction field as [| f field IH]; cbn [OutputStatements_structFields]; keep. Qed.

Lemma keeps_OutputStatements_bufferFields (fuel : nat) (indent : Z)
    (field : list HLSLBufferField) :
  keeps (OutputStatements_bufferFields fuel indent field).
Proof. induction field as [| f field IH]; cbn [OutputStatements_bufferFields]; keep. Qed.

#[local] Hint Resolve keeps_OutputArguments keeps_OutputDeclaration
  keeps_OutputStatements_structFields keeps_OutputStatements_bufferFields : keeps.

Lemma keeps_OutputStatements (fuel : nat) (indent : Z) (statement : list HLSLStatement)
    (returnType : option HLSLType) :
  keeps (OutputStatements fuel indent statement returnType).
Proof.
  revert indent statement returnType.
  induction fuel as [| fuel IH]; intros indent statement returnType;
    [apply keeps_out_of_fuel |].
  cbn [OutputStatements]. keep.
Qed.

Lemma keeps_GetRoot : keeps GetRoot.
Proof. unfold GetRoot. keep. Qed.

Lemma keeps_OutputAttribute_fields (field : list HLSLStructField) (attribType : string)
    (prefix : option string) :
  keeps (OutputAttribute_fields field attribType prefix).
Proof. induction field as [| f field IH]; cbn [OutputAttribute_fields]; keep. Qed.

#[local] Hint Resolve keeps_OutputStatements keeps_GetRoot keeps_OutputAttribute_fields
  : keeps.

Lemma keeps_OutputAttribute (type : HLSLType) (semantic : option string)
    (attribType : string) (prefix : option string) :
  keeps (OutputAttribute type semantic attribType prefix).
Proof. unfold OutputAttribute. keep. Qed.

#[local] Hint Resolve keeps_OutputAttribute : keeps.

Lemma keeps_OutputAttributes_loop (argument : list HLSLArgument) :
  keeps (OutputAttributes_loop argument).
Proof. induction argument as [| a argument IH]; cbn [OutputAttributes_loop]; keep. Qed.

#[local] Hint Resolve keeps_OutputAttributes_loop : keeps.

Lemma keeps_OutputAttributes (entryFunction : HLSLFunctionDecl) :
  keeps (OutputAttributes entryFunction).
Proof. unfold OutputAttributes. keep. Qed.

Lemma keeps_OutputSetOutAttribute (semantic : option string) (resultName : string) :
  keeps (OutputSetOutAttribute semantic resultName).
Proof. unfold OutputSetOutAttribute. keep. Qed.

Lemma keeps_OutputEntryCaller_argumentFields (argumentName : string)
    (field : list HLSLStructField) :
  keeps (OutputEntryCaller_argumentFields argumentName field).
Proof.
  induction field as [| f field IH]; cbn [OutputEntryCaller_argumentFields]; keep.
Qed.

#[local] Hint Resolve keeps_OutputAttributes keeps_OutputSetOutAttribute
  keeps_OutputEntryCaller_argumentFields : keeps.

Lemma keeps_OutputEntryCaller_locals (fuel : nat) (root : list HLSLStatement)
    (argument : list HLSLArgument) :
  keeps (OutputEntryCaller_locals fuel root argument).
Proof. induction argument as [| a argument IH]; cbn [OutputEntryCaller_locals]; keep. Qed.

Lemma keeps_OutputEntryCaller_call (argument : list HLSLArgument) (numArgs : Z) :
  keeps (OutputEntryCaller_call argument numArgs).
Proof.
  revert numArgs. induction argument as [| a argument IH]; intros numArgs;
    cbn [OutputEntryCaller_call]; keep.
Qed.

Lemma keeps_OutputEntryCaller_resultFields (resultName : string)
    (field : list HLSLStructField) :
  keeps (OutputEntryCaller_resultFields resultName field).
Proof.
  induction field as [| f field IH]; cbn [OutputEntryCaller_resultFields]; keep.
Qed.

#[local] Hint Resolve keeps_OutputEntryCaller_locals keeps_OutputEntryCaller_call
  keeps_OutputEntryCaller_resultFields : keeps.

Lemma keeps_OutputEntryCaller (fuel : nat) (entryFunction : HLSLFunctionDecl) :
  keeps (OutputEntryCaller fuel entryFunction).
Proof. unfold OutputEntryCaller. keep. Qed.

#[local] Hint Resolve keeps_OutputEntryCaller : keeps.

Hypothesis P_setup :
  forall tree target entryName g, P g -> P (Generate_setup tree target entryName g).
Hypothesis P_clear : forall g, P g -> P (clear_tree g).

Lemma keeps_Generate_setup (tree : HLSLTree) (target : Target) (entryName : string) :
  keeps (modify (Generate_setup tree target entryName)).
Proof. intros g Hg. exact (P_setup tree target entryName g Hg). Qed.

Lemma keeps_clear_tree : keeps (modify clear_tree).
Proof. intros g Hg. exact (P_clear g Hg). Qed.

#[local] Hint Resolve keeps_Generate_setup keeps_clear_tree : keeps.

Lemma keeps_Generate (fuel : nat) (tree : HLSLTree) (target : Target) (entryName : string) :
  keeps (Generate fuel tree target entryName).
Proof. unfold Generate. keep. Qed.

Lemma then_result {A : Type} (m : Generator unit) (k : Generator A) (g g' : GLSLGenerator)
    (a : A) :
  (m ;; k) g = Done a g' -> exists g1, k g1 = Done a g'.
Proof.
  unfold bind. destruct (m g) as [[] g1 | |]; try discriminate. intros H. now exists g1.
Qed.

(** What [Generate] returns tells whether an error was reported. *)
Lemma Generate_result (fuel : nat) (tree : HLSLTree) (target : Target) (entryName : string)
    (g g' : GLSLGenerator) (result : bool) :
  P g ->
  Generate fuel tree target entryName g = Done result g' ->
  P g' /\ result = negb (m_error g').
Proof.
  intros Hg Hrun. split.
  - pose proof (keeps_Generate fuel tree target entryName g Hg) as H.
    now rewrite Hrun in H.
  - revert Hrun. unfold Generate.
    unfold bind at 1. unfold modify at 1. unfold bind at 1. unfold get at 1. cbv zeta.
    destruct (GLSL_FindFunction (HLSLTree_GetRoot tree) entryName) as [[[node f] body] |].
    + intros H.
      repeat (apply then_result in H as [? H]).
      cbv beta iota delta [bind get ret] in H. injection H as <- <-. reflexivity.
    + cbv beta iota delta [bind GLSL_Error get ret modify].
      destruct (m_error (Generate_setup tree target entryName g)) eqn:He;
        cbv beta iota; intros H; injection H as <- <-; [now rewrite He | reflexivity].
Qed.

(** With the entry point found, [P] holds at the end when it holds once the
    first line is written. *)
Lemma Generate_from_first_line (fuel : nat) (tree : HLSLTree) (target : Target)
    (entryName : string) (g g' : GLSLGenerator) (result : bool) :
  GLSL_FindFunction (HLSLTree_GetRoot tree) entryName <> None ->
  P (set_writer (m_writer (Generate_setup tree target entryName g)
                 ++ [Call_WriteLine 0 "#version 140"])
                (Generate_setup tree target entryName g)) ->
  Generate fuel tree target entryName g = Done result g' ->
  P g'.
Proof.
  intros Hfound Hfirst. unfold Generate.
  unfold bind at 1. unfold modify at 1. unfold bind at 1. unfold get at 1. cbv zeta.
  destruct (GLSL_FindFunction (HLSLTree_GetRoot tree) entryName) as [[[node f] body] |];
    [| contradiction].
  unfold bind at 1. unfold CodeWriter_WriteLine at 1. unfold emit at 1. unfold modify at 1.
  match goal with
  | |- ?rest ?s = _ -> _ => assert (Hrest : keeps rest) by keep; specialize (Hrest s Hfirst)
  end.
  intros Hrun. rewrite Hrun in Hrest. exact Hrest.
Qed.

End Kept.

(** ** One error at most *)

(** Nothing was logged, or the error flag is set and one line was logged. *)
Definition logged_once (g : GLSLGenerator) : Prop :=
  if m_error g then exists line, g_stderr g = [line] else g_stderr g = [].

(** X15. [Generate], run on a new generator, returns true exactly when it
    logged nothing, and when it returns false it logged exactly one line:
    only the first error of a run is reported. *)
Theorem X15_Generate_errors (fuel : nat) (tree : HLSLTree) (target : Target)
    (entryName : string) (result : bool) (g : GLSLGenerator) :
  Generate fuel tree target entryName GLSLGenerator_new = Done result g ->
  if result then g_stderr g = [] else exists line, g_stderr g = [line].
Proof.
  intros Hrun.
  destruct (Generate_result logged_once) with (7 := Hrun) as [Hg ->].
  - intros g0 call H. exact H.
  - intros g0 message H He. unfold logged_once in *. rewrite He in H. simpl.
    rewrite H. now exists message.
  - intros g0 b H. exact H.
  - intros tree0 target0 entryName0 g0 H. exact H.
  - intros g0 H. exact H.
  - reflexivity.
  - unfold logged_once in Hg. destruct (m_error g); exact Hg.
Qed.

(** X15 at the empty tree. *)
Lemma X15_Generate_errors_witness :
  exists g line,
    Generate 1 HLSLTree_new Target_VertexShader "main" GLSLGenerator_new = Done false g
    /\ g_stderr g = [line].
Proof.
  assert (H : exists g,
             Generate 1 HLSLTree_new Target_VertexShader "main" GLSLGenerator_new
             = Done false g) by (vm_compute; eexists; reflexivity).
  destruct H as [g H].
  destruct (X15_Generate_errors _ _ _ _ _ _ H) as [line Hline].
  exists g, line. split; [exact H | exact Hline].
Defined.

(** ** Only the output grows *)

(** [g] with the code writer, the error flag and the log replaced. *)
Definition with_output (writer : CodeWriter) (error : bool) (log : list string)
    (g : GLSLGenerator) : GLSLGenerator :=
  Build_GLSLGenerator writer (g_tree g) (m_entryName g) (m_target g) (m_outputPosition g)
    (m_outAttribPrefix g) (m_inAttribPrefix g) (m_matrixRowFunction g) (m_clipFunction g)
    (m_tex2DlodFunction g) (m_texCUBEbiasFunction g) (m_scalarSwizzle2Function g)
    (m_scalarSwizzle3Function g) (m_scalarSwizzle4Function g) (m_sinCosFunction g)
    error (m_reservedWord g) log.

(** [g'] is [g] after some calls on the code writer and at most one line
    logged, which sets the error flag. *)
Definition output_grown (g g' : GLSLGenerator) : Prop :=
  exists (calls : list CodeWriterCall) (lines : list string),
    g' = with_output (m_writer g ++ calls)
                     (m_error g || negb (bool_decide (lines = [])))
                     (g_stderr g ++ lines) g
    /\ (length lines <= 1)%nat
    /\ (m_error g = true -> lines = []).

Lemma output_grown_refl (g : GLSLGenerator) : output_grown g g.
Proof.
  exists [], []. rewrite !app_nil_r. destruct g as [w t e tg op oa ia a b c d e2 e3 e4 sc er rw ln].
  simpl. rewrite orb_false_r. split; [reflexivity |]. split; [lia | reflexivity].
Qed.

Lemma output_grown_emit (g g' : GLSLGenerator) (call : CodeWriterCall) :
  output_grown g g' -> output_grown g (set_writer (m_writer g' ++ [call]) g').
Proof.
  intros (calls & lines & -> & Hlen & Herr).
  exists (calls ++ [call]), lines. split; [| split; assumption].
  unfold set_writer, with_output. simpl. now rewrite app_assoc.
Qed.

Lemma output_grown_error (g g' : GLSLGenerator) (message : string) :
  output_grown g g' -> m_error g' = false -> output_grown g (set_error message g').
Proof.
  intros (calls & lines & -> & Hlen & Herr) He. simpl in He.
  apply orb_false_elim in He as [Hg Hlines].
  apply negb_false_iff, bool_decide_eq_true in Hlines. subst lines.
  exists calls, [message]. split; [| split; [simpl; lia | intros H; congruence]].
  unfold set_error, with_output. simpl. rewrite Hg, app_nil_r. reflexivity.
Qed.

(** X16. [OutputStatements] changes nothing of the generator but its output:
    where it returns, the calls made on the code writer before are still
    there, new ones come after them, at most one line was logged, and only
    while the error flag was off; the tree, the target, the names and the
    other members are as they were. *)
Theorem X16_OutputStatements_output_grown (fuel : nat) (indent : Z)
    (statement : list HLSLStatement) (returnType : option HLSLType) (g g' : GLSLGenerator) :
  OutputStatements fuel indent statement returnType g = Done tt g' ->
  output_grown g g'.
Proof.
  intros Hrun.
  pose proof (keeps_OutputStatements (output_grown g) (output_grown_emit g)
                (output_grown_error g) fuel indent statement returnType g
                (output_grown_refl g)) as H.
  now rewrite Hrun in H.
Qed.

(** X16 at an [if] in a function body. *)
Lemma X16_OutputStatements_output_grown_witness :
  exists g', OutputStatements 3 1
               [HLSLNodeType_IfStatement x_node x_expression
                  [HLSLNodeType_DiscardStatement x_node] []]
               None fragment_generator = Done tt g'
             /\ output_grown fragment_generator g'.
Proof.
  assert (H : exists g',
             OutputStatements 3 1
               [HLSLNodeType_IfStatement x_node x_expression
                  [HLSLNodeType_DiscardStatement x_node] []]
               None fragment_generator = Done tt g') by (vm_compute; eexists; reflexivity).
  destruct H as [g' H]. exists g'. split; [exact H |].
  exact (X16_OutputStatements_output_grown _ _ _ _ _ _ H).
Defined.

(** ** The first line of the output *)

Definition starts_with_version (g : GLSLGenerator) : Prop :=
  exists rest, m_writer g = Call_WriteLine 0 "#version 140" :: rest.

(** X17. When the tree has the entry point and [Generate], run on a new
    generator, returns, the first thing in the output is the line
    [#version 140], whatever it returns. *)
Theorem X17_Generate_version (fuel : nat) (tree : HLSLTree) (target : Target)
    (entryName : string) (result : bool) (g : GLSLGenerator) :
  GLSL_FindFunction (HLSLTree_GetRoot tree) entryName <> None ->
  Generate fuel tree target entryName GLSLGenerator_new = Done result g ->
  exists rest, GetResult g = Call_WriteLine 0 "#version 140" :: rest.
Proof.
  intros Hfound Hrun.
  eapply (Generate_from_first_line starts_with_version); try exact Hrun; try exact Hfound.
  - intros g0 call [rest Hrest]. exists (rest ++ [call]). simpl. now rewrite Hrest.
  - intros g0 message H _. exact H.
  - intros g0 b H. exact H.
  - intros g0 H. exact H.
  - exists []. reflexivity.
Qed.

(** A tree with the function [g] alone, its body empty. *)
Definition g_tree_alone : HLSLTree :=
  Build_HLSLTree ∅ [HLSLNodeType_Function x_node g_int_float []] 2.

(** X17 at the tree with [g] alone. *)
Lemma X17_Generate_version_witness :
  exists g rest,
    Generate 100 g_tree_alone Target_FragmentShader "g" GLSLGenerator_new = Done true g
    /\ GetResult g = Call_WriteLine 0 "#version 140" :: rest.
Proof.
  assert (H : exists g,
             Generate 100 g_tree_alone Target_FragmentShader "g" GLSLGenerator_new
             = Done true g)
    by (vm_compute; eexists; reflexivity).
  destruct H as [g H].
  assert (Hfound : GLSL_FindFunction (HLSLTree_GetRoot g_tree_alone) "g" <> None)
    by (vm_compute; intros Hnone; discriminate Hnone).
  destruct (X17_Generate_version _ _ _ _ _ _ Hfound H) as [rest Hrest].
  exists g, rest. split; [exact H | exact Hrest].
Defined.

(** * The elements of a matrix *)

Definition digit (z : Z) : ascii := ascii_of_N (Z.to_N (48 + z)).

(** The name of the element in row [r] and column [c], both counted from 0:
    [_mRC] counts from 0 and [_RC] from 1. *)
Definition matrix_element (zero_based : bool) (r c : Z) : string :=
  if zero_based then String "_" (String "m" (String (digit r) (String (digit c) "")))
  else String "_" (String (digit (r + 1)) (String (digit (c + 1)) "")).

Fixpoint matrix_accessor (elements : list (bool * Z * Z)) : string :=
  match elements with
  | [] => ""
  | (zero_based, r, c) :: elements' =>
      matrix_element zero_based r c +:+ matrix_accessor elements'
  end.

Definition inside (height numComponents : Z) (element : bool * Z * Z) : Prop :=
  0 <= snd (fst element) < height /\ 0 <= snd element < numComponents.

Lemma small_cases (z bound : Z) :
  0 <= z < bound -> bound <= 4 -> z = 0 \/ z = 1 \/ z = 2 \/ z = 3.
Proof. lia. Qed.

Lemma GetMemberType_matrix_inside (height numComponents : Z) (zero_based : bool) (r c : Z)
    (rest : string) (swizzleLength : Z) :
  height <= 4 -> numComponents <= 4 ->
  inside height numComponents (zero_based, r, c) ->
  GetMemberType_matrix height numComponents (matrix_element zero_based r c +:+ rest)
                       swizzleLength
  = GetMemberType_matrix height numComponents rest (swizzleLength + 1).
Proof.
  intros Hh Hn [Hr Hc]. simpl in Hr, Hc.
  assert (Hheight : height = 1 \/ height = 2 \/ height = 3 \/ height = 4) by lia.
  assert (Hcomponents : numComponents = 1 \/ numComponents = 2 \/ numComponents = 3
                        \/ numComponents = 4) by lia.
  destruct (small_cases r height Hr Hh) as [-> | [-> | [-> | ->]]];
    destruct (small_cases c numComponents Hc Hn) as [-> | [-> | [-> | ->]]];
    destruct Hheight as [-> | [-> | [-> | ->]]]; try lia;
    destruct Hcomponents as [-> | [-> | [-> | ->]]]; try lia;
    destruct zero_based; reflexivity.
Qed.

Lemma GetMemberType_matrix_accessor (height numComponents : Z)
    (elements : list (bool * Z * Z)) (swizzleLength : Z) :
  height <= 4 -> numComponents <= 4 ->
  Forall (inside height numComponents) elements ->
  GetMemberType_matrix height numComponents (matrix_accessor elements) swizzleLength
  = Some ("", swizzleLength + Z.of_nat (length elements)).
Proof.
  intros Hh Hn Hall. revert swizzleLength.
  induction Hall as [| [[zero_based r] c] elements Hin Hall IH]; intros swizzleLength.
  - simpl. do 2 f_equal. lia.
  - cbn [matrix_accessor]. rewrite GetMemberType_matrix_inside by assumption.
    rewrite IH. do 2 f_equal. cbn [length]. lia.
Qed.

(** The vector types of the numeric family of a matrix, by length. *)
Definition element_vectors (d : BaseTypeDescription) : list HLSLBaseType :=
  match numericType d with
  | NumericType_Half => halfType
  | _ => floatType
  end.

(** X18. On a matrix, an accessor made of one to four element names, each
    [_mRC] (counted from 0) or [_RC] (counted from 1) with its row and column
    inside the matrix, is accepted without any report, and the member has the
    scalar or vector type of the family of the matrix with as many components
    as the accessor has elements; with five or more such elements the
    accessor is rejected as "Invalid swizzle". *)
Theorem X18_GetMemberType_matrix (objectType memberType : HLSLType)
    (elements : list (bool * Z * Z)) (p : HLSLParser) :
  let d := _baseTypeDescriptions (baseType objectType) in
  numDimensions d = 2 ->
  Forall (inside (height d) (numComponents d)) elements ->
  elements <> [] ->
  GetMemberType objectType (matrix_accessor elements) memberType p
  = match nth_error (element_vectors d) (length elements - 1) with
    | Some b => Done (true, set_baseType b memberType) p
    | None =>
        Done (false, memberType)
             (reported ("Invalid swizzle '" +:+ matrix_accessor elements +:+ "'") p)
    end.
Proof.
  intros d Hmatrix Hinside Hsome. subst d.
  assert (Hlen : (1 <= length elements)%nat)
    by (destruct elements; [contradiction | simpl; lia]).
  unfold GetMemberType, element_vectors.
  destruct (baseType objectType); try discriminate Hmatrix;
    cbn [bool_decide decide_rel] in *;
    (rewrite bool_decide_eq_false_2 by discriminate);
    cbn [_baseTypeDescriptions numericType numDimensions height numComponents] in *;
    (rewrite bool_decide_eq_false_2 by discriminate);
    cbn [Z.leb Z.compare Pos.compare Pos.compare_cont];
    unfold bind at 1;
    (rewrite GetMemberType_matrix_accessor by (lia || assumption));
    (rewrite bool_decide_eq_true_2 by reflexivity); cbn [negb];
    unfold ret at 1; cbn [Z.add];
    remember (length elements) as n eqn:Hn; clear Hn Hinside Hsome;
    (destruct n as [| [| [| [| [| n]]]]]; [lia | reflexivity .. |]);
    match goal with
    | |- context [?a >? 4] =>
        replace (a >? 4) with true by (symmetry; apply Z.gtb_lt; lia)
    end;
    destruct n; reflexivity.
Qed.

Definition float4x4_type : HLSLType := HLSLType_of HLSLBaseType_Float4x4.

(** X18 at a float4x4: [._m00_22] is a float2, and an accessor of five
    elements is rejected. *)
Lemma X18_GetMemberType_matrix_witness :
  GetMemberType float4x4_type "_m00_22" float4x4_type empty_parser
  = Done (true, HLSLType_of HLSLBaseType_Float2) empty_parser
  /\ GetMemberType float4x4_type "_11_22_33_44_m00" float4x4_type empty_parser
     = Done (false, float4x4_type)
            (reported "Invalid swizzle '_11_22_33_44_m00'" empty_parser).
Proof.
  split.
  - apply (X18_GetMemberType_matrix float4x4_type float4x4_type
             [(true, 0, 0); (false, 1, 1)] empty_parser).
    + reflexivity.
    + repeat constructor; simpl; lia.
    + discriminate.
  - apply (X18_GetMemberType_matrix float4x4_type float4x4_type
             [(false, 0, 0); (false, 1, 1); (false, 2, 2); (false, 3, 3); (true, 0, 0)]
             empty_parser).
    + reflexivity.
    + repeat constructor; simpl; lia.
    + discriminate.
Defined.

(** * What the parser keeps *)

(** The words that [ParseArgumentList] accepts as interpolation modifiers. *)
Definition interpolation_modifiers : list string :=
  [ "linear"; "centroid"; "nointerpolation"; "noperspective"; "sample" ].

(** A property of the parser that each of its steps on the state keeps: a
    report, a string or a node added to the tree, a scope opened or closed, a
    variable, a structure or a function declared, and the statements of the
    root replaced.  The property has an index, the number of scopes that the
    function which runs has opened and not closed yet: [BeginScope] takes the
    property from [d] to [S d], and [EndScope] back. *)
Section ParserKeeps.

Variable P : nat -> HLSLParser -> Prop.

Hypothesis P_fewer : forall d p, P (S d) p -> P d p.
Hypothesis P_Error :
  forall d p message, P d p -> P d (set_tokenizer (tk_Error message (m_tokenizer p)) p).
Hypothesis P_AddString :
  forall d p s, P d p -> P d (set_tree (HLSLTree_AddString s (m_tree p)) p).
Hypothesis P_AddNode :
  forall d p, P d p ->
    P d (set_tree (Build_HLSLTree (m_stringPool (m_tree p)) (m_root (m_tree p))
                                  (N.succ (m_numNodes (m_tree p)))) p).
Hypothesis P_BeginScope :
  forall d p, P d p ->
    P (S d)
      (set_variables
         (m_variables p ++ [Build_Variable None (HLSLType_of HLSLBaseType_Unknown)]) p).
Hypothesis P_EndScope :
  forall d p kept, P (S d) p -> EndScope_loop (rev (m_variables p)) = Some kept ->
    P d (set_variables kept p).
Hypothesis P_DeclareVariable :
  forall d p name type, P d p ->
    P d (let p := if Z.of_nat (length (m_variables p)) =? m_numGlobals p
                  then set_numGlobals (m_numGlobals p + 1) p else p in
         set_variables (m_variables p ++ [Build_Variable (Some name) type]) p).
Hypothesis P_userTypes : forall d p types, P d p -> P d (set_userTypes types p).
Hypothesis P_functions :
  forall d p function, P d p -> P d (set_functions (m_functions p ++ [function]) p).
Hypothesis P_root :
  forall d p statements, P d p ->
    P d (set_tree (Build_HLSLTree (m_stringPool (m_tree p)) statements
                                  (m_numNodes (m_tree p))) p).

(** From a state with [P d], [m] ends in a state with [P d'], if it ends. *)
Definition pkeeps {A : Type} (d d' : nat) (m : Parser A) : Prop :=
  forall p, P d p -> match m p with Done _ p' => P d' p' | _ => True end.

Lemma pkeeps_ret {A : Type} (d : nat) (a : A) : pkeeps d d (ret a).
Proof. intros p Hp. exact Hp. Qed.

(** A return with scopes left open, as after an error. *)
Lemma pkeeps_ret_fewer {A : Type} (d d' : nat) (a : A) :
  (d' <= d)%nat -> pkeeps d d' (ret a).
Proof.
  intros Hle p Hp. simpl. induction Hle as [| d Hle IH]; [exact Hp |].
  apply IH. apply P_fewer. exact Hp.
Qed.

Lemma pkeeps_bind {A B : Type} (d d1 d' : nat) (m : Parser A) (k : A -> Parser B) :
  pkeeps d d1 m -> (forall a, pkeeps d1 d' (k a)) -> pkeeps d d' (bind m k).
Proof.
  intros Hm Hk p Hp. unfold bind. specialize (Hm p Hp).
  destruct (m p) as [a p' | |]; [exact (Hk a p' Hm) | exact I | exact I].
Qed.

Lemma pkeeps_get (d : nat) : pkeeps d d get.
Proof. intros p Hp. exact Hp. Qed.

Lemma pkeeps_crash {A : Type} (d d' : nat) : pkeeps d d' (@crash HLSLParser A).
Proof. intros p Hp. exact I. Qed.

Lemma pkeeps_out_of_fuel {A : Type} (d d' : nat) : pkeeps d d' (@out_of_fuel HLSLParser A).
Proof. intros p Hp. exact I. Qed.

Lemma pkeeps_deref {A : Type} (d : nat) (q : option A) : pkeeps d d (deref q).
Proof. destruct q; [apply pkeeps_ret | apply pkeeps_crash]. Qed.

Lemma pkeeps_ASSERT (d : nat) (condition : bool) : pkeeps d d (ASSERT condition).
Proof. destruct condition; [apply pkeeps_ret | apply pkeeps_crash]. Qed.

Lemma pkeeps_Error (d : nat) (message : string) : pkeeps d d (Error message).
Proof. intros p Hp. exact (P_Error d p message Hp). Qed.

Lemma pkeeps_GetToken (d : nat) : pkeeps d d GetToken.
Proof. intros p Hp. exact Hp. Qed.

Lemma pkeeps_AddString (d : nat) (s : string) : pkeeps d d (AddString s).
Proof. intros p Hp. exact (P_AddString d p s Hp). Qed.

Lemma pkeeps_AddNode (d : nat) (fileName : option string) (line : Z) :
  pkeeps d d (AddNode fileName line).
Proof. intros p Hp. exact (P_AddNode d p Hp). Qed.

Lemma pkeeps_GetLineNumber (d : nat) : pkeeps d d GetLineNumber.
Proof. intros p Hp. exact Hp. Qed.

Lemma pkeeps_GetFileName (d : nat) : pkeeps d d GetFileName.
Proof. intros p Hp. exact (P_AddString d p _ Hp). Qed.

Lemma pkeeps_BeginScope (d : nat) : pkeeps d (S d) BeginScope.
Proof. intros p Hp. exact (P_BeginScope d p Hp). Qed.

Lemma pkeeps_EndScope (d : nat) : pkeeps (S d) d EndScope.
Proof.
  intros p Hp. unfold EndScope, bind, get, deref.
  destruct (EndScope_loop (rev (m_variables p))) as [kept |] eqn:Hkept; [| exact I].
  exact (P_EndScope d p kept Hp Hkept).
Qed.

Lemma pkeeps_DeclareVariable (d : nat) (name : string) (type : HLSLType) :
  pkeeps d d (DeclareVariable name type).
Proof. intros p Hp. exact (P_DeclareVariable d p name type Hp). Qed.

Lemma pkeeps_set_root (d : nat) (statements : list HLSLStatement) :
  pkeeps d d (set_root statements).
Proof. intros p Hp. exact (P_root d p statements Hp). Qed.

Lemma pkeeps_set_last_userType (d : nat) (structure : HLSLStruct) :
  pkeeps d d (set_last_userType structure).
Proof. intros p Hp. exact (P_userTypes d p _ Hp). Qed.

Lemma pkeeps_push_userType (d : nat) (structure : HLSLStruct) :
  pkeeps d d (modify (fun p => set_userTypes (m_userTypes p ++ [structure]) p)).
Proof. intros p Hp. exact (P_userTypes d p _ Hp). Qed.

Lemma pkeeps_push_function (d : nat) (function : HLSLFunctionDecl) :
  pkeeps d d (modify (fun p => set_functions (m_functions p ++ [function]) p)).
Proof. intros p Hp. exact (P_functions d p function Hp). Qed.

Create HintDb pkeeps.

#[local] Hint Resolve pkeeps_get pkeeps_deref pkeeps_ASSERT pkeeps_Error pkeeps_GetToken
  pkeeps_AddString pkeeps_AddNode pkeeps_GetLineNumber pkeeps_GetFileName
  pkeeps_BeginScope pkeeps_EndScope pkeeps_DeclareVariable pkeeps_set_root
  pkeeps_set_last_userType pkeeps_push_userType pkeeps_push_function : pkeeps.

#[local] Hint Extern 1 (_ <> HLSLToken_Identifier) => discriminate : pkeeps.
#[local] Hint Extern 1 (In _ interpolation_modifiers) => simpl; tauto : pkeeps.

(** A proof that a function keeps [P] follows the text of the function. *)
Ltac pkeep_step :=
  first
    [ apply pkeeps_ret | apply pkeeps_crash | apply pkeeps_out_of_fuel
    | solve [auto with pkeeps]
    | apply pkeeps_ret_fewer; lia
    | eapply pkeeps_bind; [| intros ?]
    | match goal with
      | |- pkeeps _ _ (match ?x with _ => _ end) => destruct x
      | |- pkeeps _ _ (let _ := _ in _) => cbv zeta
      end ].

Ltac pkeep := repeat pkeep_step.

(** ** From the functions that consume tokens

    What follows needs the functions that consume a token to keep [P], each
    for the tokens it is called on: [Accept] is never called on an
    identifier, and [AcceptWord] only on the interpolation modifiers. *)
Section Tokens.

Hypothesis P_Accept :
  forall d token, token <> HLSLToken_Identifier -> pkeeps d d (Accept token).
Hypothesis P_AcceptWord :
  forall d word, In word interpolation_modifiers -> pkeeps d d (AcceptWord word).
Hypothesis P_AcceptIdentifier :
  forall d identifier, pkeeps d d (AcceptIdentifier identifier).
Hypothesis P_AcceptFloat : forall d, pkeeps d d AcceptFloat.
Hypothesis P_AcceptInt : forall d, pkeeps d d AcceptInt.
Hypothesis P_AcceptType :
  forall d allowVoid typeName hasConstant constant,
    pkeeps d d (AcceptType allowVoid typeName hasConstant constant).
Hypothesis P_AcceptBinaryOperator :
  forall d priority, pkeeps d d (AcceptBinaryOperator priority).
Hypothesis P_AcceptUnaryOperator : forall d pre, pkeeps d d (AcceptUnaryOperator pre).

#[local] Hint Resolve P_Accept P_AcceptWord P_AcceptIdentifier P_AcceptFloat P_AcceptInt
  P_AcceptType P_AcceptBinaryOperator P_AcceptUnaryOperator : pkeeps.

Lemma pkeeps_Expect (d : nat) (token : HLSLToken) :
  token <> HLSLToken_Identifier -> pkeeps d d (Expect token).
Proof. intros Htoken. unfold Expect. pkeep. Qed.

#[local] Hint Resolve pkeeps_Expect : pkeeps.

Lemma pkeeps_ExpectIdentifier (d : nat) (identifier : option string) :
  pkeeps d d (ExpectIdentifier identifier).
Proof. unfold ExpectIdentifier. pkeep. Qed.

Lemma pkeeps_CheckForUnexpectedEndOfStream (d : nat) (endToken : HLSLToken) :
  pkeeps d d (CheckForUnexpectedEndOfStream endToken).
Proof. unfold CheckForUnexpectedEndOfStream. pkeep. Qed.

Lemma pkeeps_MatchFunctionCall (d : nat) (numArguments : Z)
    (callArgument : list HLSLExpression) (name : string) :
  pkeeps d d (MatchFunctionCall numArguments callArgument name).
Proof. unfold MatchFunctionCall. pkeep. Qed.

Lemma pkeeps_GetMemberType (d : nat) (objectType : HLSLType) (fieldName : string)
    (memberType : HLSLType) :
  pkeeps d d (GetMemberType objectType fieldName memberType).
Proof. unfold GetMemberType. pkeep. Qed.

Lemma pkeeps_CheckTypeCast (d : nat) (srcType dstType : HLSLType) :
  pkeeps d d (CheckTypeCast srcType dstType).
Proof. unfold CheckTypeCast. pkeep. Qed.

#[local] Hint Resolve pkeeps_ExpectIdentifier
  pkeeps_CheckForUnexpectedEndOfStream pkeeps_MatchFunctionCall pkeeps_GetMemberType
  pkeeps_CheckTypeCast : pkeeps.

Lemma pkeeps_ExpectType (d : nat) (allowVoid : bool) (typeName : option string)
    (hasConstant constant : bool) :
  pkeeps d d (ExpectType allowVoid typeName hasConstant constant).
Proof. unfold ExpectType. pkeep. Qed.

Lemma pkeeps_AcceptAssign (d : nat) : pkeeps d d AcceptAssign.
Proof. unfold AcceptAssign. pkeep. Qed.

#[local] Hint Resolve pkeeps_ExpectType pkeeps_AcceptAssign : pkeeps.

Lemma pkeeps_ParseTerminalExpression_postfix (fuel : nat) (d : nat) (fileName : string)
    (line : Z) (expression : HLSLExpression) (done : bool) :
  pkeeps d d (ParseTerminalExpression_postfix fuel fileName line expression done).
Proof.
  revert expression done. induction fuel as [| fuel IH]; intros expression done;
    cbn [ParseTerminalExpression_postfix]; pkeep.
Qed.

Lemma pkeeps_ParseTerminalExpression_member (fuel : nat) (d : nat) (fileName : string)
    (line : Z) (expression : HLSLExpression) (done : bool) :
  pkeeps d d (ParseTerminalExpression_member fuel fileName line expression done).
Proof.
  revert expression done. induction fuel as [| fuel IH]; intros expression done;
    cbn [ParseTerminalExpression_member]; pkeep.
Qed.

#[local] Hint Resolve pkeeps_ParseTerminalExpression_postfix
  pkeeps_ParseTerminalExpression_member : pkeeps.

Lemma pkeeps_expressions (fuel : nat) :
  (forall d, pkeeps d d (ParseExpression fuel))
  /\ (forall d expression, pkeeps d d (ParseExpression_loop fuel expression))
  /\ (forall d priority, pkeeps d d (ParseBinaryExpression fuel priority))
  /\ (forall d priority fileName line needsEndParen expression,
        pkeeps d d (ParseBinaryExpression_loop fuel priority fileName line needsEndParen
                                               expression))
  /\ (forall d type typeName, pkeeps d d (ParsePartialConstructor fuel type typeName))
  /\ (forall d, pkeeps d d (ParseTerminalExpression fuel))
  /\ (forall d fileName line expression,
        pkeeps d d (ParseTerminalExpression_loop fuel fileName line expression))
  /\ (forall d fileName line expression done,
        pkeeps d d (ParseTerminalExpression_index fuel fileName line expression done))
  /\ (forall d endToken allowEmptyEnd expressions numExpressions,
        endToken <> HLSLToken_Identifier ->
        pkeeps d d (ParseExpressionList fuel endToken allowEmptyEnd expressions
                                        numExpressions)).
Proof.
  induction fuel as [| fuel (IH1 & IH2 & IH3 & IH4 & IH5 & IH6 & IH7 & IH8 & IH9)].
  - repeat split; intros; apply pkeeps_out_of_fuel.
  - repeat split; intros.
    + cbn [ParseExpression]. pkeep.
    + cbn [ParseExpression_loop]. pkeep.
    + cbn [ParseBinaryExpression]. pkeep.
    + cbn [ParseBinaryExpression_loop]. pkeep.
    + cbn [ParsePartialConstructor]. pkeep.
    + cbn [ParseTerminalExpression]. pkeep.
    + cbn [ParseTerminalExpression_loop]. pkeep.
    + cbn [ParseTerminalExpression_index]. pkeep.
    + cbn [ParseExpressionList]. pkeep.
Qed.

Lemma pkeeps_ParseExpression (fuel : nat) (d : nat) : pkeeps d d (ParseExpression fuel).
Proof. apply pkeeps_expressions. Qed.

Lemma pkeeps_ParseExpressionList (fuel : nat) (d : nat) (endToken : HLSLToken)
    (allowEmptyEnd : bool) (expressions : list HLSLExpression) (numExpressions : Z) :
  endToken <> HLSLToken_Identifier ->
  pkeeps d d (ParseExpressionList fuel endToken allowEmptyEnd expressions numExpressions).
Proof. apply pkeeps_expressions. Qed.

#[local] Hint Resolve pkeeps_ParseExpression pkeeps_ParseExpressionList : pkeeps.

Lemma pkeeps_AcceptDeclaration (fuel : nat) (d : nat) (allowUnsizedArray : bool) :
  pkeeps d d (AcceptDeclaration fuel allowUnsizedArray).
Proof. unfold AcceptDeclaration. pkeep. Qed.

#[local] Hint Resolve pkeeps_AcceptDeclaration : pkeeps.

Lemma pkeeps_ExpectDeclaration (fuel : nat) (d : nat) (allowUnsizedArray : bool) :
  pkeeps d d (ExpectDeclaration fuel allowUnsizedArray).
Proof. unfold ExpectDeclaration. pkeep. Qed.

Lemma pkeeps_ParseDeclarationAssignment (fuel : nat) (d : nat) (type : HLSLType) :
  pkeeps d d (ParseDeclarationAssignment fuel type).
Proof. unfold ParseDeclarationAssignment. pkeep. Qed.

#[local] Hint Resolve pkeeps_ExpectDeclaration pkeeps_ParseDeclarationAssignment : pkeeps.

Lemma pkeeps_ParseDeclaration (fuel : nat) (d : nat) : pkeeps d d (ParseDeclaration fuel).
Proof. unfold ParseDeclaration. pkeep. Qed.

Lemma pkeeps_ParseFieldDeclaration (fuel : nat) (d : nat) :
  pkeeps d d (ParseFieldDeclaration fuel).
Proof. unfold ParseFieldDeclaration. pkeep. Qed.

Lemma pkeeps_ParseBufferFieldDeclaration (fuel : nat) (d : nat) :
  pkeeps d d (ParseBufferFieldDeclaration fuel).
Proof. unfold ParseBufferFieldDeclaration. pkeep. Qed.

Lemma pkeeps_ParseArgumentList (fuel : nat) (d : nat) (endToken : HLSLToken)
    (fileName : string) (line : Z) (arguments : list HLSLArgument) (numArguments : Z) :
  endToken <> HLSLToken_Identifier ->
  pkeeps d d (ParseArgumentList fuel endToken fileName line arguments numArguments).
Proof.
  intros Htoken. revert arguments numArguments.
  induction fuel as [| fuel IH]; intros arguments numArguments;
    cbn [ParseArgumentList]; pkeep.
Qed.

#[local] Hint Resolve pkeeps_ParseDeclaration pkeeps_ParseFieldDeclaration
  pkeeps_ParseBufferFieldDeclaration pkeeps_ParseArgumentList : pkeeps.

Lemma pkeeps_statements (fuel : nat) :
  (forall d returnType, pkeeps d d (ParseStatement fuel returnType))
  /\ (forall d returnType, pkeeps d d (ParseStatementOrBlock fuel returnType))
  /\ (forall d returnType statements, pkeeps d d (ParseBlock fuel returnType statements)).
Proof.
  induction fuel as [| fuel (IH1 & IH2 & IH3)].
  - repeat split; intros; apply pkeeps_out_of_fuel.
  - repeat split; intros.
    + cbn [ParseStatement]. pkeep.
    + cbn [ParseStatementOrBlock]. pkeep.
    + cbn [ParseBlock]. pkeep.
Qed.

Lemma pkeeps_ParseStatement (fuel : nat) (d : nat) (returnType : HLSLType) :
  pkeeps d d (ParseStatement fuel returnType).
Proof. apply pkeeps_statements. Qed.

Lemma pkeeps_ParseStatementOrBlock (fuel : nat) (d : nat) (returnType : HLSLType) :
  pkeeps d d (ParseStatementOrBlock fuel returnType).
Proof. apply pkeeps_statements. Qed.

Lemma pkeeps_ParseBlock (fuel : nat) (d : nat) (returnType : HLSLType)
    (statements : list HLSLStatement) :
  pkeeps d d (ParseBlock fuel returnType statements).
Proof. apply pkeeps_statements. Qed.

Lemma pkeeps_ParseTopLevel_struct (fuel : nat) (d : nat) (structure : HLSLStruct) :
  pkeeps d d (ParseTopLevel_struct fuel structure).
Proof.
  revert structure. induction fuel as [| fuel IH]; intros structure;
    cbn [ParseTopLevel_struct]; pkeep.
Qed.

Lemma pkeeps_ParseTopLevel_buffer (fuel : nat) (d : nat) (buffer : HLSLBuffer) :
  pkeeps d d (ParseTopLevel_buffer fuel buffer).
Proof.
  revert buffer. induction fuel as [| fuel IH]; intros buffer;
    cbn [ParseTopLevel_buffer]; pkeep.
Qed.

Lemma pkeeps_ParseTopLevel_register (d : nat) : pkeeps d d ParseTopLevel_register.
Proof. unfold ParseTopLevel_register. pkeep. Qed.

#[local] Hint Resolve pkeeps_ParseStatement pkeeps_ParseBlock pkeeps_ParseTopLevel_struct
  pkeeps_ParseTopLevel_buffer pkeeps_ParseTopLevel_register : pkeeps.

Lemma pkeeps_ParseTopLevel (fuel : nat) (d : nat) : pkeeps d d (ParseTopLevel fuel).
Proof. unfold ParseTopLevel. pkeep. Qed.

#[local] Hint Resolve pkeeps_ParseTopLevel : pkeeps.

Lemma pkeeps_Parse (fuel : nat) (d : nat) : pkeeps d d (Parse fuel).
Proof.
  unfold Parse. induction fuel as [| fuel IH]; cbn [Parse_loop]; pkeep.
Qed.

End Tokens.

(** ** From the steps on the tokenizer

    Where [P] is kept whenever a token is consumed, whatever the token, the
    functions that consume tokens keep it. *)
Hypothesis P_Next : forall d p, P d p -> P d (set_tokenizer (tk_Next (m_tokenizer p)) p).

Lemma pkeeps_Next (d : nat) : pkeeps d d Next.
Proof. intros p Hp. exact (P_Next d p Hp). Qed.

#[local] Hint Resolve pkeeps_Next : pkeeps.

Lemma pkeeps_Accept (d : nat) (token : HLSLToken) : pkeeps d d (Accept token).
Proof. unfold Accept. pkeep. Qed.

Lemma pkeeps_AcceptWord (d : nat) (token : string) : pkeeps d d (AcceptWord token).
Proof. unfold AcceptWord. pkeep. Qed.

Lemma pkeeps_AcceptIdentifier (d : nat) (identifier : option string) :
  pkeeps d d (AcceptIdentifier identifier).
Proof. unfold AcceptIdentifier. pkeep. Qed.

Lemma pkeeps_AcceptFloat (d : nat) : pkeeps d d AcceptFloat.
Proof. unfold AcceptFloat. pkeep. Qed.

Lemma pkeeps_AcceptInt (d : nat) : pkeeps d d AcceptInt.
Proof. unfold AcceptInt. pkeep. Qed.

#[local] Hint Resolve pkeeps_Accept : pkeeps.

Lemma pkeeps_AcceptType (d : nat) (allowVoid : bool) (typeName : option string)
    (hasConstant constant : bool) :
  pkeeps d d (AcceptType allowVoid typeName hasConstant constant).
Proof. unfold AcceptType. pkeep. Qed.

Lemma pkeeps_AcceptBinaryOperator (d : nat) (priority : Z) :
  pkeeps d d (AcceptBinaryOperator priority).
Proof. unfold AcceptBinaryOperator. pkeep. Qed.

Lemma pkeeps_AcceptUnaryOperator (d : nat) (pre : bool) :
  pkeeps d d (AcceptUnaryOperator pre).
Proof. unfold AcceptUnaryOperator. pkeep. Qed.

(** The lemmas of the section before, from the steps alone. *)
Lemma pkeeps_ParseExpression_steps (fuel : nat) (d : nat) :
  pkeeps d d (ParseExpression fuel).
Proof.
  exact (pkeeps_ParseExpression (fun d token _ => pkeeps_Accept d token)
           pkeeps_AcceptIdentifier pkeeps_AcceptFloat pkeeps_AcceptInt pkeeps_AcceptType
           pkeeps_AcceptBinaryOperator pkeeps_AcceptUnaryOperator fuel d).
Qed.

Lemma pkeeps_ParseDeclaration_steps (fuel : nat) (d : nat) :
  pkeeps d d (ParseDeclaration fuel).
Proof.
  exact (pkeeps_ParseDeclaration (fun d token _ => pkeeps_Accept d token)
           pkeeps_AcceptIdentifier pkeeps_AcceptFloat pkeeps_AcceptInt pkeeps_AcceptType
           pkeeps_AcceptBinaryOperator pkeeps_AcceptUnaryOperator fuel d).
Qed.

Lemma pkeeps_ParseStatement_steps (fuel : nat) (d : nat) (returnType : HLSLType) :
  pkeeps d d (ParseStatement fuel returnType).
Proof.
  exact (pkeeps_ParseStatement (fun d token _ => pkeeps_Accept d token)
           pkeeps_AcceptIdentifier pkeeps_AcceptFloat pkeeps_AcceptInt pkeeps_AcceptType
           pkeeps_AcceptBinaryOperator pkeeps_AcceptUnaryOperator fuel d returnType).
Qed.

Lemma pkeeps_ParseStatementOrBlock_steps (fuel : nat) (d : nat) (returnType : HLSLType) :
  pkeeps d d (ParseStatementOrBlock fuel returnType).
Proof.
  exact (pkeeps_ParseStatementOrBlock (fun d token _ => pkeeps_Accept d token)
           pkeeps_AcceptIdentifier pkeeps_AcceptFloat pkeeps_AcceptInt pkeeps_AcceptType
           pkeeps_AcceptBinaryOperator pkeeps_AcceptUnaryOperator fuel d returnType).
Qed.

Lemma pkeeps_ParseTopLevel_steps (fuel : nat) (d : nat) :
  pkeeps d d (ParseTopLevel fuel).
Proof.
  exact (pkeeps_ParseTopLevel (fun d token _ => pkeeps_Accept d token)
           (fun d word _ => pkeeps_AcceptWord d word)
           pkeeps_AcceptIdentifier pkeeps_AcceptFloat pkeeps_AcceptInt pkeeps_AcceptType
           pkeeps_AcceptBinaryOperator pkeeps_AcceptUnaryOperator fuel d).
Qed.

Lemma pkeeps_Parse_steps (fuel : nat) (d : nat) :
  pkeeps d d (Parse fuel).
Proof.
  exact (pkeeps_Parse (fun d token _ => pkeeps_Accept d token)
           (fun d word _ => pkeeps_AcceptWord d word)
           pkeeps_AcceptIdentifier pkeeps_AcceptFloat pkeeps_AcceptInt pkeeps_AcceptType
           pkeeps_AcceptBinaryOperator pkeeps_AcceptUnaryOperator fuel d).
Qed.

End ParserKeeps.

(** ** Parsing only moves forward *)

(** From [p] to [p']: tokens were consumed and none put back; reports,
    strings of the pool, nodes and functions were added and none removed; the
    file is the same. *)
Definition parser_grown (p p' : HLSLParser) : Prop :=
  m_fileName (m_tokenizer p') = m_fileName (m_tokenizer p)
  /\ m_endLine (m_tokenizer p') = m_endLine (m_tokenizer p)
  /\ (exists consumed, m_stream (m_tokenizer p) = consumed ++ m_stream (m_tokenizer p'))
  /\ (exists reports,
        m_diagnostics (m_tokenizer p') = m_diagnostics (m_tokenizer p) ++ reports)
  /\ m_stringPool (m_tree p) ⊆ m_stringPool (m_tree p')
  /\ (m_numNodes (m_tree p) <= m_numNodes (m_tree p'))%N
  /\ (exists functions, m_functions p' = m_functions p ++ functions).

Lemma parser_grown_refl (p : HLSLParser) : parser_grown p p.
Proof.
  repeat split; try reflexivity; try (exists []; now rewrite ?app_nil_r).
Qed.

(** X19. Whatever it returns, [Parse] only moves forward: the tokens left
    are a suffix of the tokens it started with, the reports made before are
    still there with the new ones after them, no string leaves the pool, no
    node is given back, the functions declared before are still declared,
    and the file name and the last line are unchanged. *)
Theorem X19_Parse_grows (fuel : nat) (p p' : HLSLParser) (result : bool) :
  Parse fuel p = Done result p' -> parser_grown p p'.
Proof.
  intros Hrun.
  assert (H : pkeeps (fun _ : nat => parser_grown p) 0 0 (Parse fuel));
    [apply pkeeps_Parse_steps |
     specialize (H p (parser_grown_refl p)); rewrite Hrun in H; exact H].
  - intros d q H. exact H.
  - intros d q message (H1 & H2 & H3 & [reports H4] & H5 & H6 & H7).
    repeat split; try assumption.
    exists (reports ++ [Build_Diagnostic (m_fileName (m_tokenizer q))
                          (tk_GetLineNumber (m_tokenizer q)) message]).
    simpl. rewrite H4. now rewrite app_assoc.
  - intros d q s (H1 & H2 & H3 & H4 & H5 & H6 & H7).
    repeat split; try assumption. simpl. unfold StringPool_AddString.
    etrans; [exact H5 | apply union_subseteq_r].
  - intros d q (H1 & H2 & H3 & H4 & H5 & H6 & H7).
    repeat split; try assumption. simpl. lia.
  - intros d q (H1 & H2 & H3 & H4 & H5 & H6 & H7). repeat split; assumption.
  - intros d q kept (H1 & H2 & H3 & H4 & H5 & H6 & H7) _. repeat split; assumption.
  - intros d q name type (H1 & H2 & H3 & H4 & H5 & H6 & H7).
    cbv zeta. destruct (_ =? _); repeat split; assumption.
  - intros d q types (H1 & H2 & H3 & H4 & H5 & H6 & H7). repeat split; assumption.
  - intros d q function (H1 & H2 & H3 & H4 & H5 & H6 & [functions H7]).
    repeat split; try assumption. exists (functions ++ [function]). simpl.
    rewrite H7. now rewrite app_assoc.
  - intros d q statements (H1 & H2 & H3 & H4 & H5 & H6 & H7). repeat split; assumption.
  - intros d q (H1 & H2 & [consumed H3] & H4 & H5 & H6 & H7).
    repeat split; try assumption. simpl.
    destruct (m_stream (m_tokenizer q)) as [| l rest] eqn:Hstream.
    + exists consumed. exact H3.
    + exists (consumed ++ [l]). simpl. rewrite H3. now rewrite <- app_assoc.
Qed.

(** X19 at the program [void f() { }]. *)
Lemma X19_Parse_grows_witness :
  exists p',
    Parse 10 (parser_of [tok HLSLToken_Void 1; ident "f" 1; punct "(" 1; punct ")" 1;
                         punct "{" 1; punct "}" 1]) = Done true p'
    /\ parser_grown (parser_of [tok HLSLToken_Void 1; ident "f" 1; punct "(" 1; punct ")" 1;
                                punct "{" 1; punct "}" 1]) p'.
Proof.
  assert (H : exists p',
             Parse 10 (parser_of [tok HLSLToken_Void 1; ident "f" 1; punct "(" 1;
                                  punct ")" 1; punct "{" 1; punct "}" 1]) = Done true p')
    by (vm_compute; eexists; reflexivity).
  destruct H as [p' H]. exists p'. split; [exact H |].
  exact (X19_Parse_grows _ _ _ _ H).
Defined.

(** ** The globals among the variables *)

(** [m_numGlobals] counts entries at the bottom of [m_variables], and all of
    them are variables: none is the sentinel of a scope. *)
Definition globals_counted (p : HLSLParser) : Prop :=
  0 <= m_numGlobals p <= Z.of_nat (length (m_variables p))
  /\ Forall (fun v => var_name v <> None) (take (Z.to_nat (m_numGlobals p)) (m_variables p)).

Lemma EndScope_loop_split (variables kept : list ParserVariable) :
  EndScope_loop (rev variables) = Some kept ->
  exists sentinel locals,
    variables = kept ++ sentinel :: locals /\ var_name sentinel = None.
Proof.
  induction variables as [| v variables IH] using rev_ind; [discriminate |].
  rewrite rev_app_distr. simpl. destruct (var_name v) eqn:Hv.
  - intros H. destruct (IH H) as (sentinel & locals & -> & Hs).
    exists sentinel, (locals ++ [v]). split; [| exact Hs].
    now rewrite <- app_assoc.
  - intros H. injection H as <-. rewrite rev_involutive.
    exists v, []. split; [reflexivity | exact Hv].
Qed.

(** The sentinel that [EndScope] finds is above the globals. *)
Lemma EndScope_loop_above_globals (p : HLSLParser) (kept : list ParserVariable) :
  globals_counted p -> EndScope_loop (rev (m_variables p)) = Some kept ->
  (Z.to_nat (m_numGlobals p) <= length kept)%nat
  /\ take (Z.to_nat (m_numGlobals p)) kept
     = take (Z.to_nat (m_numGlobals p)) (m_variables p).
Proof.
  intros [Hrange Hnamed] Hkept.
  destruct (EndScope_loop_split _ _ Hkept) as (sentinel & locals & Hvars & Hs).
  rewrite Hvars in Hrange, Hnamed.
  assert (Hle : (Z.to_nat (m_numGlobals p) <= length kept)%nat).
  { destruct (le_lt_dec (Z.to_nat (m_numGlobals p)) (length kept)) as [H | H]; [exact H |].
    exfalso. rewrite Forall_forall in Hnamed. apply (Hnamed sentinel); [| exact Hs].
    apply list_elem_of_lookup. exists (length kept).
    rewrite lookup_take_lt by lia. rewrite lookup_app_r by lia.
    now rewrite Nat.sub_diag. }
  split; [exact Hle |]. rewrite Hvars. now rewrite take_app_le by exact Hle.
Qed.

Lemma globals_counted_same (p p' : HLSLParser) :
  globals_counted p -> m_numGlobals p' = m_numGlobals p ->
  m_variables p' = m_variables p -> globals_counted p'.
Proof. unfold globals_counted. intros H -> ->. exact H. Qed.

Lemma globals_counted_BeginScope (p : HLSLParser) :
  globals_counted p ->
  globals_counted
    (set_variables
       (m_variables p ++ [Build_Variable None (HLSLType_of HLSLBaseType_Unknown)]) p).
Proof.
  intros [Hrange Hnamed]. unfold globals_counted. simpl. rewrite length_app. simpl.
  split; [lia |]. rewrite take_app_le by lia. exact Hnamed.
Qed.

Lemma globals_counted_EndScope (p : HLSLParser) (kept : list ParserVariable) :
  globals_counted p -> EndScope_loop (rev (m_variables p)) = Some kept ->
  globals_counted (set_variables kept p).
Proof.
  intros Hp Hkept.
  destruct (EndScope_loop_above_globals p kept Hp Hkept) as [Hle Htake].
  destruct Hp as [Hrange Hnamed]. unfold globals_counted. simpl.
  split; [lia |]. rewrite Htake. exact Hnamed.
Qed.

Lemma globals_counted_DeclareVariable (p : HLSLParser) (name : string) (type : HLSLType) :
  globals_counted p ->
  globals_counted
    (let p := if Z.of_nat (length (m_variables p)) =? m_numGlobals p
              then set_numGlobals (m_numGlobals p + 1) p else p in
     set_variables (m_variables p ++ [Build_Variable (Some name) type]) p).
Proof.
  intros [Hrange Hnamed]. cbv zeta. unfold globals_counted.
  destruct (Z.of_nat (length (m_variables p)) =? m_numGlobals p) eqn:Hsize; simpl;
    rewrite length_app; simpl.
  - apply Z.eqb_eq in Hsize. split; [lia |].
    rewrite firstn_all2 by (rewrite length_app; simpl; lia).
    rewrite firstn_all2 in Hnamed by lia.
    apply Forall_app. split; [exact Hnamed |]. repeat constructor. discriminate.
  - apply Z.eqb_neq in Hsize. split; [lia |].
    rewrite take_app_le by lia. exact Hnamed.
Qed.

Ltac globals_step :=
  intros;
  first
    [ assumption
    | eapply globals_counted_BeginScope; eassumption
    | eapply globals_counted_EndScope; eassumption
    | eapply globals_counted_DeclareVariable; eassumption
    | eapply globals_counted_same; [eassumption | reflexivity | reflexivity] ].

(** X20. Where [m_numGlobals] counts only variables at the bottom of
    [m_variables] (it lies between 0 and the number of entries, and none of
    the entries it counts is the sentinel of a scope), [Parse],
    [ParseTopLevel] and [ParseStatement] leave, when they return, a state
    where this holds again, and [EndScope] leaves [m_numGlobals] and the
    entries it counts as they were: the scope it closes is above the
    globals. *)
Theorem X20_globals_counted (fuel : nat) (p : HLSLParser) :
  globals_counted p ->
  (forall result p', Parse fuel p = Done result p' -> globals_counted p')
  /\ (forall result p', ParseTopLevel fuel p = Done result p' -> globals_counted p')
  /\ (forall returnType result p',
        ParseStatement fuel returnType p = Done result p' -> globals_counted p')
  /\ (forall p', EndScope p = Done tt p' ->
        globals_counted p'
        /\ m_numGlobals p' = m_numGlobals p
        /\ take (Z.to_nat (m_numGlobals p)) (m_variables p')
           = take (Z.to_nat (m_numGlobals p)) (m_variables p)).
Proof.
  intros Hp. split; [| split; [| split]].
  - intros result p' Hrun.
    assert (H : pkeeps (fun _ : nat => globals_counted) 0 0 (Parse fuel))
      by (apply pkeeps_Parse_steps; globals_step).
    specialize (H p Hp). rewrite Hrun in H. exact H.
  - intros result p' Hrun.
    assert (H : pkeeps (fun _ : nat => globals_counted) 0 0 (ParseTopLevel fuel))
      by (apply pkeeps_ParseTopLevel_steps; globals_step).
    specialize (H p Hp). rewrite Hrun in H. exact H.
  - intros returnType result p' Hrun.
    assert (H : pkeeps (fun _ : nat => globals_counted) 0 0 (ParseStatement fuel returnType))
      by (apply pkeeps_ParseStatement_steps; globals_step).
    specialize (H p Hp). rewrite Hrun in H. exact H.
  - intros p' Hrun. unfold EndScope, bind, get, deref, modify in Hrun.
    destruct (EndScope_loop (rev (m_variables p))) as [kept |] eqn:Hkept;
      [| discriminate Hrun].
    injection Hrun as <-.
    split; [exact (globals_counted_EndScope p kept Hp Hkept) |].
    split; [reflexivity |].
    exact (proj2 (EndScope_loop_above_globals p kept Hp Hkept)).
Qed.

(** [float x; void f() { float y; }] *)
Definition global_and_local : list Lexeme :=
  [ tok HLSLToken_Float 1; ident "x" 1; punct ";" 1;
    tok HLSLToken_Void 2; ident "f" 2; punct "(" 2; punct ")" 2; punct "{" 2;
    tok HLSLToken_Float 2; ident "y" 2; punct ";" 2; punct "}" 2 ].

(** X20 at a program with the global [x] and the local [y], from a new
    parser: one global is counted at the end, and it is [x]; and at the
    closing of the scope of [y] in [scoped_parser], which keeps the global. *)
Lemma X20_globals_counted_witness :
  (exists p',
     Parse 20 (parser_of global_and_local) = Done true p'
     /\ globals_counted p'
     /\ m_numGlobals p' = 1
     /\ map var_name (m_variables p') = [Some "x"])
  /\ (exists p',
        EndScope scoped_parser = Done tt p'
        /\ m_numGlobals p' = 1
        /\ take 1 (m_variables p') = [x_variable]).
Proof.
  split.
  - assert (H : exists p',
               Parse 20 (parser_of global_and_local) = Done true p'
               /\ m_numGlobals p' = 1
               /\ map var_name (m_variables p') = [Some "x"])
      by (vm_compute; eexists; repeat split; reflexivity).
    destruct H as (p' & Hrun & Hnum & Hvars). exists p'.
    split; [exact Hrun |]. split; [| split; [exact Hnum | exact Hvars]].
    refine (proj1 (X20_globals_counted 20 (parser_of global_and_local) _) true p' Hrun).
    split; [vm_compute; split; discriminate | apply Forall_nil_2].
  - assert (Hscoped : globals_counted scoped_parser).
    { split; [vm_compute; split; discriminate |].
      repeat constructor. discriminate. }
    assert (Hrun : EndScope scoped_parser
                   = Done tt (set_variables [x_variable] scoped_parser)) by reflexivity.
    destruct (proj2 (proj2 (proj2 (X20_globals_counted 0 scoped_parser Hscoped))) _ Hrun)
      as (_ & Hnum & Htake).
    eexists. split; [exact Hrun |]. split; [exact Hnum | exact Htake].
Defined.

(** ** The identifiers of the source in the pool *)

(** With [p] the state of the parser on the tokens [stream]: every identifier
    among the tokens consumed so far is in the string pool, or is one of the
    interpolation modifiers, which [AcceptWord] consumes without a copy. *)
Definition interned (stream : list Lexeme) (p : HLSLParser) : Prop :=
  exists consumed,
    stream = consumed ++ m_stream (m_tokenizer p)
    /\ Forall (fun l => lex_token l = HLSLToken_Identifier ->
                 lex_identifier l ∈ m_stringPool (m_tree p)
                 \/ In (lex_identifier l) interpolation_modifiers) consumed.

Lemma interned_change (stream : list Lexeme) (p p' : HLSLParser) :
  interned stream p ->
  m_stream (m_tokenizer p') = m_stream (m_tokenizer p) ->
  m_stringPool (m_tree p) ⊆ m_stringPool (m_tree p') ->
  interned stream p'.
Proof.
  intros (consumed & Hstream & Hall) Hsame Hpool. exists consumed.
  split; [now rewrite Hsame |].
  eapply Forall_impl; [exact Hall |]. intros l Hl Hid.
  destruct (Hl Hid) as [Hin | Hword]; [left; now apply Hpool | now right].
Qed.

Lemma interned_Next (stream : list Lexeme) (p : HLSLParser) :
  interned stream p ->
  (tk_GetToken (m_tokenizer p) = HLSLToken_Identifier ->
   tk_GetIdentifier (m_tokenizer p) ∈ m_stringPool (m_tree p)
   \/ In (tk_GetIdentifier (m_tokenizer p)) interpolation_modifiers) ->
  interned stream (set_tokenizer (tk_Next (m_tokenizer p)) p).
Proof.
  intros (consumed & Hstream & Hall) Hcurrent.
  destruct p as [[fn tokens el dg] ut vars funs ng tree].
  unfold tk_GetToken, tk_GetIdentifier in Hcurrent. simpl in *.
  destruct tokens as [| l rest]; simpl.
  - exists consumed. split; assumption.
  - exists (consumed ++ [l]). split; [now rewrite <- app_assoc |].
    apply Forall_app. split; [exact Hall |]. constructor; [exact Hcurrent | constructor].
Qed.

Section Interned.

Variable stream : list Lexeme.

Lemma interned_Accept (d : nat) (token : HLSLToken) :
  token <> HLSLToken_Identifier ->
  pkeeps (fun _ : nat => interned stream) d d (Accept token).
Proof.
  intros Htoken p Hp. unfold Accept, bind, GetToken, Next, modify, ret.
  destruct (bool_decide (tk_GetToken (m_tokenizer p) = token)) eqn:Hcurrent; [| exact Hp].
  apply bool_decide_eq_true in Hcurrent.
  apply interned_Next; [exact Hp |]. intros Hid. congruence.
Qed.

Lemma interned_AcceptWord (d : nat) (word : string) :
  In word interpolation_modifiers ->
  pkeeps (fun _ : nat => interned stream) d d (AcceptWord word).
Proof.
  intros Hword p Hp. unfold AcceptWord, bind, GetToken, get, Next, modify, ret.
  destruct (bool_decide (tk_GetToken (m_tokenizer p) = HLSLToken_Identifier)
            && String_Equal word (tk_GetIdentifier (m_tokenizer p))) eqn:Hcurrent;
    [| exact Hp].
  apply andb_true_iff in Hcurrent as [_ Hequal].
  apply String.eqb_eq in Hequal.
  apply interned_Next; [exact Hp |]. intros _. right. now rewrite <- Hequal.
Qed.

Lemma interned_AddString_Next (p : HLSLParser) :
  interned stream p ->
  interned stream
    (set_tokenizer (tk_Next (m_tokenizer p))
       (set_tree (HLSLTree_AddString (tk_GetIdentifier (m_tokenizer p)) (m_tree p)) p)).
Proof.
  intros Hp.
  apply (interned_Next stream
           (set_tree (HLSLTree_AddString (tk_GetIdentifier (m_tokenizer p)) (m_tree p)) p)).
  - apply (interned_change stream p); [exact Hp | reflexivity |].
    simpl. unfold StringPool_AddString. apply union_subseteq_r.
  - intros _. left. simpl. unfold StringPool_AddString.
    apply elem_of_union_l, elem_of_singleton. reflexivity.
Qed.

Lemma interned_AcceptIdentifier (d : nat) (identifier : option string) :
  pkeeps (fun _ : nat => interned stream) d d (AcceptIdentifier identifier).
Proof.
  intros p Hp. unfold AcceptIdentifier, bind, GetToken, get, AddString, Next, modify, ret.
  destruct (bool_decide (tk_GetToken (m_tokenizer p) = HLSLToken_Identifier)); [| exact Hp].
  exact (interned_AddString_Next p Hp).
Qed.

Lemma interned_AcceptFloat (d : nat) :
  pkeeps (fun _ : nat => interned stream) d d AcceptFloat.
Proof.
  intros p Hp. unfold AcceptFloat, bind, GetToken, get, Next, modify, ret.
  destruct (bool_decide (tk_GetToken (m_tokenizer p) = HLSLToken_FloatLiteral)) eqn:Hcurrent;
    [| exact Hp].
  apply bool_decide_eq_true in Hcurrent.
  apply interned_Next; [exact Hp |]. intros Hid. congruence.
Qed.

Lemma interned_AcceptInt (d : nat) :
  pkeeps (fun _ : nat => interned stream) d d AcceptInt.
Proof.
  intros p Hp. unfold AcceptInt, bind, GetToken, get, Next, modify, ret.
  destruct (bool_decide (tk_GetToken (m_tokenizer p) = HLSLToken_IntLiteral)) eqn:Hcurrent;
    [| exact Hp].
  apply bool_decide_eq_true in Hcurrent.
  apply interned_Next; [exact Hp |]. intros Hid. congruence.
Qed.

Lemma interned_AcceptType (d : nat) (allowVoid : bool) (typeName : option string)
    (hasConstant constant : bool) :
  pkeeps (fun _ : nat => interned stream) d d
         (AcceptType allowVoid typeName hasConstant constant).
Proof.
  unfold AcceptType. apply (pkeeps_bind _ d d d).
  { destruct hasConstant; [apply interned_Accept; discriminate | apply pkeeps_ret]. }
  intros constant' p Hp. unfold bind at 1. unfold GetToken at 1. cbv zeta.
  destruct (bool_decide (AcceptType_builtin (tk_GetToken (m_tokenizer p)) = HLSLBaseType_Void))
    eqn:Hbuiltin; cbn [negb].
  - apply bool_decide_eq_true in Hbuiltin.
    assert (Hvoid : pkeeps (fun _ : nat => interned stream) d d
                      (if allowVoid then Accept HLSLToken_Void else ret false))
      by (destruct allowVoid; [apply interned_Accept; discriminate | apply pkeeps_ret]).
    unfold bind at 1. specialize (Hvoid p Hp).
    destruct ((if allowVoid then Accept HLSLToken_Void else ret false) p)
      as [isVoid p1 | |] eqn:Hrun; [| exact I | exact I].
    destruct isVoid; [exact Hvoid |].
    assert (Hsame : p1 = p).
    { destruct allowVoid; [| now injection Hrun as <-].
      unfold Accept, bind, GetToken, Next, modify, ret in Hrun.
      destruct (bool_decide (tk_GetToken (m_tokenizer p) = HLSLToken_Void));
        [discriminate Hrun | now injection Hrun as <-]. }
    subst p1.
    destruct (bool_decide (tk_GetToken (m_tokenizer p) = HLSLToken_Identifier));
      [| exact Hp].
    unfold bind, get, AddString, Next, modify, ret.
    destruct (FindUserDefinedType _ _).
    + exact (interned_AddString_Next p Hp).
    + apply (interned_change stream p); [exact Hp | reflexivity |].
      simpl. unfold StringPool_AddString. apply union_subseteq_r.
  - apply bool_decide_eq_false in Hbuiltin.
    unfold bind, Next, modify, ret.
    apply interned_Next; [exact Hp |]. intros Hid. rewrite Hid in Hbuiltin.
    exfalso. apply Hbuiltin. reflexivity.
Qed.

Lemma interned_AcceptBinaryOperator (d : nat) (priority : Z) :
  pkeeps (fun _ : nat => interned stream) d d (AcceptBinaryOperator priority).
Proof.
  intros p Hp. unfold AcceptBinaryOperator. unfold bind at 1. unfold GetToken at 1.
  cbv zeta.
  assert (Hnext : tk_GetToken (m_tokenizer p) <> HLSLToken_Identifier ->
                  interned stream (set_tokenizer (tk_Next (m_tokenizer p)) p))
    by (intros Hne; apply interned_Next; [exact Hp | intros Hid; contradiction]).
  destruct (tk_GetToken (m_tokenizer p)) eqn:Htoken;
    try exact Hp;
    repeat match goal with
           | |- context [Ascii.eqb ?a ?b] => destruct (Ascii.eqb a b)
           end;
    try exact Hp;
    unfold bind, deref, ret, crash, Next, modify; simpl;
    match goal with
    | |- context [?a >? priority] => destruct (a >? priority)
    end;
    first [exact Hp | apply Hnext; discriminate].
Qed.

Lemma interned_AcceptUnaryOperator (d : nat) (pre : bool) :
  pkeeps (fun _ : nat => interned stream) d d (AcceptUnaryOperator pre).
Proof.
  intros p Hp. unfold AcceptUnaryOperator. unfold bind at 1. unfold GetToken at 1.
  cbv zeta.
  assert (Hnext : tk_GetToken (m_tokenizer p) <> HLSLToken_Identifier ->
                  interned stream (set_tokenizer (tk_Next (m_tokenizer p)) p))
    by (intros Hne; apply interned_Next; [exact Hp | intros Hid; contradiction]).
  repeat match goal with
         | |- context [bool_decide (tk_GetToken (m_tokenizer p) = ?t)] =>
             let H := fresh "H" in
             destruct (bool_decide (tk_GetToken (m_tokenizer p) = t)) eqn:H;
             [apply bool_decide_eq_true in H |]
         end;
    destruct pre; cbn [andb];
    unfold bind, Next, modify, ret;
    first [exact Hp | apply Hnext; congruence].
Qed.

Lemma interned_ParseTopLevel (fuel : nat) :
  pkeeps (fun _ : nat => interned stream) 0 0 (ParseTopLevel fuel).
Proof.
  apply (pkeeps_ParseTopLevel (fun _ : nat => interned stream)).
  - intros d p H. exact H.
  - intros d p message H. apply (interned_change stream p); [exact H | reflexivity ..].
  - intros d p s H. apply (interned_change stream p); [exact H | reflexivity |].
    simpl. unfold StringPool_AddString. apply union_subseteq_r.
  - intros d p H. apply (interned_change stream p); [exact H | reflexivity ..].
  - intros d p H. apply (interned_change stream p); [exact H | reflexivity ..].
  - intros d p kept H _. apply (interned_change stream p); [exact H | reflexivity ..].
  - intros d p name type H. cbv zeta. destruct (_ =? _);
      (apply (interned_change stream p); [exact H | reflexivity ..]).
  - intros d p types H. apply (interned_change stream p); [exact H | reflexivity ..].
  - intros d p function H. apply (interned_change stream p); [exact H | reflexivity ..].
  - exact interned_Accept.
  - exact interned_AcceptWord.
  - exact interned_AcceptIdentifier.
  - exact interned_AcceptFloat.
  - exact interned_AcceptInt.
  - exact interned_AcceptType.
  - exact interned_AcceptBinaryOperator.
  - exact interned_AcceptUnaryOperator.
Qed.

(** The stream has no token of the end of the stream before its end. *)
Definition ends_at_its_end (tokens : list Lexeme) : Prop :=
  Forall (fun l => lex_token l <> HLSLToken_EndOfStream) tokens.

(** When [Parse] returns true it has consumed the whole stream, and every
    identifier of the stream is in the pool or is an interpolation modifier. *)
Lemma Parse_interned (fuel : nat) (p p' : HLSLParser) :
  ends_at_its_end stream -> interned stream p ->
  Parse fuel p = Done true p' ->
  interned stream p' /\ m_stream (m_tokenizer p') = [].
Proof.
  intros Hend. unfold Parse. revert p.
  induction fuel as [| fuel IH]; intros p Hp Hrun; [discriminate Hrun |].
  cbn [Parse_loop] in Hrun. unfold bind at 1 in Hrun.
  destruct (Accept HLSLToken_EndOfStream p) as [atEnd p1 | |] eqn:Haccept;
    try discriminate Hrun.
  assert (Hp1 : interned stream p1).
  { pose proof (interned_Accept 0 HLSLToken_EndOfStream ltac:(discriminate) p Hp) as H.
    rewrite Haccept in H. exact H. }
  destruct atEnd.
  - injection Hrun as <-. split; [exact Hp1 |].
    unfold Accept, bind, GetToken, Next, modify, ret in Haccept.
    destruct (bool_decide (tk_GetToken (m_tokenizer p) = HLSLToken_EndOfStream)) eqn:Hcurrent;
      [| discriminate Haccept].
    injection Haccept as <-. apply bool_decide_eq_true in Hcurrent.
    destruct Hp as (consumed & Hstream & _). simpl.
    unfold tk_GetToken in Hcurrent.
    destruct (m_stream (m_tokenizer p)) as [| l rest]; [reflexivity | exfalso].
    unfold ends_at_its_end in Hend. rewrite Forall_forall in Hend.
    apply (Hend l); [| exact Hcurrent].
    rewrite Hstream. apply elem_of_app. right. left.
  - unfold bind at 1 in Hrun.
    pose proof (interned_ParseTopLevel fuel p1 Hp1) as Htop.
    destruct (ParseTopLevel fuel p1) as [[ok statement] p2 | |]; try discriminate Hrun.
    destruct ok; cbn [negb] in Hrun; [| discriminate Hrun].
    unfold bind at 1 in Hrun. unfold get at 1 in Hrun.
    unfold bind at 1 in Hrun. unfold set_root at 1, modify in Hrun.
    apply IH in Hrun; [exact Hrun |].
    apply (interned_change stream p2); [exact Htop | reflexivity ..].
Qed.

End Interned.

(** ** The candidates of [ChooseUniqueName] and the interpolation modifiers *)

Definition is_digit (c : ascii) : bool :=
  ((48 <=? N_of_ascii c) && (N_of_ascii c <=? 57))%N.

Fixpoint ends_with_digit (s : string) : bool :=
  match s with
  | EmptyString => false
  | String c EmptyString => is_digit c
  | String _ s' => ends_with_digit s'
  end.

Lemma ends_with_digit_uint (d : Decimal.uint) :
  d <> Decimal.Nil -> ends_with_digit (NilEmpty.string_of_uint d) = true.
Proof.
  induction d as [| d IH | d IH | d IH | d IH | d IH | d IH | d IH | d IH | d IH | d IH];
    intros Hd; [contradiction | ..];
    (destruct d; [reflexivity | exact (IH ltac:(discriminate)) ..]).
Qed.

Lemma ends_with_digit_format_d (z : Z) : ends_with_digit (format_d z) = true.
Proof.
  assert (Huint : forall d, ends_with_digit (NilZero.string_of_uint d) = true).
  { intros d. destruct d; try reflexivity; apply ends_with_digit_uint; discriminate. }
  unfold format_d. destruct (Z.to_int z) as [d | d]; simpl.
  - apply Huint.
  - specialize (Huint d). destruct (NilZero.string_of_uint d); [discriminate Huint | exact Huint].
Qed.

Lemma ends_with_digit_append (base s : string) :
  s <> EmptyString -> ends_with_digit (base +:+ s) = ends_with_digit s.
Proof.
  intros Hs. induction base as [| c base IH]; [reflexivity |].
  change (String c base +:+ s) with (String c (base +:+ s)).
  cbn [ends_with_digit]. rewrite IH.
  destruct (base +:+ s) eqn:Happend; [| reflexivity].
  destruct base; [simpl in Happend; contradiction | discriminate Happend].
Qed.

Lemma substring_whole_or_full (n : nat) (s : string) :
  String.substring 0 n s = s \/ String.length (String.substring 0 n s) = n.
Proof.
  revert s. induction n as [| n IH]; intros s.
  - right. destruct s; reflexivity.
  - destruct s as [| c s]; [left; reflexivity |]. simpl.
    destruct (IH s) as [-> | ->]; [left | right]; reflexivity.
Qed.

(** A name that [ChooseUniqueName] tries is no interpolation modifier: it
    ends with a digit, or it fills the buffer. *)
Lemma unique_name_candidate_no_modifier (base : string) (dstLength i : Z) :
  16 < dstLength ->
  ~ In (unique_name_candidate base dstLength i) interpolation_modifiers.
Proof.
  intros Hlength. unfold unique_name_candidate, snprintf.
  destruct (substring_whole_or_full (Z.to_nat (dstLength - 1)) (base +:+ format_d i))
    as [-> | Hfull].
  - assert (Hdigit : ends_with_digit (base +:+ format_d i) = true).
    { rewrite ends_with_digit_append; [apply ends_with_digit_format_d |].
      intros Hempty. pose proof (ends_with_digit_format_d i) as H.
      rewrite Hempty in H. discriminate H. }
    intros Hin. simpl in Hin.
    repeat (destruct Hin as [Hin | Hin]; [rewrite <- Hin in Hdigit; discriminate Hdigit |]).
    exact Hin.
  - intros Hin. simpl in Hin.
    repeat (destruct Hin as [Hin | Hin]; [rewrite <- Hin in Hfull; simpl in Hfull; lia |]).
    exact Hin.
Qed.

(** ** Unique names and the identifiers of the source *)

(** C9, as the code has it.  On the tree that [Parse] leaves of a source:
    when [ChooseUniqueName] returns true, the name is the first of [base0]
    ... [base1023] (as printed into the buffer) that is not in the string
    pool, so it is absent from the pool, and therefore it equals no
    identifier that appears in the source; when it returns false, every one
    of the 1024 candidates is in the pool, and the name left in the buffer is
    the last candidate, which is in the pool. *)
Theorem C9_ChooseUniqueName (fileName : string) (stream : list Lexeme) (endLine : Z)
    (tree : HLSLTree) (fuel : nat) (parser : HLSLParser) (base dst : string)
    (dstLength : Z) (name : string) :
  ends_at_its_end stream ->
  Parse fuel (HLSLParser_new fileName stream endLine tree) = Done true parser ->
  16 < dstLength ->
  (ChooseUniqueName (m_tree parser) base dst dstLength = (true, name) ->
   HLSLTree_GetContainsString name (m_tree parser) = false
   /\ (forall l, l ∈ stream -> lex_token l = HLSLToken_Identifier ->
         lex_identifier l <> name)
   /\ exists i, 0 <= i < 1024
        /\ name = unique_name_candidate base dstLength i
        /\ forall j, 0 <= j < i ->
             HLSLTree_GetContainsString (unique_name_candidate base dstLength j)
                                        (m_tree parser) = true)
  /\ (ChooseUniqueName (m_tree parser) base dst dstLength = (false, name) ->
      name = unique_name_candidate base dstLength 1023
      /\ HLSLTree_GetContainsString name (m_tree parser) = true
      /\ forall j, 0 <= j < 1024 ->
           HLSLTree_GetContainsString (unique_name_candidate base dstLength j)
                                      (m_tree parser) = true).
Proof.
  intros Hend Hparse Hlength.
  destruct (ChooseUniqueName_result (m_tree parser) base dst dstLength name)
    as [Hfound Hfull].
  split; [| exact Hfull].
  intros Hrun. destruct (Hfound Hrun) as (Habsent & i & Hi & Hname & Hbelow).
  split; [exact Habsent |]. split; [| exists i; repeat split; try lia; assumption].
  assert (Hstart : interned stream (HLSLParser_new fileName stream endLine tree))
    by (exists []; split; [reflexivity | constructor]).
  destruct (Parse_interned stream fuel _ parser Hend Hstart Hparse)
    as [(consumed & Hstream & Hall) Hempty].
  rewrite Hempty, app_nil_r in Hstream. subst consumed.
  intros l Hl Hidentifier Hsame.
  rewrite Forall_forall in Hall.
  destruct (Hall l Hl Hidentifier) as [Hpool | Hmodifier].
  - unfold HLSLTree_GetContainsString, StringPool_GetContainsString in Habsent.
    apply bool_decide_eq_false in Habsent. apply Habsent. now rewrite <- Hsame.
  - apply (unique_name_candidate_no_modifier base dstLength i Hlength).
    now rewrite <- Hname, <- Hsame.
Qed.

(** [void clip0(float mod linear) { }] *)
Definition clip0_function : list Lexeme :=
  [ tok HLSLToken_Void 1; ident "clip0" 1; punct "(" 1; tok HLSLToken_Float 1;
    ident "mod" 1; ident "linear" 1; punct ")" 1; punct "{" 1; punct "}" 1 ].

(** C9 at the base [clip] and the source [void clip0(float mod linear) { }]:
    the name is [clip1]. *)
Lemma C9_ChooseUniqueName_witness :
  exists parser,
    Parse 10 (HLSLParser_new "a.hlsl" clip0_function 1 HLSLTree_new) = Done true parser
    /\ ChooseUniqueName (m_tree parser) "clip" "" 64 = (true, "clip1")
    /\ HLSLTree_GetContainsString "clip1" (m_tree parser) = false
    /\ HLSLTree_GetContainsString "clip0" (m_tree parser) = true
    /\ HLSLTree_GetContainsString "linear" (m_tree parser) = false
    /\ forall l, l ∈ clip0_function -> lex_token l = HLSLToken_Identifier ->
         lex_identifier l <> "clip1".
Proof.
  assert (H : exists parser,
             Parse 10 (HLSLParser_new "a.hlsl" clip0_function 1 HLSLTree_new)
             = Done true parser
             /\ ChooseUniqueName (m_tree parser) "clip" "" 64 = (true, "clip1")
             /\ HLSLTree_GetContainsString "clip0" (m_tree parser) = true
             /\ HLSLTree_GetContainsString "linear" (m_tree parser) = false).
  { eexists. split; [vm_compute; reflexivity |]. vm_compute. repeat split; reflexivity. }
  destruct H as (parser & Hparse & Hname & Hclip0 & Hlinear).
  assert (Hend : ends_at_its_end clip0_function)
    by (repeat constructor; discriminate).
  destruct (proj1 (C9_ChooseUniqueName "a.hlsl" clip0_function 1 HLSLTree_new 10 parser
                     "clip" "" 64 "clip1" Hend Hparse ltac:(lia)) Hname)
    as (Habsent & Hsource & _).
  exists parser. repeat split; assumption.
Defined.

(** ** The scopes that are open *)

(** The entries of [m_variables] that open a scope. *)
Definition sentinels (variables : list ParserVariable) : nat :=
  length (filter (fun v => var_name v = None) variables).

(** The variables [below] are still at the bottom of [m_variables], and at
    least [d] scopes are open above them. *)
Definition scopes_above (below : list ParserVariable) (d : nat) (p : HLSLParser) : Prop :=
  exists above, m_variables p = below ++ above /\ (d <= sentinels above)%nat.

Lemma sentinels_app (first second : list ParserVariable) :
  sentinels (first ++ second) = (sentinels first + sentinels second)%nat.
Proof. unfold sentinels. now rewrite filter_app, length_app. Qed.

(** With a scope open above [below], [EndScope] finds its sentinel there. *)
Lemma EndScope_loop_above (below above : list ParserVariable) (d : nat) :
  (S d <= sentinels above)%nat ->
  exists above',
    EndScope_loop (rev (below ++ above)) = Some (below ++ above')
    /\ (d <= sentinels above')%nat.
Proof.
  induction above as [| v above IH] using rev_ind; intros Hopen.
  - unfold sentinels in Hopen. simpl in Hopen. lia.
  - rewrite app_assoc, rev_app_distr. simpl.
    rewrite sentinels_app in Hopen. unfold sentinels at 2 in Hopen.
    rewrite filter_cons, filter_nil in Hopen.
    destruct (var_name v) as [name |] eqn:Hv.
    + destruct (decide (Some name = None)) as [Hn | _]; [discriminate Hn |].
      simpl in Hopen. apply IH. lia.
    + destruct (decide (@None string = None)) as [_ | Hn]; [| contradiction].
      simpl in Hopen. exists above. rewrite rev_involutive. split; [reflexivity | lia].
Qed.

Lemma scopes_above_fewer (below : list ParserVariable) (d : nat) (p : HLSLParser) :
  scopes_above below (S d) p -> scopes_above below d p.
Proof. intros (above & Hp & Hd). exists above. split; [exact Hp | lia]. Qed.

Lemma scopes_above_same (below : list ParserVariable) (d : nat) (p p' : HLSLParser) :
  scopes_above below d p -> m_variables p' = m_variables p -> scopes_above below d p'.
Proof. intros (above & Hp & Hd) Hsame. exists above. split; [congruence | exact Hd]. Qed.

Lemma scopes_above_BeginScope (below : list ParserVariable) (d : nat) (p : HLSLParser) :
  scopes_above below d p ->
  scopes_above below (S d)
    (set_variables
       (m_variables p ++ [Build_Variable None (HLSLType_of HLSLBaseType_Unknown)]) p).
Proof.
  intros (above & Hp & Hd). exists (above ++ [Build_Variable None (HLSLType_of HLSLBaseType_Unknown)]).
  simpl. rewrite Hp, <- app_assoc. split; [reflexivity |].
  rewrite sentinels_app. unfold sentinels at 2. simpl. lia.
Qed.

Lemma scopes_above_EndScope (below : list ParserVariable) (d : nat) (p : HLSLParser)
    (kept : list ParserVariable) :
  scopes_above below (S d) p -> EndScope_loop (rev (m_variables p)) = Some kept ->
  scopes_above below d (set_variables kept p).
Proof.
  intros (above & Hp & Hd) Hkept. rewrite Hp in Hkept.
  destruct (EndScope_loop_above below above d Hd) as (above' & Hrun & Hd').
  rewrite Hrun in Hkept. injection Hkept as <-.
  exists above'. split; [reflexivity | exact Hd'].
Qed.

Lemma scopes_above_DeclareVariable (below : list ParserVariable) (d : nat) (p : HLSLParser)
    (name : string) (type : HLSLType) :
  scopes_above below d p ->
  scopes_above below d
    (let p := if Z.of_nat (length (m_variables p)) =? m_numGlobals p
              then set_numGlobals (m_numGlobals p + 1) p else p in
     set_variables (m_variables p ++ [Build_Variable (Some name) type]) p).
Proof.
  intros (above & Hp & Hd). exists (above ++ [Build_Variable (Some name) type]).
  cbv zeta. split.
  - destruct (_ =? _); simpl; rewrite Hp, <- app_assoc; reflexivity.
  - rewrite sentinels_app. lia.
Qed.

(** Every step but the opening and the closing of a scope leaves
    [m_variables] as it is or adds a variable to it. *)
Ltac scopes_step :=
  intros;
  first
    [ eapply scopes_above_fewer; eassumption
    | eapply scopes_above_BeginScope; eassumption
    | eapply scopes_above_EndScope; eassumption
    | eapply scopes_above_DeclareVariable; eassumption
    | eapply scopes_above_same; [eassumption | reflexivity] ].

Lemma scopes_above_ParseDeclaration (below : list ParserVariable) (fuel d : nat) :
  pkeeps (scopes_above below) d d (ParseDeclaration fuel).
Proof. apply pkeeps_ParseDeclaration_steps; scopes_step. Qed.

Lemma scopes_above_ParseExpression (below : list ParserVariable) (fuel d : nat) :
  pkeeps (scopes_above below) d d (ParseExpression fuel).
Proof. apply pkeeps_ParseExpression_steps; scopes_step. Qed.

Lemma scopes_above_ParseStatementOrBlock (below : list ParserVariable) (fuel d : nat)
    (returnType : HLSLType) :
  pkeeps (scopes_above below) d d (ParseStatementOrBlock fuel returnType).
Proof. apply pkeeps_ParseStatementOrBlock_steps; scopes_step. Qed.

(** ** [for] with an empty condition, whatever the increment *)

Lemma m_variables_after_for_paren (p : HLSLParser) :
  m_variables (after_for_paren p)
  = m_variables p ++ [Build_Variable None (HLSLType_of HLSLBaseType_Unknown)].
Proof. destruct p as [[fn stream el dg] ut vars funs ng tree]. reflexivity. Qed.

Lemma m_variables_consumed (p : HLSLParser) : m_variables (consumed p) = m_variables p.
Proof. reflexivity. Qed.

Lemma m_variables_after_no_expression (p : HLSLParser) :
  m_variables (after_no_expression p) = m_variables p.
Proof. destruct p as [[fn stream el dg] ut vars funs ng tree]. reflexivity. Qed.

Lemma after_no_expression_reports (p : HLSLParser) (rest : list HLSLToken) :
  next_tokens p = HLSLToken_Char ";" :: rest ->
  map diag_message (m_diagnostics (m_tokenizer (after_no_expression p)))
  = map diag_message (m_diagnostics (m_tokenizer p))
    ++ ["Syntax error: expected identifier near ';'"].
Proof.
  destruct p as [[fn stream el dg] ut vars funs ng tree]. unfold next_tokens. simpl.
  destruct stream as [| [t1 i1 f1 z1 l1] stream]; try discriminate.
  simpl. intros H. injection H as -> _.
  unfold after_no_expression, state_after. simpl. rewrite map_app. reflexivity.
Qed.


(** [for (int i; ; ++i) ;] *)
Definition for_int_i_increment : list Lexeme :=
  [ tok HLSLToken_For 1; punct "(" 1; tok HLSLToken_Int 1; ident "i" 1; punct ";" 1;
    punct ";" 1; tok HLSLToken_PlusPlus 1; ident "i" 1; punct ")" 1; punct ";" 1 ].

